(** * LZMA2 decoder (lzma-cpp): a shallow embedding and its verified properties

    The development follows the two headers of the library:
    - [details/LzmaDecoderCore.hpp]: the range decoder and the LZMA symbol
      decoder ([DecoderCore]);
    - [Lzma2Decoder.hpp]: the LZMA2 chunk framer ([Decoder2]) and the one-call
      interface ([Lzma2Decode]).

    Conventions of the embedding.
    - [UInt32], [unsigned] and [Prob] are 32-bit: a value is a [Z] and every
      operation that can leave the range is wrapped with [u32].  [std::size_t]
      is 64-bit and wrapped with [usize].
    - A byte buffer is a [list Z]; a pointer into a buffer is an index.
    - A member function is a computation in the monad [M E S A]: it runs on
      the object [S], and ends normally ([Ok]), by a C++ exception or an early
      return ([Raise], the object as it stands at that point), or by an access
      outside an array ([Fault]).  Loops carry fuel; running out of it is the
      fault [OutOfFuel]. *)

From Stdlib Require Import ZArith List Bool Lia.
From stdpp Require Import base list.
Import ListNotations.

#[local] Open Scope Z_scope.

(** ** Machine integers *)

Definition u32 (x : Z) : Z := x mod 2 ^ 32.
Definition usize (x : Z) : Z := x mod 2 ^ 64.
Definition b2z (b : bool) : Z := if b then 1 else 0.

(** Array access by a [Z] index: [None] outside the array. *)
Definition zlookup {A} (l : list A) (i : Z) : option A :=
  if i <? 0 then None else l !! Z.to_nat i.

Definition zinsert {A} (l : list A) (i : Z) (v : A) : option (list A) :=
  match zlookup l i with
  | Some _ => Some (<[Z.to_nat i := v]> l)
  | None => None
  end.

(** ** The monad of member functions *)

Inductive exn := BadStream | invalid_argument.

Inductive fault := BufOverrun | TempBufOverrun | DicRead | DicWrite | ProbIndex | OutOfFuel.

Inductive Res (E S A : Type) : Type :=
| Ok (a : A) (s : S)
| Raise (e : E) (s : S)
| Fault (f : fault).
Arguments Ok {E S A} a s.
Arguments Raise {E S A} e s.
Arguments Fault {E S A} f.

Definition M (E S A : Type) : Type := S -> Res E S A.

Definition ret {E S A} (a : A) : M E S A := fun s => Ok a s.

Definition bind {E S A B} (m : M E S A) (k : A -> M E S B) : M E S B :=
  fun s =>
    match m s with
    | Ok a s' => k a s'
    | Raise e s' => Raise e s'
    | Fault f => Fault f
    end.

Definition get {E S} : M E S S := fun s => Ok s s.
Definition gets {E S A} (f : S -> A) : M E S A := fun s => Ok (f s) s.
Definition modify {E S} (f : S -> S) : M E S unit := fun s => Ok tt (f s).
Definition raise {E S A} (e : E) : M E S A := fun s => Raise e s.
Definition fail {E S A} (f : fault) : M E S A := fun _ => Fault f.

Declare Scope monad_scope.
Delimit Scope monad_scope with monad.
Notation "'let*' x ':=' m 'in' k" := (bind m (fun x => k))
  (at level 10, x pattern, m at level 100, k at level 200) : monad_scope.
Notation "m ';;' k" := (bind m (fun _ => k))
  (at level 100, k at level 200, right associativity) : monad_scope.
#[local] Open Scope monad_scope.

(** [do { a = body(a) } while (cond)]: the body returns the loop variables and
    whether the condition holds. *)
Fixpoint do_while {E S A} (fuel : nat) (body : A -> M E S (A * bool)) (a : A) : M E S A :=
  match fuel with
  | O => fail OutOfFuel
  | S n =>
      let* r := body a in
      if snd r then do_while n body (fst r) else ret (fst r)
  end.

(** [while (cond) { a = body(a) }]. *)
Fixpoint while {E S A} (fuel : nat) (cond : M E S bool) (body : A -> M E S A) (a : A) : M E S A :=
  match fuel with
  | O => fail OutOfFuel
  | S n =>
      let* c := cond in
      if c then let* a' := body a in while n cond body a' else ret a
  end.

(** A function body that can [return] from inside a loop: the body runs with
    the exits [Throw] and [Return], and [returning] turns [Return b] into the
    normal result [b]. *)
Inductive exit (B : Type) : Type :=
| Throw (e : exn)
| Return (b : B).
Arguments Throw {B} e.
Arguments Return {B} b.

Definition returning {S B} (m : M (exit B) S B) : M exn S B :=
  fun s =>
    match m s with
    | Ok b s' => Ok b s'
    | Raise (Return b) s' => Ok b s'
    | Raise (Throw e) s' => Raise e s'
    | Fault f => Fault f
    end.

Definition call {S A B} (m : M exn S A) : M (exit B) S A :=
  fun s =>
    match m s with
    | Ok a s' => Ok a s'
    | Raise e s' => Raise (Throw e) s'
    | Fault f => Fault f
    end.

Definition throw {S A B} (e : exn) : M (exit B) S A := raise (Throw e).
Definition return_ {S A B} (b : B) : M (exit B) S A := raise (Return b).

(** ** Public types of [LzmaDecoderCore.hpp] *)

Record DictView := { mem : list Z; size : Z; pos : Z }.

Inductive FinishMode := FinishMode_Any | FinishMode_End.

Inductive Status :=
| NotSpecified
| FinishedWithMark
| NotFinished
| NeedsMoreInput
| MaybeFinishedWithoutMark.

Record Properties := { lc : Z; lp : Z; pb : Z; dicSize : Z }.

Definition FinishMode_eqb (a b : FinishMode) : bool :=
  match a, b with
  | FinishMode_Any, FinishMode_Any | FinishMode_End, FinishMode_End => true
  | _, _ => false
  end.

Definition Status_eqb (a b : Status) : bool :=
  match a, b with
  | NotSpecified, NotSpecified | FinishedWithMark, FinishedWithMark
  | NotFinished, NotFinished | NeedsMoreInput, NeedsMoreInput
  | MaybeFinishedWithoutMark, MaybeFinishedWithoutMark => true
  | _, _ => false
  end.

(** ** Constants of [DecoderCore] *)

Definition kNumTopBits := 24.
Definition kTopValue := 2 ^ 24.
Definition kNumBitModelTotalBits := 11.
Definition kBitModelTotal := 2048.
Definition kNumMoveBits := 5.
Definition kNumPosBitsMax := 4.
Definition kNumPosStatesMax := 16.
Definition kLenNumLowBits := 3.
Definition kLenNumLowSymbols := 8.
Definition kLenNumMidBits := 3.
Definition kLenNumMidSymbols := 8.
Definition kLenNumHighBits := 8.
Definition kLenNumHighSymbols := 256.
Definition LenChoice := 0.
Definition LenChoice2 := LenChoice + 1.
Definition LenLow := LenChoice2 + 1.
Definition LenMid := LenLow + Z.shiftl kNumPosStatesMax kLenNumLowBits.
Definition LenHigh := LenMid + Z.shiftl kNumPosStatesMax kLenNumMidBits.
Definition kNumLenProbs := LenHigh + kLenNumHighSymbols.
Definition kNumStates := 12.
Definition kNumLitStates := 7.
Definition kStartPosModelIndex := 4.
Definition kEndPosModelIndex := 14.
Definition kNumFullDistances := Z.shiftl 1 (Z.shiftr kEndPosModelIndex 1).
Definition kNumPosSlotBits := 6.
Definition kNumLenToPosStates := 4.
Definition kNumAlignBits := 4.
Definition kAlignTableSize := 16.
Definition kMatchMinLen := 2.
Definition kMatchSpecLenStart :=
  kMatchMinLen + kLenNumLowSymbols + kLenNumMidSymbols + kLenNumHighSymbols.
Definition IsMatch := 0.
Definition IsRep := IsMatch + Z.shiftl kNumStates kNumPosBitsMax.
Definition IsRepG0 := IsRep + kNumStates.
Definition IsRepG1 := IsRepG0 + kNumStates.
Definition IsRepG2 := IsRepG1 + kNumStates.
Definition IsRep0Long := IsRepG2 + kNumStates.
Definition PosSlot := IsRep0Long + Z.shiftl kNumStates kNumPosBitsMax.
Definition SpecPos := PosSlot + Z.shiftl kNumLenToPosStates kNumPosSlotBits.
Definition Align := SpecPos + kNumFullDistances - kEndPosModelIndex.
Definition LenCoder := Align + kAlignTableSize.
Definition RepLenCoder := LenCoder + kNumLenProbs.
Definition Literal := RepLenCoder + kNumLenProbs.
Definition LZMA_LIT_SIZE := 768.
Definition LZMA_REQUIRED_INPUT_MAX := 20.
Definition RC_INIT_SIZE := 5.

Definition calcProbSize (lcPlusLp : Z) : Z :=
  let LZMA_BASE_SIZE := 1846 in
  usize (LZMA_BASE_SIZE + u32 (Z.shiftl LZMA_LIT_SIZE lcPlusLp)).

Inductive Dummy := DUMMY_ERROR | DUMMY_LIT | DUMMY_MATCH | DUMMY_REP.

Definition Dummy_eqb (a b : Dummy) : bool :=
  match a, b with
  | DUMMY_ERROR, DUMMY_ERROR | DUMMY_LIT, DUMMY_LIT
  | DUMMY_MATCH, DUMMY_MATCH | DUMMY_REP, DUMMY_REP => true
  | _, _ => false
  end.

(** ** The object state of [DecoderCore] *)

Record Reps := { reps_0 : Z; reps_1 : Z; reps_2 : Z; reps_3 : Z }.

Module DecoderCore.

(** [buf] is the read position in the input buffer of the running
    call; [m_probs] is the probability array the decoder points to.
    [trace] is a ghost field, no code reads it: the values of [range] right
    after each [NORMALIZE] of [DecodeReal], the latest first. *)
Record t := {
  m_dic : DictView;
  m_properties : Properties;
  m_probs : list Z;
  buf : Z;
  m_range : Z;
  m_code : Z;
  processedPos : Z;
  checkDicSize : Z;
  state : Z;
  reps : Reps;
  remainLen : Z;
  needFlush : bool;
  needInitState : bool;
  tempBufSize : Z;
  tempBuf : list Z;
  trace : list Z
}.

Definition set_m_dic (v : DictView) (d : t) : t :=
  {| m_dic := v; m_properties := m_properties d; m_probs := m_probs d; buf := buf d; m_range := m_range d; m_code := m_code d; processedPos := processedPos d; checkDicSize := checkDicSize d; state := state d; reps := reps d; remainLen := remainLen d; needFlush := needFlush d; needInitState := needInitState d; tempBufSize := tempBufSize d; tempBuf := tempBuf d; trace := trace d |}.
Definition set_m_properties (v : Properties) (d : t) : t :=
  {| m_dic := m_dic d; m_properties := v; m_probs := m_probs d; buf := buf d; m_range := m_range d; m_code := m_code d; processedPos := processedPos d; checkDicSize := checkDicSize d; state := state d; reps := reps d; remainLen := remainLen d; needFlush := needFlush d; needInitState := needInitState d; tempBufSize := tempBufSize d; tempBuf := tempBuf d; trace := trace d |}.
Definition set_m_probs (v : list Z) (d : t) : t :=
  {| m_dic := m_dic d; m_properties := m_properties d; m_probs := v; buf := buf d; m_range := m_range d; m_code := m_code d; processedPos := processedPos d; checkDicSize := checkDicSize d; state := state d; reps := reps d; remainLen := remainLen d; needFlush := needFlush d; needInitState := needInitState d; tempBufSize := tempBufSize d; tempBuf := tempBuf d; trace := trace d |}.
Definition set_buf (v : Z) (d : t) : t :=
  {| m_dic := m_dic d; m_properties := m_properties d; m_probs := m_probs d; buf := v; m_range := m_range d; m_code := m_code d; processedPos := processedPos d; checkDicSize := checkDicSize d; state := state d; reps := reps d; remainLen := remainLen d; needFlush := needFlush d; needInitState := needInitState d; tempBufSize := tempBufSize d; tempBuf := tempBuf d; trace := trace d |}.
Definition set_m_range (v : Z) (d : t) : t :=
  {| m_dic := m_dic d; m_properties := m_properties d; m_probs := m_probs d; buf := buf d; m_range := v; m_code := m_code d; processedPos := processedPos d; checkDicSize := checkDicSize d; state := state d; reps := reps d; remainLen := remainLen d; needFlush := needFlush d; needInitState := needInitState d; tempBufSize := tempBufSize d; tempBuf := tempBuf d; trace := trace d |}.
Definition set_m_code (v : Z) (d : t) : t :=
  {| m_dic := m_dic d; m_properties := m_properties d; m_probs := m_probs d; buf := buf d; m_range := m_range d; m_code := v; processedPos := processedPos d; checkDicSize := checkDicSize d; state := state d; reps := reps d; remainLen := remainLen d; needFlush := needFlush d; needInitState := needInitState d; tempBufSize := tempBufSize d; tempBuf := tempBuf d; trace := trace d |}.
Definition set_processedPos (v : Z) (d : t) : t :=
  {| m_dic := m_dic d; m_properties := m_properties d; m_probs := m_probs d; buf := buf d; m_range := m_range d; m_code := m_code d; processedPos := v; checkDicSize := checkDicSize d; state := state d; reps := reps d; remainLen := remainLen d; needFlush := needFlush d; needInitState := needInitState d; tempBufSize := tempBufSize d; tempBuf := tempBuf d; trace := trace d |}.
Definition set_checkDicSize (v : Z) (d : t) : t :=
  {| m_dic := m_dic d; m_properties := m_properties d; m_probs := m_probs d; buf := buf d; m_range := m_range d; m_code := m_code d; processedPos := processedPos d; checkDicSize := v; state := state d; reps := reps d; remainLen := remainLen d; needFlush := needFlush d; needInitState := needInitState d; tempBufSize := tempBufSize d; tempBuf := tempBuf d; trace := trace d |}.
Definition set_state (v : Z) (d : t) : t :=
  {| m_dic := m_dic d; m_properties := m_properties d; m_probs := m_probs d; buf := buf d; m_range := m_range d; m_code := m_code d; processedPos := processedPos d; checkDicSize := checkDicSize d; state := v; reps := reps d; remainLen := remainLen d; needFlush := needFlush d; needInitState := needInitState d; tempBufSize := tempBufSize d; tempBuf := tempBuf d; trace := trace d |}.
Definition set_reps (v : Reps) (d : t) : t :=
  {| m_dic := m_dic d; m_properties := m_properties d; m_probs := m_probs d; buf := buf d; m_range := m_range d; m_code := m_code d; processedPos := processedPos d; checkDicSize := checkDicSize d; state := state d; reps := v; remainLen := remainLen d; needFlush := needFlush d; needInitState := needInitState d; tempBufSize := tempBufSize d; tempBuf := tempBuf d; trace := trace d |}.
Definition set_remainLen (v : Z) (d : t) : t :=
  {| m_dic := m_dic d; m_properties := m_properties d; m_probs := m_probs d; buf := buf d; m_range := m_range d; m_code := m_code d; processedPos := processedPos d; checkDicSize := checkDicSize d; state := state d; reps := reps d; remainLen := v; needFlush := needFlush d; needInitState := needInitState d; tempBufSize := tempBufSize d; tempBuf := tempBuf d; trace := trace d |}.
Definition set_needFlush (v : bool) (d : t) : t :=
  {| m_dic := m_dic d; m_properties := m_properties d; m_probs := m_probs d; buf := buf d; m_range := m_range d; m_code := m_code d; processedPos := processedPos d; checkDicSize := checkDicSize d; state := state d; reps := reps d; remainLen := remainLen d; needFlush := v; needInitState := needInitState d; tempBufSize := tempBufSize d; tempBuf := tempBuf d; trace := trace d |}.
Definition set_needInitState (v : bool) (d : t) : t :=
  {| m_dic := m_dic d; m_properties := m_properties d; m_probs := m_probs d; buf := buf d; m_range := m_range d; m_code := m_code d; processedPos := processedPos d; checkDicSize := checkDicSize d; state := state d; reps := reps d; remainLen := remainLen d; needFlush := needFlush d; needInitState := v; tempBufSize := tempBufSize d; tempBuf := tempBuf d; trace := trace d |}.
Definition set_tempBufSize (v : Z) (d : t) : t :=
  {| m_dic := m_dic d; m_properties := m_properties d; m_probs := m_probs d; buf := buf d; m_range := m_range d; m_code := m_code d; processedPos := processedPos d; checkDicSize := checkDicSize d; state := state d; reps := reps d; remainLen := remainLen d; needFlush := needFlush d; needInitState := needInitState d; tempBufSize := v; tempBuf := tempBuf d; trace := trace d |}.
Definition set_tempBuf (v : list Z) (d : t) : t :=
  {| m_dic := m_dic d; m_properties := m_properties d; m_probs := m_probs d; buf := buf d; m_range := m_range d; m_code := m_code d; processedPos := processedPos d; checkDicSize := checkDicSize d; state := state d; reps := reps d; remainLen := remainLen d; needFlush := needFlush d; needInitState := needInitState d; tempBufSize := tempBufSize d; tempBuf := v; trace := trace d |}.
Definition set_trace (v : list Z) (d : t) : t :=
  {| m_dic := m_dic d; m_properties := m_properties d; m_probs := m_probs d; buf := buf d; m_range := m_range d; m_code := m_code d; processedPos := processedPos d; checkDicSize := checkDicSize d; state := state d; reps := reps d; remainLen := remainLen d; needFlush := needFlush d; needInitState := needInitState d; tempBufSize := tempBufSize d; tempBuf := tempBuf d; trace := v |}.

Definition set_pos (v : Z) (d : t) : t :=
  set_m_dic {| mem := mem (m_dic d); size := size (m_dic d); pos := v |} d.
Definition set_mem (v : list Z) (d : t) : t :=
  set_m_dic {| mem := v; size := size (m_dic d); pos := pos (m_dic d) |} d.

End DecoderCore.

(** The local variables of [DecoderCore::DecodeReal]; [probs] and [dic] are the
    arrays behind the pointers of the same names, written in place. *)
Module L.

Record t := {
  state : Z;
  rep0 : Z;
  rep1 : Z;
  rep2 : Z;
  rep3 : Z;
  dicPos : Z;
  processedPos : Z;
  len : Z;
  buf : Z;
  range : Z;
  code : Z;
  bound : Z;
  ttt : Z;
  probs : list Z;
  dic : list Z;
  trace : list Z
}.

Definition set_state (v : Z) (d : t) : t :=
  {| state := v; rep0 := rep0 d; rep1 := rep1 d; rep2 := rep2 d; rep3 := rep3 d; dicPos := dicPos d; processedPos := processedPos d; len := len d; buf := buf d; range := range d; code := code d; bound := bound d; ttt := ttt d; probs := probs d; dic := dic d; trace := trace d |}.
Definition set_rep0 (v : Z) (d : t) : t :=
  {| state := state d; rep0 := v; rep1 := rep1 d; rep2 := rep2 d; rep3 := rep3 d; dicPos := dicPos d; processedPos := processedPos d; len := len d; buf := buf d; range := range d; code := code d; bound := bound d; ttt := ttt d; probs := probs d; dic := dic d; trace := trace d |}.
Definition set_rep1 (v : Z) (d : t) : t :=
  {| state := state d; rep0 := rep0 d; rep1 := v; rep2 := rep2 d; rep3 := rep3 d; dicPos := dicPos d; processedPos := processedPos d; len := len d; buf := buf d; range := range d; code := code d; bound := bound d; ttt := ttt d; probs := probs d; dic := dic d; trace := trace d |}.
Definition set_rep2 (v : Z) (d : t) : t :=
  {| state := state d; rep0 := rep0 d; rep1 := rep1 d; rep2 := v; rep3 := rep3 d; dicPos := dicPos d; processedPos := processedPos d; len := len d; buf := buf d; range := range d; code := code d; bound := bound d; ttt := ttt d; probs := probs d; dic := dic d; trace := trace d |}.
Definition set_rep3 (v : Z) (d : t) : t :=
  {| state := state d; rep0 := rep0 d; rep1 := rep1 d; rep2 := rep2 d; rep3 := v; dicPos := dicPos d; processedPos := processedPos d; len := len d; buf := buf d; range := range d; code := code d; bound := bound d; ttt := ttt d; probs := probs d; dic := dic d; trace := trace d |}.
Definition set_dicPos (v : Z) (d : t) : t :=
  {| state := state d; rep0 := rep0 d; rep1 := rep1 d; rep2 := rep2 d; rep3 := rep3 d; dicPos := v; processedPos := processedPos d; len := len d; buf := buf d; range := range d; code := code d; bound := bound d; ttt := ttt d; probs := probs d; dic := dic d; trace := trace d |}.
Definition set_processedPos (v : Z) (d : t) : t :=
  {| state := state d; rep0 := rep0 d; rep1 := rep1 d; rep2 := rep2 d; rep3 := rep3 d; dicPos := dicPos d; processedPos := v; len := len d; buf := buf d; range := range d; code := code d; bound := bound d; ttt := ttt d; probs := probs d; dic := dic d; trace := trace d |}.
Definition set_len (v : Z) (d : t) : t :=
  {| state := state d; rep0 := rep0 d; rep1 := rep1 d; rep2 := rep2 d; rep3 := rep3 d; dicPos := dicPos d; processedPos := processedPos d; len := v; buf := buf d; range := range d; code := code d; bound := bound d; ttt := ttt d; probs := probs d; dic := dic d; trace := trace d |}.
Definition set_buf (v : Z) (d : t) : t :=
  {| state := state d; rep0 := rep0 d; rep1 := rep1 d; rep2 := rep2 d; rep3 := rep3 d; dicPos := dicPos d; processedPos := processedPos d; len := len d; buf := v; range := range d; code := code d; bound := bound d; ttt := ttt d; probs := probs d; dic := dic d; trace := trace d |}.
Definition set_range (v : Z) (d : t) : t :=
  {| state := state d; rep0 := rep0 d; rep1 := rep1 d; rep2 := rep2 d; rep3 := rep3 d; dicPos := dicPos d; processedPos := processedPos d; len := len d; buf := buf d; range := v; code := code d; bound := bound d; ttt := ttt d; probs := probs d; dic := dic d; trace := trace d |}.
Definition set_code (v : Z) (d : t) : t :=
  {| state := state d; rep0 := rep0 d; rep1 := rep1 d; rep2 := rep2 d; rep3 := rep3 d; dicPos := dicPos d; processedPos := processedPos d; len := len d; buf := buf d; range := range d; code := v; bound := bound d; ttt := ttt d; probs := probs d; dic := dic d; trace := trace d |}.
Definition set_bound (v : Z) (d : t) : t :=
  {| state := state d; rep0 := rep0 d; rep1 := rep1 d; rep2 := rep2 d; rep3 := rep3 d; dicPos := dicPos d; processedPos := processedPos d; len := len d; buf := buf d; range := range d; code := code d; bound := v; ttt := ttt d; probs := probs d; dic := dic d; trace := trace d |}.
Definition set_ttt (v : Z) (d : t) : t :=
  {| state := state d; rep0 := rep0 d; rep1 := rep1 d; rep2 := rep2 d; rep3 := rep3 d; dicPos := dicPos d; processedPos := processedPos d; len := len d; buf := buf d; range := range d; code := code d; bound := bound d; ttt := v; probs := probs d; dic := dic d; trace := trace d |}.
Definition set_probs (v : list Z) (d : t) : t :=
  {| state := state d; rep0 := rep0 d; rep1 := rep1 d; rep2 := rep2 d; rep3 := rep3 d; dicPos := dicPos d; processedPos := processedPos d; len := len d; buf := buf d; range := range d; code := code d; bound := bound d; ttt := ttt d; probs := v; dic := dic d; trace := trace d |}.
Definition set_dic (v : list Z) (d : t) : t :=
  {| state := state d; rep0 := rep0 d; rep1 := rep1 d; rep2 := rep2 d; rep3 := rep3 d; dicPos := dicPos d; processedPos := processedPos d; len := len d; buf := buf d; range := range d; code := code d; bound := bound d; ttt := ttt d; probs := probs d; dic := v; trace := trace d |}.
Definition set_trace (v : list Z) (d : t) : t :=
  {| state := state d; rep0 := rep0 d; rep1 := rep1 d; rep2 := rep2 d; rep3 := rep3 d; dicPos := dicPos d; processedPos := processedPos d; len := len d; buf := buf d; range := range d; code := code d; bound := bound d; ttt := ttt d; probs := probs d; dic := dic d; trace := v |}.

End L.

(** The local variables of [DecoderCore::TryDummy]. *)
Module D.

Record t := {
  range : Z;
  code : Z;
  buf : Z
}.

Definition set_range (v : Z) (d : t) : t :=
  {| range := v; code := code d; buf := buf d |}.
Definition set_code (v : Z) (d : t) : t :=
  {| range := range d; code := v; buf := buf d |}.
Definition set_buf (v : Z) (d : t) : t :=
  {| range := range d; code := code d; buf := v |}.

End D.

(** ** The range decoder inside [DecodeReal] (the lambdas and macros of lines 426-497) *)

Section RangeDecoder.

(** The buffer [buf] points into: the caller's input or [tempBuf]. *)
Variable inp : list Z.

(** The ghost [trace] takes the value of [range] at the end of the lambda. *)
Definition NORMALIZE : M exn L.t unit := fun r =>
  if L.range r <? kTopValue then
    match zlookup inp (L.buf r) with
    | Some b =>
        let range := u32 (Z.shiftl (L.range r) 8) in
        Ok tt (L.set_trace (range :: L.trace r)
              (L.set_buf (L.buf r + 1)
              (L.set_code (u32 (Z.lor (Z.shiftl (L.code r) 8) b))
              (L.set_range range r))))
    | None => Fault BufOverrun
    end
  else Ok tt (L.set_trace (L.range r :: L.trace r) r).

Definition read_prob (x : Z) : M exn L.t Z := fun r =>
  match zlookup (L.probs r) x with
  | Some p => Ok p r
  | None => Fault ProbIndex
  end.

Definition write_prob (x v : Z) : M exn L.t unit := fun r =>
  match zinsert (L.probs r) x v with
  | Some ps => Ok tt (L.set_probs ps r)
  | None => Fault ProbIndex
  end.

Definition isBit0 (x : Z) : M exn L.t bool :=
  let* t := read_prob x in
  modify (L.set_ttt t);;
  NORMALIZE;;
  modify (fun r => L.set_bound (u32 (Z.shiftr (L.range r) kNumBitModelTotalBits * L.ttt r)) r);;
  gets (fun r => L.code r <? L.bound r).

Definition UPDATE_0 (x : Z) : M exn L.t unit :=
  modify (fun r => L.set_range (L.bound r) r);;
  let* t := gets L.ttt in
  write_prob x (u32 (t + Z.shiftr (u32 (kBitModelTotal - t)) kNumMoveBits)).

Definition UPDATE_1 (x : Z) : M exn L.t unit :=
  modify (fun r => L.set_range (u32 (L.range r - L.bound r)) r);;
  modify (fun r => L.set_code (u32 (L.code r - L.bound r)) r);;
  let* t := gets L.ttt in
  write_prob x (u32 (t - Z.shiftr t kNumMoveBits)).

(** [LZMA_DECODER_DETAILS_GET_BIT2_(x, i, A0, A1)]: the new [i] and the bit;
    the caller runs [A0] or [A1] on the bit. *)
Definition GET_BIT2 (x i : Z) : M exn L.t (Z * bool) :=
  let* b0 := isBit0 x in
  if b0 then UPDATE_0 x;; ret (u32 (i + i), false)
  else UPDATE_1 x;; ret (u32 (i + i + 1), true).

Definition GET_BIT (x i : Z) : M exn L.t Z :=
  let* r := GET_BIT2 x i in ret (fst r).

Definition TREE_GET_BIT (probs i : Z) : M exn L.t Z := GET_BIT (probs + i) i.

Definition TREE_DECODE (probs limit : Z) : M exn L.t Z :=
  let* i := do_while 32 (fun i => let* i' := TREE_GET_BIT probs i in ret (i', i' <? limit)) 1 in
  ret (u32 (i - limit)).

Definition TREE_6_DECODE (probs : Z) : M exn L.t Z :=
  let* i := TREE_GET_BIT probs 1 in
  let* i := TREE_GET_BIT probs i in
  let* i := TREE_GET_BIT probs i in
  let* i := TREE_GET_BIT probs i in
  let* i := TREE_GET_BIT probs i in
  let* i := TREE_GET_BIT probs i in
  ret (u32 (i - 0x40)).

(** One fixed-probability bit (lines 669-678): the new [distance]. *)
Definition direct_bit (distance : Z) : M exn L.t Z :=
  NORMALIZE;;
  modify (fun r => L.set_range (Z.shiftr (L.range r) 1) r);;
  modify (fun r => L.set_code (u32 (L.code r - L.range r)) r);;
  let* t := gets (fun r => u32 (0 - Z.shiftr (L.code r) 31)) in
  modify (fun r => L.set_code (u32 (L.code r + Z.land (L.range r) t)) r);;
  ret (u32 (u32 (Z.shiftl distance 1) + u32 (t + 1))).

End RangeDecoder.

(** ** [DecoderCore::DecodeReal] (lines 404-778) *)

Section DecodeReal.

Variable inp : list Z.
(** The object at entry: the function copies what it needs into locals. *)
Variable this : DecoderCore.t.
Variables limit bufLimit : Z.

Definition pbMask : Z := u32 (u32 (Z.shiftl 1 (pb (DecoderCore.m_properties this))) - 1).
Definition lpMask : Z := u32 (u32 (Z.shiftl 1 (lp (DecoderCore.m_properties this))) - 1).
Definition lc_ : Z := lc (DecoderCore.m_properties this).
Definition dicBufSize : Z := size (DecoderCore.m_dic this).
Definition checkDicSize_ : Z := DecoderCore.checkDicSize this.

Definition dic_read (i : Z) : M exn L.t Z := fun r =>
  if (0 <=? i) && (i <? dicBufSize) then
    match zlookup (L.dic r) i with
    | Some b => Ok b r
    | None => Fault DicRead
    end
  else Fault DicRead.

Definition dic_write (i v : Z) : M exn L.t unit := fun r =>
  if (0 <=? i) && (i <? dicBufSize) then
    match zinsert (L.dic r) i v with
    | Some m => Ok tt (L.set_dic m r)
    | None => Fault DicWrite
    end
  else Fault DicWrite.

(** [(dicPos - rep0) + ((dicPos < rep0) ? dicBufSize : 0)] in [size_t]. *)
Definition back_pos (dicPos rep0 : Z) : Z :=
  usize (dicPos - rep0 + (if dicPos <? rep0 then dicBufSize else 0)).

(** Lines 502-538: the literal branch, after [isBit0(prob)] said 0. *)
Definition literal (prob0 : Z) : M exn L.t unit :=
  UPDATE_0 prob0;;
  let* r := get in
  let* prob :=
    if negb (checkDicSize_ =? 0) || negb (L.processedPos r =? 0) then
      let* prev := dic_read (usize ((if L.dicPos r =? 0 then dicBufSize else L.dicPos r) - 1)) in
      ret (Literal + u32 (LZMA_LIT_SIZE *
             u32 (u32 (Z.shiftl (Z.land (L.processedPos r) lpMask) lc_) + Z.shiftr prev (8 - lc_))))
    else ret Literal in
  let* symbol :=
    if L.state r <? kNumLitStates then
      modify (fun r => L.set_state (u32 (L.state r - (if L.state r <? 4 then L.state r else 3))) r);;
      do_while 8 (fun symbol =>
        let* s := GET_BIT inp (prob + symbol) symbol in ret (s, s <? 0x100)) 1
    else
      let* matchByte := dic_read (back_pos (L.dicPos r) (L.rep0 r)) in
      modify (fun r => L.set_state (u32 (L.state r - (if L.state r <? 10 then 3 else 6))) r);;
      let* res :=
        do_while 8 (fun v : Z * Z * Z =>
          let '(matchByte, offs, symbol) := v in
          let matchByte := u32 (Z.shiftl matchByte 1) in
          let bit := Z.land matchByte offs in
          let probLit := prob + offs + bit + symbol in
          let* g := GET_BIT2 inp probLit symbol in
          let offs := if snd g then Z.land offs bit else Z.land offs (u32 (Z.lnot bit)) in
          ret ((matchByte, offs, fst g), fst g <? 0x100)) (matchByte, 0x100, 1) in
      ret (snd res) in
  let* r := get in
  dic_write (L.dicPos r) (symbol mod 256);;
  modify (fun r => L.set_dicPos (usize (L.dicPos r + 1)) r);;
  modify (fun r => L.set_processedPos (u32 (L.processedPos r + 1)) r).

(** Lines 552-604: the rep branch, after [IsRep] said 1.  [true]: a short
    rep was written and the loop goes on ([continue]); [false]: [rep0] is the
    chosen distance and a length from [RepLenCoder] follows. *)
Definition rep (posState : Z) : M exn L.t bool :=
  let* r := get in
  if (checkDicSize_ =? 0) && (L.processedPos r =? 0) then raise BadStream
  else
    let prob := IsRepG0 + L.state r in
    let* b := isBit0 inp prob in
    let* short :=
      if b then
        UPDATE_0 prob;;
        let prob := IsRep0Long + Z.shiftl (L.state r) kNumPosBitsMax + posState in
        let* b := isBit0 inp prob in
        if b then
          UPDATE_0 prob;;
          let* r := get in
          let* v := dic_read (back_pos (L.dicPos r) (L.rep0 r)) in
          dic_write (L.dicPos r) v;;
          modify (fun r => L.set_dicPos (usize (L.dicPos r + 1)) r);;
          modify (fun r => L.set_processedPos (u32 (L.processedPos r + 1)) r);;
          modify (fun r => L.set_state (if L.state r <? kNumLitStates then 9 else 11) r);;
          ret true
        else UPDATE_1 prob;; ret false
      else
        UPDATE_1 prob;;
        let prob := IsRepG1 + L.state r in
        let* b := isBit0 inp prob in
        let* distance :=
          if b then UPDATE_0 prob;; gets L.rep1
          else
            UPDATE_1 prob;;
            let prob := IsRepG2 + L.state r in
            let* b := isBit0 inp prob in
            let* distance :=
              if b then UPDATE_0 prob;; gets L.rep2
              else
                UPDATE_1 prob;;
                let* d := gets L.rep3 in
                modify (fun r => L.set_rep3 (L.rep2 r) r);;
                ret d in
            modify (fun r => L.set_rep2 (L.rep1 r) r);;
            ret distance in
        modify (fun r => L.set_rep1 (L.rep0 r) r);;
        modify (L.set_rep0 distance);;
        ret false in
    if short then ret true
    else
      modify (fun r => L.set_state (if L.state r <? kNumLitStates then 8 else 11) r);;
      ret false.

(** Lines 605-636: the length, left in [len]. *)
Definition decode_len (prob posState : Z) : M exn L.t unit :=
  let probLen := prob + LenChoice in
  let* b := isBit0 inp probLen in
  let* c :=
    if b then
      UPDATE_0 probLen;;
      ret (prob + LenLow + Z.shiftl posState kLenNumLowBits, 0, Z.shiftl 1 kLenNumLowBits)
    else
      UPDATE_1 probLen;;
      let probLen := prob + LenChoice2 in
      let* b := isBit0 inp probLen in
      if b then
        UPDATE_0 probLen;;
        ret (prob + LenMid + Z.shiftl posState kLenNumMidBits, kLenNumLowSymbols,
             Z.shiftl 1 kLenNumMidBits)
      else
        UPDATE_1 probLen;;
        ret (prob + LenHigh, kLenNumLowSymbols + kLenNumMidSymbols, Z.shiftl 1 kLenNumHighBits) in
  let '(probLen, offset, limit) := c in
  let* l := TREE_DECODE inp probLen limit in
  modify (L.set_len (u32 (l + offset))).

(** Lines 640-705: the distance of a simple match.  [None] is the end
    marker ([break]), with [len] and [state] adjusted as the code does. *)
Definition decode_distance : M exn L.t (option Z) :=
  let* len := gets L.len in
  let prob := PosSlot +
    Z.shiftl (if len <? kNumLenToPosStates then len else kNumLenToPosStates - 1) kNumPosSlotBits in
  let* distance := TREE_6_DECODE inp prob in
  if kStartPosModelIndex <=? distance then
    let posSlot := distance in
    let numDirectBits := Z.shiftr distance 1 - 1 in
    let distance := Z.lor 2 (Z.land distance 1) in
    if posSlot <? kEndPosModelIndex then
      let distance := u32 (Z.shiftl distance numDirectBits) in
      let prob := SpecPos + distance - posSlot - 1 in
      let* res :=
        do_while 32 (fun v : Z * Z * Z * Z =>
          let '(mask, i, distance, numDirectBits) := v in
          let* g := GET_BIT2 inp (prob + i) i in
          let distance := if snd g then Z.lor distance mask else distance in
          let mask := u32 (Z.shiftl mask 1) in
          let numDirectBits := numDirectBits - 1 in
          ret ((mask, fst g, distance, numDirectBits), negb (numDirectBits =? 0)))
          (1, 1, distance, numDirectBits) in
      ret (Some (snd (fst res)))
    else
      let numDirectBits := numDirectBits - kNumAlignBits in
      let* res :=
        do_while 32 (fun v : Z * Z =>
          let '(distance, numDirectBits) := v in
          let* distance := direct_bit inp distance in
          let numDirectBits := numDirectBits - 1 in
          ret ((distance, numDirectBits), negb (numDirectBits =? 0)))
          (distance, numDirectBits) in
      let prob := Align in
      let distance := u32 (Z.shiftl (fst res) kNumAlignBits) in
      let i := 1 in
      let* g := GET_BIT2 inp (prob + i) i in
      let distance := if snd g then Z.lor distance 1 else distance in
      let* g := GET_BIT2 inp (prob + fst g) (fst g) in
      let distance := if snd g then Z.lor distance 2 else distance in
      let* g := GET_BIT2 inp (prob + fst g) (fst g) in
      let distance := if snd g then Z.lor distance 4 else distance in
      let* g := GET_BIT2 inp (prob + fst g) (fst g) in
      let distance := if snd g then Z.lor distance 8 else distance in
      if distance =? 0xFFFFFFFF then
        modify (fun r => L.set_len (u32 (L.len r + kMatchSpecLenStart)) r);;
        modify (fun r => L.set_state (u32 (L.state r - kNumStates)) r);;
        ret None
      else ret (Some distance)
  else ret (Some distance).

(** Lines 706-721: the new distance enters the rep queue and is checked
    against what the dictionary holds. *)
Definition check_distance (distance : Z) : M exn L.t unit :=
  modify (fun r => L.set_rep3 (L.rep2 r) r);;
  modify (fun r => L.set_rep2 (L.rep1 r) r);;
  modify (fun r => L.set_rep1 (L.rep0 r) r);;
  modify (L.set_rep0 (u32 (distance + 1)));;
  let* r := get in
  (if checkDicSize_ =? 0 then
     if L.processedPos r <=? distance then raise BadStream else ret tt
   else if checkDicSize_ <=? distance then raise BadStream
   else ret tt);;
  modify (fun r => L.set_state
    (if L.state r <? kNumStates + kNumLitStates then kNumLitStates else kNumLitStates + 3) r).

(** Lines 724-760: the copy of the match, cut at [limit]. *)
Definition copy_match : M exn L.t unit :=
  modify (fun r => L.set_len (u32 (L.len r + kMatchMinLen)) r);;
  let* r := get in
  if limit =? L.dicPos r then raise BadStream
  else
    let rem := usize (limit - L.dicPos r) in
    let curLen := if rem <? L.len r then u32 rem else L.len r in
    let pos := back_pos (L.dicPos r) (L.rep0 r) in
    modify (fun r => L.set_processedPos (u32 (L.processedPos r + curLen)) r);;
    modify (fun r => L.set_len (u32 (L.len r - curLen)) r);;
    if usize (pos + curLen) <=? dicBufSize then
      let dest := L.dicPos r in
      let src := pos - L.dicPos r in
      let lim := dest + curLen in
      modify (fun r => L.set_dicPos (usize (L.dicPos r + curLen)) r);;
      do_while (Z.to_nat curLen) (fun dest =>
        let* v := dic_read (dest + src) in
        dic_write dest v;;
        ret (dest + 1, negb (dest + 1 =? lim))) dest;;
      ret tt
    else
      do_while (Z.to_nat curLen) (fun v : Z * Z =>
        let '(pos, curLen) := v in
        let* r := get in
        let* b := dic_read pos in
        dic_write (L.dicPos r) b;;
        modify (fun r => L.set_dicPos (usize (L.dicPos r + 1)) r);;
        let pos := if usize (pos + 1) =? dicBufSize then 0 else usize (pos + 1) in
        let curLen := u32 (curLen - 1) in
        ret ((pos, curLen), negb (curLen =? 0))) (pos, curLen);;
      ret tt.

(** One pass of the [do ... while] of lines 435-763: [true] when the
    condition is evaluated next ([continue] or the end of the body), [false]
    on [break]. *)
Definition symbol : M exn L.t bool :=
  let* r := get in
  let posState := Z.land (L.processedPos r) pbMask in
  let prob := IsMatch + Z.shiftl (L.state r) kNumPosBitsMax + posState in
  let* b := isBit0 inp prob in
  if b then literal prob;; ret true
  else
    UPDATE_1 prob;;
    let prob := IsRep + L.state r in
    let* b := isBit0 inp prob in
    let* c :=
      if b then
        UPDATE_0 prob;;
        modify (fun r => L.set_state (u32 (L.state r + kNumStates)) r);;
        ret (Some LenCoder)
      else
        UPDATE_1 prob;;
        let* short := rep posState in
        if short then ret None else ret (Some RepLenCoder) in
    match c with
    | None => ret true
    | Some prob =>
        decode_len prob posState;;
        let* r := get in
        let* go :=
          if kNumStates <=? L.state r then
            let* d := decode_distance in
            match d with
            | None => ret false
            | Some distance => check_distance distance;; ret true
            end
          else ret true in
        if go then copy_match;; ret true else ret false
    end.

Definition DecodeReal_loop : M exn L.t unit :=
  do_while (S (Z.to_nat (limit - pos (DecoderCore.m_dic this)))) (fun _ : unit =>
    let* go := symbol in
    let* r := get in
    ret (tt, go && (L.dicPos r <? limit) && (L.buf r <? bufLimit))) tt;;
  NORMALIZE inp.

End DecodeReal.

(** ** The other member functions of [DecoderCore] *)

(** Lines 161-176. *)
Definition InitDicAndState (initDic initState : bool) : M exn DecoderCore.t unit :=
  modify (DecoderCore.set_needFlush true);;
  modify (DecoderCore.set_remainLen 0);;
  modify (DecoderCore.set_tempBufSize 0);;
  (if initDic then
     modify (DecoderCore.set_processedPos 0);;
     modify (DecoderCore.set_checkDicSize 0);;
     modify (DecoderCore.set_needInitState true)
   else ret tt);;
  (if initState then modify (DecoderCore.set_needInitState true) else ret tt).

(** [memcpy(dst + at, src, n)], byte by byte: [None] when it leaves [dst] or
    [src]. *)
Fixpoint memcpy (dst : list Z) (at_ : Z) (src : list Z) (n : nat) : option (list Z) :=
  match n with
  | O => Some dst
  | S k =>
      match src with
      | [] => None
      | b :: src' =>
          match zinsert dst at_ b with
          | Some dst' => memcpy dst' (at_ + 1) src' k
          | None => None
          end
      end
  end.

(** Lines 179-188; [src] is the input from the read position on. *)
Definition UpdateWithUncompressed (src : list Z) (size_ : Z) : M exn DecoderCore.t unit :=
  let* d := get in
  let dic := DecoderCore.m_dic d in
  (if (size_ <=? Z.of_nat (length src)) then ret tt else fail BufOverrun);;
  (if pos dic + size_ <=? size dic then ret tt else fail DicWrite);;
  match memcpy (mem dic) (pos dic) src (Z.to_nat size_) with
  | None => fail DicWrite
  | Some m =>
      modify (DecoderCore.set_mem m);;
      modify (DecoderCore.set_pos (usize (pos dic + size_)));;
      (if (DecoderCore.checkDicSize d =? 0) &&
          (u32 (dicSize (DecoderCore.m_properties d) - DecoderCore.processedPos d) <=? size_)
       then modify (DecoderCore.set_checkDicSize (dicSize (DecoderCore.m_properties d)))
       else ret tt);;
      modify (fun d => DecoderCore.set_processedPos (u32 (DecoderCore.processedPos d + size_)) d)
  end.

(** Lines 345-358. *)
Definition InitStateReal : M exn DecoderCore.t unit :=
  let* d := get in
  let numProbs :=
    u32 (Literal + u32 (Z.shiftl LZMA_LIT_SIZE
                          (lc (DecoderCore.m_properties d) + lp (DecoderCore.m_properties d)))) in
  if numProbs <=? Z.of_nat (length (DecoderCore.m_probs d)) then
    modify (DecoderCore.set_m_probs
              (replicate (Z.to_nat numProbs) (Z.shiftr kBitModelTotal 1)
                 ++ drop (Z.to_nat numProbs) (DecoderCore.m_probs d)));;
    modify (DecoderCore.set_reps {| reps_0 := 1; reps_1 := 1; reps_2 := 1; reps_3 := 1 |});;
    modify (DecoderCore.set_state 0);;
    modify (DecoderCore.set_needInitState false)
  else fail ProbIndex.

(** Lines 360-365: [data] is [tempBuf]. *)
Definition InitRc (data : list Z) : M exn DecoderCore.t unit :=
  match zlookup data 1, zlookup data 2, zlookup data 3, zlookup data 4 with
  | Some b1, Some b2, Some b3, Some b4 =>
      modify (DecoderCore.set_m_code
                (Z.lor (Z.lor (Z.lor (u32 (Z.shiftl b1 24)) (u32 (Z.shiftl b2 16)))
                          (u32 (Z.shiftl b3 8))) b4));;
      modify (DecoderCore.set_m_range 0xFFFFFFFF);;
      modify (DecoderCore.set_needFlush false)
  | _, _, _, _ => fail TempBufOverrun
  end.

(** [DecodeReal] as a member function: the locals are loaded from the object
    (lines 406-424), and written back at the normal end only (lines 765-775);
    the probabilities and the dictionary are written in place, so they keep
    what was written before a [throw]. *)
Definition load_locals (this : DecoderCore.t) : L.t :=
  {| L.state := DecoderCore.state this;
     L.rep0 := reps_0 (DecoderCore.reps this);
     L.rep1 := reps_1 (DecoderCore.reps this);
     L.rep2 := reps_2 (DecoderCore.reps this);
     L.rep3 := reps_3 (DecoderCore.reps this);
     L.dicPos := pos (DecoderCore.m_dic this);
     L.processedPos := DecoderCore.processedPos this;
     L.len := 0;
     L.buf := DecoderCore.buf this;
     L.range := DecoderCore.m_range this;
     L.code := DecoderCore.m_code this;
     L.bound := 0;
     L.ttt := 0;
     L.probs := DecoderCore.m_probs this;
     L.dic := mem (DecoderCore.m_dic this);
     L.trace := DecoderCore.trace this |}.

Definition store_locals (r : L.t) (this : DecoderCore.t) : DecoderCore.t :=
  {| DecoderCore.m_dic :=
       {| mem := L.dic r; size := size (DecoderCore.m_dic this); pos := L.dicPos r |};
     DecoderCore.m_properties := DecoderCore.m_properties this;
     DecoderCore.m_probs := L.probs r;
     DecoderCore.buf := L.buf r;
     DecoderCore.m_range := L.range r;
     DecoderCore.m_code := L.code r;
     DecoderCore.processedPos := L.processedPos r;
     DecoderCore.checkDicSize := DecoderCore.checkDicSize this;
     DecoderCore.state := L.state r;
     DecoderCore.reps :=
       {| reps_0 := L.rep0 r; reps_1 := L.rep1 r; reps_2 := L.rep2 r; reps_3 := L.rep3 r |};
     DecoderCore.remainLen := L.len r;
     DecoderCore.needFlush := DecoderCore.needFlush this;
     DecoderCore.needInitState := DecoderCore.needInitState this;
     DecoderCore.tempBufSize := DecoderCore.tempBufSize this;
     DecoderCore.tempBuf := DecoderCore.tempBuf this;
     DecoderCore.trace := L.trace r |}.

(** What a [throw] inside [DecodeReal] leaves in the object: the arrays as
    written so far (and the ghost trace). *)
Definition store_arrays (r : L.t) (this : DecoderCore.t) : DecoderCore.t :=
  DecoderCore.set_trace (L.trace r)
    (DecoderCore.set_mem (L.dic r) (DecoderCore.set_m_probs (L.probs r) this)).

Definition DecodeReal (inp : list Z) (limit bufLimit : Z) : M exn DecoderCore.t unit :=
  fun this =>
    match DecodeReal_loop inp this limit bufLimit (load_locals this) with
    | Ok _ r => Ok tt (store_locals r this)
    | Raise e r => Raise e (store_arrays r this)
    | Fault f => Fault f
    end.

(** The [while (len-- != 0)] of lines 798-802, on the locals [dic] and [dicPos]. *)
Fixpoint WriteRem_loop (len : nat) (rep0 dicBufSize_ : Z) (dic : list Z) (dicPos : Z)
  : fault + (list Z * Z) :=
  match len with
  | O => inr (dic, dicPos)
  | S n =>
      let i := usize (dicPos - rep0 + (if dicPos <? rep0 then dicBufSize_ else 0)) in
      if (0 <=? i) && (i <? dicBufSize_) then
        match zlookup dic i with
        | None => inl DicRead
        | Some b =>
            if (0 <=? dicPos) && (dicPos <? dicBufSize_) then
              match zinsert dic dicPos b with
              | None => inl DicWrite
              | Some dic' => WriteRem_loop n rep0 dicBufSize_ dic' (usize (dicPos + 1))
              end
            else inl DicWrite
        end
      else inl DicRead
  end.

(** Lines 780-806. *)
Definition WriteRem (limit : Z) : M exn DecoderCore.t unit :=
  let* d := get in
  if negb (DecoderCore.remainLen d =? 0) && (DecoderCore.remainLen d <? kMatchSpecLenStart) then
    let dic := mem (DecoderCore.m_dic d) in
    let dicPos := pos (DecoderCore.m_dic d) in
    let dicBufSize_ := size (DecoderCore.m_dic d) in
    let len := DecoderCore.remainLen d in
    let rep0 := reps_0 (DecoderCore.reps d) in
    let len := if usize (limit - dicPos) <? len then u32 (usize (limit - dicPos)) else len in
    (if (DecoderCore.checkDicSize d =? 0) &&
        (u32 (dicSize (DecoderCore.m_properties d) - DecoderCore.processedPos d) <=? len)
     then modify (DecoderCore.set_checkDicSize (dicSize (DecoderCore.m_properties d)))
     else ret tt);;
    modify (fun d => DecoderCore.set_processedPos (u32 (DecoderCore.processedPos d + len)) d);;
    modify (fun d => DecoderCore.set_remainLen (u32 (DecoderCore.remainLen d - len)) d);;
    match WriteRem_loop (Z.to_nat len) rep0 dicBufSize_ dic dicPos with
    | inl f => fail f
    | inr (dic', dicPos') =>
        modify (DecoderCore.set_mem dic');;
        modify (DecoderCore.set_pos dicPos')
    end
  else ret tt.

(** Lines 367-390. *)
Definition DecodeReal2 (inp : list Z) (limit bufLimit : Z) : M exn DecoderCore.t unit :=
  let* d0 := get in
  do_while (S (Z.to_nat (limit - pos (DecoderCore.m_dic d0)))) (fun _ : unit =>
    let* d := get in
    let limit2 :=
      if DecoderCore.checkDicSize d =? 0 then
        let rem := u32 (dicSize (DecoderCore.m_properties d) - DecoderCore.processedPos d) in
        if rem <? usize (limit - pos (DecoderCore.m_dic d))
        then usize (pos (DecoderCore.m_dic d) + rem) else limit
      else limit in
    DecodeReal inp limit2 bufLimit;;
    let* d := get in
    (if dicSize (DecoderCore.m_properties d) <=? DecoderCore.processedPos d
     then modify (DecoderCore.set_checkDicSize (dicSize (DecoderCore.m_properties d)))
     else ret tt);;
    WriteRem limit;;
    let* d := get in
    ret (tt, (pos (DecoderCore.m_dic d) <? limit) && (DecoderCore.buf d <? bufLimit)
               && (DecoderCore.remainLen d <? kMatchSpecLenStart))) tt;;
  let* d := get in
  if kMatchSpecLenStart <? DecoderCore.remainLen d
  then modify (DecoderCore.set_remainLen kMatchSpecLenStart)
  else ret tt.

(** ** [DecoderCore::TryDummy] (lines 816-1063) *)

Section TryDummy.

Variable this : DecoderCore.t.
(** [buf[0 .. inSize)]. *)
Variable inp : list Z.

(** [false] of the lambda is the early [return DUMMY_ERROR] of its callers. *)
Definition NORMALIZE_CHECK : M Dummy D.t unit := fun r =>
  if D.range r <? kTopValue then
    match zlookup inp (D.buf r) with
    | None => Raise DUMMY_ERROR r
    | Some b =>
        Ok tt (D.set_buf (D.buf r + 1)
              (D.set_code (u32 (Z.lor (Z.shiftl (D.code r) 8) b))
              (D.set_range (u32 (Z.shiftl (D.range r) 8)) r)))
    end
  else Ok tt r.

(** [bound] and whether [code < bound]. *)
Definition bit0Check (x : Z) : M Dummy D.t (Z * bool) := fun r =>
  match zlookup (DecoderCore.m_probs this) x with
  | Some ttt =>
      let bound := u32 (Z.shiftr (D.range r) kNumBitModelTotalBits * ttt) in
      Ok (bound, D.code r <? bound) r
  | None => Fault ProbIndex
  end.

Definition UPDATE_0_CHECK (bound : Z) : M Dummy D.t unit :=
  modify (D.set_range bound).

Definition UPDATE_1_CHECK (bound : Z) : M Dummy D.t unit :=
  modify (fun r => D.set_range (u32 (D.range r - bound)) r);;
  modify (fun r => D.set_code (u32 (D.code r - bound)) r).

Definition GET_BIT2_CHECK (x i : Z) : M Dummy D.t (Z * bool) :=
  let* c := bit0Check x in
  if snd c then UPDATE_0_CHECK (fst c);; ret (u32 (i + i), false)
  else UPDATE_1_CHECK (fst c);; ret (u32 (i + i + 1), true).

Definition GET_BIT_CHECK (x i : Z) : M Dummy D.t Z :=
  let* r := GET_BIT2_CHECK x i in ret (fst r).

Definition TREE_DECODE_CHECK (probs limit : Z) : M Dummy D.t Z :=
  let* i := do_while 32 (fun i =>
              NORMALIZE_CHECK;;
              let* i' := GET_BIT_CHECK (probs + i) i in
              ret (i', i' <? limit)) 1 in
  ret (u32 (i - limit)).

Definition this_dic_read (i : Z) : M Dummy D.t Z := fun r =>
  let dic := DecoderCore.m_dic this in
  if (0 <=? i) && (i <? size dic) then
    match zlookup (mem dic) i with
    | Some b => Ok b r
    | None => Fault DicRead
    end
  else Fault DicRead.

(** Lines 869-907. *)
Definition TryDummy_literal : M Dummy D.t unit :=
  let props := DecoderCore.m_properties this in
  let dic := DecoderCore.m_dic this in
  let state := DecoderCore.state this in
  let* prob :=
    if negb (DecoderCore.checkDicSize this =? 0) || negb (DecoderCore.processedPos this =? 0) then
      let* prev := this_dic_read (usize ((if pos dic =? 0 then size dic else pos dic) - 1)) in
      ret (Literal + u32 (LZMA_LIT_SIZE *
             u32 (u32 (Z.shiftl (Z.land (DecoderCore.processedPos this)
                                        (u32 (Z.shiftl 1 (lp props) - 1))) (lc props))
                  + Z.shiftr prev (8 - lc props))))
    else ret Literal in
  if state <? kNumLitStates then
    do_while 8 (fun symbol =>
      NORMALIZE_CHECK;;
      let* s := GET_BIT_CHECK (prob + symbol) symbol in
      ret (s, s <? 0x100)) 1;;
    ret tt
  else
    let rep0 := reps_0 (DecoderCore.reps this) in
    let* matchByte :=
      this_dic_read (usize (pos dic - rep0 + (if pos dic <? rep0 then size dic else 0))) in
    do_while 8 (fun v : Z * Z * Z =>
      let '(matchByte, offs, symbol) := v in
      let matchByte := u32 (Z.shiftl matchByte 1) in
      let bit := Z.land matchByte offs in
      let probLit := prob + offs + bit + symbol in
      NORMALIZE_CHECK;;
      let* g := GET_BIT2_CHECK probLit symbol in
      let offs := if snd g then Z.land offs bit else Z.land offs (u32 (Z.lnot bit)) in
      ret ((matchByte, offs, fst g), fst g <? 0x100)) (matchByte, 0x100, 1);;
    ret tt.

(** Lines 974-1007: the length. *)
Definition TryDummy_len (prob posState : Z) : M Dummy D.t Z :=
  let probLen := prob + LenChoice in
  NORMALIZE_CHECK;;
  let* c := bit0Check probLen in
  let* v :=
    if snd c then
      UPDATE_0_CHECK (fst c);;
      ret (prob + LenLow + Z.shiftl posState kLenNumLowBits, 0, Z.shiftl 1 kLenNumLowBits)
    else
      UPDATE_1_CHECK (fst c);;
      let probLen := prob + LenChoice2 in
      NORMALIZE_CHECK;;
      let* c := bit0Check probLen in
      if snd c then
        UPDATE_0_CHECK (fst c);;
        ret (prob + LenMid + Z.shiftl posState kLenNumMidBits, kLenNumLowSymbols,
             Z.shiftl 1 kLenNumMidBits)
      else
        UPDATE_1_CHECK (fst c);;
        ret (prob + LenHigh, kLenNumLowSymbols + kLenNumMidSymbols, Z.shiftl 1 kLenNumHighBits) in
  let '(probLen, offset, limit) := v in
  let* l := TREE_DECODE_CHECK probLen limit in
  ret (u32 (l + offset)).

(** Lines 1009-1052: the distance bits of a simple match. *)
Definition TryDummy_distance (len : Z) : M Dummy D.t unit :=
  let prob := PosSlot +
    Z.shiftl (if len <? kNumLenToPosStates then len else kNumLenToPosStates - 1) kNumPosSlotBits in
  let* posSlot := TREE_DECODE_CHECK prob (Z.shiftl 1 kNumPosSlotBits) in
  if kStartPosModelIndex <=? posSlot then
    let numDirectBits := Z.shiftr posSlot 1 - 1 in
    let* v :=
      if posSlot <? kEndPosModelIndex then
        ret (SpecPos + u32 (Z.shiftl (Z.lor 2 (Z.land posSlot 1)) numDirectBits) - posSlot - 1,
             numDirectBits)
      else
        let numDirectBits := numDirectBits - kNumAlignBits in
        do_while 32 (fun numDirectBits =>
          NORMALIZE_CHECK;;
          modify (fun r => D.set_range (Z.shiftr (D.range r) 1) r);;
          modify (fun r => D.set_code
            (u32 (D.code r - Z.land (D.range r)
                                (u32 (Z.shiftr (u32 (D.code r - D.range r)) 31 - 1)))) r);;
          let numDirectBits := numDirectBits - 1 in
          ret (numDirectBits, negb (numDirectBits =? 0))) numDirectBits;;
        ret (Align, kNumAlignBits) in
    let '(prob, numDirectBits) := v in
    do_while 32 (fun v : Z * Z =>
      let '(i, numDirectBits) := v in
      NORMALIZE_CHECK;;
      let* i := GET_BIT_CHECK (prob + i) i in
      let numDirectBits := numDirectBits - 1 in
      ret ((i, numDirectBits), negb (numDirectBits =? 0))) (1, numDirectBits);;
    ret tt
  else ret tt.

(** The block of lines 839-1054, up to the last [NORMALIZE_CHECK]. *)
Definition TryDummy_body : M Dummy D.t Dummy :=
  let props := DecoderCore.m_properties this in
  let state := DecoderCore.state this in
  let posState := Z.land (DecoderCore.processedPos this) (u32 (Z.shiftl 1 (pb props) - 1)) in
  let prob := IsMatch + Z.shiftl state kNumPosBitsMax + posState in
  NORMALIZE_CHECK;;
  let* c := bit0Check prob in
  if snd c then
    UPDATE_0_CHECK (fst c);;
    TryDummy_literal;;
    ret DUMMY_LIT
  else
    UPDATE_1_CHECK (fst c);;
    let prob := IsRep + state in
    NORMALIZE_CHECK;;
    let* c := bit0Check prob in
    let* v :=
      if snd c then
        UPDATE_0_CHECK (fst c);;
        ret (0, LenCoder, DUMMY_MATCH)
      else
        UPDATE_1_CHECK (fst c);;
        let prob := IsRepG0 + state in
        NORMALIZE_CHECK;;
        let* c := bit0Check prob in
        (if snd c then
           UPDATE_0_CHECK (fst c);;
           let prob := IsRep0Long + Z.shiftl state kNumPosBitsMax + posState in
           NORMALIZE_CHECK;;
           let* c := bit0Check prob in
           if snd c then
             UPDATE_0_CHECK (fst c);;
             NORMALIZE_CHECK;;
             raise DUMMY_REP
           else UPDATE_1_CHECK (fst c)
         else
           UPDATE_1_CHECK (fst c);;
           let prob := IsRepG1 + state in
           NORMALIZE_CHECK;;
           let* c := bit0Check prob in
           if snd c then UPDATE_0_CHECK (fst c)
           else
             UPDATE_1_CHECK (fst c);;
             let prob := IsRepG2 + state in
             NORMALIZE_CHECK;;
             let* c := bit0Check prob in
             if snd c then UPDATE_0_CHECK (fst c) else UPDATE_1_CHECK (fst c));;
        ret (kNumStates, RepLenCoder, DUMMY_REP) in
    let '(state, prob, res) := v in
    let* len := TryDummy_len prob posState in
    (if state <? 4 then TryDummy_distance len else ret tt);;
    ret res.

Definition TryDummy_run : Res Dummy D.t Dummy :=
  (let* res := TryDummy_body in NORMALIZE_CHECK;; ret res)
    {| D.range := DecoderCore.m_range this; D.code := DecoderCore.m_code this; D.buf := 0 |}.

End TryDummy.

Definition TryDummy (inp : list Z) : M exn DecoderCore.t Dummy := fun this =>
  match TryDummy_run this inp with
  | Ok res _ => Ok res this
  | Raise res _ => Ok res this
  | Fault f => Fault f
  end.

(** ** [DecoderCore::DecodeToDic] (lines 205-338) *)

(** The two copy loops into [tempBuf] (lines 218-219 and 300-301): bytes of
    [srcBytes] go to [tempBuf[rem]] while [rem < cap]; the result is
    [tempBuf], [rem], the rest of [srcBytes] and the count of bytes taken. *)
Fixpoint fill_tempBuf (cap : Z) (srcBytes tempBuf_ : list Z) (rem n : Z)
  : option (list Z * Z * list Z * Z) :=
  match srcBytes with
  | [] => Some (tempBuf_, rem, srcBytes, n)
  | b :: rest =>
      if rem <? cap then
        match zinsert tempBuf_ rem b with
        | Some tb => fill_tempBuf cap rest tb (u32 (rem + 1)) (n + 1)
        | None => None
        end
      else Some (tempBuf_, rem, srcBytes, n)
  end.

Section DecodeToDic.

Variable dicLimit : Z.
Variable finishMode : FinishMode.

Let R : Type := (Z * Status)%type.

(** Lines 216-232. *)
Definition DecodeToDic_flush (srcBytes : list Z) (srcLen : Z)
  : M (exit R) DecoderCore.t (list Z * Z) :=
  let* d := get in
  match fill_tempBuf RC_INIT_SIZE srcBytes (DecoderCore.tempBuf d) (DecoderCore.tempBufSize d) 0 with
  | None => fail TempBufOverrun
  | Some (tb, rem, srcBytes, n) =>
      modify (DecoderCore.set_tempBuf tb);;
      modify (DecoderCore.set_tempBufSize rem);;
      let srcLen := srcLen + n in
      if rem <? RC_INIT_SIZE then return_ (srcLen, NeedsMoreInput)
      else
        match zlookup tb 0 with
        | None => fail TempBufOverrun
        | Some b0 =>
            if negb (b0 =? 0) then throw BadStream
            else
              call (InitRc tb);;
              modify (DecoderCore.set_tempBufSize 0);;
              ret (srcBytes, srcLen)
        end
  end.

(** Lines 234-253: [checkEndMarkNow]. *)
Definition DecodeToDic_atLimit (srcLen : Z) : M (exit R) DecoderCore.t bool :=
  let* d := get in
  if dicLimit <=? pos (DecoderCore.m_dic d) then
    if (DecoderCore.remainLen d =? 0) && (DecoderCore.m_code d =? 0)
    then return_ (srcLen, MaybeFinishedWithoutMark)
    else if FinishMode_eqb finishMode FinishMode_Any then return_ (srcLen, NotFinished)
    else if negb (DecoderCore.remainLen d =? 0) then throw BadStream
    else ret true
  else ret false.

(** Lines 258-295: the symbols are read from the caller's input. *)
Definition DecodeToDic_direct (checkEndMarkNow : bool) (srcBytes : list Z) (srcLen : Z)
  : M (exit R) DecoderCore.t (list Z * Z) :=
  let inSize := Z.of_nat (length srcBytes) in
  let* bufLimit :=
    if (inSize <? LZMA_REQUIRED_INPUT_MAX) || checkEndMarkNow then
      let* dummyRes := call (TryDummy srcBytes) in
      if Dummy_eqb dummyRes DUMMY_ERROR then
        let* d := get in
        match memcpy (DecoderCore.tempBuf d) 0 srcBytes (length srcBytes) with
        | None => fail TempBufOverrun
        | Some tb =>
            modify (DecoderCore.set_tempBuf tb);;
            modify (DecoderCore.set_tempBufSize (u32 inSize));;
            return_ (srcLen + inSize, NeedsMoreInput)
        end
      else if checkEndMarkNow && negb (Dummy_eqb dummyRes DUMMY_MATCH) then throw BadStream
      else ret 0
    else ret (inSize - LZMA_REQUIRED_INPUT_MAX) in
  modify (DecoderCore.set_buf 0);;
  call (DecodeReal2 srcBytes dicLimit bufLimit);;
  let* d := get in
  let processed := DecoderCore.buf d in
  ret (drop (Z.to_nat processed) srcBytes, srcLen + processed).

(** Lines 296-330: a symbol that was cut by the end of the input of an
    earlier call is completed in [tempBuf]. *)
Definition DecodeToDic_temp (checkEndMarkNow : bool) (srcBytes : list Z) (srcLen : Z)
  : M (exit R) DecoderCore.t (list Z * Z) :=
  let* d := get in
  match fill_tempBuf LZMA_REQUIRED_INPUT_MAX srcBytes (DecoderCore.tempBuf d)
          (DecoderCore.tempBufSize d) 0 with
  | None => fail TempBufOverrun
  | Some (tb, rem, _, lookAhead) =>
      modify (DecoderCore.set_tempBuf tb);;
      modify (DecoderCore.set_tempBufSize rem);;
      (if (rem <? LZMA_REQUIRED_INPUT_MAX) || checkEndMarkNow then
         let* dummyRes := call (TryDummy (take (Z.to_nat rem) tb)) in
         if Dummy_eqb dummyRes DUMMY_ERROR then return_ (srcLen + lookAhead, NeedsMoreInput)
         else if checkEndMarkNow && negb (Dummy_eqb dummyRes DUMMY_MATCH) then throw BadStream
         else ret tt
       else ret tt);;
      modify (DecoderCore.set_buf 0);;
      call (DecodeReal2 tb dicLimit 0);;
      let* d := get in
      let lookAhead := u32 (lookAhead - u32 (rem - u32 (DecoderCore.buf d))) in
      if lookAhead <=? Z.of_nat (length srcBytes) then
        modify (DecoderCore.set_tempBufSize 0);;
        ret (drop (Z.to_nat lookAhead) srcBytes, srcLen + lookAhead)
      else fail BufOverrun
  end.

(** The body of the [while] of line 214; the loop variables are the input
    from the read position on ([srcBytes], of length [inSize]) and [srcLen]. *)
Definition DecodeToDic_body (v : list Z * Z) : M (exit R) DecoderCore.t (list Z * Z) :=
  let '(srcBytes, srcLen) := v in
  let* d := get in
  let* v := if DecoderCore.needFlush d then DecodeToDic_flush srcBytes srcLen
            else ret (srcBytes, srcLen) in
  let '(srcBytes, srcLen) := v in
  let* checkEndMarkNow := DecodeToDic_atLimit srcLen in
  let* d := get in
  (if DecoderCore.needInitState d then call InitStateReal else ret tt);;
  let* d := get in
  if DecoderCore.tempBufSize d =? 0
  then DecodeToDic_direct checkEndMarkNow srcBytes srcLen
  else DecodeToDic_temp checkEndMarkNow srcBytes srcLen.

(** The result is [srcLen] and [status] at the return. *)
(** The condition of the [while] of line 214. *)
Definition DecodeToDic_running : M (exit R) DecoderCore.t bool :=
  gets (fun d => negb (DecoderCore.remainLen d =? kMatchSpecLenStart)).

Definition DecoderCore_DecodeToDic (src : list Z) : M exn DecoderCore.t (Z * Status) :=
  returning (
    call (WriteRem dicLimit);;
    let* d0 := get in
    let* v := while (Z.to_nat (dicLimit - pos (DecoderCore.m_dic d0)) + 3)
                DecodeToDic_running DecodeToDic_body (src, 0) in
    let* d := get in
    if DecoderCore.m_code d =? 0 then ret (snd v, FinishedWithMark)
    else throw BadStream).

End DecodeToDic.

(** ** [Lzma2Decoder.hpp]: the LZMA2 framer *)

Definition CONTROL_LZMA := Z.shiftl 1 7.
Definition CONTROL_COPY_NO_RESET := 2.
Definition CONTROL_COPY_RESET_DIC := 1.
Definition CONTROL_EOF := 0.

Inductive ELzma2State :=
| LZMA2_STATE_CONTROL
| LZMA2_STATE_UNPACK0
| LZMA2_STATE_UNPACK1
| LZMA2_STATE_PACK0
| LZMA2_STATE_PACK1
| LZMA2_STATE_PROP
| LZMA2_STATE_DATA
| LZMA2_STATE_DATA_CONT
| LZMA2_STATE_FINISHED
| LZMA2_STATE_ERROR.

Definition ELzma2State_eqb (a b : ELzma2State) : bool :=
  match a, b with
  | LZMA2_STATE_CONTROL, LZMA2_STATE_CONTROL | LZMA2_STATE_UNPACK0, LZMA2_STATE_UNPACK0
  | LZMA2_STATE_UNPACK1, LZMA2_STATE_UNPACK1 | LZMA2_STATE_PACK0, LZMA2_STATE_PACK0
  | LZMA2_STATE_PACK1, LZMA2_STATE_PACK1 | LZMA2_STATE_PROP, LZMA2_STATE_PROP
  | LZMA2_STATE_DATA, LZMA2_STATE_DATA | LZMA2_STATE_DATA_CONT, LZMA2_STATE_DATA_CONT
  | LZMA2_STATE_FINISHED, LZMA2_STATE_FINISHED | LZMA2_STATE_ERROR, LZMA2_STATE_ERROR => true
  | _, _ => false
  end.

Definition isThereProp (mode : Z) : bool := 2 <=? mode.
Definition LC_PLUS_LP_MAX := 4.

(** [2ul] is 64-bit and the result is converted to [unsigned]. *)
Definition dicSizeFromProp (prop : Z) : Z :=
  u32 (usize (Z.shiftl (Z.lor 2 (Z.land prop 1)) (prop / 2 + 11))).

Module Decoder2.

(** [m_probsArr] owns the array [decoder.m_probs] points to: the array is
    [DecoderCore.m_probs] of [decoder]. *)
Record t := {
  decoder : DecoderCore.t;
  packSize : Z;
  unpackSize : Z;
  state : ELzma2State;
  control : Z;
  needInitDic : bool;
  needInitState : bool;
  needInitProp : bool
}.

Definition set_decoder (v : DecoderCore.t) (d : t) : t :=
  {| decoder := v; packSize := packSize d; unpackSize := unpackSize d; state := state d; control := control d; needInitDic := needInitDic d; needInitState := needInitState d; needInitProp := needInitProp d |}.
Definition set_packSize (v : Z) (d : t) : t :=
  {| decoder := decoder d; packSize := v; unpackSize := unpackSize d; state := state d; control := control d; needInitDic := needInitDic d; needInitState := needInitState d; needInitProp := needInitProp d |}.
Definition set_unpackSize (v : Z) (d : t) : t :=
  {| decoder := decoder d; packSize := packSize d; unpackSize := v; state := state d; control := control d; needInitDic := needInitDic d; needInitState := needInitState d; needInitProp := needInitProp d |}.
Definition set_state (v : ELzma2State) (d : t) : t :=
  {| decoder := decoder d; packSize := packSize d; unpackSize := unpackSize d; state := v; control := control d; needInitDic := needInitDic d; needInitState := needInitState d; needInitProp := needInitProp d |}.
Definition set_control (v : Z) (d : t) : t :=
  {| decoder := decoder d; packSize := packSize d; unpackSize := unpackSize d; state := state d; control := v; needInitDic := needInitDic d; needInitState := needInitState d; needInitProp := needInitProp d |}.
Definition set_needInitDic (v : bool) (d : t) : t :=
  {| decoder := decoder d; packSize := packSize d; unpackSize := unpackSize d; state := state d; control := control d; needInitDic := v; needInitState := needInitState d; needInitProp := needInitProp d |}.
Definition set_needInitState (v : bool) (d : t) : t :=
  {| decoder := decoder d; packSize := packSize d; unpackSize := unpackSize d; state := state d; control := control d; needInitDic := needInitDic d; needInitState := v; needInitProp := needInitProp d |}.
Definition set_needInitProp (v : bool) (d : t) : t :=
  {| decoder := decoder d; packSize := packSize d; unpackSize := unpackSize d; state := state d; control := control d; needInitDic := needInitDic d; needInitState := needInitState d; needInitProp := v |}.

End Decoder2.

(** A call of a member function of the member [decoder]. *)
Definition on_decoder {E A} (m : M E DecoderCore.t A) : M E Decoder2.t A := fun s =>
  match m (Decoder2.decoder s) with
  | Ok a c => Ok a (Decoder2.set_decoder c s)
  | Raise e c => Raise e (Decoder2.set_decoder c s)
  | Fault f => Fault f
  end.

Definition isUncompressedState (d : Decoder2.t) : bool :=
  Z.land (Decoder2.control d) CONTROL_LZMA =? 0.

Definition getLzmaMode (d : Decoder2.t) : Z :=
  Z.land (Z.shiftr (Decoder2.control d) 5) 3.

(** [Decoder2::Reset] (lines 86-95). *)
Definition Reset : M exn Decoder2.t unit :=
  modify (Decoder2.set_state LZMA2_STATE_CONTROL);;
  modify (Decoder2.set_needInitDic true);;
  modify (Decoder2.set_needInitState true);;
  modify (Decoder2.set_needInitProp true);;
  on_decoder (modify (DecoderCore.set_pos 0));;
  on_decoder (InitDicAndState true true).

(** What [new Prob[n]] returns: [n] entries of indeterminate content. *)
Definition new_array (junk : nat -> Z) (n : Z) : list Z := map junk (seq 0 (Z.to_nat n)).

(** The constructor (lines 70-84), run on the storage of the object, whose
    content before the constructor is indeterminate. *)
Definition Decoder2_new (junk : nat -> Z) (prop : Z) : M exn Decoder2.t unit :=
  if 40 <? prop then raise invalid_argument
  else
    on_decoder (modify (fun c => DecoderCore.set_m_properties
      {| lc := LC_PLUS_LP_MAX; lp := 0; pb := 0;
         dicSize := if prop =? 40 then 0xFFFFFFFF else dicSizeFromProp prop |} c));;
    on_decoder (modify (DecoderCore.set_m_probs (new_array junk (calcProbSize LC_PLUS_LP_MAX))));;
    Reset.

(** [Decoder2::UpdateState] (lines 262-325): the fields it writes and the
    state it returns. *)
Definition UpdateState (b : Z) : M exn Decoder2.t ELzma2State :=
  let* d := get in
  match Decoder2.state d with
  | LZMA2_STATE_CONTROL =>
      modify (Decoder2.set_control b);;
      let* d := get in
      if Decoder2.control d =? 0 then ret LZMA2_STATE_FINISHED
      else if isUncompressedState d then
        if 2 <? Z.land (Decoder2.control d) 0x7F then ret LZMA2_STATE_ERROR
        else modify (Decoder2.set_unpackSize 0);; ret LZMA2_STATE_UNPACK0
      else
        modify (Decoder2.set_unpackSize (u32 (Z.shiftl (u32 (Z.land (Decoder2.control d) 0x1F)) 16)));;
        ret LZMA2_STATE_UNPACK0
  | LZMA2_STATE_UNPACK0 =>
      modify (fun d => Decoder2.set_unpackSize (Z.lor (Decoder2.unpackSize d) (u32 (Z.shiftl b 8))) d);;
      ret LZMA2_STATE_UNPACK1
  | LZMA2_STATE_UNPACK1 =>
      modify (fun d => Decoder2.set_unpackSize (Z.lor (Decoder2.unpackSize d) b) d);;
      modify (fun d => Decoder2.set_unpackSize (usize (Decoder2.unpackSize d + 1)) d);;
      let* d := get in
      ret (if isUncompressedState d then LZMA2_STATE_DATA else LZMA2_STATE_PACK0)
  | LZMA2_STATE_PACK0 =>
      modify (Decoder2.set_packSize (u32 (Z.shiftl b 8)));;
      ret LZMA2_STATE_PACK1
  | LZMA2_STATE_PACK1 =>
      modify (fun d => Decoder2.set_packSize (Z.lor (Decoder2.packSize d) b) d);;
      modify (fun d => Decoder2.set_packSize (usize (Decoder2.packSize d + 1)) d);;
      let* d := get in
      ret (if isThereProp (getLzmaMode d) then LZMA2_STATE_PROP
           else if Decoder2.needInitProp d then LZMA2_STATE_ERROR else LZMA2_STATE_DATA)
  | LZMA2_STATE_PROP =>
      if 9 * 5 * 5 <=? b then ret LZMA2_STATE_ERROR
      else
        let lc_ := b mod 9 in
        let b := b / 9 in
        on_decoder (modify (fun c => DecoderCore.set_m_properties
          {| lc := lc (DecoderCore.m_properties c); lp := lp (DecoderCore.m_properties c);
             pb := b / 5; dicSize := dicSize (DecoderCore.m_properties c) |} c));;
        let lp_ := b mod 5 in
        if LC_PLUS_LP_MAX <? lc_ + lp_ then ret LZMA2_STATE_ERROR
        else
          on_decoder (modify (fun c => DecoderCore.set_m_properties
            {| lc := lc_; lp := lp_;
               pb := pb (DecoderCore.m_properties c);
               dicSize := dicSize (DecoderCore.m_properties c) |} c));;
          modify (Decoder2.set_needInitProp false);;
          ret LZMA2_STATE_DATA
  | _ => ret LZMA2_STATE_ERROR
  end.

(** ** [Decoder2::DecodeToDic] (lines 111-237) *)

Section Decoder2_DecodeToDic.

Variable dicLimit : Z.
Variable finishMode : FinishMode.

Let R : Type := (Z * Status)%type.

(** Lines 154-192: a piece of an uncompressed chunk. *)
Definition Decoder2_uncompressed (destSizeCur : Z) (srcBytes : list Z) (srcLen : Z)
  : M (exit R) Decoder2.t (list Z * Z) :=
  let srcSizeCur := Z.of_nat (length srcBytes) in
  if srcSizeCur =? 0 then return_ (srcLen, NeedsMoreInput)
  else
    let* d := get in
    (if ELzma2State_eqb (Decoder2.state d) LZMA2_STATE_DATA then
       let initDic := Decoder2.control d =? CONTROL_COPY_RESET_DIC in
       (if initDic then
          modify (Decoder2.set_needInitProp true);;
          modify (Decoder2.set_needInitState true)
        else if Decoder2.needInitDic d then throw BadStream
        else ret tt);;
       modify (Decoder2.set_needInitDic false);;
       on_decoder (call (InitDicAndState initDic false))
     else ret tt);;
    let srcSizeCur := if destSizeCur <? srcSizeCur then destSizeCur else srcSizeCur in
    if srcSizeCur =? 0 then throw BadStream
    else
      on_decoder (call (UpdateWithUncompressed srcBytes srcSizeCur));;
      modify (fun d => Decoder2.set_unpackSize (usize (Decoder2.unpackSize d - srcSizeCur)) d);;
      modify (fun d => Decoder2.set_state
        (if Decoder2.unpackSize d =? 0 then LZMA2_STATE_CONTROL else LZMA2_STATE_DATA_CONT) d);;
      ret (drop (Z.to_nat srcSizeCur) srcBytes, srcLen + srcSizeCur).

(** Lines 193-233: a piece of an LZMA chunk. *)
Definition Decoder2_lzma (dicPos destSizeCur : Z) (curFinishMode : FinishMode)
    (srcBytes : list Z) (srcLen : Z)
  : M (exit R) Decoder2.t (list Z * Z) :=
  let srcSizeCur := Z.of_nat (length srcBytes) in
  let* d := get in
  (if ELzma2State_eqb (Decoder2.state d) LZMA2_STATE_DATA then
     let mode := getLzmaMode d in
     let initDic := mode =? 3 in
     let initState := 0 <? mode in
     if (negb initDic && Decoder2.needInitDic d) || (negb initState && Decoder2.needInitState d)
     then throw BadStream
     else
       on_decoder (call (InitDicAndState initDic initState));;
       modify (Decoder2.set_needInitDic false);;
       modify (Decoder2.set_needInitState false);;
       modify (Decoder2.set_state LZMA2_STATE_DATA_CONT)
   else ret tt);;
  let* d := get in
  let srcSizeCur := if Decoder2.packSize d <? srcSizeCur then Decoder2.packSize d else srcSizeCur in
  let* res := on_decoder (call (DecoderCore_DecodeToDic (usize (dicPos + destSizeCur)) curFinishMode
                                  (take (Z.to_nat srcSizeCur) srcBytes))) in
  let '(srcSizeCur, status) := res in
  let srcLen := srcLen + srcSizeCur in
  modify (fun d => Decoder2.set_packSize (usize (Decoder2.packSize d - srcSizeCur)) d);;
  let* d := get in
  let outSizeProcessed := usize (pos (DecoderCore.m_dic (Decoder2.decoder d)) - dicPos) in
  modify (fun d => Decoder2.set_unpackSize (usize (Decoder2.unpackSize d - outSizeProcessed)) d);;
  if Status_eqb status NeedsMoreInput then return_ (srcLen, NeedsMoreInput)
  else
    (if (srcSizeCur =? 0) && (outSizeProcessed =? 0) then
       let* d := get in
       if negb (Status_eqb status MaybeFinishedWithoutMark)
          || negb (Decoder2.unpackSize d =? 0) || negb (Decoder2.packSize d =? 0)
       then throw BadStream
       else modify (Decoder2.set_state LZMA2_STATE_CONTROL)
     else ret tt);;
    ret (drop (Z.to_nat srcSizeCur) srcBytes, srcLen).

(** The body of the [while] of line 118; the loop variables are the input
    from the read position on and [srcLen]. *)
Definition Decoder2_body (v : list Z * Z) : M (exit R) Decoder2.t (list Z * Z) :=
  let '(srcBytes, srcLen) := v in
  let* d := get in
  let dicPos := pos (DecoderCore.m_dic (Decoder2.decoder d)) in
  if ELzma2State_eqb (Decoder2.state d) LZMA2_STATE_ERROR then throw BadStream
  else if (dicPos =? dicLimit) && FinishMode_eqb finishMode FinishMode_Any
  then return_ (srcLen, NotFinished)
  else if negb (ELzma2State_eqb (Decoder2.state d) LZMA2_STATE_DATA)
          && negb (ELzma2State_eqb (Decoder2.state d) LZMA2_STATE_DATA_CONT) then
    match srcBytes with
    | [] => return_ (srcLen, NeedsMoreInput)
    | b :: rest =>
        let* st := call (UpdateState b) in
        modify (Decoder2.set_state st);;
        ret (rest, srcLen + 1)
    end
  else
    let destSizeCur := usize (dicLimit - dicPos) in
    let c := if Decoder2.unpackSize d <=? destSizeCur
             then (Decoder2.unpackSize d, FinishMode_End)
             else (destSizeCur, FinishMode_Any) in
    if isUncompressedState d then Decoder2_uncompressed (fst c) srcBytes srcLen
    else Decoder2_lzma dicPos (fst c) (snd c) srcBytes srcLen.

(** The condition of the [while] of line 118. *)
Definition Decoder2_running : M (exit R) Decoder2.t bool :=
  gets (fun d => negb (ELzma2State_eqb (Decoder2.state d) LZMA2_STATE_FINISHED)).

Definition Decoder2_DecodeToDic (src : list Z) : M exn Decoder2.t (Z * Status) :=
  returning (
    let* v := while (Z.to_nat (2 * (Z.of_nat (length src) + dicLimit) + 4))
                Decoder2_running Decoder2_body (src, 0) in
    ret (snd v, FinishedWithMark)).

End Decoder2_DecodeToDic.

(** ** The one-call interface [Lzma2Decode] (lines 402-420)

    [dest] is the caller's buffer of [outSize] bytes and [src] the input of
    [inSize = length src] bytes; [storage] and [junk] are the indeterminate
    contents of the decoder object and of its probability array before the
    constructor.  The state of the computation is the caller's buffer; the
    result is the returned [bool] and the final [destLen], [srcLen], [status]. *)
Definition Lzma2Decode (storage : Decoder2.t) (junk : nat -> Z)
    (outSize : Z) (src : list Z) (prop : Z) (finishMode : FinishMode)
  : M exn (list Z) (bool * Z * Z * Status) := fun dest =>
  let run : M exn Decoder2.t (Z * Status) :=
    Decoder2_new junk prop;;
    on_decoder (modify (fun c => DecoderCore.set_m_dic
      {| mem := dest; size := outSize; pos := pos (DecoderCore.m_dic c) |} c));;
    Decoder2_DecodeToDic outSize finishMode src in
  match run storage with
  | Ok (srcLen, status) d =>
      let dic := DecoderCore.m_dic (Decoder2.decoder d) in
      Ok (negb (Status_eqb status NeedsMoreInput), pos dic, srcLen, status) (mem dic)
  | Raise e d => Raise e (mem (DecoderCore.m_dic (Decoder2.decoder d)))
  | Fault f => Fault f
  end.

(** ** Objects for examples *)

(** An object storage that holds zeros. *)
Definition zero_core : DecoderCore.t :=
  {| DecoderCore.m_dic := {| mem := []; size := 0; pos := 0 |};
     DecoderCore.m_properties := {| lc := 0; lp := 0; pb := 0; dicSize := 0 |};
     DecoderCore.m_probs := [];
     DecoderCore.buf := 0;
     DecoderCore.m_range := 0;
     DecoderCore.m_code := 0;
     DecoderCore.processedPos := 0;
     DecoderCore.checkDicSize := 0;
     DecoderCore.state := 0;
     DecoderCore.reps := {| reps_0 := 0; reps_1 := 0; reps_2 := 0; reps_3 := 0 |};
     DecoderCore.remainLen := 0;
     DecoderCore.needFlush := false;
     DecoderCore.needInitState := false;
     DecoderCore.tempBufSize := 0;
     DecoderCore.tempBuf := replicate 20 0;
     DecoderCore.trace := [] |}.

Definition zero_storage : Decoder2.t :=
  {| Decoder2.decoder := zero_core;
     Decoder2.packSize := 0;
     Decoder2.unpackSize := 0;
     Decoder2.state := LZMA2_STATE_CONTROL;
     Decoder2.control := 0;
     Decoder2.needInitDic := false;
     Decoder2.needInitState := false;
     Decoder2.needInitProp := false |}.

(** A decoder as a caller sets it up: constructed with [prop], its dictionary
    the buffer [dest] of [outSize] bytes. *)
Definition Decoder2_setup (junk : nat -> Z) (prop : Z) (dest : list Z) (outSize : Z)
  : M exn Decoder2.t unit :=
  Decoder2_new junk prop;;
  on_decoder (modify (fun c => DecoderCore.set_m_dic
    {| mem := dest; size := outSize; pos := pos (DecoderCore.m_dic c) |} c)).

(** A core with a dictionary of 16 zero bytes, and the locals of [DecodeReal]
    on freshly initialized probabilities ([lc = lp = pb = 0]) in the given
    [state], with the given [code] and [processedPos]. *)
Definition example_core : DecoderCore.t :=
  DecoderCore.set_m_dic {| mem := replicate 16 0; size := 16; pos := 1 |} zero_core.

Definition example_locals (state code processedPos : Z) : L.t :=
  {| L.state := state; L.rep0 := 1; L.rep1 := 1; L.rep2 := 1; L.rep3 := 1;
     L.dicPos := 1; L.processedPos := processedPos; L.len := 0; L.buf := 0;
     L.range := 0xFFFFFFFF; L.code := code; L.bound := 0; L.ttt := 0;
     L.probs := replicate (Z.to_nat (calcProbSize 0)) 1024;
     L.dic := replicate 16 0; L.trace := [] |}.

(** ** A weakest-precondition calculus for the monad

    [wp m Q QE F s]: run from [s], [m] ends normally in a state and with a
    value that satisfy [Q], or leaves by an exit that satisfies [QE], or by a
    fault allowed by [F]. *)

Definition wp {E St A} (m : M E St A) (Q : A -> St -> Prop) (QE : E -> St -> Prop)
    (F : fault -> Prop) (s : St) : Prop :=
  match m s with
  | Ok a s' => Q a s'
  | Raise e s' => QE e s'
  | Fault f => F f
  end.

(** No fault is allowed. *)
Definition no_fault : fault -> Prop := fun _ => False.
(** Any fault is allowed: a statement about the runs that do not leave the arrays. *)
Definition any_fault : fault -> Prop := fun _ => True.

Section WP.

Context {E St : Type}.
Implicit Types (s : St) (F : fault -> Prop) (QE : E -> St -> Prop).

Lemma wp_bind {A B} (m : M E St A) (k : A -> M E St B) Q QE F s :
  wp m (fun a s' => wp (k a) Q QE F s') QE F s -> wp (bind m k) Q QE F s.
Proof. unfold wp, bind. destruct (m s); auto. Qed.

Lemma wp_bind_inv {A B} (m : M E St A) (k : A -> M E St B) Q QE F s :
  wp (bind m k) Q QE F s -> wp m (fun a s' => wp (k a) Q QE F s') QE F s.
Proof. unfold wp, bind. destruct (m s); auto. Qed.

Lemma wp_ret {A} (a : A) (Q : A -> St -> Prop) QE F s : Q a s -> wp (ret a) Q QE F s.
Proof. auto. Qed.

Lemma wp_get (Q : St -> St -> Prop) QE F s : Q s s -> wp get Q QE F s.
Proof. auto. Qed.

Lemma wp_gets {A} (f : St -> A) (Q : A -> St -> Prop) QE F s : Q (f s) s -> wp (gets f) Q QE F s.
Proof. auto. Qed.

Lemma wp_modify (f : St -> St) (Q : unit -> St -> Prop) QE F s :
  Q tt (f s) -> wp (modify f) Q QE F s.
Proof. auto. Qed.

Lemma wp_raise {A} (e : E) (Q : A -> St -> Prop) QE F s : QE e s -> wp (raise e) Q QE F s.
Proof. auto. Qed.

Lemma wp_fail {A} (f : fault) (Q : A -> St -> Prop) QE F s : F f -> wp (fail f) Q QE F s.
Proof. auto. Qed.

Lemma wp_mono {A} (m : M E St A) (Q Q' : A -> St -> Prop) QE QE' F F' s :
  wp m Q QE F s ->
  (forall a s', Q a s' -> Q' a s') ->
  (forall e s', QE e s' -> QE' e s') ->
  (forall f, F f -> F' f) ->
  wp m Q' QE' F' s.
Proof. unfold wp. destruct (m s); auto. Qed.

Lemma wp_post {A} (m : M E St A) (Q Q' : A -> St -> Prop) QE F s :
  wp m Q QE F s -> (forall a s', Q a s' -> Q' a s') -> wp m Q' QE F s.
Proof. intros H HQ. eapply wp_mono; eauto. Qed.

Lemma wp_and {A} (m : M E St A) (Q Q' : A -> St -> Prop) QE QE' F F' s :
  wp m Q QE F s -> wp m Q' QE' F' s ->
  wp m (fun a s' => Q a s' /\ Q' a s') (fun e s' => QE e s' /\ QE' e s') (fun f => F f /\ F' f) s.
Proof. unfold wp. destruct (m s); auto. Qed.

Lemma wp_Ok {A} (m : M E St A) Q QE F s a s' : m s = Ok a s' -> Q a s' -> wp m Q QE F s.
Proof. unfold wp. intros ->. auto. Qed.

Lemma wp_Ok_inv {A} (m : M E St A) Q QE F s a s' : wp m Q QE F s -> m s = Ok a s' -> Q a s'.
Proof. unfold wp. intros H Hm. rewrite Hm in H. exact H. Qed.

Lemma wp_Raise_inv {A} (m : M E St A) Q QE F s e s' :
  wp m Q QE F s -> m s = Raise e s' -> QE e s'.
Proof. unfold wp. intros H Hm. rewrite Hm in H. exact H. Qed.

Lemma wp_Fault_inv {A} (m : M E St A) Q QE F s f : wp m Q QE F s -> m s = Fault f -> F f.
Proof. unfold wp. intros H Hm. rewrite Hm in H. exact H. Qed.

(** [while]: an invariant [I] of the loop variables and the state. *)
Lemma wp_while {A} (cond : M E St bool) (body : A -> M E St A) (I Q : A -> St -> Prop) QE F :
  F OutOfFuel ->
  (forall a s, I a s ->
     wp cond (fun c s' => if c then wp (body a) I QE F s' else Q a s') QE F s) ->
  forall n a s, I a s -> wp (while n cond body a) Q QE F s.
Proof.
  intros HF Hstep n. induction n as [|n IH]; intros a s HI; [exact HF|].
  cbn [while]. apply wp_bind. eapply wp_mono; [apply Hstep; exact HI | | auto | auto].
  intros [] s' Hc; [|exact Hc].
  apply wp_bind. eapply wp_mono; [exact Hc | | auto | auto].
  intros a' s'' HI'. apply IH. exact HI'.
Qed.

Lemma wp_do_while {A} (body : A -> M E St (A * bool)) (I Q : A -> St -> Prop) QE F :
  F OutOfFuel ->
  (forall a s, I a s ->
     wp (body a) (fun r s' => if snd r then I (fst r) s' else Q (fst r) s') QE F s) ->
  forall n a s, I a s -> wp (do_while n body a) Q QE F s.
Proof.
  intros HF Hstep n. induction n as [|n IH]; intros a s HI; [exact HF|].
  cbn [do_while]. apply wp_bind. eapply wp_mono; [apply Hstep; exact HI | | auto | auto].
  intros [a' []] s' Hc; cbn [fst snd] in *; [apply IH; exact Hc | exact Hc].
Qed.

(** The same with a measure that the fuel covers: the loop does not run out
    of fuel. *)
Lemma wp_do_while_fuel {A} (body : A -> M E St (A * bool)) (I Q : A -> St -> Prop)
    (mu : A -> St -> nat) QE F :
  (forall a s, I a s ->
     wp (body a) (fun r s' => if snd r then I (fst r) s' /\ (mu (fst r) s' < mu a s)%nat
                              else Q (fst r) s') QE F s) ->
  forall n a s, I a s -> (mu a s <= n)%nat -> wp (do_while (S n) body a) Q QE F s.
Proof.
  intros Hstep n. induction n as [|n IH]; intros a s HI Hmu.
  - cbn [do_while]. apply wp_bind. eapply wp_mono; [apply Hstep; exact HI | | auto | auto].
    intros [a' []] s' Hc; cbn [fst snd] in *; [lia | exact Hc].
  - change (do_while (S (S n)) body a)
      with (let* r := body a in if snd r then do_while (S n) body (fst r) else ret (fst r)).
    apply wp_bind. eapply wp_mono; [apply Hstep; exact HI | | auto | auto].
    intros [a' []] s' Hc; cbn [fst snd] in *; [|exact Hc].
    apply IH; [tauto | lia].
Qed.

Lemma wp_while_fuel {A} (cond : M E St bool) (body : A -> M E St A) (I Q : A -> St -> Prop)
    (mu : A -> St -> nat) QE F :
  (forall a s, I a s ->
     wp cond (fun c s' => if c then wp (body a) (fun a' s'' => I a' s'' /\ (mu a' s'' < mu a s)%nat)
                                    QE F s'
                          else Q a s') QE F s) ->
  forall n a s, I a s -> (mu a s < n)%nat -> wp (while n cond body a) Q QE F s.
Proof.
  intros Hstep n. induction n as [|n IH]; intros a s HI Hmu; [lia|].
  cbn [while]. apply wp_bind. eapply wp_mono; [apply Hstep; exact HI | | auto | auto].
  intros [] s' Hc; [|exact Hc].
  apply wp_bind. eapply wp_mono; [exact Hc | | auto | auto].
  intros a' s'' [HI' Hlt]. apply IH; [exact HI' | lia].
Qed.

End WP.

Lemma wp_call {St A B} (m : M exn St A) (Q : A -> St -> Prop) (QE : exit B -> St -> Prop) F s :
  wp m Q (fun e s' => QE (Throw e) s') F s -> wp (call m) Q QE F s.
Proof. unfold wp, call. destruct (m s); auto. Qed.

Lemma wp_throw {St A B} (e : exn) (Q : A -> St -> Prop) (QE : exit B -> St -> Prop) F s :
  QE (Throw e) s -> wp (throw e) Q QE F s.
Proof. auto. Qed.

Lemma wp_return_ {St A B} (b : B) (Q : A -> St -> Prop) (QE : exit B -> St -> Prop) F s :
  QE (Return b) s -> wp (return_ b) Q QE F s.
Proof. auto. Qed.

Lemma wp_returning {St B} (m : M (exit B) St B) (Q : B -> St -> Prop) (QE : exn -> St -> Prop) F s :
  wp m Q (fun e s' => match e with Throw e => QE e s' | Return b => Q b s' end) F s ->
  wp (returning m) Q QE F s.
Proof. unfold wp, returning. destruct (m s) as [| [] |]; auto. Qed.

Lemma wp_on_decoder {E A} (m : M E DecoderCore.t A) (Q : A -> Decoder2.t -> Prop) QE F s :
  wp m (fun a c => Q a (Decoder2.set_decoder c s)) (fun e c => QE e (Decoder2.set_decoder c s)) F
     (Decoder2.decoder s) ->
  wp (on_decoder m) Q QE F s.
Proof. unfold wp, on_decoder. destruct (m (Decoder2.decoder s)); auto. Qed.

(** One step of symbolic execution. *)
Ltac wp_step :=
  lazymatch goal with
  | |- wp (bind _ _) _ _ _ _ => apply wp_bind
  | |- wp (ret _) _ _ _ _ => apply wp_ret
  | |- wp get _ _ _ _ => apply wp_get
  | |- wp (gets _) _ _ _ _ => apply wp_gets
  | |- wp (modify _) _ _ _ _ => apply wp_modify
  | |- wp (raise _) _ _ _ _ => apply wp_raise
  | |- wp (throw _) _ _ _ _ => apply wp_throw
  | |- wp (return_ _) _ _ _ _ => apply wp_return_
  | |- wp (fail _) _ _ _ _ => apply wp_fail
  | |- wp (call _) _ _ _ _ => apply wp_call
  | |- wp (returning _) _ _ _ _ => apply wp_returning
  | |- wp (on_decoder _) _ _ _ _ => apply wp_on_decoder
  | |- wp (if ?c then _ else _) _ _ _ _ => destruct c eqn:?
  | |- wp (match ?x with _ => _ end) _ _ _ _ => destruct x eqn:?
  | |- wp (let _ := _ in _) _ _ _ _ => cbv zeta
  | |- wp ((fun _ => _) _) _ _ _ _ => cbv beta
  end.

Ltac wp_steps := repeat (wp_step; cbv beta).

(** * Verified properties *)

(** ** Machine arithmetic *)

Lemma u32_small x : 0 <= x < 2 ^ 32 -> u32 x = x.
Proof. intros H. unfold u32. apply Z.mod_small. exact H. Qed.

Lemma usize_small x : 0 <= x < 2 ^ 64 -> usize x = x.
Proof. intros H. unfold usize. apply Z.mod_small. exact H. Qed.

Lemma u32_range x : 0 <= u32 x < 2 ^ 32.
Proof. unfold u32. apply Z.mod_pos_bound. lia. Qed.

Lemma usize_range x : 0 <= usize x < 2 ^ 64.
Proof. unfold usize. apply Z.mod_pos_bound. lia. Qed.

Lemma land_1_cases a : Z.land a 1 = 0 \/ Z.land a 1 = 1.
Proof.
  assert (H : Z.land a 1 = a mod 2) by (apply (Z.land_ones a 1); lia).
  rewrite H. pose proof (Z.mod_pos_bound a 2 ltac:(lia)). lia.
Qed.

Lemma shiftl_small x n : 0 <= x <= 3 -> n <= 30 -> 0 <= Z.shiftl x n < 2 ^ 32.
Proof.
  intros Hx Hn. destruct (Z.le_gt_cases 0 n) as [H0 | H0].
  - rewrite Z.shiftl_mul_pow2 by lia.
    assert (0 < 2 ^ n) by (apply Z.pow_pos_nonneg; lia).
    assert (2 ^ n <= 2 ^ 30) by (apply Z.pow_le_mono_r; lia).
    change (2 ^ 32) with (4 * 2 ^ 30). nia.
  - rewrite Z.shiftl_div_pow2 by lia.
    assert (0 < 2 ^ (- n)) by (apply Z.pow_pos_nonneg; lia).
    split; [apply Z.div_pos; lia|].
    apply Z.le_lt_trans with x; [|lia].
    apply Z.div_le_upper_bound; [lia|]. nia.
Qed.

(** ** The constructor *)

(** C7: construction throws [invalid_argument] exactly when [prop > 40]; a
    constructed decoder has the dictionary size [2^32 - 1] for [prop = 40] and
    [(2 | (prop & 1)) << (prop / 2 + 11)] below. *)
Theorem C7_create_dicSize (junk : nat -> Z) (prop : Z) (storage : Decoder2.t) :
  match Decoder2_new junk prop storage with
  | Raise e d => e = invalid_argument /\ 40 < prop /\ d = storage
  | Ok _ d =>
      prop <= 40 /\
      dicSize (DecoderCore.m_properties (Decoder2.decoder d)) =
        (if prop =? 40 then 2 ^ 32 - 1 else Z.shiftl (Z.lor 2 (Z.land prop 1)) (prop / 2 + 11))
  | Fault _ => False
  end.
Proof.
  unfold Decoder2_new. destruct (40 <? prop) eqn:E.
  - cbn. apply Z.ltb_lt in E. auto.
  - apply Z.ltb_ge in E. cbn. split; [exact E|].
    destruct (prop =? 40) eqn:E40; [reflexivity|].
    apply Z.eqb_neq in E40. unfold dicSizeFromProp.
    assert (Hs : 0 <= Z.shiftl (Z.lor 2 (Z.land prop 1)) (prop / 2 + 11) < 2 ^ 32).
    { apply shiftl_small.
      - destruct (land_1_cases prop) as [H | H]; rewrite H; [change (Z.lor 2 0) with 2 | change (Z.lor 2 1) with 3]; lia.
      - assert (prop / 2 < 20) by (apply Z.div_lt_upper_bound; lia). lia. }
    rewrite usize_small by lia. apply u32_small. exact Hs.
Qed.

(** ** Running the monad *)

Lemma bind_Ok {E St A B} (m : M E St A) (k : A -> M E St B) s a s' :
  m s = Ok a s' -> bind m k s = k a s'.
Proof. intros H. unfold bind. rewrite H. reflexivity. Qed.

Lemma bind_Raise {E St A B} (m : M E St A) (k : A -> M E St B) s e s' :
  m s = Raise e s' -> bind m k s = Raise e s'.
Proof. intros H. unfold bind. rewrite H. reflexivity. Qed.

Lemma bind_Fault {E St A B} (m : M E St A) (k : A -> M E St B) s f :
  m s = Fault f -> bind m k s = Fault f.
Proof. intros H. unfold bind. rewrite H. reflexivity. Qed.

Lemma returning_Throw {St B} (m : M (exit B) St B) s e s' :
  m s = Raise (Throw e) s' -> returning m s = Raise e s'.
Proof. intros H. unfold returning. rewrite H. reflexivity. Qed.

Lemma returning_Return {St B} (m : M (exit B) St B) s b s' :
  m s = Raise (Return b) s' -> returning m s = Ok b s'.
Proof. intros H. unfold returning. rewrite H. reflexivity. Qed.

Lemma returning_Ok {St B} (m : M (exit B) St B) s b s' :
  m s = Ok b s' -> returning m s = Ok b s'.
Proof. intros H. unfold returning. rewrite H. reflexivity. Qed.

Lemma while_S {E St A} n (cond : M E St bool) (body : A -> M E St A) a :
  while (S n) cond body a =
  (let* c := cond in if c then let* a' := body a in while n cond body a' else ret a).
Proof. reflexivity. Qed.

Lemma do_while_S {E St A} n (body : A -> M E St (A * bool)) a :
  do_while (S n) body a =
  (let* r := body a in if snd r then do_while n body (fst r) else ret (fst r)).
Proof. reflexivity. Qed.

Lemma to_nat_S k : 1 <= k -> Z.to_nat k = S (Z.to_nat (k - 1)).
Proof. intros H. rewrite <- Z2Nat.inj_succ by lia. f_equal. lia. Qed.

(** ** The loop of [Decoder2::DecodeToDic] *)

Lemma Decoder2_DecodeToDic_unfold dicLimit finishMode src d :
  Decoder2_DecodeToDic dicLimit finishMode src d =
  returning (let* v := while (Z.to_nat (2 * (Z.of_nat (length src) + dicLimit) + 4))
                         Decoder2_running (Decoder2_body dicLimit finishMode) (src, 0) in
             ret (snd v, FinishedWithMark)) d.
Proof. unfold Decoder2_DecodeToDic. reflexivity. Qed.

Lemma framer_while_step n dicLimit finishMode v d :
  Decoder2.state d <> LZMA2_STATE_FINISHED ->
  while (S n) Decoder2_running (Decoder2_body dicLimit finishMode) v d =
  (let* v' := Decoder2_body dicLimit finishMode v in
   while n Decoder2_running (Decoder2_body dicLimit finishMode) v') d.
Proof.
  intros H. rewrite while_S. unfold bind at 1, Decoder2_running at 1, gets.
  destruct (Decoder2.state d); try reflexivity. congruence.
Qed.

Lemma framer_while_finished n dicLimit finishMode v d :
  Decoder2.state d = LZMA2_STATE_FINISHED ->
  while (S n) Decoder2_running (Decoder2_body dicLimit finishMode) v d = Ok v d.
Proof.
  intros H. rewrite while_S. unfold bind at 1, Decoder2_running at 1, gets.
  rewrite H. reflexivity.
Qed.

Lemma framer_fuel (src : list Z) dicLimit :
  0 <= dicLimit ->
  exists n, Z.to_nat (2 * (Z.of_nat (length src) + dicLimit) + 4) = S (S (S (S n))).
Proof.
  intros H. exists (Z.to_nat (2 * (Z.of_nat (length src) + dicLimit))).
  rewrite (to_nat_S (_ + 4)) by lia. rewrite (to_nat_S (_ + 4 - 1)) by lia.
  rewrite (to_nat_S (_ + 4 - 1 - 1)) by lia. rewrite (to_nat_S (_ + 4 - 1 - 1 - 1)) by lia.
  do 5 f_equal. lia.
Qed.

(** In the state Error the body throws before it looks at anything else. *)
Lemma Decoder2_body_error dicLimit finishMode v d :
  Decoder2.state d = LZMA2_STATE_ERROR ->
  Decoder2_body dicLimit finishMode v d = Raise (Throw BadStream) d.
Proof.
  intros H. destruct v as [srcBytes srcLen].
  unfold Decoder2_body, bind, get. rewrite H. reflexivity.
Qed.

Lemma Decoder2_DecodeToDic_error dicLimit finishMode src d :
  0 <= dicLimit ->
  Decoder2.state d = LZMA2_STATE_ERROR ->
  Decoder2_DecodeToDic dicLimit finishMode src d = Raise BadStream d.
Proof.
  intros HdL H. rewrite Decoder2_DecodeToDic_unfold.
  destruct (framer_fuel src dicLimit HdL) as [n ->].
  apply returning_Throw. apply bind_Raise.
  rewrite framer_while_step by congruence.
  apply bind_Raise. apply Decoder2_body_error. exact H.
Qed.

Definition header_state (s : ELzma2State) : bool :=
  negb (ELzma2State_eqb s LZMA2_STATE_DATA) && negb (ELzma2State_eqb s LZMA2_STATE_DATA_CONT)
  && negb (ELzma2State_eqb s LZMA2_STATE_ERROR) && negb (ELzma2State_eqb s LZMA2_STATE_FINISHED).

(** In a header state the body hands one byte to [UpdateState]. *)
Lemma Decoder2_body_header dicLimit finishMode b rest srcLen d st d1 :
  header_state (Decoder2.state d) = true ->
  pos (DecoderCore.m_dic (Decoder2.decoder d)) <> dicLimit \/ finishMode = FinishMode_End ->
  UpdateState b d = Ok st d1 ->
  Decoder2_body dicLimit finishMode (b :: rest, srcLen) d
  = Ok (rest, srcLen + 1) (Decoder2.set_state st d1).
Proof.
  intros Hh Hlim HU.
  assert (Hcont : (pos (DecoderCore.m_dic (Decoder2.decoder d)) =? dicLimit)
                    && FinishMode_eqb finishMode FinishMode_Any = false).
  { destruct Hlim as [H | ->].
    - apply Z.eqb_neq in H. rewrite H. reflexivity.
    - apply andb_false_r. }
  unfold Decoder2_body. unfold bind at 1, get at 1. cbv beta iota zeta.
  rewrite Hcont. unfold header_state in Hh.
  destruct (Decoder2.state d); try discriminate Hh; cbn [ELzma2State_eqb negb andb];
    unfold bind at 1, call at 1; rewrite HU; reflexivity.
Qed.

(** ** The property byte of a chunk header *)

(** C10: a property byte [b < 225] with [lc + lp > 4] is rejected after [pb]
    was overwritten: [UpdateState] returns [LZMA2_STATE_ERROR] and the object
    differs from the one before in [pb] only, which is [(b / 9) / 5]; the call
    of [DecodeToDic] that reads the byte throws with the framer in the state
    Error and the new [pb]. *)
Theorem C10_prop_rejected_after_pb_written (d : Decoder2.t) (b : Z) :
  Decoder2.state d = LZMA2_STATE_PROP ->
  0 <= b < 225 ->
  4 < b mod 9 + (b / 9) mod 5 ->
  let p := DecoderCore.m_properties (Decoder2.decoder d) in
  let d' := Decoder2.set_decoder
              (DecoderCore.set_m_properties
                 {| lc := lc p; lp := lp p; pb := b / 9 / 5; dicSize := dicSize p |}
                 (Decoder2.decoder d)) d in
  UpdateState b d = Ok LZMA2_STATE_ERROR d' /\
  forall dicLimit finishMode rest,
    0 <= dicLimit ->
    pos (DecoderCore.m_dic (Decoder2.decoder d)) <> dicLimit \/ finishMode = FinishMode_End ->
    Decoder2_DecodeToDic dicLimit finishMode (b :: rest) d
    = Raise BadStream (Decoder2.set_state LZMA2_STATE_ERROR d').
Proof.
  intros Hst Hb Hsum p d'.
  assert (HU : UpdateState b d = Ok LZMA2_STATE_ERROR d').
  { unfold UpdateState, bind, get. rewrite Hst.
    change (9 * 5 * 5) with 225.
    destruct (225 <=? b) eqn:E; [apply Z.leb_le in E; lia|].
    cbn. unfold LC_PLUS_LP_MAX.
    destruct (4 <? b mod 9 + (b / 9) mod 5) eqn:E2; [reflexivity|].
    apply Z.ltb_ge in E2. lia. }
  split; [exact HU|].
  intros dicLimit finishMode rest HdL Hlim.
  rewrite Decoder2_DecodeToDic_unfold.
  destruct (framer_fuel (b :: rest) dicLimit HdL) as [n ->].
  apply returning_Throw. apply bind_Raise.
  rewrite framer_while_step by congruence.
  erewrite bind_Ok by (apply Decoder2_body_header; [rewrite Hst; reflexivity | exact Hlim | exact HU]).
  rewrite framer_while_step by (cbn; congruence).
  apply bind_Raise. apply Decoder2_body_error. reflexivity.
Qed.

Lemma C10_witness :
  let d := Decoder2.set_state LZMA2_STATE_PROP zero_storage in
  exists d',
    UpdateState 224 d = Ok LZMA2_STATE_ERROR d' /\
    pb (DecoderCore.m_properties (Decoder2.decoder d')) = 4 /\
    pb (DecoderCore.m_properties (Decoder2.decoder d)) = 0 /\
    Decoder2_DecodeToDic 16 FinishMode_End [224] d
    = Raise BadStream (Decoder2.set_state LZMA2_STATE_ERROR d').
Proof.
  intros d.
  destruct (C10_prop_rejected_after_pb_written d 224 eq_refl ltac:(lia) ltac:(vm_compute; reflexivity))
    as [H1 H2].
  eexists. split; [exact H1|]. split; [reflexivity|]. split; [reflexivity|].
  apply H2; [lia | right; reflexivity].
Defined.

(** ** Bad-stream errors of the framer *)

Lemma wp_any_result {E St A} (m : M E St A) (Q : A -> St -> Prop) (QE : E -> St -> Prop) F s :
  (forall a s', Q a s') -> (forall e s', QE e s') -> (forall f, F f) -> wp m Q QE F s.
Proof. intros. unfold wp. destruct (m s); auto. Qed.

Lemma while_Raise_inv {E St A} n (cond : M E St bool) (body : A -> M E St A) a s e s' :
  (forall s0, exists c, cond s0 = Ok c s0) ->
  while n cond body a s = Raise e s' ->
  exists a0 s0, body a0 s0 = Raise e s'.
Proof.
  intros Hc. revert a s. induction n as [|n IH]; intros a s H; [discriminate H|].
  rewrite while_S in H. unfold bind at 1 in H.
  destruct (Hc s) as [c Hcs]. rewrite Hcs in H. destruct c; [|discriminate H].
  unfold bind at 1 in H. destruct (body a s) as [a1 s1 | e1 s1 | f] eqn:Hb.
  - eapply IH. exact H.
  - inversion H; subst. eauto.
  - discriminate H.
Qed.

Definition data_or_error (s : ELzma2State) : Prop :=
  s = LZMA2_STATE_ERROR \/ s = LZMA2_STATE_DATA \/ s = LZMA2_STATE_DATA_CONT.

Definition thrown_in_data_or_error (e : exit (Z * Status)) (d : Decoder2.t) : Prop :=
  match e with
  | Throw _ => data_or_error (Decoder2.state d)
  | Return _ => True
  end.

(** A [throw] leaves the body with the framer in the state Error (the check
    at the top of the loop) or in a data state. *)
Lemma Decoder2_body_exits dicLimit finishMode v d :
  wp (Decoder2_body dicLimit finishMode v) (fun _ _ => True) thrown_in_data_or_error any_fault d.
Proof.
  destruct v as [srcBytes srcLen].
  unfold Decoder2_body, Decoder2_uncompressed, Decoder2_lzma, thrown_in_data_or_error, any_fault.
  wp_steps; try exact I.
  all: try (unfold InitDicAndState, UpdateWithUncompressed, UpdateState; wp_steps; try exact I).
  all: try (apply wp_any_result; [intros [] c| |]; intros; try exact I; wp_steps; try exact I).
  all: cbn; unfold data_or_error; destruct (Decoder2.state d); try discriminate; auto.
Qed.

Lemma Decoder2_DecodeToDic_Raise dicLimit finishMode src d e d' :
  Decoder2_DecodeToDic dicLimit finishMode src d = Raise e d' ->
  data_or_error (Decoder2.state d').
Proof.
  rewrite Decoder2_DecodeToDic_unfold. unfold returning.
  unfold bind at 1.
  destruct (while _ _ _ _ d) as [v s1 | e1 s1 | f] eqn:Hw; [discriminate | | discriminate].
  destruct e1 as [e1|b]; [|discriminate]. intros H. inversion H; subst.
  apply while_Raise_inv in Hw; [|intros s0; eexists; reflexivity].
  destruct Hw as (a0 & s0 & Hb).
  exact (wp_Raise_inv _ _ _ _ _ _ _ (Decoder2_body_exits dicLimit finishMode a0 s0) Hb).
Qed.

(** [k] passes of the loop of line 118, none of which leaves the call: the
    loop variables and the decoder after them. *)
Fixpoint Decoder2_passes (dicLimit : Z) (finishMode : FinishMode) (k : nat)
    (v : list Z * Z) (d : Decoder2.t) : option ((list Z * Z) * Decoder2.t) :=
  match k with
  | O => Some (v, d)
  | S k =>
      if ELzma2State_eqb (Decoder2.state d) LZMA2_STATE_FINISHED then None
      else match Decoder2_body dicLimit finishMode v d with
           | Ok v1 d1 => Decoder2_passes dicLimit finishMode k v1 d1
           | _ => None
           end
  end.

Lemma Decoder2_passes_last dicLimit finishMode k v d v2 d2 :
  Decoder2_passes dicLimit finishMode (S k) v d = Some (v2, d2) ->
  exists v1 d1,
    Decoder2_passes dicLimit finishMode k v d = Some (v1, d1) /\
    Decoder2.state d1 <> LZMA2_STATE_FINISHED /\
    Decoder2_body dicLimit finishMode v1 d1 = Ok v2 d2.
Proof.
  revert v d. induction k as [|k IH]; intros v d H.
  - cbn [Decoder2_passes] in H.
    destruct (ELzma2State_eqb (Decoder2.state d) LZMA2_STATE_FINISHED) eqn:Ef; [discriminate H|].
    destruct (Decoder2_body dicLimit finishMode v d) as [v1 d1 | |] eqn:Hb; try discriminate H.
    inversion H; subst. exists v, d. split; [reflexivity|]. split; [|exact Hb].
    intros Hf. rewrite Hf in Ef. discriminate Ef.
  - change (Decoder2_passes dicLimit finishMode (S (S k)) v d)
      with (if ELzma2State_eqb (Decoder2.state d) LZMA2_STATE_FINISHED then None
            else match Decoder2_body dicLimit finishMode v d with
                 | Ok v1 d1 => Decoder2_passes dicLimit finishMode (S k) v1 d1
                 | _ => None
                 end) in H.
    destruct (ELzma2State_eqb (Decoder2.state d) LZMA2_STATE_FINISHED) eqn:Ef; [discriminate H|].
    destruct (Decoder2_body dicLimit finishMode v d) as [v1 d1 | |] eqn:Hb; try discriminate H.
    destruct (IH v1 d1 H) as (v3 & d3 & H3 & Hn & Hb3).
    exists v3, d3. split; [|split; assumption].
    change (Decoder2_passes dicLimit finishMode (S k) v d)
      with (if ELzma2State_eqb (Decoder2.state d) LZMA2_STATE_FINISHED then None
            else match Decoder2_body dicLimit finishMode v d with
                 | Ok v1 d1 => Decoder2_passes dicLimit finishMode k v1 d1
                 | _ => None
                 end).
    rewrite Ef, Hb. exact H3.
Qed.

(** After [k] passes the loop goes on with the fuel that is left. *)
Lemma while_Decoder2_passes dicLimit finishMode k m v d v0 d0 :
  Decoder2_passes dicLimit finishMode k v d = Some (v0, d0) ->
  while (k + m) Decoder2_running (Decoder2_body dicLimit finishMode) v d
  = while m Decoder2_running (Decoder2_body dicLimit finishMode) v0 d0.
Proof.
  revert v d. induction k as [|k IH]; intros v d H.
  - inversion H; subst. reflexivity.
  - cbn [Decoder2_passes] in H.
    destruct (ELzma2State_eqb (Decoder2.state d) LZMA2_STATE_FINISHED) eqn:Ef; [discriminate H|].
    destruct (Decoder2_body dicLimit finishMode v d) as [v1 d1 | |] eqn:Hb; try discriminate H.
    change (S k + m)%nat with (S (k + m)).
    rewrite framer_while_step by (intros Hf; rewrite Hf in Ef; discriminate Ef).
    unfold bind at 1. rewrite Hb. apply IH. exact H.
Qed.

(** A [throw] out of the loop is the [throw] of a pass that the loop reaches. *)
Lemma while_Raise_passes dicLimit finishMode n v d e d' :
  while n Decoder2_running (Decoder2_body dicLimit finishMode) v d = Raise e d' ->
  exists k v0 d0,
    Decoder2_passes dicLimit finishMode k v d = Some (v0, d0) /\
    Decoder2.state d0 <> LZMA2_STATE_FINISHED /\
    Decoder2_body dicLimit finishMode v0 d0 = Raise e d'.
Proof.
  revert v d. induction n as [|n IH]; intros v d H; [discriminate H|].
  destruct (ELzma2State_eqb (Decoder2.state d) LZMA2_STATE_FINISHED) eqn:Ef.
  - rewrite framer_while_finished in H; [discriminate H|].
    destruct (Decoder2.state d); try discriminate Ef. reflexivity.
  - assert (Hn : Decoder2.state d <> LZMA2_STATE_FINISHED)
      by (intros Hf; rewrite Hf in Ef; discriminate Ef).
    rewrite framer_while_step in H by exact Hn. unfold bind at 1 in H.
    destruct (Decoder2_body dicLimit finishMode v d) as [v1 d1 | e1 d1 | f] eqn:Hb.
    + destruct (IH v1 d1 H) as (k & v0 & d0 & Hp & Hn0 & Hb0).
      exists (S k), v0, d0. split; [|split; assumption].
      cbn [Decoder2_passes]. rewrite Ef, Hb. exact Hp.
    + inversion H; subst. exists 0%nat, v, d. split; [reflexivity|]. split; assumption.
    + discriminate H.
Qed.

(** A pass in a header state does not throw, and the state it leaves is the
    one [UpdateState] returned. *)
Lemma Decoder2_body_header_inv dicLimit finishMode v d :
  header_state (Decoder2.state d) = true ->
  wp (Decoder2_body dicLimit finishMode v)
     (fun v' d' => exists b rest n st d1,
          v = (b :: rest, n) /\ UpdateState b d = Ok st d1 /\
          d' = Decoder2.set_state st d1 /\ v' = (rest, n + 1))
     (fun e _ => match e with Throw _ => False | Return _ => True end)
     no_fault d.
Proof.
  intros Hh. destruct v as [srcBytes srcLen].
  assert (HU : forall b, exists st d1, UpdateState b d = Ok st d1).
  { intros b. unfold UpdateState, bind, get, header_state in *.
    destruct (Decoder2.state d); try discriminate Hh; cbn;
      repeat match goal with |- context [if ?c then _ else _] => destruct c end; eauto. }
  unfold Decoder2_body. wp_steps.
  all: try exact I.
  all: try (exfalso; unfold header_state in Hh; destruct (Decoder2.state d);
            discriminate).
  destruct (HU z) as (st & d1 & HUz). unfold wp at 1. rewrite HUz. wp_steps.
  exists z, l, srcLen, st, d1. auto.
Qed.

(** Where a pass in the data path leaves the framer: on the way to the next
    pass in the state Control or DataCont; by a [throw] in the state
    DataCont, or in the state Data when it started there. *)
Definition thrown_in_data (d : Decoder2.t) (e : exit (Z * Status)) (d' : Decoder2.t) : Prop :=
  match e with
  | Throw _ =>
      Decoder2.state d' = LZMA2_STATE_DATA_CONT \/
      (Decoder2.state d' = LZMA2_STATE_DATA /\ Decoder2.state d = LZMA2_STATE_DATA)
  | Return _ => True
  end.

Lemma Decoder2_body_data dicLimit finishMode v d :
  Decoder2.state d = LZMA2_STATE_DATA \/ Decoder2.state d = LZMA2_STATE_DATA_CONT ->
  wp (Decoder2_body dicLimit finishMode v)
     (fun _ d' => Decoder2.state d' = LZMA2_STATE_CONTROL \/
                  Decoder2.state d' = LZMA2_STATE_DATA_CONT)
     (thrown_in_data d) any_fault d.
Proof.
  intros Hst. destruct v as [srcBytes srcLen].
  unfold Decoder2_body, Decoder2_uncompressed, Decoder2_lzma, thrown_in_data, any_fault.
  wp_steps; try exact I.
  all: try (unfold InitDicAndState, UpdateWithUncompressed; wp_steps; try exact I).
  all: try (apply wp_any_result; [intros [] c| |]; intros; try exact I; wp_steps; try exact I).
  all: cbn; destruct Hst as [Hst | Hst]; rewrite Hst in *; try discriminate; auto.
  all: match goal with |- context [if ?c then LZMA2_STATE_CONTROL else _] => destruct c end; auto.
Qed.

(** C2, as the code has it.
    - The state Error is final: in it every call throws [BadStream] and
      leaves the decoder as it is.
    - A header byte that [UpdateState] rejects puts the framer in the state
      Error and the call that reads it throws [BadStream]: at the head of
      the input, and after any [k] passes of the loop (the bound on [k] is
      the fuel of the model).
    - A call that throws does so in a pass that the loop reaches, and that
      pass started in the state Error, Data or DataCont.  In Error the
      decoder is left as it is, and the state was Error at the start of the
      call or the pass before read a header byte that [UpdateState]
      rejected.  A pass that starts in DataCont throws in DataCont, one that
      starts in Data throws in Data or DataCont: a [throw] of the data path
      (an unmet reset obligation, no room for an uncompressed chunk, a size
      mismatch, an error of the symbol decoder) never leaves the framer in
      the state Error. *)
Theorem C2_error_state_is_final :
  (forall dicLimit finishMode src d,
     0 <= dicLimit ->
     Decoder2.state d = LZMA2_STATE_ERROR ->
     Decoder2_DecodeToDic dicLimit finishMode src d = Raise BadStream d) /\
  (forall dicLimit finishMode b rest d d1,
     0 <= dicLimit ->
     header_state (Decoder2.state d) = true ->
     pos (DecoderCore.m_dic (Decoder2.decoder d)) <> dicLimit \/ finishMode = FinishMode_End ->
     UpdateState b d = Ok LZMA2_STATE_ERROR d1 ->
     Decoder2_DecodeToDic dicLimit finishMode (b :: rest) d
     = Raise BadStream (Decoder2.set_state LZMA2_STATE_ERROR d1)) /\
  (forall dicLimit finishMode src d k b rest n d0 d1,
     Decoder2_passes dicLimit finishMode k (src, 0) d = Some ((b :: rest, n), d0) ->
     (k + 2 <= Z.to_nat (2 * (Z.of_nat (length src) + dicLimit) + 4))%nat ->
     header_state (Decoder2.state d0) = true ->
     pos (DecoderCore.m_dic (Decoder2.decoder d0)) <> dicLimit \/ finishMode = FinishMode_End ->
     UpdateState b d0 = Ok LZMA2_STATE_ERROR d1 ->
     Decoder2_DecodeToDic dicLimit finishMode src d
     = Raise BadStream (Decoder2.set_state LZMA2_STATE_ERROR d1)) /\
  (forall dicLimit finishMode src d e d',
     Decoder2_DecodeToDic dicLimit finishMode src d = Raise e d' ->
     exists k v0 d0,
       Decoder2_passes dicLimit finishMode k (src, 0) d = Some (v0, d0) /\
       Decoder2_body dicLimit finishMode v0 d0 = Raise (Throw e) d' /\
       match Decoder2.state d0 with
       | LZMA2_STATE_ERROR =>
           e = BadStream /\ d' = d0 /\
           (k = 0%nat \/
            exists k' b rest n d2 d1,
              k = S k' /\
              Decoder2_passes dicLimit finishMode k' (src, 0) d = Some ((b :: rest, n), d2) /\
              header_state (Decoder2.state d2) = true /\
              UpdateState b d2 = Ok LZMA2_STATE_ERROR d1 /\
              d0 = Decoder2.set_state LZMA2_STATE_ERROR d1)
       | LZMA2_STATE_DATA =>
           Decoder2.state d' = LZMA2_STATE_DATA \/ Decoder2.state d' = LZMA2_STATE_DATA_CONT
       | LZMA2_STATE_DATA_CONT => Decoder2.state d' = LZMA2_STATE_DATA_CONT
       | _ => False
       end).
Proof.
  split; [|split; [|split]].
  - intros. apply Decoder2_DecodeToDic_error; assumption.
  - intros dicLimit finishMode b rest d d1 HdL Hh Hlim HU.
    rewrite Decoder2_DecodeToDic_unfold.
    destruct (framer_fuel (b :: rest) dicLimit HdL) as [n ->].
    apply returning_Throw. apply bind_Raise.
    rewrite framer_while_step
      by (intros Hf; rewrite Hf in Hh; discriminate Hh).
    erewrite bind_Ok by (apply Decoder2_body_header; eassumption).
    rewrite framer_while_step by (cbn; congruence).
    apply bind_Raise. apply Decoder2_body_error. reflexivity.
  - intros dicLimit finishMode src d k b rest n d0 d1 Hp Hfuel Hh Hlim HU.
    rewrite Decoder2_DecodeToDic_unfold.
    apply returning_Throw. apply bind_Raise.
    set (N := Z.to_nat (2 * (Z.of_nat (length src) + dicLimit) + 4)) in *.
    replace N with (k + S (S (N - k - 2)))%nat by lia.
    rewrite (while_Decoder2_passes _ _ _ _ _ _ _ _ Hp).
    rewrite framer_while_step
      by (intros Hf; rewrite Hf in Hh; discriminate Hh).
    erewrite bind_Ok by (apply Decoder2_body_header; eassumption).
    rewrite framer_while_step by (cbn; congruence).
    apply bind_Raise. apply Decoder2_body_error. reflexivity.
  - intros dicLimit finishMode src d e d' H.
    rewrite Decoder2_DecodeToDic_unfold in H. unfold returning in H.
    unfold bind at 1 in H.
    destruct (while _ _ _ _ d) as [v s1 | e1 s1 | f] eqn:Hw; [discriminate H | | discriminate H].
    destruct e1 as [e1|b]; [|discriminate H]. inversion H; subst e1 s1. clear H.
    apply while_Raise_passes in Hw. destruct Hw as (k & v0 & d0 & Hp & Hn & Hb).
    exists k, v0, d0. split; [exact Hp|]. split; [exact Hb|].
    destruct (Decoder2.state d0) eqn:Est.
    1-6: exact (wp_Raise_inv _ _ _ _ _ _ _
                  (Decoder2_body_header_inv dicLimit finishMode v0 d0
                     ltac:(rewrite Est; reflexivity)) Hb).
    + pose proof (wp_Raise_inv _ _ _ _ _ _ _
                    (Decoder2_body_data dicLimit finishMode v0 d0 (or_introl Est)) Hb) as Ht.
      cbn in Ht. tauto.
    + pose proof (wp_Raise_inv _ _ _ _ _ _ _
                    (Decoder2_body_data dicLimit finishMode v0 d0 (or_intror Est)) Hb) as Ht.
      cbn in Ht. destruct Ht as [Ht | [_ Ht]]; [exact Ht | congruence].
    + congruence.
    + rewrite (Decoder2_body_error dicLimit finishMode v0 d0 Est) in Hb.
      inversion Hb; subst. split; [reflexivity|]. split; [reflexivity|].
      destruct k as [|k]; [left; reflexivity|]. right.
      apply Decoder2_passes_last in Hp. destruct Hp as (v1 & d2 & Hp & Hn2 & Hb2).
      destruct (header_state (Decoder2.state d2)) eqn:Hh.
      * pose proof (wp_Ok_inv _ _ _ _ _ _ _
                      (Decoder2_body_header_inv dicLimit finishMode v1 d2 Hh) Hb2)
          as (b & rest & n & st & d1 & -> & HU & Hd' & _).
        exists k, b, rest, n, d2, d1. split; [reflexivity|]. split; [exact Hp|].
        split; [exact Hh|]. subst d'. cbn in Est. subst st. split; [exact HU | reflexivity].
      * exfalso. unfold header_state in Hh.
        destruct (Decoder2.state d2) eqn:E2; try discriminate Hh.
        -- pose proof (wp_Ok_inv _ _ _ _ _ _ _
                         (Decoder2_body_data dicLimit finishMode v1 d2 (or_introl E2)) Hb2) as Ht.
           cbn in Ht. rewrite Est in Ht. destruct Ht; discriminate.
        -- pose proof (wp_Ok_inv _ _ _ _ _ _ _
                         (Decoder2_body_data dicLimit finishMode v1 d2 (or_intror E2)) Hb2) as Ht.
           cbn in Ht. rewrite Est in Ht. destruct Ht; discriminate.
        -- congruence.
        -- rewrite (Decoder2_body_error dicLimit finishMode v1 d2 E2) in Hb2. discriminate Hb2.
Qed.

(** The decoder of the examples: constructed with [prop = 0] on a dictionary
    of 16 bytes. *)
Definition example_setup : Res exn Decoder2.t unit :=
  Decoder2_setup (fun _ => 0) 0 (replicate 16 0) 16 zero_storage.

(** C2 fails as stated: an uncompressed chunk without dictionary reset at the
    start of a stream is a bad stream, the framer stays in the state Data, and the next
    call, given no input, returns [NeedsMoreInput]. *)
Lemma C2_counterexample :
  exists d d1 d2,
    example_setup = Ok tt d /\
    Decoder2_DecodeToDic 16 FinishMode_Any [2; 0; 0; 65] d = Raise BadStream d1 /\
    Decoder2.state d1 = LZMA2_STATE_DATA /\
    Decoder2_DecodeToDic 16 FinishMode_Any [] d1 = Ok (0, NeedsMoreInput) d2.
Proof.
  eexists. eexists. eexists.
  split; [vm_compute; reflexivity|].
  split; [vm_compute; reflexivity|].
  split; vm_compute; reflexivity.
Qed.

(** ** The test of [decoder_tests.cpp] *)

Definition test_str : list Z := [116; 101; 115; 116; 95; 115; 116; 114].

(** C9: the stream [01 00 07 "test_str" 00], decoded in one call with
    [prop = 0x18] into a buffer of 1024 bytes as [test_Lzma2Decode] does:
    the call returns [true], [destLen = 8], [srcLen = 12] and the status
    [FinishedWithMark], and the buffer starts with the 8 bytes "test_str". *)
Theorem C9_Lzma2Decode_test_str (storage : Decoder2.t) (junk : nat -> Z) (dest : list Z) :
  length dest = 1024%nat ->
  Lzma2Decode storage junk 1024 ([1; 0; 7] ++ test_str ++ [0]) 0x18 FinishMode_End dest
  = Ok (true, 8, 12, FinishedWithMark) (test_str ++ drop 8 dest).
Proof.
  intros Hlen.
  do 8 (destruct dest as [|? dest]; [discriminate Hlen|]).
  vm_compute. reflexivity.
Qed.

Lemma C9_witness :
  Lzma2Decode zero_storage (fun _ => 0) 1024 ([1; 0; 7] ++ test_str ++ [0]) 0x18 FinishMode_End
    (replicate 1024 0)
  = Ok (true, 8, 12, FinishedWithMark) (test_str ++ drop 8 (replicate 1024 0)).
Proof. apply (C9_Lzma2Decode_test_str zero_storage (fun _ => 0) (replicate 1024 0)). reflexivity. Defined.

Lemma C2_witness :
  (let d := Decoder2.set_state LZMA2_STATE_ERROR zero_storage in
   Decoder2_DecodeToDic 16 FinishMode_Any [0] d = Raise BadStream d) /\
  (exists d1,
     UpdateState 3 zero_storage = Ok LZMA2_STATE_ERROR d1 /\
     Decoder2_DecodeToDic 16 FinishMode_Any [3; 0] zero_storage
     = Raise BadStream (Decoder2.set_state LZMA2_STATE_ERROR d1)) /\
  (exists d0 d1,
     Decoder2_passes 16 FinishMode_Any 5 ([0xE0; 0; 0; 0; 0; 225; 7], 0) zero_storage
     = Some (([225; 7], 5), d0) /\
     UpdateState 225 d0 = Ok LZMA2_STATE_ERROR d1 /\
     Decoder2_DecodeToDic 16 FinishMode_Any [0xE0; 0; 0; 0; 0; 225; 7] zero_storage
     = Raise BadStream (Decoder2.set_state LZMA2_STATE_ERROR d1)) /\
  (exists d',
     Decoder2_DecodeToDic 16 FinishMode_Any [2; 0; 0; 65]
       (Decoder2.set_needInitDic true zero_storage) = Raise BadStream d' /\
     exists k v0 d0,
       Decoder2_passes 16 FinishMode_Any k ([2; 0; 0; 65], 0)
         (Decoder2.set_needInitDic true zero_storage) = Some (v0, d0) /\
       Decoder2_body 16 FinishMode_Any v0 d0 = Raise (Throw BadStream) d' /\
       match Decoder2.state d0 with
       | LZMA2_STATE_ERROR =>
           BadStream = BadStream /\ d' = d0 /\
           (k = 0%nat \/
            exists k' b rest n d2 d1,
              k = S k' /\
              Decoder2_passes 16 FinishMode_Any k' ([2; 0; 0; 65], 0)
                (Decoder2.set_needInitDic true zero_storage) = Some ((b :: rest, n), d2) /\
              header_state (Decoder2.state d2) = true /\
              UpdateState b d2 = Ok LZMA2_STATE_ERROR d1 /\
              d0 = Decoder2.set_state LZMA2_STATE_ERROR d1)
       | LZMA2_STATE_DATA =>
           Decoder2.state d' = LZMA2_STATE_DATA \/ Decoder2.state d' = LZMA2_STATE_DATA_CONT
       | LZMA2_STATE_DATA_CONT => Decoder2.state d' = LZMA2_STATE_DATA_CONT
       | _ => False
       end).
Proof.
  split; [|split; [|split]].
  - intros d. apply (proj1 C2_error_state_is_final); [lia | reflexivity].
  - eexists. split; [vm_compute; reflexivity|].
    apply (proj1 (proj2 C2_error_state_is_final)).
    + lia.
    + reflexivity.
    + left. cbn. lia.
    + vm_compute. reflexivity.
  - eexists. eexists. split; [vm_compute; reflexivity|]. split; [vm_compute; reflexivity|].
    eapply (proj1 (proj2 (proj2 C2_error_state_is_final)) 16 FinishMode_Any
              [0xE0; 0; 0; 0; 0; 225; 7] zero_storage 5%nat 225 [7] 5).
    + vm_compute. reflexivity.
    + vm_compute. lia.
    + reflexivity.
    + left. cbn. lia.
    + vm_compute. reflexivity.
  - eexists. split; [vm_compute; reflexivity|].
    apply (proj2 (proj2 (proj2 C2_error_state_is_final))).
    vm_compute. reflexivity.
Defined.

(** ** The range decoder, as functions of its registers *)

(** The registers after [NORMALIZE]: [None] when the byte to read is past the
    end of the buffer. *)
Definition normalized (inp : list Z) (range code buf : Z) : option (Z * Z * Z) :=
  if range <? kTopValue then
    match zlookup inp buf with
    | Some b => Some (u32 (Z.shiftl range 8), u32 (Z.lor (Z.shiftl code 8) b), buf + 1)
    | None => None
    end
  else Some (range, code, buf).

(** The locals with new values of what the range decoder writes. *)
Definition with_rc (range code buf bound ttt : Z) (probs trace : list Z) (r : L.t) : L.t :=
  {| L.state := L.state r; L.rep0 := L.rep0 r; L.rep1 := L.rep1 r; L.rep2 := L.rep2 r;
     L.rep3 := L.rep3 r; L.dicPos := L.dicPos r; L.processedPos := L.processedPos r;
     L.len := L.len r; L.buf := buf; L.range := range; L.code := code; L.bound := bound;
     L.ttt := ttt; L.probs := probs; L.dic := L.dic r; L.trace := trace |}.

Definition prob_up0 (p : Z) : Z := u32 (p + Z.shiftr (u32 (kBitModelTotal - p)) kNumMoveBits).
Definition prob_up1 (p : Z) : Z := u32 (p - Z.shiftr p kNumMoveBits).

Lemma NORMALIZE_eq inp r :
  NORMALIZE inp r =
  match normalized inp (L.range r) (L.code r) (L.buf r) with
  | Some (range, code, buf) =>
      Ok tt (with_rc range code buf (L.bound r) (L.ttt r) (L.probs r) (range :: L.trace r) r)
  | None => Fault BufOverrun
  end.
Proof.
  unfold NORMALIZE, normalized. destruct r; cbn.
  destruct (range <? kTopValue); [|reflexivity].
  destruct (zlookup inp buf); reflexivity.
Qed.

Lemma zinsert_Some {A} (l : list A) i v a :
  zlookup l i = Some a -> zinsert l i v = Some (<[Z.to_nat i := v]> l).
Proof. unfold zinsert. intros ->. reflexivity. Qed.

Lemma zinsert_None {A} (l : list A) i v : zlookup l i = None -> zinsert l i v = None.
Proof. unfold zinsert. intros ->. reflexivity. Qed.

(** [GET_BIT2] in one equation. *)
Lemma GET_BIT2_eq inp x i r :
  GET_BIT2 inp x i r =
  match zlookup (L.probs r) x with
  | None => Fault ProbIndex
  | Some p =>
      match normalized inp (L.range r) (L.code r) (L.buf r) with
      | None => Fault BufOverrun
      | Some (range, code, buf) =>
          let bound := u32 (Z.shiftr range kNumBitModelTotalBits * p) in
          if code <? bound then
            Ok (u32 (i + i), false)
               (with_rc bound code buf bound p (<[Z.to_nat x := prob_up0 p]> (L.probs r))
                  (range :: L.trace r) r)
          else
            Ok (u32 (i + i + 1), true)
               (with_rc (u32 (range - bound)) (u32 (code - bound)) buf bound p
                  (<[Z.to_nat x := prob_up1 p]> (L.probs r)) (range :: L.trace r) r)
      end
  end.
Proof.
  unfold GET_BIT2, isBit0, UPDATE_0, UPDATE_1, read_prob, write_prob.
  unfold bind at 1 2. destruct (zlookup (L.probs r) x) as [p|] eqn:Hp; [|reflexivity].
  unfold bind at 1 2, modify at 1. unfold bind at 1. rewrite NORMALIZE_eq.
  destruct r; cbn [L.range L.code L.buf L.set_ttt L.bound L.ttt L.probs L.trace] in *.
  destruct (normalized inp range code buf) as [[[range' code'] buf']|]; [|reflexivity].
  cbn. destruct (code' <? _); cbn; unfold bind, modify, gets, write_prob; cbn;
    erewrite zinsert_Some by exact Hp; reflexivity.
Qed.

Lemma direct_bit_eq inp distance r :
  direct_bit inp distance r =
  match normalized inp (L.range r) (L.code r) (L.buf r) with
  | None => Fault BufOverrun
  | Some (range, code, buf) =>
      let range1 := Z.shiftr range 1 in
      let code1 := u32 (code - range1) in
      let t := u32 (0 - Z.shiftr code1 31) in
      Ok (u32 (u32 (Z.shiftl distance 1) + u32 (t + 1)))
         (with_rc range1 (u32 (code1 + Z.land range1 t)) buf (L.bound r) (L.ttt r) (L.probs r)
            (range :: L.trace r) r)
  end.
Proof.
  unfold direct_bit. unfold bind at 1. rewrite NORMALIZE_eq.
  destruct r; cbn [L.range L.code L.buf L.bound L.ttt L.probs L.trace].
  destruct (normalized inp range code buf) as [[[range' code'] buf']|]; reflexivity.
Qed.

(** ** One bit of the range decoder *)

(** C5: [GET_BIT2] on the probability [prob] at [x]: with [range] and [code]
    as [NORMALIZE] leaves them, [bound = (range >> 11) * prob]; if
    [code < bound] the bit is 0, [range] becomes [bound] and [prob] becomes
    [prob + ((2048 - prob) >> 5)]; otherwise the bit is 1, [range] and [code]
    lose [bound] and [prob] becomes [prob - (prob >> 5)]; all modulo [2^32]. *)
Theorem C5_decode_bit (inp : list Z) (x i : Z) (r r1 : L.t) (prob : Z) :
  zlookup (L.probs r) x = Some prob ->
  NORMALIZE inp r = Ok tt r1 ->
  let range := L.range r1 in
  let code := L.code r1 in
  let bound := u32 (Z.shiftr range 11 * prob) in
  exists r2,
    GET_BIT2 inp x i r
    = Ok (if code <? bound then (u32 (i + i), false) else (u32 (i + i + 1), true)) r2 /\
    L.range r2 = (if code <? bound then bound else u32 (range - bound)) /\
    L.code r2 = (if code <? bound then code else u32 (code - bound)) /\
    zlookup (L.probs r2) x
    = Some (if code <? bound then u32 (prob + Z.shiftr (u32 (2048 - prob)) 5)
            else u32 (prob - Z.shiftr prob 5)) /\
    (forall y, y <> x -> zlookup (L.probs r2) y = zlookup (L.probs r) y) /\
    L.buf r2 = L.buf r1.
Proof.
  intros Hp Hn range code bound.
  rewrite NORMALIZE_eq in Hn. rewrite GET_BIT2_eq, Hp.
  destruct (normalized inp (L.range r) (L.code r) (L.buf r)) as [[[range' code'] buf']|];
    [|discriminate Hn].
  inversion Hn; subst r1. subst range code bound. cbn [with_rc L.range L.code L.buf].
  cbv zeta. change kNumBitModelTotalBits with 11.
  assert (Hx : 0 <= x /\ (Z.to_nat x < length (L.probs r))%nat).
  { unfold zlookup in Hp. destruct (x <? 0) eqn:E; [discriminate|].
    apply Z.ltb_ge in E. split; [exact E|]. eapply lookup_lt_Some. exact Hp. }
  assert (Hother : forall v y, y <> x ->
            zlookup (<[Z.to_nat x := v]> (L.probs r)) y = zlookup (L.probs r) y).
  { intros v y Hy. unfold zlookup. destruct (y <? 0) eqn:E; [reflexivity|].
    apply Z.ltb_ge in E. apply list_lookup_insert_ne. lia. }
  assert (Hsame : forall v, zlookup (<[Z.to_nat x := v]> (L.probs r)) x = Some v).
  { intros v. unfold zlookup. destruct (x <? 0) eqn:E; [apply Z.ltb_lt in E; lia|].
    apply list_lookup_insert_eq. tauto. }
  destruct (code' <? u32 (Z.shiftr range' 11 * prob)); eexists; (split; [reflexivity|]);
    cbn [with_rc L.range L.code L.buf L.probs]; repeat split; auto.
Qed.

Lemma C5_witness :
  exists r2,
    GET_BIT2 [] 0 1 (example_locals 0 0 1) = Ok (2, false) r2 /\
    L.range r2 = 2147482624 /\ L.code r2 = 0 /\ zlookup (L.probs r2) 0 = Some 1056.
Proof.
  destruct (C5_decode_bit [] 0 1 (example_locals 0 0 1) _ 1024 eq_refl eq_refl)
    as (r2 & H1 & H2 & H3 & H4 & _).
  exists r2. repeat split; assumption.
Defined.

(** ** What the range decoder leaves alone *)

(** The locals the range decoder does not write. *)
Definition ctx (r : L.t) : Z * Z * Z * Z * Z * Z * Z * Z * list Z :=
  (L.state r, L.rep0 r, L.rep1 r, L.rep2 r, L.rep3 r, L.dicPos r, L.processedPos r, L.len r,
   L.dic r).

Definition never {E St} : E -> St -> Prop := fun _ _ => False.

Lemma wp_frame {E A} (m : M E L.t A) (Q : A -> L.t -> Prop) QE F r :
  wp m (fun _ r' => ctx r' = ctx r) never any_fault r ->
  (forall a r', ctx r' = ctx r -> Q a r') ->
  (forall f, F f) ->
  wp m Q QE F r.
Proof. intros H HQ HF. eapply wp_mono; [exact H | auto | intros ? ? [] | auto]. Qed.

Lemma ctx_with_rc a b c d e f g r : ctx (with_rc a b c d e f g r) = ctx r.
Proof. reflexivity. Qed.

Lemma GET_BIT2_frame inp x i r :
  wp (GET_BIT2 inp x i) (fun _ r' => ctx r' = ctx r) never any_fault r.
Proof.
  unfold wp. rewrite GET_BIT2_eq.
  destruct (zlookup (L.probs r) x); [|exact I].
  destruct (normalized _ _ _ _) as [[[? ?] ?]|]; [|exact I].
  cbv zeta. destruct (_ <? _); reflexivity.
Qed.

Lemma GET_BIT_frame inp x i r :
  wp (GET_BIT inp x i) (fun _ r' => ctx r' = ctx r) never any_fault r.
Proof.
  unfold GET_BIT. apply wp_bind. eapply wp_post; [apply GET_BIT2_frame|].
  intros a r' H. exact H.
Qed.

Lemma isBit0_frame inp x r :
  wp (isBit0 inp x) (fun _ r' => ctx r' = ctx r) never any_fault r.
Proof.
  unfold isBit0, read_prob. apply wp_bind. unfold wp at 1.
  destruct (zlookup (L.probs r) x); [|exact I].
  apply wp_bind, wp_modify, wp_bind. unfold wp at 1. rewrite NORMALIZE_eq.
  destruct (normalized _ _ _ _) as [[[? ?] ?]|]; [|exact I].
  apply wp_bind, wp_modify, wp_gets. destruct r; reflexivity.
Qed.

Lemma UPDATE_0_frame x r :
  wp (UPDATE_0 x) (fun _ r' => ctx r' = ctx r) never any_fault r.
Proof.
  unfold UPDATE_0, write_prob. apply wp_bind, wp_modify, wp_bind, wp_gets. unfold wp.
  destruct (zinsert _ _ _); [|exact I]. destruct r; reflexivity.
Qed.


Lemma wp_dic_read this i (Q : Z -> L.t -> Prop) QE F r :
  (forall b, Q b r) -> F DicRead -> wp (dic_read this i) Q QE F r.
Proof.
  intros HQ HF. unfold wp, dic_read.
  destruct (_ && _); [|exact HF]. destruct (zlookup _ _); auto.
Qed.

Lemma wp_dic_write this i v (Q : unit -> L.t -> Prop) QE F r :
  (forall m, Q tt (L.set_dic m r)) -> F DicWrite -> wp (dic_write this i v) Q QE F r.
Proof.
  intros HQ HF. unfold wp, dic_write.
  destruct (_ && _); [|exact HF]. destruct (zinsert _ _ _); auto.
Qed.

(** ** The state after a literal *)

(** The spec's words: [state - min(state, 3)] below 4, [state - 3] otherwise. *)
Definition spec_literal_state (state : Z) : Z :=
  if state <? 4 then state - Z.min state 3 else state - 3.

(** What the code does (lines 511 and 523). *)
Definition literal_state (state : Z) : Z :=
  if state <? 4 then 0 else if state <? 10 then state - 3 else state - 6.

Lemma literal_spec inp this prob0 r :
  0 <= L.state r < 12 ->
  wp (literal inp this prob0)
     (fun _ r' => L.state r' = literal_state (L.state r) /\
                  L.dicPos r' = usize (L.dicPos r + 1) /\
                  L.processedPos r' = u32 (L.processedPos r + 1))
     never any_fault r.
Proof.
  intros Hst. unfold literal.
  apply wp_bind. eapply wp_frame; [apply UPDATE_0_frame | | exact (fun _ => I)].
  intros _ r1 H1. apply wp_bind, wp_get, wp_bind.
  assert (Hprob : forall (Q : Z -> L.t -> Prop) (m : M exn L.t Z),
             (forall p, Q p r1) ->
             (m = ret Literal \/ exists i f, m = (let* prev := dic_read this i in ret (f prev))) ->
             wp m Q never any_fault r1).
  { intros Q m HQ [-> | (i & f & ->)]; [apply wp_ret, HQ|].
    apply wp_bind, wp_dic_read; [|exact I]. intros b. apply wp_ret, HQ. }
  apply Hprob; [|destruct (_ || _); [right; eauto | left; reflexivity]].
  intros prob. clear Hprob. apply wp_bind.
  assert (Hc1 : L.state r1 = L.state r /\ L.dicPos r1 = L.dicPos r
                /\ L.processedPos r1 = L.processedPos r).
  { unfold ctx in H1. inversion H1. auto. }
  destruct Hc1 as (Hs1 & Hd1 & Hp1).
  assert (Hend : forall symbol r2,
    L.state r2 = literal_state (L.state r) -> L.dicPos r2 = L.dicPos r ->
    L.processedPos r2 = L.processedPos r ->
    wp (let* r := get in
        dic_write this (L.dicPos r) (symbol mod 256);;
        modify (fun r => L.set_dicPos (usize (L.dicPos r + 1)) r);;
        modify (fun r => L.set_processedPos (u32 (L.processedPos r + 1)) r))
      (fun _ r' => L.state r' = literal_state (L.state r) /\
                   L.dicPos r' = usize (L.dicPos r + 1) /\
                   L.processedPos r' = u32 (L.processedPos r + 1)) never any_fault r2).
  { intros symbol r2 E1 E2 E3. apply wp_bind, wp_get, wp_bind, wp_dic_write; [|exact I].
    intros m. apply wp_bind, wp_modify, wp_modify. destruct r2; cbn in *. subst. auto. }
  destruct (L.state r1 <? kNumLitStates) eqn:Elit.
  - apply wp_bind, wp_modify.
    set (r2 := L.set_state _ r1).
    assert (Hr2 : L.state r2 = literal_state (L.state r) /\ L.dicPos r2 = L.dicPos r
                  /\ L.processedPos r2 = L.processedPos r).
    { subst r2. destruct r1; cbn in *. subst. apply Z.ltb_lt in Elit. unfold kNumLitStates in Elit.
      unfold literal_state. repeat split.
      destruct (L.state r <? 4) eqn:E4.
      - rewrite Z.sub_diag. reflexivity.
      - apply Z.ltb_ge in E4. destruct (L.state r <? 10) eqn:E10; [|apply Z.ltb_ge in E10; lia].
        apply u32_small. lia. }
    eapply wp_post.
    + apply wp_do_while with (I := fun _ s => ctx s = ctx r2)
                             (Q := fun _ s => ctx s = ctx r2) (QE := never) (F := any_fault); [exact I | | reflexivity].
      intros a s Hs. apply wp_bind.
      eapply wp_frame; [apply GET_BIT_frame | | exact (fun _ => I)].
      intros a' s' Hs'. apply wp_ret. cbn [fst snd]. cbv beta in *.
      match goal with |- if ?c then _ else _ => destruct c end; congruence.
    + intros symbol s Hs. unfold ctx in Hs. inversion Hs.
      apply Hend; intuition congruence.
  - apply wp_bind, wp_dic_read; [|exact I]. intros matchByte.
    apply wp_bind, wp_modify.
    set (r2 := L.set_state _ r1).
    assert (Hr2 : L.state r2 = literal_state (L.state r) /\ L.dicPos r2 = L.dicPos r
                  /\ L.processedPos r2 = L.processedPos r).
    { subst r2. destruct r1; cbn in *. subst. apply Z.ltb_ge in Elit. unfold kNumLitStates in Elit.
      unfold literal_state. repeat split.
      destruct (L.state r <? 4) eqn:E4; [apply Z.ltb_lt in E4; lia|].
      destruct (L.state r <? 10) eqn:E10; apply u32_small; lia. }
    apply wp_bind.
    eapply wp_post.
    + apply wp_do_while with (I := fun _ s => ctx s = ctx r2)
                             (Q := fun _ s => ctx s = ctx r2) (QE := never) (F := any_fault); [exact I | | reflexivity].
      intros [[mb offs] sym] s Hs. apply wp_bind.
      eapply wp_frame; [apply GET_BIT2_frame | | exact (fun _ => I)].
      intros a' s' Hs'. apply wp_ret. cbn [fst snd]. cbv beta in *.
      match goal with |- if ?c then _ else _ => destruct c end; congruence.
    + intros res s Hs. apply wp_ret. unfold ctx in Hs. inversion Hs.
      apply Hend; intuition congruence.
Qed.

(** A pass of the loop that decodes a literal (the [IsMatch] bit is 0) and
    returns: it goes on, with [state = 0] when [state < 4], [state - 3] when
    [4 <= state < 10] and [state - 6] when [state >= 10], one byte further
    in the dictionary; it throws nothing. *)
Lemma symbol_literal_state (inp : list Z) (this : DecoderCore.t) (limit : Z) (r r1 : L.t) :
  0 <= L.state r < 12 ->
  isBit0 inp (IsMatch + Z.shiftl (L.state r) kNumPosBitsMax
              + Z.land (L.processedPos r) (pbMask this)) r = Ok true r1 ->
  match symbol inp this limit r with
  | Ok go r' =>
      go = true /\
      L.state r' = (if L.state r <? 4 then 0
                    else if L.state r <? 10 then L.state r - 3 else L.state r - 6) /\
      L.dicPos r' = usize (L.dicPos r + 1) /\
      L.processedPos r' = u32 (L.processedPos r + 1)
  | Raise _ _ => False
  | Fault _ => True
  end.
Proof.
  intros Hst Hbit.
  change (wp (symbol inp this limit)
    (fun go r' => go = true /\ L.state r' = literal_state (L.state r)
                  /\ L.dicPos r' = usize (L.dicPos r + 1)
                  /\ L.processedPos r' = u32 (L.processedPos r + 1)) never any_fault r).
  unfold symbol. apply wp_bind, wp_get. cbv zeta. apply wp_bind.
  eapply wp_Ok; [exact Hbit|]. cbv beta iota.
  pose proof (wp_Ok_inv _ _ _ _ _ _ _ (isBit0_frame inp _ r) Hbit) as Hf. cbv beta in Hf.
  unfold ctx in Hf. inversion Hf as [[Hs1 H2 H3 H4 H5 Hd1 Hp1 H8 H9]].
  apply wp_bind. eapply wp_post; [apply literal_spec; lia|].
  intros _ r' (Ha & Hb & Hc). apply wp_ret. rewrite Ha, Hb, Hc, Hs1, Hd1, Hp1. auto.
Qed.

(** C1 fails as stated: from [state = 10] a literal leaves [state = 4], and
    the spec's formula gives 7. *)
Lemma C1_counterexample :
  exists r1 r',
    isBit0 [0; 0; 0; 0]
      (IsMatch + Z.shiftl 10 kNumPosBitsMax + Z.land 1 (pbMask example_core))
      (example_locals 10 0 1) = Ok true r1 /\
    symbol [0; 0; 0; 0] example_core 16 (example_locals 10 0 1) = Ok true r' /\
    L.state r' = 4 /\
    L.state r' <> spec_literal_state (L.state (example_locals 10 0 1)).
Proof.
  eexists. eexists.
  split; [vm_compute; reflexivity|].
  split; [vm_compute; reflexivity|].
  split; [reflexivity|]. vm_compute. discriminate.
Qed.

(** ** The distance check of a match *)

(** The locals that the decoding of a length and of a distance leaves alone. *)
Definition ctx2 (r : L.t) : Z * Z * Z * Z * Z * Z * Z * list Z :=
  (L.state r, L.rep0 r, L.rep1 r, L.rep2 r, L.rep3 r, L.dicPos r, L.processedPos r, L.dic r).

Lemma ctx_ctx2 r r' : ctx r' = ctx r -> ctx2 r' = ctx2 r.
Proof. unfold ctx, ctx2. intros H. inversion H. congruence. Qed.

Lemma wp_frame2 {E A} (m : M E L.t A) (Q : A -> L.t -> Prop) QE F r :
  wp m (fun _ r' => ctx r' = ctx r) never any_fault r ->
  (forall a r', ctx2 r' = ctx2 r -> Q a r') ->
  (forall f, F f) ->
  wp m Q QE F r.
Proof. intros H HQ HF. eapply wp_frame; [exact H | | exact HF]. intros. apply HQ, ctx_ctx2. auto. Qed.






Lemma bind_get {E St B} (k : St -> M E St B) s : bind get k s = k s s.
Proof. reflexivity. Qed.

Lemma bind_modify {E St B} (f : St -> St) (k : unit -> M E St B) s :
  bind (modify f) k s = k tt (f s).
Proof. reflexivity. Qed.

Lemma bind_ret {E St A B} (a : A) (k : A -> M E St B) s : bind (ret a) k s = k a s.
Proof. reflexivity. Qed.

Lemma bind_gets {E St A B} (f : St -> A) (k : A -> M E St B) s : bind (gets f) k s = k (f s) s.
Proof. reflexivity. Qed.

Lemma ctx_state r r' : ctx r' = ctx r -> L.state r' = L.state r.
Proof. unfold ctx. intros H. inversion H. congruence. Qed.

Lemma ctx2_fields r r' :
  ctx2 r' = ctx2 r ->
  L.state r' = L.state r /\ L.processedPos r' = L.processedPos r /\
  L.dic r' = L.dic r /\ L.dicPos r' = L.dicPos r.
Proof. unfold ctx2. intros H. inversion H. auto. Qed.



(** Linear arithmetic with division and remainder by constants. *)
Ltac dlia := Z.div_mod_to_equations; lia.

(** ** The invariants of the range decoder *)

(** A probability counter stays between 31 and 2017: the fixed points of the
    two updates. *)
Definition prob_ok (p : Z) : Prop := 31 <= p <= 2017.

(** The first [n] entries of the probability array are counters. *)
Definition probs_ok (n : Z) (probs : list Z) : Prop :=
  forall i, 0 <= i < n -> exists p, zlookup probs i = Some p /\ prob_ok p.

(** Every value of the ghost trace: [range] after a [NORMALIZE]. *)
Definition trace_ok (t : list Z) : Prop := Forall (fun x => 2 ^ 24 <= x < 2 ^ 32) t.

(** Between two bits [range] has lost at most 11 bits to a counter. *)
Definition rc_inv (n : Z) (r : L.t) : Prop :=
  2 ^ 16 <= L.range r < 2 ^ 32 /\ probs_ok n (L.probs r) /\ trace_ok (L.trace r).

Lemma shiftr_11 x : Z.shiftr x 11 = x / 2048.
Proof. rewrite Z.shiftr_div_pow2 by lia. reflexivity. Qed.

Lemma shiftr_5 x : Z.shiftr x 5 = x / 32.
Proof. rewrite Z.shiftr_div_pow2 by lia. reflexivity. Qed.

Lemma shiftr_1 x : Z.shiftr x 1 = x / 2.
Proof. rewrite Z.shiftr_div_pow2 by lia. reflexivity. Qed.

Lemma shiftl_8 x : Z.shiftl x 8 = x * 256.
Proof. rewrite Z.shiftl_mul_pow2 by lia. reflexivity. Qed.

Lemma prob_up0_ok p : prob_ok p -> prob_ok (prob_up0 p).
Proof.
  unfold prob_ok, prob_up0, kBitModelTotal, kNumMoveBits. intros H.
  rewrite (u32_small (2048 - p)) by lia. rewrite shiftr_5.
  assert (0 <= (2048 - p) / 32 <= 63) by dlia.
  rewrite u32_small by lia. dlia.
Qed.

Lemma prob_up1_ok p : prob_ok p -> prob_ok (prob_up1 p).
Proof.
  unfold prob_ok, prob_up1, kNumMoveBits. intros H. rewrite shiftr_5.
  rewrite u32_small by dlia. dlia.
Qed.

(** [NORMALIZE] restores the top byte of [range]. *)
Lemma normalized_range inp range code buf range' code' buf' :
  2 ^ 16 <= range < 2 ^ 32 ->
  normalized inp range code buf = Some (range', code', buf') ->
  2 ^ 24 <= range' < 2 ^ 32 /\ buf <= buf' <= buf + 1.
Proof.
  unfold normalized, kTopValue. intros Hr.
  destruct (range <? 2 ^ 24) eqn:E.
  - apply Z.ltb_lt in E. destruct (zlookup inp buf); [|discriminate].
    intros H. inversion H; subst. rewrite shiftl_8. rewrite u32_small by lia. lia.
  - apply Z.ltb_ge in E. intros H. inversion H; subst. lia.
Qed.

(** The split of a normalized [range] by a counter. *)
Lemma bound_range range p :
  2 ^ 24 <= range < 2 ^ 32 -> prob_ok p ->
  let bound := u32 (Z.shiftr range kNumBitModelTotalBits * p) in
  bound = range / 2048 * p /\ 2 ^ 16 <= bound /\ bound < range /\ 2 ^ 16 <= range - bound.
Proof.
  unfold prob_ok, kNumBitModelTotalBits. intros Hr Hp. cbv zeta. rewrite shiftr_11.
  assert (8192 <= range / 2048 < 2097152) by dlia.
  assert (range / 2048 * 2048 <= range) by dlia.
  rewrite u32_small by nia. nia.
Qed.

Lemma zlookup_insert_eq {A} (l : list A) i v a :
  zlookup l i = Some a -> zlookup (<[Z.to_nat i := v]> l) i = Some v.
Proof.
  unfold zlookup. destruct (i <? 0); [discriminate|]. intros H.
  apply list_lookup_insert_eq. eapply lookup_lt_Some. exact H.
Qed.

Lemma zlookup_insert_ne {A} (l : list A) i j v :
  0 <= i -> i <> j -> zlookup (<[Z.to_nat i := v]> l) j = zlookup l j.
Proof.
  unfold zlookup. intros Hi Hne. destruct (j <? 0) eqn:E; [reflexivity|].
  apply Z.ltb_ge in E. apply list_lookup_insert_ne. lia.
Qed.

Lemma zlookup_nonneg {A} (l : list A) i a : zlookup l i = Some a -> 0 <= i.
Proof. unfold zlookup. destruct (i <? 0) eqn:E; [discriminate|]. apply Z.ltb_ge in E. auto. Qed.

Lemma probs_ok_insert n probs x p v :
  probs_ok n probs -> zlookup probs x = Some p -> prob_ok v ->
  probs_ok n (<[Z.to_nat x := v]> probs).
Proof.
  intros H Hx Hv i Hi. destruct (Z.eq_dec x i) as [->|Hne].
  - exists v. split; [eapply zlookup_insert_eq; exact Hx | exact Hv].
  - rewrite zlookup_insert_ne; [apply H; exact Hi | eapply zlookup_nonneg; exact Hx | exact Hne].
Qed.

(** ** The input a symbol can take

    A counter of at least 31 takes less than a factor 67 off a normalized
    [range], a direct bit less than a factor 201/100; [NORMALIZE] reads a
    byte when [range] is below [2^24].  With [jr] counter bits and [dr] direct
    bits to go and the input readable up to [E], the bytes suffice when
    [2^24 * 67^jr * (201/100)^dr <= range * 256^(E - buf)]. *)
Definition pot (E jr dr range buf : Z) : Prop :=
  0 <= buf <= E /\
  2 ^ 24 * 67 ^ jr * 201 ^ dr <= range * 256 ^ (E - buf) * 100 ^ dr.

Lemma pow_le_pow a b n : 0 <= n -> 0 < a <= b -> 0 < a ^ n <= b ^ n.
Proof.
  intros Hn Hab. split; [apply Z.pow_pos_nonneg; lia|].
  apply Z.pow_le_mono_l. lia.
Qed.

Lemma pot_shift E jr dr range buf :
  0 <= jr -> 0 <= dr -> 0 <= range < 2 ^ 24 ->
  pot E jr dr range buf -> buf < E /\ pot E jr dr (range * 256) (buf + 1).
Proof.
  unfold pot. intros Hj Hd Hr ((Hb0 & Hb1) & H).
  pose proof (pow_le_pow 100 201 dr Hd ltac:(lia)) as [H100 H201].
  assert (H67 : 0 < 67 ^ jr) by (apply Z.pow_pos_nonneg; lia).
  assert (Hlt : buf < E).
  { destruct (Z.eq_dec buf E) as [->|]; [|lia]. exfalso.
    rewrite Z.sub_diag, Z.pow_0_r, Z.mul_1_r in H.
    assert (2 ^ 24 * 100 ^ dr <= 2 ^ 24 * 67 ^ jr * 201 ^ dr) by nia.
    assert (range * 100 ^ dr < 2 ^ 24 * 100 ^ dr) by nia.
    lia. }
  split; [exact Hlt|]. split; [lia|].
  replace (E - buf) with (Z.succ (E - (buf + 1))) in H by lia.
  rewrite Z.pow_succ_r in H by lia. lia.
Qed.

Lemma pot_bit E jr dr range range' buf :
  0 <= jr -> 0 <= dr -> range <= range' * 67 ->
  pot E (jr + 1) dr range buf -> pot E jr dr range' buf.
Proof.
  unfold pot. intros Hj Hd Hr (Hb & H). split; [exact Hb|].
  replace (jr + 1) with (Z.succ jr) in H by lia. rewrite Z.pow_succ_r in H by lia.
  assert (HA : 0 <= 256 ^ (E - buf) * 100 ^ dr).
  { apply Z.mul_nonneg_nonneg; apply Z.pow_nonneg; lia. }
  assert (range * (256 ^ (E - buf) * 100 ^ dr) <= range' * 67 * (256 ^ (E - buf) * 100 ^ dr))
    by (apply Z.mul_le_mono_nonneg_r; assumption).
  nia.
Qed.

Lemma pot_direct E jr dr range range' buf :
  0 <= jr -> 0 <= dr -> range * 100 <= range' * 201 ->
  pot E jr (dr + 1) range buf -> pot E jr dr range' buf.
Proof.
  unfold pot. intros Hj Hd Hr (Hb & H). split; [exact Hb|].
  replace (dr + 1) with (Z.succ dr) in H by lia. rewrite !Z.pow_succ_r in H by lia.
  assert (HA : 0 <= 256 ^ (E - buf) * 100 ^ dr).
  { apply Z.mul_nonneg_nonneg; apply Z.pow_nonneg; lia. }
  assert (range * 100 * (256 ^ (E - buf) * 100 ^ dr) <= range' * 201 * (256 ^ (E - buf) * 100 ^ dr))
    by (apply Z.mul_le_mono_nonneg_r; assumption).
  nia.
Qed.

Lemma pot_weaken E jr dr jr' dr' range buf :
  0 <= jr' <= jr -> 0 <= dr' <= dr -> 0 <= range ->
  pot E jr dr range buf -> pot E jr' dr' range buf.
Proof.
  unfold pot. intros Hj Hd Hr (Hb & H). split; [exact Hb|].
  replace jr with (jr' + (jr - jr')) in H by lia.
  replace dr with (dr' + (dr - dr')) in H by lia.
  rewrite !Z.pow_add_r in H by lia.
  pose proof (pow_le_pow 100 201 (dr - dr') ltac:(lia) ltac:(lia)) as [H100 H201].
  assert (H67 : 0 < 67 ^ (jr - jr')) by (apply Z.pow_pos_nonneg; lia).
  assert (H67' : 0 < 67 ^ jr') by (apply Z.pow_pos_nonneg; lia).
  assert (H201' : 0 < 201 ^ dr') by (apply Z.pow_pos_nonneg; lia).
  assert (H100' : 0 < 100 ^ dr') by (apply Z.pow_pos_nonneg; lia).
  assert (H256 : 0 < 256 ^ (E - buf)) by (apply Z.pow_pos_nonneg; lia).
  set (a := 67 ^ jr') in *. set (b := 67 ^ (jr - jr')) in *.
  set (c := 201 ^ dr') in *. set (d := 201 ^ (dr - dr')) in *.
  set (e := 100 ^ dr') in *. set (f := 100 ^ (dr - dr')) in *.
  set (g := 256 ^ (E - buf)) in *.
  assert (H1 : 2 ^ 24 * a * c * f <= 2 ^ 24 * (a * b) * (c * d)).
  { assert (a * c * f <= a * b * (c * d)); [|lia].
    assert (a * c * f <= a * c * d) by (apply Z.mul_le_mono_nonneg_l; nia).
    assert (a * c * d * 1 <= a * c * d * b) by (apply Z.mul_le_mono_nonneg_l; nia).
    lia. }
  assert (H2 : (2 ^ 24 * a * c) * f <= (range * g * e) * f) by lia.
  apply Z.mul_le_mono_pos_r in H2; assumption.
Qed.

(** At the start of a symbol: 22 counter bits and 26 direct bits at most,
    21 bytes with the one the pending [NORMALIZE] may take. *)
Lemma pot_init E range buf :
  2 ^ 16 <= range -> 0 <= buf -> buf + 21 <= E -> pot E 22 26 range buf.
Proof.
  unfold pot. intros Hr Hb HE. split; [lia|].
  assert (H : 256 ^ 21 <= 256 ^ (E - buf)) by (apply Z.pow_le_mono_r; lia).
  assert (H0 : 2 ^ 24 * 67 ^ 22 * 201 ^ 26 <= 2 ^ 16 * 256 ^ 21 * 100 ^ 26)
    by (vm_compute; discriminate).
  assert (2 ^ 16 * 256 ^ 21 <= range * 256 ^ (E - buf)) by (apply Z.mul_le_mono_nonneg; lia).
  assert (2 ^ 16 * 256 ^ 21 * 100 ^ 26 <= range * 256 ^ (E - buf) * 100 ^ 26)
    by (apply Z.mul_le_mono_nonneg_r; [apply Z.pow_nonneg|]; lia).
  lia.
Qed.

Lemma zlookup_Some_lt {A} (l : list A) i :
  0 <= i < Z.of_nat (length l) -> exists a, zlookup l i = Some a.
Proof.
  intros Hi. unfold zlookup. destruct (i <? 0) eqn:E; [apply Z.ltb_lt in E; lia|].
  apply lookup_lt_is_Some_2. lia.
Qed.

Lemma zlookup_Some_bound {A} (l : list A) i a :
  zlookup l i = Some a -> 0 <= i < Z.of_nat (length l).
Proof.
  intros H. split; [eapply zlookup_nonneg; exact H|].
  unfold zlookup in H. destruct (i <? 0); [discriminate|].
  apply lookup_lt_Some in H. lia.
Qed.

(** [NORMALIZE] under the budget: it finds its byte. *)
Lemma normalized_pot inp E (G : Prop) jr dr range code buf :
  (G -> E <= Z.of_nat (length inp)) ->
  0 <= jr -> 0 <= dr -> 2 ^ 16 <= range < 2 ^ 32 ->
  (G -> pot E jr dr range buf) ->
  match normalized inp range code buf with
  | Some (range', code', buf') =>
      2 ^ 24 <= range' < 2 ^ 32 /\ buf <= buf' <= buf + 1 /\ (G -> pot E jr dr range' buf')
  | None => ~ G
  end.
Proof.
  intros HG Hj Hd Hr Hpot.
  destruct (normalized inp range code buf) as [[[range' code'] buf']|] eqn:Hn.
  - destruct (normalized_range _ _ _ _ _ _ _ Hr Hn) as [Hr' Hb]. split; [exact Hr'|].
    split; [exact Hb|]. intros g. specialize (Hpot g).
    unfold normalized, kTopValue in Hn. destruct (range <? 2 ^ 24) eqn:E24.
    + apply Z.ltb_lt in E24. destruct (zlookup inp buf); [|discriminate].
      inversion Hn; subst. rewrite shiftl_8, u32_small by lia.
      apply pot_shift; [assumption | assumption | lia | exact Hpot].
    + inversion Hn; subst. exact Hpot.
  - intros g. specialize (Hpot g). specialize (HG g).
    unfold normalized, kTopValue in Hn. destruct (range <? 2 ^ 24) eqn:E24; [|discriminate].
    apply Z.ltb_lt in E24.
    destruct (pot_shift E jr dr range buf Hj Hd ltac:(lia) Hpot) as [Hlt _].
    destruct Hpot as [Hb _].
    destruct (zlookup_Some_lt inp buf ltac:(lia)) as [a Ha]. rewrite Ha in Hn. discriminate.
Qed.

(** The walk invariant of the range decoder: the registers and the arrays
    are sound and, under [G], the input lasts. *)
Definition W (n E : Z) (G : Prop) (jr dr : Z) (r : L.t) : Prop :=
  rc_inv n r /\ (G -> pot E jr dr (L.range r) (L.buf r)).

(** A read past the input is a fault the budget excludes. *)
Definition rc_fault (G : Prop) (f : fault) : Prop := f = BufOverrun /\ ~ G.

(** One counter bit keeps the invariant; the index of its counter is below [n]. *)
Lemma GET_BIT2_walk inp n E (G : Prop) jr dr x i r :
  (G -> E <= Z.of_nat (length inp)) ->
  0 <= jr -> 0 <= dr -> 0 <= x < n ->
  W n E G (jr + 1) dr r ->
  wp (GET_BIT2 inp x i)
     (fun v r' => W n E G jr dr r' /\ ctx r' = ctx r /\ fst v = u32 (i + i + b2z (snd v)))
     never (rc_fault G) r.
Proof.
  intros HG Hj Hd Hx ((Hr & Hp & Ht) & Hpot). unfold wp. rewrite GET_BIT2_eq.
  destruct (Hp x Hx) as (p & Hpx & Hpok). rewrite Hpx.
  pose proof (normalized_pot inp E G (jr + 1) dr (L.range r) (L.code r) (L.buf r) HG
                ltac:(lia) Hd Hr Hpot) as Hn.
  destruct (normalized inp (L.range r) (L.code r) (L.buf r)) as [[[range code] buf]|];
    [|split; [reflexivity | exact Hn]].
  destruct Hn as (Hr' & Hb & Hpot').
  destruct (bound_range range p Hr' Hpok) as (Hbd & Hb1 & Hb2 & Hb3).
  cbv zeta. set (bound := u32 _) in *.
  assert (Ht' : trace_ok (range :: L.trace r)) by (constructor; [exact Hr' | exact Ht]).
  assert (Hshr : range <= bound * 67 /\ range <= (range - bound) * 67).
  { unfold prob_ok in Hpok. rewrite Hbd.
    assert (range / 2048 * 2048 <= range < range / 2048 * 2048 + 2048) by dlia.
    assert (8192 <= range / 2048) by dlia. nia. }
  destruct (code <? bound); cbn [with_rc fst snd b2z].
  - split; [|split; [reflexivity | f_equal; lia]].
    unfold W, rc_inv. cbn [with_rc L.range L.probs L.trace L.buf].
    split; [split; [lia|split; [|exact Ht']]|].
    + eapply probs_ok_insert; [exact Hp | exact Hpx | apply prob_up0_ok, Hpok].
    + intros g. eapply pot_bit; [exact Hj | exact Hd | | exact (Hpot' g)]. lia.
  - split; [|split; [reflexivity | reflexivity]].
    unfold W, rc_inv. cbn [with_rc L.range L.probs L.trace L.buf].
    rewrite u32_small by lia.
    split; [split; [lia|split; [|exact Ht']]|].
    + eapply probs_ok_insert; [exact Hp | exact Hpx | apply prob_up1_ok, Hpok].
    + intros g. eapply pot_bit; [exact Hj | exact Hd | | exact (Hpot' g)]. lia.
Qed.

Lemma GET_BIT_walk inp n E (G : Prop) jr dr x i r :
  (G -> E <= Z.of_nat (length inp)) ->
  0 <= jr -> 0 <= dr -> 0 <= x < n ->
  W n E G (jr + 1) dr r ->
  wp (GET_BIT inp x i)
     (fun v r' => W n E G jr dr r' /\ ctx r' = ctx r /\ (v = u32 (i + i) \/ v = u32 (i + i + 1)))
     never (rc_fault G) r.
Proof.
  intros HG Hj Hd Hx HW. unfold GET_BIT. apply wp_bind.
  eapply wp_post; [apply (GET_BIT2_walk inp n E G jr dr x i r); assumption|].
  intros [v b] r' (H1 & H2 & H3). apply wp_ret. cbn [fst snd] in *.
  split; [exact H1|]. split; [exact H2|]. destruct b; cbn [b2z] in H3; [right | left]; rewrite H3;
    f_equal; lia.
Qed.

(** One direct bit. *)
Lemma direct_bit_walk inp n E (G : Prop) jr dr distance r :
  (G -> E <= Z.of_nat (length inp)) ->
  0 <= jr -> 0 <= dr ->
  W n E G jr (dr + 1) r ->
  wp (direct_bit inp distance)
     (fun v r' => W n E G jr dr r' /\ ctx r' = ctx r /\ 0 <= v < 2 ^ 32)
     never (rc_fault G) r.
Proof.
  intros HG Hj Hd ((Hr & Hp & Ht) & Hpot). unfold wp. rewrite direct_bit_eq.
  pose proof (normalized_pot inp E G jr (dr + 1) (L.range r) (L.code r) (L.buf r) HG
                Hj ltac:(lia) Hr Hpot) as Hn.
  destruct (normalized inp (L.range r) (L.code r) (L.buf r)) as [[[range code] buf]|];
    [|split; [reflexivity | exact Hn]].
  destruct Hn as (Hr' & Hb & Hpot'). cbv zeta.
  split; [|split; [reflexivity | apply u32_range]].
  unfold W, rc_inv. cbn [with_rc L.range L.probs L.trace L.buf]. rewrite shiftr_1.
  assert (range / 2 * 2 <= range < range / 2 * 2 + 2) by dlia.
  split; [split; [lia | split; [exact Hp | constructor; [exact Hr' | exact Ht]]]|].
  intros g. eapply pot_direct; [exact Hj | exact Hd | | exact (Hpot' g)]. lia.
Qed.

(** The pattern of every probability-driven branch of [DecodeReal]:
    [if (isBit0(x)) { UPDATE_0(x); ... } else { UPDATE_1(x); ... }]. *)
Lemma isBit0_branch_eq {A} inp x (k0 k1 : M exn L.t A) r :
  (let* b := isBit0 inp x in if b then UPDATE_0 x;; k0 else UPDATE_1 x;; k1) r =
  (let* g := GET_BIT2 inp x 0 in if snd g then k1 else k0) r.
Proof.
  unfold GET_BIT2, bind.
  destruct (isBit0 inp x r) as [[] r1 | |]; [| |reflexivity|reflexivity].
  - destruct (UPDATE_0 x r1); reflexivity.
  - destruct (UPDATE_1 x r1); reflexivity.
Qed.

Lemma bind_assoc {E St A B C} (m : M E St A) (f : A -> M E St B) (g : B -> M E St C) s :
  bind (bind m f) g s = bind m (fun a => bind (f a) g) s.
Proof. unfold bind. destruct (m s); reflexivity. Qed.

Lemma bind_ext {E St A B} (m : M E St A) (f g : A -> M E St B) s :
  (forall a s', f a s' = g a s') -> bind m f s = bind m g s.
Proof. intros H. unfold bind. destruct (m s); auto. Qed.

Section Branch.

Context {A : Type} (inp : list Z) (x : Z) (P : bool -> L.t -> Prop) (F0 F : fault -> Prop)
  (Q : A -> L.t -> Prop) (QE : exn -> L.t -> Prop) (r : L.t).
Hypothesis Hbit : wp (GET_BIT2 inp x 0) (fun v r' => P (snd v) r') never F0 r.
Hypothesis HF : forall f, F0 f -> F f.

Lemma wp_isBit0_branch (k0 k1 : M exn L.t A) :
  (forall r', P false r' -> wp k0 Q QE F r') ->
  (forall r', P true r' -> wp k1 Q QE F r') ->
  wp (let* b := isBit0 inp x in if b then UPDATE_0 x;; k0 else UPDATE_1 x;; k1) Q QE F r.
Proof.
  intros H0 H1. unfold wp at 1. rewrite isBit0_branch_eq.
  fold (wp (let* g := GET_BIT2 inp x 0 in if snd g then k1 else k0) Q QE F r).
  apply wp_bind. eapply wp_mono; [exact Hbit | | intros ? ? [] | exact HF].
  intros [i b] r' HP. cbn [snd] in *. destruct b; auto.
Qed.

(** The same for a continuation given by its two branches. *)
Lemma wp_isBit0_k (k : bool -> M exn L.t A) (k0 k1 : M exn L.t A) :
  (forall s, k true s = (UPDATE_0 x;; k0) s) ->
  (forall s, k false s = (UPDATE_1 x;; k1) s) ->
  (forall r', P false r' -> wp k0 Q QE F r') ->
  (forall r', P true r' -> wp k1 Q QE F r') ->
  wp (let* b := isBit0 inp x in k b) Q QE F r.
Proof.
  intros E0 E1 H0 H1.
  assert (Heq : (let* b := isBit0 inp x in k b) r =
                (let* b := isBit0 inp x in if b then UPDATE_0 x;; k0 else UPDATE_1 x;; k1) r).
  { apply bind_ext. intros [] s; [exact (E0 s) | exact (E1 s)]. }
  unfold wp. rewrite Heq. apply wp_isBit0_branch; assumption.
Qed.

Lemma wp_isBit0_bind {B} (a0 a1 : M exn L.t B) (k : B -> M exn L.t A) :
  (forall r', P false r' -> wp (let* c := a0 in k c) Q QE F r') ->
  (forall r', P true r' -> wp (let* c := a1 in k c) Q QE F r') ->
  wp (let* b := isBit0 inp x in
      let* c := (if b then UPDATE_0 x;; a0 else UPDATE_1 x;; a1) in k c) Q QE F r.
Proof.
  intros H0 H1.
  apply (wp_isBit0_k
           (fun b => let* c := (if b then UPDATE_0 x;; a0 else UPDATE_1 x;; a1) in k c)
           (let* c := a0 in k c) (let* c := a1 in k c)); try assumption.
  - intros s. apply bind_assoc.
  - intros s. apply bind_assoc.
Qed.

End Branch.

(** A postcondition may use the result as an equation. *)
Lemma wp_self {E St A} (m : M E St A) (Q : A -> St -> Prop) QE F s :
  wp m Q QE F s -> wp m (fun a s' => Q a s' /\ m s = Ok a s') QE F s.
Proof. unfold wp. destruct (m s); auto. Qed.

(** A loop whose fuel covers its measure when [G] holds. *)
Lemma wp_do_while_fuel_G {E St A} (G : Prop) (body : A -> M E St (A * bool))
    (I Q : A -> St -> Prop) (mu : A -> St -> nat) (QE : E -> St -> Prop) (F : fault -> Prop) :
  (~ G -> F OutOfFuel) ->
  (forall a s, I a s ->
     wp (body a) (fun r s' => if snd r then I (fst r) s' /\ (G -> (mu (fst r) s' < mu a s)%nat)
                              else Q (fst r) s') QE F s) ->
  forall n a s, I a s -> (G -> (mu a s <= n)%nat) -> wp (do_while (S n) body a) Q QE F s.
Proof.
  intros HF Hstep n. induction n as [|n IH]; intros a s HI Hmu.
  - cbn [do_while]. apply wp_bind. eapply wp_mono; [apply Hstep; exact HI | | auto | auto].
    intros [a' []] s' Hc; cbn [fst snd] in *; [|exact Hc].
    apply HF. intros g. destruct Hc as [_ Hc]. specialize (Hc g). specialize (Hmu g). lia.
  - change (do_while (S (S n)) body a)
      with (let* r := body a in if snd r then do_while (S n) body (fst r) else ret (fst r)).
    apply wp_bind. eapply wp_mono; [apply Hstep; exact HI | | auto | auto].
    intros [a' []] s' Hc; cbn [fst snd] in *; [|exact Hc].
    destruct Hc as [HI' Hc]. apply IH; [exact HI'|].
    intros g. specialize (Hc g). specialize (Hmu g). lia.
Qed.

Lemma W_weaken n E (G : Prop) jr dr jr' dr' r :
  0 <= jr' <= jr -> 0 <= dr' <= dr -> W n E G jr dr r -> W n E G jr' dr' r.
Proof.
  intros Hj Hd (Hrc & Hpot). split; [exact Hrc|]. intros g.
  eapply pot_weaken; [exact Hj | exact Hd | | exact (Hpot g)].
  destruct Hrc as ((? & _) & _). lia.
Qed.

(** Seven direct bits cost more than one counter bit. *)
Lemma pot_convert E jr dr range buf :
  0 <= jr -> 0 <= dr -> 0 <= range ->
  pot E jr (dr + 7) range buf -> pot E (jr + 1) dr range buf.
Proof.
  unfold pot. intros Hj Hd Hr (Hb & H). split; [exact Hb|].
  rewrite Z.pow_add_r in H by lia. rewrite (Z.pow_add_r 100) in H by lia.
  rewrite (Z.pow_add_r 67) by lia.
  assert (H67 : 0 < 67 ^ jr) by (apply Z.pow_pos_nonneg; lia).
  assert (H201 : 0 < 201 ^ dr) by (apply Z.pow_pos_nonneg; lia).
  assert (H100 : 0 < 100 ^ dr) by (apply Z.pow_pos_nonneg; lia).
  assert (H256 : 0 < 256 ^ (E - buf)) by (apply Z.pow_pos_nonneg; lia).
  assert (Hc : 67 ^ 1 * 100 ^ 7 <= 201 ^ 7) by (vm_compute; discriminate).
  set (a := 67 ^ jr) in *. set (c := 201 ^ dr) in *. set (e := 100 ^ dr) in *.
  set (g := 256 ^ (E - buf)) in *.
  assert (H1 : 2 ^ 24 * (a * 67 ^ 1) * c * 100 ^ 7 <= 2 ^ 24 * a * (c * 201 ^ 7)).
  { assert (a * c * (67 ^ 1 * 100 ^ 7) <= a * c * 201 ^ 7)
      by (apply Z.mul_le_mono_nonneg_l; nia).
    lia. }
  assert (H2 : (2 ^ 24 * (a * 67 ^ 1) * c) * 100 ^ 7 <= (range * g * e) * 100 ^ 7) by lia.
  apply Z.mul_le_mono_pos_r in H2; [exact H2 | reflexivity].
Qed.

Lemma W_convert n E (G : Prop) jr dr r :
  0 <= jr -> 0 <= dr -> W n E G jr (dr + 7) r -> W n E G (jr + 1) dr r.
Proof.
  intros Hj Hd (Hrc & Hpot). split; [exact Hrc|]. intros g.
  apply pot_convert; [exact Hj | exact Hd | | exact (Hpot g)].
  destruct Hrc as ((? & _) & _). lia.
Qed.

(** ** The walk through one symbol *)

(** A step down a bit tree. *)
Lemma tree_step i i' k :
  1 <= i < 2 ^ k -> 1 <= k <= 30 -> i' = u32 (i + i) \/ i' = u32 (i + i + 1) ->
  (i' = 2 * i \/ i' = 2 * i + 1) /\ Z.log2 i' = Z.log2 i + 1 /\ 0 <= Z.log2 i < k /\
  (i' < 2 ^ k <-> Z.log2 i + 1 < k) /\ 2 <= i' < 2 * 2 ^ k.
Proof.
  intros Hi Hk Hi'.
  assert (H30 : 2 ^ k <= 2 ^ 30) by (apply Z.pow_le_mono_r; lia).
  change (2 ^ 30) with 1073741824 in H30.
  assert (Hv : i' = 2 * i \/ i' = 2 * i + 1).
  { destruct Hi' as [-> | ->]; rewrite u32_small by lia; lia. }
  assert (Hl : Z.log2 i' = Z.log2 i + 1).
  { destruct Hv as [-> | ->]; [rewrite Z.log2_double | rewrite Z.log2_succ_double]; lia. }
  assert (Hl0 : 0 <= Z.log2 i < k).
  { split; [apply Z.log2_nonneg | apply Z.log2_lt_pow2; lia]. }
  split; [exact Hv|]. split; [exact Hl|]. split; [exact Hl0|]. split; [|lia].
  rewrite <- Hl. apply Z.log2_lt_pow2. lia.
Qed.

(** The faults that the walk does not exclude: a read from the dictionary
    that misses it; a read past the input unless the input is known to last
    ([Gi]); a write outside the dictionary or a loop that outlasts its fuel
    unless the caller's contract on the dictionary holds ([Gd]). *)
Definition walk_fault (Gi Gd : Prop) (f : fault) : Prop :=
  (~ Gd /\ f = DicRead) \/ (~ Gi /\ f = BufOverrun) \/
  (~ Gd /\ (f = DicWrite \/ f = OutOfFuel)).

Lemma rc_walk_fault (Gi Gd : Prop) f : rc_fault Gi f -> walk_fault Gi Gd f.
Proof. intros [-> H]. right. left. split; [exact H | reflexivity]. Qed.

Definition byte (b : Z) : Prop := 0 <= b < 256.

Definition props_ok (p : Properties) : Prop :=
  0 <= lc p /\ 0 <= lp p /\ lc p + lp p <= 4 /\ 0 <= pb p <= 4.

(** The length of the part of the probability array that [InitStateReal]
    initializes. *)
Definition numProbs (this : DecoderCore.t) : Z :=
  Literal + LZMA_LIT_SIZE * 2 ^ (lc (DecoderCore.m_properties this)
                                 + lp (DecoderCore.m_properties this)).

Lemma numProbs_bounds this :
  props_ok (DecoderCore.m_properties this) ->
  Literal + 768 <= numProbs this /\ numProbs this <= 14134.
Proof.
  unfold props_ok, numProbs, LZMA_LIT_SIZE. intros (H1 & H2 & H3 & _).
  set (p := DecoderCore.m_properties this) in *.
  assert (1 <= 2 ^ (lc p + lp p) <= 2 ^ 4).
  { split; [apply (Z.pow_le_mono_r 2 0); lia | apply Z.pow_le_mono_r; lia]. }
  change (2 ^ 4) with 16 in *. change Literal with 1846. lia.
Qed.

Lemma wp_dic_read' this i (Q : Z -> L.t -> Prop) QE F r :
  (forall b, zlookup (L.dic r) i = Some b -> 0 <= i < dicBufSize this -> Q b r) ->
  F DicRead -> wp (dic_read this i) Q QE F r.
Proof.
  intros HQ HF. unfold wp, dic_read.
  destruct (_ && _) eqn:E; [|exact HF].
  apply andb_true_iff in E. destruct E as [E1 E2]. apply Z.leb_le in E1. apply Z.ltb_lt in E2.
  destruct (zlookup _ _) eqn:El; auto.
Qed.

Lemma wp_dic_write' this (G : Prop) i v (Q : unit -> L.t -> Prop) QE (F : fault -> Prop) r :
  (forall a, zlookup (L.dic r) i = Some a -> 0 <= i < dicBufSize this ->
             Q tt (L.set_dic (<[Z.to_nat i := v]> (L.dic r)) r)) ->
  (~ G -> F DicWrite) ->
  (G -> 0 <= i < dicBufSize this /\ i < Z.of_nat (length (L.dic r))) ->
  wp (dic_write this i v) Q QE F r.
Proof.
  intros HQ HF HG. unfold wp, dic_write.
  destruct (_ && _) eqn:E.
  - apply andb_true_iff in E. destruct E as [E1 E2]. apply Z.leb_le in E1. apply Z.ltb_lt in E2.
    unfold zinsert. destruct (zlookup _ _) eqn:El; [eauto|].
    apply HF. intros g. destruct (HG g) as [_ Hlen].
    destruct (zlookup_Some_lt (L.dic r) i ltac:(lia)) as [a Ha]. congruence.
  - apply HF. intros g. destruct (HG g) as [Hi _].
    apply andb_false_iff in E. destruct E as [E | E]; [apply Z.leb_gt in E | apply Z.ltb_ge in E];
      lia.
Qed.

Lemma Forall_byte_lookup l i b : Forall byte l -> zlookup l i = Some b -> byte b.
Proof.
  unfold zlookup. intros H. destruct (i <? 0); [discriminate|]. intros Hl.
  eapply Forall_lookup_1; eassumption.
Qed.

(** From a computation that throws nothing. *)
Lemma wp_never {E St A} (m : M E St A) (Q Q' : A -> St -> Prop) (QE : E -> St -> Prop)
    (F0 F : fault -> Prop) s :
  wp m Q never F0 s -> (forall a s', Q a s' -> Q' a s') -> (forall f, F0 f -> F f) ->
  wp m Q' QE F s.
Proof. intros H HQ HF. eapply wp_mono; [exact H | exact HQ | intros ? ? [] | exact HF]. Qed.

Lemma ctx_fields r r' :
  ctx r' = ctx r ->
  L.state r' = L.state r /\ L.rep0 r' = L.rep0 r /\ L.rep1 r' = L.rep1 r /\
  L.rep2 r' = L.rep2 r /\ L.rep3 r' = L.rep3 r /\ L.dicPos r' = L.dicPos r /\
  L.processedPos r' = L.processedPos r /\ L.len r' = L.len r /\ L.dic r' = L.dic r.
Proof. unfold ctx. intros H. inversion H. repeat split; assumption. Qed.

(** What the invariant of the range decoder reads. *)
Definition rcv (r : L.t) : Z * Z * list Z * list Z := (L.range r, L.buf r, L.probs r, L.trace r).

Lemma W_ext n E (G : Prop) jr dr r r' : rcv r' = rcv r -> W n E G jr dr r -> W n E G jr dr r'.
Proof.
  unfold rcv, W, rc_inv. intros H. inversion H as [[H1 H2 H3 H4]]. rewrite H1, H2, H3, H4. auto.
Qed.

Lemma land_256 a : Z.land a 256 = 0 \/ Z.land a 256 = 256.
Proof.
  destruct (Z.testbit a 8) eqn:E; [right | left]; apply Z.bits_inj'; intros n Hn;
    rewrite Z.land_spec; change 256 with (2 ^ 8); rewrite Z.pow2_bits_eqb by lia.
  - destruct (Z.eqb_spec 8 n) as [<-|]; [rewrite E; reflexivity | apply andb_false_r].
  - rewrite Z.bits_0. destruct (Z.eqb_spec 8 n) as [<-|]; [rewrite E; reflexivity | apply andb_false_r].
Qed.

(** The index of the literal coder stays inside its [2^(lc+lp)] tables. *)
Lemma lit_index pp prev lc lp :
  0 <= lc -> 0 <= lp -> lc + lp <= 4 -> byte prev ->
  let v := u32 (LZMA_LIT_SIZE *
             u32 (u32 (Z.shiftl (Z.land pp (u32 (u32 (Z.shiftl 1 lp) - 1))) lc)
                  + Z.shiftr prev (8 - lc))) in
  0 <= v /\ v + 768 <= 768 * 2 ^ (lc + lp).
Proof.
  unfold byte, LZMA_LIT_SIZE. intros Hlc Hlp Hsum Hprev. cbv zeta.
  rewrite Z.shiftl_1_l.
  assert (Hm : 1 <= 2 ^ lp <= 2 ^ 4).
  { split; [apply (Z.pow_le_mono_r 2 0); lia | apply Z.pow_le_mono_r; lia]. }
  assert (Hc : 1 <= 2 ^ lc <= 2 ^ 4).
  { split; [apply (Z.pow_le_mono_r 2 0); lia | apply Z.pow_le_mono_r; lia]. }
  change (2 ^ 4) with 16 in *.
  rewrite (u32_small (2 ^ lp)) by lia. rewrite (u32_small (2 ^ lp - 1)) by lia.
  replace (2 ^ lp - 1) with (Z.ones lp) by (rewrite Z.ones_equiv; lia).
  rewrite Z.land_ones by lia.
  assert (H1 : 0 <= pp mod 2 ^ lp < 2 ^ lp) by (apply Z.mod_pos_bound; lia).
  rewrite Z.shiftl_mul_pow2 by lia. rewrite Z.shiftr_div_pow2 by lia.
  assert (H2 : 0 <= prev / 2 ^ (8 - lc) < 2 ^ lc).
  { assert (0 < 2 ^ (8 - lc)) by (apply Z.pow_pos_nonneg; lia).
    split; [apply Z.div_pos; lia|]. apply Z.div_lt_upper_bound; [lia|].
    rewrite <- Z.pow_add_r by lia. replace (8 - lc + lc) with 8 by lia. lia. }
  rewrite Z.pow_add_r by lia.
  assert (H3 : 0 <= pp mod 2 ^ lp * 2 ^ lc <= (2 ^ lp - 1) * 2 ^ lc) by nia.
  assert (H4 : (2 ^ lp - 1) * 2 ^ lc + 2 ^ lc = 2 ^ lc * 2 ^ lp) by lia.
  assert (H5 : 2 ^ lc * 2 ^ lp <= 16).
  { rewrite <- Z.pow_add_r by lia. change 16 with (2 ^ 4). apply Z.pow_le_mono_r; lia. }
  rewrite (u32_small (pp mod 2 ^ lp * 2 ^ lc)) by lia.
  rewrite (u32_small (_ + _)) by lia. rewrite u32_small by lia. lia.
Qed.

Ltac kon c := let v := eval vm_compute in c in change c with v in *.

(** The offsets of the probability tables, as numbers. *)
Ltac konsts :=
  kon kNumPosBitsMax; kon kNumPosStatesMax; kon kLenNumLowBits; kon kLenNumLowSymbols;
  kon kLenNumMidBits; kon kLenNumMidSymbols; kon kLenNumHighBits; kon kLenNumHighSymbols;
  kon LenChoice; kon LenChoice2; kon LenLow; kon LenMid; kon LenHigh; kon kNumLenProbs;
  kon kNumStates; kon kNumLitStates; kon kStartPosModelIndex; kon kEndPosModelIndex;
  kon kNumFullDistances; kon kNumPosSlotBits; kon kNumLenToPosStates; kon kNumAlignBits;
  kon kMatchMinLen; kon kMatchSpecLenStart; kon IsMatch; kon IsRep; kon IsRepG0; kon IsRepG1;
  kon IsRepG2; kon IsRep0Long; kon PosSlot; kon SpecPos; kon Align; kon LenCoder;
  kon RepLenCoder; kon Literal; kon LZMA_LIT_SIZE.

Lemma shiftl_3 x : Z.shiftl x 3 = x * 8.
Proof. rewrite Z.shiftl_mul_pow2 by lia. reflexivity. Qed.

Lemma shiftl_4 x : Z.shiftl x 4 = x * 16.
Proof. rewrite Z.shiftl_mul_pow2 by lia. reflexivity. Qed.

Lemma shiftl_6 x : Z.shiftl x 6 = x * 64.
Proof. rewrite Z.shiftl_mul_pow2 by lia. reflexivity. Qed.

Lemma bind_seq_assoc {E St A B C} (m : M E St A) (f : M E St B) (g : B -> M E St C) s :
  bind (m;; f) g s = (m;; bind f g) s.
Proof. apply bind_assoc. Qed.

Lemma bind_seq_assoc2 {E St A B C D} (m : M E St A) (f : M E St B) (g : B -> M E St C)
    (h : C -> M E St D) s :
  bind (bind (m;; f) g) h s = (m;; bind (bind f g) h) s.
Proof. unfold bind. destruct (m s); reflexivity. Qed.

Lemma wp_assoc {E St A B C} (m : M E St A) (f : A -> M E St B) (g : B -> M E St C) Q QE F s :
  wp (bind m (fun a => bind (f a) g)) Q QE F s -> wp (bind (bind m f) g) Q QE F s.
Proof. unfold wp. rewrite bind_assoc. auto. Qed.

Lemma spec_pos_index d :
  4 <= d < 14 ->
  1 <= Z.shiftr d 1 - 1 <= 5 /\
  -1 <= u32 (Z.shiftl (Z.lor 2 (Z.land d 1)) (Z.shiftr d 1 - 1)) - d - 1 /\
  u32 (Z.shiftl (Z.lor 2 (Z.land d 1)) (Z.shiftr d 1 - 1)) - d - 1
  + 2 ^ (Z.shiftr d 1 - 1) <= 114.
Proof.
  intros H.
  assert (Hd : d = 4 \/ d = 5 \/ d = 6 \/ d = 7 \/ d = 8 \/ d = 9 \/ d = 10 \/ d = 11 \/
               d = 12 \/ d = 13) by lia.
  repeat (destruct Hd as [-> | Hd]); [..|subst d]; vm_compute; repeat split;
    intros H0; discriminate H0.
Qed.

(** The same for any fuel above the measure. *)
Lemma wp_do_while_fuel_lt {E St A} (G : Prop) (body : A -> M E St (A * bool))
    (I Q : A -> St -> Prop) (mu : A -> St -> nat) (QE : E -> St -> Prop) (F : fault -> Prop) :
  (~ G -> F OutOfFuel) ->
  (forall a s, I a s ->
     wp (body a) (fun r s' => if snd r then I (fst r) s' /\ (G -> (mu (fst r) s' < mu a s)%nat)
                              else Q (fst r) s') QE F s) ->
  forall n a s, I a s -> (G -> (mu a s < n)%nat) -> wp (do_while n body a) Q QE F s.
Proof.
  intros HF Hstep [|n] a s HI Hmu.
  - apply HF. intros g. specialize (Hmu g). lia.
  - eapply wp_do_while_fuel_G; try eassumption. intros g. specialize (Hmu g). lia.
Qed.

(** The literal branch after its [UPDATE_0] (lines 503-538). *)
Definition literal_tail (inp : list Z) (this : DecoderCore.t) : M exn L.t unit :=
  ltac:(let t := eval cbv delta [literal] beta in (literal inp this 0) in
        match t with bind _ (fun _ => ?k) => exact k end).

Lemma literal_eq inp this prob0 :
  literal inp this prob0 = (UPDATE_0 prob0;; literal_tail inp this).
Proof. reflexivity. Qed.

Lemma posState_bound pp this :
  props_ok (DecoderCore.m_properties this) -> 0 <= Z.land pp (pbMask this) < 16.
Proof.
  unfold props_ok, pbMask. intros (_ & _ & _ & Hpb). rewrite Z.shiftl_1_l.
  set (n := pb (DecoderCore.m_properties this)) in *.
  assert (Hm : 1 <= 2 ^ n <= 2 ^ 4).
  { split; [apply (Z.pow_le_mono_r 2 0); lia | apply Z.pow_le_mono_r; lia]. }
  change (2 ^ 4) with 16 in Hm.
  rewrite (u32_small (2 ^ n)) by lia. rewrite u32_small by lia.
  replace (2 ^ n - 1) with (Z.ones n) by (rewrite Z.ones_equiv; lia).
  rewrite Z.land_ones by lia.
  pose proof (Z.mod_pos_bound pp (2 ^ n) ltac:(lia)). lia.
Qed.

(** ** Relations that every step of a computation keeps *)

Section Preserves.

Context {St : Type} (Rel : St -> St -> Prop).
Hypothesis Rel_refl : forall s, Rel s s.
Hypothesis Rel_trans : forall a b c, Rel a b -> Rel b c -> Rel a c.

(** Every run of [m] that ends, normally or by an exit, ends in a state
    related to the one it started from. *)
Definition preserves {E A} (m : M E St A) : Prop :=
  forall s, match m s with
            | Ok _ s' => Rel s s'
            | Raise _ s' => Rel s s'
            | Fault _ => True
            end.

Lemma preserves_ret {E A} (a : A) : preserves (ret a : M E St A).
Proof. intros s. apply Rel_refl. Qed.

Lemma preserves_get {E} : preserves (get : M E St St).
Proof. intros s. apply Rel_refl. Qed.

Lemma preserves_gets {E A} (f : St -> A) : preserves (gets f : M E St A).
Proof. intros s. apply Rel_refl. Qed.

Lemma preserves_raise {E A} (e : E) : preserves (raise e : M E St A).
Proof. intros s. apply Rel_refl. Qed.

Lemma preserves_fail {E A} (f : fault) : preserves (fail f : M E St A).
Proof. intros s. exact I. Qed.

Lemma preserves_modify {E} (f : St -> St) :
  (forall s, Rel s (f s)) -> preserves (modify f : M E St unit).
Proof. intros H s. apply H. Qed.

Lemma preserves_bind {E A B} (m : M E St A) (k : A -> M E St B) :
  preserves m -> (forall a, preserves (k a)) -> preserves (bind m k).
Proof.
  intros Hm Hk s. specialize (Hm s). unfold bind. destruct (m s) as [a s1 | e s1 | f]; auto.
  specialize (Hk a s1). destruct (k a s1); eauto.
Qed.

Lemma preserves_do_while {E A} (body : A -> M E St (A * bool)) n a :
  (forall a, preserves (body a)) -> preserves (do_while n body a : M E St A).
Proof.
  intros Hb. revert a. induction n as [|n IH]; intros a; [intros s; exact I|].
  cbn [do_while]. apply preserves_bind; [apply Hb|].
  intros [a' []]; cbn [fst snd]; [apply IH | apply preserves_ret].
Qed.

Lemma preserves_while {E A} (cond : M E St bool) (body : A -> M E St A) n a :
  preserves cond -> (forall a, preserves (body a)) -> preserves (while n cond body a : M E St A).
Proof.
  intros Hc Hb. revert a. induction n as [|n IH]; intros a; [intros s; exact I|].
  cbn [while]. apply preserves_bind; [exact Hc|].
  intros []; [|apply preserves_ret]. apply preserves_bind; [apply Hb | exact IH].
Qed.

Lemma wp_preserves {E A} (m : M E St A) (Q : A -> St -> Prop) QE F s :
  preserves m -> wp m Q QE F s -> wp m (fun a s' => Q a s' /\ Rel s s') QE F s.
Proof. intros Hm. specialize (Hm s). unfold wp. destruct (m s); auto. Qed.

End Preserves.

(** The steps of the range decoder and of the dictionary. *)
Ltac preserves_side :=
  lazymatch goal with
  | |- preserves _ _ => idtac
  | |- forall _, preserves _ _ => idtac
  | |- _ => solve [eauto]
  end.

Ltac preserves_step solve_field :=
  lazymatch goal with
  | |- forall _, _ => intro
  | |- preserves _ (bind _ _) => apply preserves_bind; preserves_side
  | |- preserves _ (ret _) => apply preserves_ret; preserves_side
  | |- preserves _ get => apply preserves_get; preserves_side
  | |- preserves _ (gets _) => apply preserves_gets; preserves_side
  | |- preserves _ (raise _) => apply preserves_raise; preserves_side
  | |- preserves _ (fail _) => apply preserves_fail
  | |- preserves _ (modify _) => apply preserves_modify; intro; solve_field
  | |- preserves _ (do_while _ _ _) => apply preserves_do_while; preserves_side
  | |- preserves _ (if ?c then _ else _) => destruct c
  | |- preserves _ (match ?x with _ => _ end) => destruct x
  | |- preserves _ (let _ := _ in _) => cbv zeta
  | |- preserves _ ((fun _ => _) _) => cbv beta
  end.

Definition keeps_len (r r' : L.t) : Prop := L.len r' = L.len r.

Lemma keeps_len_refl r : keeps_len r r.
Proof. reflexivity. Qed.

Lemma keeps_len_trans a b c : keeps_len a b -> keeps_len b c -> keeps_len a c.
Proof. unfold keeps_len. congruence. Qed.

#[local] Hint Resolve keeps_len_refl keeps_len_trans : core.

Lemma NORMALIZE_keeps_len inp : preserves keeps_len (NORMALIZE inp).
Proof.
  intros r. unfold NORMALIZE. destruct (_ <? _); [|reflexivity].
  destruct (zlookup _ _); [reflexivity | exact I].
Qed.

Lemma read_prob_keeps_len x : preserves keeps_len (read_prob x).
Proof. intros r. unfold read_prob. destruct (zlookup _ _); [reflexivity | exact I]. Qed.

Lemma write_prob_keeps_len x v : preserves keeps_len (write_prob x v).
Proof. intros r. unfold write_prob. destruct (zinsert _ _ _); [reflexivity | exact I]. Qed.

Lemma dic_read_keeps_len this i : preserves keeps_len (dic_read this i).
Proof.
  intros r. unfold dic_read. destruct (_ && _); [|exact I].
  destruct (zlookup _ _); [reflexivity | exact I].
Qed.

Lemma dic_write_keeps_len this i v : preserves keeps_len (dic_write this i v).
Proof.
  intros r. unfold dic_write. destruct (_ && _); [|exact I].
  destruct (zinsert _ _ _); [reflexivity | exact I].
Qed.

Ltac keeps_len_tac :=
  repeat first
    [ apply NORMALIZE_keeps_len | apply read_prob_keeps_len | apply write_prob_keeps_len
    | apply dic_read_keeps_len | apply dic_write_keeps_len
    | preserves_step ltac:(reflexivity) ].

Lemma literal_tail_keeps_len inp this : preserves keeps_len (literal_tail inp this).
Proof.
  unfold literal_tail, GET_BIT, GET_BIT2, isBit0, UPDATE_0, UPDATE_1. keeps_len_tac.
Qed.

Lemma rep_keeps_len inp this posState : preserves keeps_len (rep inp this posState).
Proof. unfold rep, isBit0, UPDATE_0, UPDATE_1. keeps_len_tac. Qed.

Section Walk.

Variables (inp : list Z) (this : DecoderCore.t) (limit E : Z) (Gi Gd : Prop).

Hypothesis Hprops : props_ok (DecoderCore.m_properties this).
Hypothesis HGE : Gi -> E <= Z.of_nat (length inp).
Hypothesis HGlim : Gd -> 0 <= limit <= dicBufSize this /\ dicBufSize this < 2 ^ 64.
Hypothesis HGpos : Gd -> 0 <= pos (DecoderCore.m_dic this) <= limit.
Hypothesis HGchk : Gd -> 0 <= checkDicSize_ this <= dicBufSize this /\ checkDicSize_ this < 2 ^ 32.
Hypothesis HGbig : Gd -> dicBufSize this + 273 < 2 ^ 64.

(** A bit tree of depth [k] at [p]: [k] counter bits. *)
Lemma tree_walk p k lim jr dr fuel r :
  lim = 2 ^ k -> 1 <= k <= 30 -> (Z.to_nat k <= fuel)%nat ->
  0 <= p -> p + lim <= numProbs this -> 0 <= jr -> 0 <= dr ->
  W (numProbs this) E Gi (jr + k) dr r ->
  wp (do_while fuel (fun i => let* i' := GET_BIT inp (p + i) i in ret (i', i' <? lim)) 1)
     (fun i r' => W (numProbs this) E Gi jr dr r' /\ ctx r' = ctx r /\ lim <= i < 2 * lim)
     never (rc_fault Gi) r.
Proof.
  intros -> Hk Hfuel Hp HpN Hj Hd HW.
  destruct fuel as [|n]; [lia|].
  apply wp_do_while_fuel
    with (I := fun i s => 1 <= i < 2 ^ k /\ W (numProbs this) E Gi (jr + (k - Z.log2 i)) dr s /\ ctx s = ctx r)
         (mu := fun i _ => Z.to_nat (k - 1 - Z.log2 i)).
  - intros i s (Hi & HWi & Hc). apply wp_bind.
    assert (Hl0 : 0 <= Z.log2 i < k).
    { split; [apply Z.log2_nonneg | apply Z.log2_lt_pow2; lia]. }
    eapply wp_post.
    + apply (GET_BIT_walk inp (numProbs this) E Gi (jr + (k - Z.log2 i - 1)) dr); try assumption; try lia.
      replace (jr + (k - Z.log2 i - 1) + 1) with (jr + (k - Z.log2 i)) by lia. exact HWi.
    + intros i' s' (HW' & Hc' & Hi'). apply wp_ret. cbn [fst snd].
      destruct (tree_step i i' k Hi Hk Hi') as (Hv & Hl & _ & Hlt & Hr).
      destruct (i' <? 2 ^ k) eqn:Ec.
      * apply Z.ltb_lt in Ec. split; [|lia]. split; [lia|]. split; [|congruence].
        replace (jr + (k - Z.log2 i')) with (jr + (k - Z.log2 i - 1)) by lia. exact HW'.
      * apply Z.ltb_ge in Ec. split; [|split; [congruence | lia]].
        eapply W_weaken; [| |exact HW']; lia.
  - split; [assert (2 ^ 1 <= 2 ^ k) by (apply Z.pow_le_mono_r; lia); lia|].
    change (Z.log2 1) with 0. rewrite Z.sub_0_r. split; [exact HW | reflexivity].
  - change (Z.log2 1) with 0. lia.
Qed.

Lemma TREE_DECODE_walk p k lim jr dr r :
  lim = 2 ^ k -> 1 <= k <= 30 ->
  0 <= p -> p + lim <= numProbs this -> 0 <= jr -> 0 <= dr ->
  W (numProbs this) E Gi (jr + k) dr r ->
  wp (TREE_DECODE inp p lim)
     (fun i r' => W (numProbs this) E Gi jr dr r' /\ ctx r' = ctx r /\ 0 <= i < lim)
     never (rc_fault Gi) r.
Proof.
  intros Hlim Hk Hp HpN Hj Hd HW. unfold TREE_DECODE, TREE_GET_BIT. apply wp_bind.
  eapply wp_post; [apply (tree_walk p k lim jr dr 32 r); try assumption; lia|].
  intros i r' (HW' & Hc & Hi). apply wp_ret. split; [exact HW'|]. split; [exact Hc|].
  assert (H30 : 2 ^ k <= 2 ^ 30) by (apply Z.pow_le_mono_r; lia).
  change (2 ^ 30) with 1073741824 in H30.
  rewrite u32_small by lia. lia.
Qed.

(** A branch on a counter bit: one bit of the budget. *)
Lemma bit_branch {A} x J D (k : bool -> M exn L.t A) (k0 k1 : M exn L.t A)
    (Q : A -> L.t -> Prop) QE r :
  (forall s, k true s = (UPDATE_0 x;; k0) s) ->
  (forall s, k false s = (UPDATE_1 x;; k1) s) ->
  1 <= J -> 0 <= D -> 0 <= x < numProbs this ->
  W (numProbs this) E Gi J D r ->
  (forall r', W (numProbs this) E Gi (J - 1) D r' -> ctx r' = ctx r ->
              GET_BIT2 inp x 0 r = Ok (0, false) r' -> wp k0 Q QE (walk_fault Gi Gd) r') ->
  (forall r', W (numProbs this) E Gi (J - 1) D r' -> ctx r' = ctx r ->
              GET_BIT2 inp x 0 r = Ok (1, true) r' -> wp k1 Q QE (walk_fault Gi Gd) r') ->
  wp (let* b := isBit0 inp x in k b) Q QE (walk_fault Gi Gd) r.
Proof.
  intros E0 E1 HJ HD Hx HW H0 H1.
  apply (wp_isBit0_k inp x
           (fun b r' => W (numProbs this) E Gi (J - 1) D r' /\ ctx r' = ctx r /\
                        GET_BIT2 inp x 0 r = Ok (u32 (b2z b), b) r')
           (rc_fault Gi) (walk_fault Gi Gd) Q QE r) with (k0 := k0) (k1 := k1);
    try assumption.
  - eapply wp_post.
    + apply wp_self. apply (GET_BIT2_walk inp (numProbs this) E Gi (J - 1) D x 0 r);
        try assumption; try lia.
      eapply W_weaken; [| |exact HW]; lia.
    + intros [i b] r' ((HW' & Hc & Hi) & Heq). cbn [fst snd] in *.
      split; [exact HW'|]. split; [exact Hc|]. rewrite Heq, Hi. reflexivity.
  - apply rc_walk_fault.
  - intros r' (HW' & Hc & Heq). apply H0; assumption.
  - intros r' (HW' & Hc & Heq). apply H1; assumption.
Qed.

(** The dictionary outside the part the call may fill, from the position at
    entry up to [limit], is as it was at entry. *)
Definition dic_frame (l : list Z) : Prop :=
  take (Z.to_nat (pos (DecoderCore.m_dic this))) l
  = take (Z.to_nat (pos (DecoderCore.m_dic this))) (mem (DecoderCore.m_dic this)) /\
  drop (Z.to_nat limit) l = drop (Z.to_nat limit) (mem (DecoderCore.m_dic this)).

Definition dic_good (l : list Z) : Prop := Forall byte l /\ (Gd -> dic_frame l).

Lemma dic_good_insert l i v :
  dic_good l -> byte v -> (Gd -> pos (DecoderCore.m_dic this) <= i < limit) ->
  dic_good (<[Z.to_nat i := v]> l).
Proof.
  intros [Hb Hf] Hv Hi. split; [apply Forall_insert; assumption|].
  intros g. destruct (Hf g) as [H1 H2]. specialize (Hi g). destruct (HGpos g) as [Hp0 _].
  split.
  - rewrite take_insert_ge by lia. exact H1.
  - rewrite drop_insert_lt by lia. exact H2.
Qed.

(** The dictionary as the walk needs it: bytes and, under the contract,
    the write position inside the part the call may fill. *)
Definition dic_inv (r : L.t) : Prop :=
  dic_good (L.dic r) /\
  (Gd -> Z.of_nat (length (L.dic r)) = dicBufSize this /\
         (0 <= L.dicPos r <= limit /\ pos (DecoderCore.m_dic this) <= L.dicPos r)).

(** The distances of the rep queue reach no further back than the
    dictionary is long, and while [checkDicSize] is 0 the count of bytes
    decoded is at most the write position. *)
Definition dic_tail (dicPos : Z) (l : list Z) : Prop :=
  drop (Z.to_nat dicPos) l = drop (Z.to_nat dicPos) (mem (DecoderCore.m_dic this)).

Definition reps_ok (r : L.t) : Prop :=
  Gd -> (1 <= L.rep0 r <= dicBufSize this /\ 1 <= L.rep1 r <= dicBufSize this /\
         1 <= L.rep2 r <= dicBufSize this /\ 1 <= L.rep3 r <= dicBufSize this) /\
        (checkDicSize_ this = 0 ->
         0 <= L.processedPos r <= L.dicPos r /\ L.processedPos r < 2 ^ 32) /\
        dic_tail (L.dicPos r) (L.dic r).

Lemma dic_tail_insert n i v l : dic_tail n l -> 0 <= i < n -> dic_tail n (<[Z.to_nat i := v]> l).
Proof. unfold dic_tail. intros H Hi. rewrite drop_insert_lt by lia. exact H. Qed.

Lemma dic_tail_shift n n' l : dic_tail n l -> 0 <= n <= n' -> dic_tail n' l.
Proof.
  unfold dic_tail. intros H Hn. replace (Z.to_nat n') with (Z.to_nat n + Z.to_nat (n' - n))%nat by lia.
  rewrite <- !drop_drop, H. reflexivity.
Qed.

(** The rep queue, the count of bytes decoded and the write position. *)
Definition rpp (r : L.t) : Z * Z * Z * Z * Z :=
  (L.rep0 r, L.rep1 r, L.rep2 r, L.rep3 r, L.processedPos r).

Lemma rpp_fields r r' :
  rpp r' = rpp r ->
  L.rep0 r' = L.rep0 r /\ L.rep1 r' = L.rep1 r /\ L.rep2 r' = L.rep2 r /\
  L.rep3 r' = L.rep3 r /\ L.processedPos r' = L.processedPos r.
Proof. unfold rpp. intros H. inversion H. auto. Qed.

Lemma ctx_rpp r r' : ctx r' = ctx r -> rpp r' = rpp r.
Proof. unfold ctx, rpp. intros H. inversion H. congruence. Qed.

Lemma reps_ok_ext r r' :
  rpp r' = rpp r -> L.dicPos r' = L.dicPos r -> L.dic r' = L.dic r -> reps_ok r -> reps_ok r'.
Proof.
  intros H Hp Hd Hr g. apply rpp_fields in H. destruct H as (H0 & H1 & H2 & H3 & H4).
  rewrite H0, H1, H2, H3, H4, Hp, Hd. exact (Hr g).
Qed.

Lemma reps_ok_ctx r r' : ctx r' = ctx r -> reps_ok r -> reps_ok r'.
Proof.
  intros H. apply reps_ok_ext; [apply ctx_rpp; exact H | |];
    apply ctx_fields in H; apply H.
Qed.

(** A byte was put: [dicPos] and [processedPos] move by one. *)
Lemma reps_ok_step r r' :
  reps_ok r -> rpp r' = rpp r -> (Gd -> L.dicPos r' = L.dicPos r + 1) ->
  (Gd -> 0 <= L.dicPos r) ->
  (exists v, L.dic r' = <[Z.to_nat (L.dicPos r) := v]> (L.dic r)) ->
  forall st, reps_ok (L.set_state st (L.set_processedPos (u32 (L.processedPos r' + 1)) r')).
Proof.
  intros Hr H Hp Hp0 [v Hv] st g. apply rpp_fields in H. destruct H as (H0 & H1 & H2 & H3 & H4).
  cbn [L.set_state L.set_processedPos L.rep0 L.rep1 L.rep2 L.rep3 L.processedPos L.dicPos
       L.dic].
  rewrite H0, H1, H2, H3, H4, (Hp g), Hv. destruct (Hr g) as (Hreps & Hpp & Htl).
  specialize (Hp0 g).
  split; [exact Hreps|]. split.
  - intros Hc. specialize (Hpp Hc).
    pose proof (u32_range (L.processedPos r + 1)).
    assert (u32 (L.processedPos r + 1) <= L.processedPos r + 1)
      by (apply Z.mod_le; lia).
    lia.
  - apply dic_tail_insert; [|lia]. eapply dic_tail_shift; [exact Htl | lia].
Qed.

(** The rep queue holds distances it held before. *)
Lemma reps_ok_sub r r' :
  reps_ok r ->
  (forall x, x = L.rep0 r' \/ x = L.rep1 r' \/ x = L.rep2 r' \/ x = L.rep3 r' ->
             x = L.rep0 r \/ x = L.rep1 r \/ x = L.rep2 r \/ x = L.rep3 r) ->
  L.processedPos r' = L.processedPos r -> L.dicPos r' = L.dicPos r -> L.dic r' = L.dic r ->
  reps_ok r'.
Proof.
  intros Hr Hsub Hpp Hp Hd g. destruct (Hr g) as [(R0 & R1 & R2 & R3) Hc]. rewrite Hpp, Hp, Hd.
  split; [|exact Hc].
  assert (Hx : forall x, x = L.rep0 r \/ x = L.rep1 r \/ x = L.rep2 r \/ x = L.rep3 r ->
                         1 <= x <= dicBufSize this)
    by (intros x [-> | [-> | [-> | ->]]]; assumption).
  repeat split; apply Hx, Hsub; auto.
Qed.

(** The position [rep0] bytes back is in the dictionary. *)
Lemma back_pos_range dicPos rep0 :
  0 <= dicPos < dicBufSize this -> 0 <= rep0 <= dicBufSize this -> dicBufSize this < 2 ^ 64 ->
  0 <= back_pos this dicPos rep0 < dicBufSize this.
Proof.
  intros Hp Hr Hs. unfold back_pos.
  destruct (Z.ltb_spec dicPos rep0); rewrite usize_small by lia; lia.
Qed.

(** A read of the dictionary at a position that the contract puts inside. *)
Lemma wp_dic_read_G i (Q : Z -> L.t -> Prop) QE r :
  (forall b, zlookup (L.dic r) i = Some b -> 0 <= i < dicBufSize this -> Q b r) ->
  (Gd -> 0 <= i < dicBufSize this /\ i < Z.of_nat (length (L.dic r))) ->
  wp (dic_read this i) Q QE (walk_fault Gi Gd) r.
Proof.
  intros HQ HG. unfold wp, dic_read.
  destruct (_ && _) eqn:Eb.
  - apply andb_true_iff in Eb. destruct Eb as [E1 E2]. apply Z.leb_le in E1. apply Z.ltb_lt in E2.
    destruct (zlookup _ _) eqn:El; [auto|].
    left. split; [|reflexivity]. intros g. destruct (HG g) as [_ Hlen].
    destruct (zlookup_Some_lt (L.dic r) i ltac:(lia)) as [a Ha]. congruence.
  - left. split; [|reflexivity]. intros g. destruct (HG g) as [Hi _].
    apply andb_false_iff in Eb. destruct Eb as [Eb | Eb]; [apply Z.leb_gt in Eb | apply Z.ltb_ge in Eb];
      lia.
Qed.

(** The byte of a literal and of a short rep (lines 536-537, 567-568). *)
Lemma put_byte_walk {A} (k : M exn L.t A) v (Q : A -> L.t -> Prop) QE r :
  byte v -> dic_inv r -> (Gd -> L.dicPos r < limit) ->
  (forall r', rcv r' = rcv r -> L.state r' = L.state r -> dic_inv r' ->
              (Gd -> L.dicPos r' = L.dicPos r + 1) ->
              rpp r' = rpp r /\ L.dic r' = <[Z.to_nat (L.dicPos r) := v]> (L.dic r) ->
              wp k Q QE (walk_fault Gi Gd) r') ->
  wp (dic_write this (L.dicPos r) v;;
      modify (fun r => L.set_dicPos (usize (L.dicPos r + 1)) r);; k)
     Q QE (walk_fault Gi Gd) r.
Proof.
  intros Hv (Hb & Hd) Hlt Hk. apply wp_bind.
  apply (wp_dic_write' this Gd).
  - intros a Ha Hi. apply wp_bind, wp_modify.
    apply Hk; [reflexivity | reflexivity | | | split; reflexivity].
    + split; cbn [L.set_dicPos L.set_dic L.dic L.dicPos].
      * apply dic_good_insert; [exact Hb | exact Hv|].
        intros g. destruct (Hd g) as [Hlen Hpos]. specialize (Hlt g). lia.
      * intros g. destruct (Hd g) as [Hlen Hpos]. destruct (HGlim g) as [Hl1 Hl2].
        specialize (Hlt g). rewrite length_insert. rewrite usize_small by lia. lia.
    + intros g. cbn [L.set_dicPos L.set_dic L.dic L.dicPos].
      destruct (Hd g) as [Hlen Hpos]. destruct (HGlim g) as [Hl1 Hl2]. specialize (Hlt g).
      apply usize_small. lia.
  - intros Hng. right. right. split; [exact Hng | left; reflexivity].
  - intros g. destruct (Hd g) as [Hlen Hpos]. destruct (HGlim g) as [Hl1 Hl2].
    specialize (Hlt g). lia.
Qed.

Lemma put_byte_walk' {A} (k' k : M exn L.t A) v (Q : A -> L.t -> Prop) QE r :
  (forall s, k' s = (modify (fun r => L.set_dicPos (usize (L.dicPos r + 1)) r);; k) s) ->
  byte v -> dic_inv r -> (Gd -> L.dicPos r < limit) ->
  (forall r', rcv r' = rcv r -> L.state r' = L.state r -> dic_inv r' ->
              (Gd -> L.dicPos r' = L.dicPos r + 1) ->
              rpp r' = rpp r /\ L.dic r' = <[Z.to_nat (L.dicPos r) := v]> (L.dic r) ->
              wp k Q QE (walk_fault Gi Gd) r') ->
  wp (dic_write this (L.dicPos r) v;; k') Q QE (walk_fault Gi Gd) r.
Proof.
  intros Hk' Hv Hd Hlt Hk. unfold wp.
  rewrite (bind_ext (dic_write this (L.dicPos r) v) (fun _ => k')
             (fun _ => modify (fun r => L.set_dicPos (usize (L.dicPos r + 1)) r);; k));
    [|intros _ s; apply Hk'].
  apply put_byte_walk; assumption.
Qed.

Lemma dic_inv_ctx r r' : ctx r' = ctx r -> dic_inv r -> dic_inv r'.
Proof.
  intros H. apply ctx_fields in H. destruct H as (_ & _ & _ & _ & _ & H1 & _ & _ & H2).
  unfold dic_inv. rewrite H1, H2. auto.
Qed.

(** A literal: eight counter bits and one byte. *)
Lemma literal_walk jr dr r :
  0 <= jr -> 0 <= dr ->
  0 <= L.state r < 12 -> W (numProbs this) E Gi (jr + 8) dr r -> dic_inv r ->
  reps_ok r -> (Gd -> L.dicPos r < limit) ->
  wp (literal_tail inp this)
     (fun _ r' => 0 <= L.state r' < 12 /\ W (numProbs this) E Gi jr dr r' /\ dic_inv r' /\
                  (Gd -> L.dicPos r' = L.dicPos r + 1) /\ reps_ok r')
     never (walk_fault Gi Gd) r.
Proof.
  intros Hj Hd Hst HW Hdic Hreps Hlt. unfold literal_tail.
  assert (HGd : Gd -> Z.of_nat (length (L.dic r)) = dicBufSize this /\
                      0 <= L.dicPos r < limit /\ limit <= dicBufSize this < 2 ^ 64).
  { intros g. destruct Hdic as [_ Hd0]. destruct (Hd0 g) as [Hl0 Hp0].
    destruct (HGlim g). specialize (Hlt g). lia. }
  pose proof (numProbs_bounds this Hprops) as [HN1 HN2].
  pose proof (eq_refl : Literal = 1846) as HLit.
  apply wp_bind, wp_get, wp_bind.
  assert (Hprob : forall (Q : Z -> L.t -> Prop),
             (forall p, Literal <= p -> p + 768 <= numProbs this -> Q p r) ->
             wp (if negb (checkDicSize_ this =? 0) || negb (L.processedPos r =? 0)
                 then
                   let* prev := dic_read this
                                  (usize ((if L.dicPos r =? 0 then dicBufSize this
                                           else L.dicPos r) - 1)) in
                   ret (Literal + u32 (LZMA_LIT_SIZE *
                          u32 (u32 (Z.shiftl (Z.land (L.processedPos r) (lpMask this)) (lc_ this))
                               + Z.shiftr prev (8 - lc_ this))))
                 else ret Literal) Q never (walk_fault Gi Gd) r).
  { intros Q HQ. destruct (_ || _).
    - apply wp_bind, wp_dic_read_G;
        [|intros g; destruct (HGd g) as (? & ? & ?);
          destruct (Z.eqb_spec (L.dicPos r) 0); rewrite usize_small by lia; lia].
      intros prev Hprev _. apply wp_ret.
      destruct Hprops as (Hp1 & Hp2 & Hp3 & _).
      pose proof (lit_index (L.processedPos r) prev _ _ Hp1 Hp2 Hp3
                    (Forall_byte_lookup _ _ _ (proj1 (proj1 Hdic)) Hprev)) as Hi.
      cbv zeta in Hi. unfold lpMask, lc_. apply HQ; [lia|].
      unfold numProbs, LZMA_LIT_SIZE in *. lia.
    - apply wp_ret, HQ; lia. }
  apply Hprob. clear Hprob. intros prob Hp1 Hp2. apply wp_bind.
  assert (Hend : forall symbol r2,
    0 <= L.state r2 < 12 -> W (numProbs this) E Gi jr dr r2 ->
    L.dic r2 = L.dic r -> L.dicPos r2 = L.dicPos r -> rpp r2 = rpp r ->
    wp (let* r := get in
        dic_write this (L.dicPos r) (symbol mod 256);;
        modify (fun r => L.set_dicPos (usize (L.dicPos r + 1)) r);;
        modify (fun r => L.set_processedPos (u32 (L.processedPos r + 1)) r))
      (fun _ r' => 0 <= L.state r' < 12 /\ W (numProbs this) E Gi jr dr r' /\ dic_inv r' /\
                   (Gd -> L.dicPos r' = L.dicPos r + 1) /\ reps_ok r')
      never (walk_fault Gi Gd) r2).
  { intros symbol r2 Hs2 HW2 Hc3 Hc4 Hc5.
    apply wp_bind, wp_get. apply put_byte_walk.
    - unfold byte. apply Z.mod_pos_bound. lia.
    - unfold dic_inv. rewrite Hc3, Hc4. exact Hdic.
    - rewrite Hc4. exact Hlt.
    - intros r' Hrc Hs Hd' Hpos [Hrpp Hdw]. apply wp_modify.
      split; [cbn [L.set_processedPos L.state]; lia|].
      split; [eapply W_ext; [|exact HW2]; rewrite <- Hrc; reflexivity|].
      split; [exact Hd'|]. split; [intros g; rewrite <- Hc4; exact (Hpos g)|].
      apply (reps_ok_step r r' Hreps ltac:(congruence)
               ltac:(intros g; rewrite <- Hc4; exact (Hpos g))
               ltac:(intros g; destruct (HGd g); lia)
               ltac:(eexists; rewrite Hdw, Hc3, Hc4; reflexivity) (L.state r')). }
  destruct (L.state r <? kNumLitStates) eqn:Elit.
  - apply wp_bind, wp_modify. set (r2 := L.set_state _ r).
    eapply wp_never; [ | | apply rc_walk_fault].
    + apply (tree_walk prob 8 256 jr dr 8 r2); try reflexivity; try lia.
      eapply W_ext; [|exact HW]. reflexivity.
    + intros symbol s (HW' & Hc & _). cbv beta.
      pose proof (ctx_rpp _ _ Hc) as Hc4.
      apply ctx_fields in Hc. destruct Hc as (Hc1 & _ & _ & _ & _ & Hc2 & _ & _ & Hc3).
      apply Hend; [|exact HW' | rewrite Hc3; reflexivity | rewrite Hc2; reflexivity
                   | rewrite Hc4; reflexivity].
      rewrite Hc1. subst r2. cbn [L.set_state L.state].
      apply Z.ltb_lt in Elit. unfold kNumLitStates in Elit.
      destruct (Z.ltb_spec (L.state r) 4); rewrite u32_small; lia.
  - apply wp_bind, wp_dic_read_G;
      [|intros g; destruct (HGd g) as (Hl0 & ? & ?); destruct (Hreps g) as [(R0 & _) _];
        rewrite Hl0; pose proof (back_pos_range (L.dicPos r) (L.rep0 r)
                                   ltac:(lia) ltac:(lia) ltac:(lia)); lia].
    intros matchByte _ _.
    apply wp_bind, wp_modify. set (r2 := L.set_state _ r). apply wp_bind.
    eapply wp_never; [ | | apply rc_walk_fault].
    + apply wp_do_while_fuel
        with (I := fun v s => 1 <= snd v < 2 ^ 8 /\ (snd (fst v) = 0 \/ snd (fst v) = 256) /\
                              W (numProbs this) E Gi (jr + (8 - Z.log2 (snd v))) dr s /\
                              ctx s = ctx r2)
             (Q := fun v s => W (numProbs this) E Gi jr dr s /\ ctx s = ctx r2)
             (mu := fun v _ => Z.to_nat (7 - Z.log2 (snd v))).
      * intros [[mb offs] sym] s (Hi & Hoffs & HWi & Hc). cbn [fst snd] in *.
        apply wp_bind.
        assert (Hl0 : 0 <= Z.log2 sym < 8).
        { split; [apply Z.log2_nonneg | apply Z.log2_lt_pow2; lia]. }
        change (2 ^ 8) with 256 in Hi.
        assert (Hbit : Z.land (u32 (Z.shiftl mb 1)) offs = 0 \/
                       Z.land (u32 (Z.shiftl mb 1)) offs = offs).
        { destruct Hoffs as [-> | ->]; [left; apply Z.land_0_r|]. apply land_256. }
        eapply wp_post.
        -- apply (GET_BIT2_walk inp (numProbs this) E Gi (jr + (8 - Z.log2 sym - 1)) dr);
             try assumption; try lia.
           replace (jr + (8 - Z.log2 sym - 1) + 1) with (jr + (8 - Z.log2 sym)) by lia.
           exact HWi.
        -- intros [i' b] s' (HW' & Hc' & Hi'). apply wp_ret. cbn [fst snd] in *.
           assert (Hi2 : i' = u32 (sym + sym) \/ i' = u32 (sym + sym + 1)).
           { destruct b; cbn [b2z] in Hi'; [right | left]; rewrite Hi'; f_equal; lia. }
           destruct (tree_step sym i' 8 ltac:(change (2 ^ 8) with 256; lia) ltac:(lia) Hi2)
             as (Hv & Hl & _ & Hlt8 & Hr).
           change (2 ^ 8) with 256 in *.
           destruct (i' <? 256) eqn:Ec.
           ++ apply Z.ltb_lt in Ec. split; [|lia]. split; [lia|]. split.
              ** destruct Hoffs as [-> | ->]; [destruct b; left; apply Z.land_0_l|].
                 destruct Hbit as [-> | ->]; destruct b; vm_compute; auto.
              ** split; [|congruence].
                 replace (jr + (8 - Z.log2 i')) with (jr + (8 - Z.log2 sym - 1)) by lia.
                 exact HW'.
           ++ split; [|congruence]. eapply W_weaken; [| |exact HW']; lia.
      * cbn [fst snd]. change (Z.log2 1) with 0. rewrite Z.sub_0_r.
        split; [change (2 ^ 8) with 256; lia|]. split; [right; reflexivity|].
        split; [|reflexivity]. eapply W_ext; [|exact HW]. reflexivity.
      * cbn [snd]. change (Z.log2 1) with 0. lia.
    + intros res s (HW' & Hc). cbv beta. apply wp_ret.
      pose proof (ctx_rpp _ _ Hc) as Hc4.
      apply ctx_fields in Hc. destruct Hc as (Hc1 & _ & _ & _ & _ & Hc2 & _ & _ & Hc3).
      apply Hend; [|exact HW' | rewrite Hc3; reflexivity | rewrite Hc2; reflexivity
                   | rewrite Hc4; reflexivity].
      rewrite Hc1. subst r2. cbn [L.set_state L.state].
      apply Z.ltb_ge in Elit. unfold kNumLitStates in Elit.
      destruct (Z.ltb_spec (L.state r) 10); rewrite u32_small; lia.
Qed.

(** What a [throw] finds: the arrays are sound. *)
Definition walk_raise (e : exn) (r : L.t) : Prop := rc_inv (numProbs this) r /\ dic_inv r.

(** A rep: at most three counter bits after [IsRep]; the short one puts a
    byte. *)
Lemma rep_walk posState J D r :
  3 <= J -> 0 <= D -> 0 <= posState < 16 -> 0 <= L.state r < 12 ->
  W (numProbs this) E Gi J D r -> dic_inv r -> reps_ok r -> (Gd -> L.dicPos r < limit) ->
  wp (rep inp this posState)
     (fun short r' => 0 <= L.state r' < 12 /\ W (numProbs this) E Gi (J - 3) D r' /\
                      dic_inv r' /\
                      (Gd -> L.dicPos r' = L.dicPos r + (if short then 1 else 0)) /\
                      reps_ok r')
     walk_raise (walk_fault Gi Gd) r.
Proof.
  intros HJ HD Hpos Hst HW Hdic Hreps0 Hlt. unfold rep.
  assert (HGd : Gd -> Z.of_nat (length (L.dic r)) = dicBufSize this /\
                      0 <= L.dicPos r < limit /\ limit <= dicBufSize this < 2 ^ 64).
  { intros g. destruct Hdic as [_ Hd0]. destruct (Hd0 g) as [Hl0 Hp0].
    destruct (HGlim g). specialize (Hlt g). lia. }
  pose proof (numProbs_bounds this Hprops) as [HN1 HN2].
  apply wp_bind, wp_get. destruct (_ && _).
  { apply wp_raise. split; [exact (proj1 HW) | exact Hdic]. }
  konsts. rewrite !shiftl_4.
  assert (Hlong : forall J' r',
            J - 3 <= J' -> W (numProbs this) E Gi J' D r' -> ctx r' = ctx r ->
            wp (modify (fun r => L.set_state (if L.state r <? 7 then 8 else 11) r);; ret false)
               (fun short r' => 0 <= L.state r' < 12 /\ W (numProbs this) E Gi (J - 3) D r' /\
                                dic_inv r' /\
                                (Gd -> L.dicPos r' = L.dicPos r + (if short then 1 else 0)) /\
                                reps_ok r')
               walk_raise (walk_fault Gi Gd) r').
  { intros J' r' HJ' HW' Hc. apply wp_bind, wp_modify, wp_ret.
    split; [cbn [L.set_state L.state]; destruct (_ <? _); lia|].
    split; [eapply W_ext; [|eapply W_weaken; [| |exact HW']]; [reflexivity|lia..]|].
    pose proof (reps_ok_ctx _ _ Hc Hreps0) as Hreps'.
    apply ctx_fields in Hc. destruct Hc as (_ & _ & _ & _ & _ & Hc2 & _ & _ & Hc3).
    split; [unfold dic_inv in *; cbn [L.set_state L.dic L.dicPos]; rewrite Hc2, Hc3; exact Hdic|].
    split; [intros _; cbn [L.set_state L.dicPos]; lia|].
    eapply reps_ok_ext; [| | |exact Hreps']; reflexivity. }
  eapply (bit_branch (204 + L.state r) J D); try assumption;
    [intros s; apply bind_seq_assoc | intros s; apply bind_seq_assoc | lia | lia | |].
  - intros r1 HW1 Hc1 _. apply wp_assoc.
    eapply (bit_branch (240 + L.state r * 16 + posState) (J - 1) D); try eassumption;
      [intros s; apply bind_seq_assoc | intros s; apply bind_seq_assoc | lia | lia | |].
    + intros r2 HW2 Hc2 _. apply wp_assoc, wp_bind, wp_get.
      assert (Hc : ctx r2 = ctx r) by congruence.
      pose proof (dic_inv_ctx _ _ Hc Hdic) as Hdic2.
      pose proof (reps_ok_ctx _ _ Hc Hreps0) as Hreps2.
      apply ctx_fields in Hc. destruct Hc as (Hs & Hrep0 & _ & _ & _ & Hp & _ & _ & Hdc).
      apply wp_assoc, wp_bind, wp_dic_read_G;
        [|intros g; destruct (HGd g) as (Hl0 & ? & ?); destruct (Hreps0 g) as [(R0 & _) _];
          rewrite Hdc, Hp, Hrep0, Hl0;
          pose proof (back_pos_range (L.dicPos r) (L.rep0 r) ltac:(lia) ltac:(lia) ltac:(lia)); lia].
      intros v Hv _.
      apply wp_assoc.
      eapply put_byte_walk'; [intros s; apply bind_seq_assoc | | exact Hdic2 | |].
      * eapply Forall_byte_lookup; [exact (proj1 (proj1 Hdic2)) | exact Hv].
      * rewrite Hp. exact Hlt.
      * intros r3 Hrc Hs3 Hd3 Hpos3 [Hrpp3 Hdw3]. apply wp_assoc, wp_bind, wp_modify.
        apply wp_assoc, wp_bind, wp_modify, wp_bind, wp_ret, wp_ret.
        split; [cbn [L.set_state L.state]; destruct (_ <? _); lia|].
        split; [eapply W_ext; [|eapply W_weaken; [| |exact HW2]];
                [rewrite <- Hrc; reflexivity | lia..]|].
        split; [exact Hd3|].
        split; [intros g; cbn [L.set_state L.set_processedPos L.dicPos];
                rewrite <- Hp; exact (Hpos3 g)|].
        apply (reps_ok_step r2 r3 Hreps2 Hrpp3 Hpos3
                 ltac:(intros g; destruct (HGd g); lia)
                 ltac:(eexists; exact Hdw3)).
    + intros r2 HW2 Hc2 _. apply wp_bind, wp_ret. apply (Hlong (J - 1 - 1)); [lia | exact HW2|].
      congruence.
  - intros r1 HW1 Hc1 _. apply wp_assoc.
    assert (Hreps : forall distance J' r',
              J - 3 <= J' -> W (numProbs this) E Gi J' D r' ->
              L.dic r' = L.dic r -> L.dicPos r' = L.dicPos r ->
              reps_ok (L.set_rep0 distance (L.set_rep1 (L.rep0 r') r')) ->
              wp (let* short := (modify (fun r => L.set_rep1 (L.rep0 r) r);;
                                 modify (L.set_rep0 distance);; ret false) in
                  if short then ret true
                  else modify (fun r => L.set_state (if L.state r <? 7 then 8 else 11) r);;
                       ret false)
                 (fun short r' => 0 <= L.state r' < 12 /\
                                  W (numProbs this) E Gi (J - 3) D r' /\ dic_inv r' /\
                                  (Gd -> L.dicPos r' = L.dicPos r + (if short then 1 else 0)) /\
                                  reps_ok r')
                 walk_raise (walk_fault Gi Gd) r').
    { intros distance J' r' HJ' HW' Hc3 Hc2 Hrk.
      apply wp_bind, wp_bind, wp_modify, wp_bind, wp_modify.
      apply wp_ret, wp_bind, wp_modify, wp_ret.
      split; [cbn [L.set_state L.state]; destruct (_ <? _); lia|].
      split; [eapply W_ext; [|eapply W_weaken; [| |exact HW']]; [reflexivity|lia..]|].
      split; [unfold dic_inv in *;
              cbn [L.set_state L.set_rep0 L.set_rep1 L.dic L.dicPos]; rewrite Hc2, Hc3;
              exact Hdic|].
      split; [intros _; cbn [L.set_state L.set_rep0 L.set_rep1 L.dicPos]; lia|].
      eapply reps_ok_ext; [| | |exact Hrk]; reflexivity. }
    eapply (bit_branch (216 + L.state r) (J - 1) D); try eassumption;
      [intros s; apply bind_seq_assoc2 | intros s; apply bind_seq_assoc2 | lia | lia | |].
    + intros r2 HW2 Hc2 _. apply wp_assoc, wp_bind, wp_gets.
      assert (Hc : ctx r2 = ctx r) by congruence.
      pose proof (reps_ok_ctx _ _ Hc Hreps0) as Hreps2. apply ctx_fields in Hc.
      apply (Hreps _ (J - 1 - 1)); [lia | exact HW2 | apply Hc | apply Hc |].
      apply (reps_ok_sub r2); [exact Hreps2 | | reflexivity | reflexivity | reflexivity].
      cbn [L.set_rep0 L.set_rep1 L.rep0 L.rep1 L.rep2 L.rep3]. intros x Hx. tauto.
    + intros r2 HW2 Hc2 _. apply wp_assoc, wp_assoc.
      eapply (bit_branch (228 + L.state r) (J - 1 - 1) D); try eassumption;
        [intros s; apply bind_seq_assoc2 | intros s; apply bind_seq_assoc2 | lia | lia | |].
      * intros r3 HW3 Hc3 _. apply wp_assoc, wp_bind, wp_gets.
        apply wp_assoc, wp_bind, wp_modify, wp_bind, wp_ret.
        assert (Hc : ctx r3 = ctx r) by congruence.
        pose proof (reps_ok_ctx _ _ Hc Hreps0) as Hreps3. apply ctx_fields in Hc.
        apply (Hreps _ (J - 1 - 1 - 1));
          [lia | eapply W_ext; [|exact HW3]; reflexivity | apply Hc | apply Hc |].
        apply (reps_ok_sub r3); [exact Hreps3 | | reflexivity | reflexivity | reflexivity].
        cbn [L.set_rep0 L.set_rep1 L.set_rep2 L.set_rep3 L.rep0 L.rep1 L.rep2 L.rep3].
        intros x Hx. tauto.
      * intros r3 HW3 Hc3 _. apply wp_assoc, wp_assoc, wp_bind, wp_gets.
        apply wp_assoc, wp_bind, wp_modify. apply wp_bind, wp_ret.
        apply wp_assoc, wp_bind, wp_modify, wp_bind, wp_ret.
        assert (Hc : ctx r3 = ctx r) by congruence.
        pose proof (reps_ok_ctx _ _ Hc Hreps0) as Hreps3. apply ctx_fields in Hc.
        apply (Hreps _ (J - 1 - 1 - 1));
          [lia | eapply W_ext; [|exact HW3]; reflexivity | apply Hc | apply Hc |].
        apply (reps_ok_sub r3); [exact Hreps3 | | reflexivity | reflexivity | reflexivity].
        cbn [L.set_rep0 L.set_rep1 L.set_rep2 L.set_rep3 L.rep0 L.rep1 L.rep2 L.rep3].
        intros x Hx. tauto.
Qed.

(** A length: at most ten counter bits. *)
Lemma decode_len_walk prob posState J D r :
  10 <= J -> 0 <= D -> prob = LenCoder \/ prob = RepLenCoder -> 0 <= posState < 16 ->
  W (numProbs this) E Gi J D r ->
  wp (decode_len inp prob posState)
     (fun _ r' => W (numProbs this) E Gi (J - 10) D r' /\ ctx2 r' = ctx2 r /\
                  0 <= L.len r' < 272)
     never (walk_fault Gi Gd) r.
Proof.
  intros HJ HD Hprob Hpos HW. unfold decode_len.
  pose proof (numProbs_bounds this Hprops) as [HN1 HN2].
  assert (Htree : forall p k lim offset J' r',
            lim = 2 ^ k -> 1 <= k <= 8 -> J - 10 + k <= J' -> 0 <= p -> p + lim <= numProbs this ->
            0 <= offset -> offset + lim <= 272 ->
            W (numProbs this) E Gi J' D r' -> ctx r' = ctx r ->
            wp (let* l := TREE_DECODE inp p lim in modify (L.set_len (u32 (l + offset))))
               (fun _ r' => W (numProbs this) E Gi (J - 10) D r' /\ ctx2 r' = ctx2 r /\
                            0 <= L.len r' < 272)
               never (walk_fault Gi Gd) r').
  { intros p k lim offset J' r' Hlim Hk HJ' Hp HpN Ho Hol HW' Hc. apply wp_bind.
    eapply wp_never; [ | | apply rc_walk_fault].
    - apply (TREE_DECODE_walk p k lim (J' - k) D r'); try assumption; try lia.
      eapply W_weaken; [| |exact HW']; lia.
    - intros l s (HWs & Hcs & Hl). cbv beta. apply wp_modify.
      split; [eapply W_ext; [|eapply W_weaken; [| |exact HWs]]; [reflexivity|lia..]|].
      split; [|cbn [L.set_len L.len]; rewrite u32_small; lia].
      apply ctx_ctx2 in Hcs. apply ctx_ctx2 in Hc. rewrite <- Hc, <- Hcs. reflexivity. }
  konsts. rewrite !shiftl_3. change (Z.shiftl 1 3) with 8. change (Z.shiftl 1 8) with 256.
  eapply (bit_branch (prob + 0) J D); try assumption;
    [intros s; apply bind_seq_assoc | intros s; apply bind_seq_assoc | lia | lia | |].
  - intros r1 HW1 Hc1 _. apply wp_bind, wp_ret.
    apply (Htree _ 3 _ _ (J - 1)); try assumption; try reflexivity; lia.
  - intros r1 HW1 Hc1 _. apply wp_assoc.
    eapply (bit_branch (prob + 1) (J - 1) D); try eassumption;
      [intros s; apply bind_seq_assoc | intros s; apply bind_seq_assoc | lia | lia | |].
    + intros r2 HW2 Hc2 _. apply wp_bind, wp_ret.
      apply (Htree _ 3 _ _ (J - 1 - 1)); try assumption; try reflexivity; try lia. congruence.
    + intros r2 HW2 Hc2 _. apply wp_bind, wp_ret.
      apply (Htree _ 8 _ _ (J - 1 - 1)); try assumption; try reflexivity; try lia. congruence.
Qed.

Lemma tget_walk p i lo J D r :
  1 <= J -> 0 <= D -> 1 <= lo <= 2 ^ 20 -> lo <= i < 2 * lo -> 0 <= p + i < numProbs this ->
  W (numProbs this) E Gi J D r ->
  wp (TREE_GET_BIT inp p i)
     (fun i' r' => W (numProbs this) E Gi (J - 1) D r' /\ ctx r' = ctx r /\
                   2 * lo <= i' < 2 * (2 * lo))
     never (rc_fault Gi) r.
Proof.
  intros HJ HD Hlo Hi Hp HW. unfold TREE_GET_BIT.
  eapply wp_post.
  - apply (GET_BIT_walk inp (numProbs this) E Gi (J - 1) D); try assumption; try lia.
    eapply W_weaken; [| |exact HW]; lia.
  - intros i' r' (HW' & Hc & Hi'). split; [exact HW'|]. split; [exact Hc|].
    change (2 ^ 20) with 1048576 in Hlo.
    destruct Hi' as [-> | ->]; rewrite u32_small; lia.
Qed.

Lemma get2_walk x i lo J D r :
  1 <= J -> 0 <= D -> 1 <= lo <= 2 ^ 20 -> lo <= i < 2 * lo -> 0 <= x < numProbs this ->
  W (numProbs this) E Gi J D r ->
  wp (GET_BIT2 inp x i)
     (fun g r' => W (numProbs this) E Gi (J - 1) D r' /\ ctx r' = ctx r /\
                  2 * lo <= fst g < 2 * (2 * lo))
     never (rc_fault Gi) r.
Proof.
  intros HJ HD Hlo Hi Hp HW.
  eapply wp_post.
  - apply (GET_BIT2_walk inp (numProbs this) E Gi (J - 1) D); try assumption; try lia.
    eapply W_weaken; [| |exact HW]; lia.
  - intros [i' b] r' (HW' & Hc & Hi'). cbn [fst snd] in *. split; [exact HW'|].
    split; [exact Hc|]. change (2 ^ 20) with 1048576 in Hlo.
    rewrite Hi'. destruct b; cbn [b2z]; rewrite u32_small; lia.
Qed.

(** A position slot: six counter bits. *)
Lemma TREE_6_DECODE_walk p J D r :
  6 <= J -> 0 <= D -> 0 <= p -> p + 64 <= numProbs this ->
  W (numProbs this) E Gi J D r ->
  wp (TREE_6_DECODE inp p)
     (fun d r' => W (numProbs this) E Gi (J - 6) D r' /\ ctx r' = ctx r /\ 0 <= d < 64)
     never (rc_fault Gi) r.
Proof.
  intros HJ HD Hp HpN HW. unfold TREE_6_DECODE.
  apply wp_bind. eapply wp_post; [apply (tget_walk p 1 1 J D r); try assumption; try lia;
                                  change (2 ^ 20) with 1048576; lia|].
  intros i1 r1 (HW1 & Hc1 & Hi1). cbv beta.
  apply wp_bind. eapply wp_post; [apply (tget_walk p i1 2 (J - 1) D r1); try assumption; try lia;
                                  change (2 ^ 20) with 1048576; lia|].
  intros i2 r2 (HW2 & Hc2 & Hi2). cbv beta.
  apply wp_bind. eapply wp_post; [apply (tget_walk p i2 4 (J - 1 - 1) D r2); try assumption;
                                  try lia; change (2 ^ 20) with 1048576; lia|].
  intros i3 r3 (HW3 & Hc3 & Hi3). cbv beta.
  apply wp_bind. eapply wp_post; [apply (tget_walk p i3 8 (J - 1 - 1 - 1) D r3); try assumption;
                                  try lia; change (2 ^ 20) with 1048576; lia|].
  intros i4 r4 (HW4 & Hc4 & Hi4). cbv beta.
  apply wp_bind. eapply wp_post; [apply (tget_walk p i4 16 (J - 1 - 1 - 1 - 1) D r4);
                                  try assumption; try lia; change (2 ^ 20) with 1048576; lia|].
  intros i5 r5 (HW5 & Hc5 & Hi5). cbv beta.
  apply wp_bind. eapply wp_post; [apply (tget_walk p i5 32 (J - 1 - 1 - 1 - 1 - 1) D r5);
                                  try assumption; try lia; change (2 ^ 20) with 1048576; lia|].
  intros i6 r6 (HW6 & Hc6 & Hi6). cbv beta. apply wp_ret.
  split; [eapply W_weaken; [| |exact HW6]; lia|]. split; [congruence|].
  rewrite u32_small; lia.
Qed.

(** The low bits of a short distance: a reverse bit tree of [n] bits. *)
Lemma spec_pos_walk p n d0 J D r :
  1 <= n <= 5 -> n <= J -> 0 <= D -> 0 <= p -> p + 2 ^ n <= numProbs this -> 0 <= d0 ->
  W (numProbs this) E Gi J D r ->
  wp (do_while 32 (fun v : Z * Z * Z * Z =>
        let '(mask, i, distance, numDirectBits) := v in
        let* g := GET_BIT2 inp (p + i) i in
        let distance := if snd g then Z.lor distance mask else distance in
        let mask := u32 (Z.shiftl mask 1) in
        let numDirectBits := numDirectBits - 1 in
        ret ((mask, fst g, distance, numDirectBits), negb (numDirectBits =? 0)))
        (1, 1, d0, n))
     (fun v r' => W (numProbs this) E Gi (J - n) D r' /\ ctx r' = ctx r /\ 0 <= snd (fst v))
     never (rc_fault Gi) r.
Proof.
  intros Hn HJ HD Hp HpN Hd0 HW.
  apply wp_do_while_fuel
    with (I := fun v s => (1 <= snd v <= n /\ 0 <= fst (fst (fst v)) /\ 0 <= snd (fst v)) /\
                          1 <= snd (fst (fst v)) /\
                          Z.log2 (snd (fst (fst v))) = n - snd v /\
                          W (numProbs this) E Gi (J - (n - snd v)) D s /\ ctx s = ctx r)
         (mu := fun v _ => Z.to_nat (snd v - 1)).
  - intros [[[mask i] dist] ndb] s ((Hndb & Hmask & Hdist) & Hi & Hlog & HWs & Hc).
    cbn [fst snd] in *.
    assert (Hnn : forall b : bool, 0 <= (if b then Z.lor dist mask else dist))
      by (intros []; [apply Z.lor_nonneg; split; assumption | exact Hdist]).
    pose proof (u32_range (Z.shiftl mask 1)) as Hm1.
    apply wp_bind.
    assert (Hlt : i < 2 ^ n) by (apply Z.log2_lt_pow2; lia).
    eapply wp_post.
    + apply (GET_BIT2_walk inp (numProbs this) E Gi (J - (n - ndb) - 1) D); try assumption;
        try lia.
      eapply W_weaken; [| |exact HWs]; lia.
    + intros [i' b] s' (HW' & Hc' & Hi'). apply wp_ret. cbn [fst snd] in *.
      assert (Hi2 : i' = u32 (i + i) \/ i' = u32 (i + i + 1)).
      { destruct b; cbn [b2z] in Hi'; [right | left]; rewrite Hi'; f_equal; lia. }
      destruct (tree_step i i' n ltac:(lia) ltac:(lia) Hi2) as (Hv & Hl & _ & _ & Hr).
      destruct (Z.eqb_spec (ndb - 1) 0) as [E0 | E0]; cbn [negb].
      * split; [eapply W_weaken; [| |exact HW']; lia|]. split; [congruence | apply Hnn].
      * split; [|lia]. split; [split; [lia | split; [lia | apply Hnn]]|].
        split; [lia|]. split; [lia|]. split; [|congruence].
        eapply W_weaken; [| |exact HW']; lia.
  - cbn [fst snd]. change (Z.log2 1) with 0. split; [lia|]. split; [lia|]. split; [lia|].
    split; [|reflexivity]. eapply W_weaken; [| |exact HW]; lia.
  - cbn [snd]. lia.
Qed.

(** The middle bits of a long distance: [n] direct bits. *)
Lemma direct_walk n d0 J D r :
  1 <= n <= 26 -> 0 <= J -> n <= D ->
  W (numProbs this) E Gi J D r ->
  wp (do_while 32 (fun v : Z * Z =>
        let '(distance, numDirectBits) := v in
        let* distance := direct_bit inp distance in
        let numDirectBits := numDirectBits - 1 in
        ret ((distance, numDirectBits), negb (numDirectBits =? 0)))
        (d0, n))
     (fun _ r' => W (numProbs this) E Gi J (D - n) r' /\ ctx r' = ctx r)
     never (rc_fault Gi) r.
Proof.
  intros Hn HJ HD HW.
  apply wp_do_while_fuel
    with (I := fun v s => 1 <= snd v <= n /\
                          W (numProbs this) E Gi J (D - (n - snd v)) s /\ ctx s = ctx r)
         (mu := fun v _ => Z.to_nat (snd v - 1)).
  - intros [dist ndb] s (Hndb & HWs & Hc). cbn [fst snd] in *. apply wp_bind.
    eapply wp_post.
    + apply (direct_bit_walk inp (numProbs this) E Gi J (D - (n - ndb) - 1)); try assumption;
        try lia.
      eapply W_weaken; [| |exact HWs]; lia.
    + intros d' s' (HW' & Hc' & _). apply wp_ret. cbn [fst snd] in *.
      destruct (Z.eqb_spec (ndb - 1) 0) as [E0 | E0]; cbn [negb].
      * split; [eapply W_weaken; [| |exact HW']; lia | congruence].
      * split; [|lia]. split; [lia|]. split; [|congruence].
        eapply W_weaken; [| |exact HW']; lia.
  - cbn [fst snd]. split; [lia|]. split; [|reflexivity]. eapply W_weaken; [| |exact HW]; lia.
  - cbn [snd]. lia.
Qed.

(** A distance: six counter bits for the slot, then at most five more, or
    at most 26 direct bits and four counter bits. *)
Lemma decode_distance_walk J D r :
  10 <= J -> 26 <= D -> 0 <= L.len r ->
  W (numProbs this) E Gi J D r ->
  wp (decode_distance inp)
     (fun d r' => W (numProbs this) E Gi (J - 10) (D - 26) r' /\
                  L.dic r' = L.dic r /\ L.dicPos r' = L.dicPos r /\
                  match d with
                  | None => L.state r' = u32 (L.state r - 12) /\
                            L.len r' = u32 (L.len r + kMatchSpecLenStart)
                  | Some _ => L.state r' = L.state r /\ L.len r' = L.len r
                  end /\
                  rpp r' = rpp r /\ match d with Some x => 0 <= x | None => True end)
     never (rc_fault Gi) r.
Proof.
  intros HJ HD Hlen HW. unfold decode_distance.
  pose proof (numProbs_bounds this Hprops) as [HN1 HN2].
  apply wp_bind, wp_gets. konsts. rewrite shiftl_6. cbv zeta. apply wp_bind.
  eapply wp_post.
  { apply (TREE_6_DECODE_walk _ J D r); try assumption; try lia;
      destruct (Z.ltb_spec (L.len r) 4); lia. }
  intros d r1 (HW1 & Hc1 & Hd). cbv beta.
  pose proof (ctx_rpp _ _ Hc1) as Hrpp1.
  apply ctx_fields in Hc1.
  destruct Hc1 as (Hs1 & _ & _ & _ & _ & Hp1 & _ & Hl1 & Hdc1).
  destruct (Z.leb_spec 4 d) as [H4 | H4];
    [|apply wp_ret; split; [eapply W_weaken; [| |exact HW1]; lia|];
      repeat split; first [assumption | lia]].
  destruct (Z.ltb_spec d 14) as [H14 | H14].
  - destruct (spec_pos_index d ltac:(lia)) as (Hn & Hi1 & Hi2).
    apply wp_bind. eapply wp_post.
    + eapply (spec_pos_walk _ _ _ (J - 6 + 1) (D - 7) r1); try eassumption; try lia.
      apply W_convert; [lia | lia|]. eapply W_weaken; [| |exact HW1]; lia.
    + intros res r2 (HW2 & Hc2 & Hnn). cbv beta. apply wp_ret.
      pose proof (ctx_rpp _ _ Hc2) as Hrpp2.
      apply ctx_fields in Hc2.
      destruct Hc2 as (Hs2 & _ & _ & _ & _ & Hp2 & _ & Hl2 & Hdc2).
      split; [eapply W_weaken; [| |exact HW2]; lia|].
      repeat split; first [congruence | exact Hnn].
  - assert (Hn : 2 <= Z.shiftr d 1 - 1 - 4 <= 26) by (rewrite shiftr_1; dlia).
    apply wp_bind. eapply wp_post.
    + eapply (direct_walk _ _ (J - 6) D r1); try eassumption; lia.
    + intros res r2 (HW2 & Hc2). cbv beta.
      apply wp_bind. eapply wp_post;
        [apply (get2_walk _ 1 1 (J - 6) (D - (Z.shiftr d 1 - 1 - 4)) r2); try assumption;
         try lia; change (2 ^ 20) with 1048576; lia|].
      intros g1 r3 (HW3 & Hc3 & Hi3). cbv beta.
      apply wp_bind. eapply wp_post;
        [apply (get2_walk _ _ 2 (J - 6 - 1) (D - (Z.shiftr d 1 - 1 - 4)) r3); try assumption;
         try lia; change (2 ^ 20) with 1048576; lia|].
      intros g2 r4 (HW4 & Hc4 & Hi4). cbv beta.
      apply wp_bind. eapply wp_post;
        [apply (get2_walk _ _ 4 (J - 6 - 1 - 1) (D - (Z.shiftr d 1 - 1 - 4)) r4);
         try assumption; try lia; change (2 ^ 20) with 1048576; lia|].
      intros g3 r5 (HW5 & Hc5 & Hi5). cbv beta.
      apply wp_bind. eapply wp_post;
        [apply (get2_walk _ _ 8 (J - 6 - 1 - 1 - 1) (D - (Z.shiftr d 1 - 1 - 4)) r5);
         try assumption; try lia; change (2 ^ 20) with 1048576; lia|].
      intros g4 r6 (HW6 & Hc6 & Hi6). cbv beta.
      assert (Hc : ctx r6 = ctx r1) by congruence.
      pose proof (ctx_rpp _ _ Hc) as Hrpp6.
      apply ctx_fields in Hc. destruct Hc as (Hs & _ & _ & _ & _ & Hp & _ & Hl & Hdc).
      assert (HWe : W (numProbs this) E Gi (J - 10) (D - 26) r6)
        by (eapply W_weaken; [| |exact HW6]; lia).
      match goal with |- wp (if ?x =? _ then _ else _) _ _ _ _ => set (dist := x) end.
      assert (Hdist : 0 <= dist).
      { subst dist. pose proof (u32_range (Z.shiftl (fst res) 4)).
        repeat match goal with
               | |- 0 <= (if ?c then _ else _) => destruct c
               | |- 0 <= Z.lor _ _ => apply Z.lor_nonneg; split; [|lia]
               end; lia. }
      destruct (_ =? 4294967295).
      * apply wp_bind, wp_modify, wp_bind, wp_modify, wp_ret.
        split; [eapply W_ext; [|exact HWe]; reflexivity|].
        cbn [L.set_state L.set_len L.dic L.dicPos L.state L.len].
        split; [congruence|]. split; [congruence|]. split; [split; congruence|].
        split; [|exact I]. change (rpp r6 = rpp r). congruence.
      * apply wp_ret. split; [exact HWe|]. repeat split; first [congruence | exact Hdist].
Qed.

(** The new distance: the check throws before anything is copied. *)
Lemma check_distance_walk distance r :
  rc_inv (numProbs this) r -> dic_inv r -> reps_ok r -> 0 <= distance ->
  wp (check_distance this distance)
     (fun _ r' => rcv r' = rcv r /\ L.dic r' = L.dic r /\ L.dicPos r' = L.dicPos r /\
                  L.len r' = L.len r /\ 0 <= L.state r' < 12 /\ reps_ok r')
     walk_raise (walk_fault Gi Gd) r.
Proof.
  intros Hrc Hdic Hreps Hd0. unfold check_distance.
  apply wp_bind, wp_modify, wp_bind, wp_modify, wp_bind, wp_modify, wp_bind, wp_modify.
  apply wp_bind, wp_get, wp_bind.
  match goal with |- wp _ _ _ _ ?s => set (r1 := s) end.
  assert (Hraise : walk_raise BadStream r1) by (split; [exact Hrc | exact Hdic]).
  assert (Hok : distance < (if checkDicSize_ this =? 0 then L.processedPos r
                            else checkDicSize_ this) ->
                wp (modify (fun r => L.set_state
                      (if L.state r <? kNumStates + kNumLitStates then kNumLitStates
                       else kNumLitStates + 3) r))
                   (fun _ r' => rcv r' = rcv r /\ L.dic r' = L.dic r /\
                                L.dicPos r' = L.dicPos r /\ L.len r' = L.len r /\
                                0 <= L.state r' < 12 /\ reps_ok r')
                   walk_raise (walk_fault Gi Gd) r1).
  { intros Hlt. apply wp_modify. konsts.
    split; [reflexivity|]. split; [reflexivity|]. split; [reflexivity|]. split; [reflexivity|].
    split; [cbn [L.set_state L.state]; destruct (_ <? _); lia|].
    intros g. subst r1.
    cbn [L.set_state L.set_rep0 L.set_rep1 L.set_rep2 L.set_rep3 L.rep0 L.rep1 L.rep2 L.rep3
         L.processedPos L.dicPos].
    cbn [L.dic]. destruct (Hreps g) as [(R0 & R1 & R2 & R3) [Hpp Htl]].
    split; [|exact (conj Hpp Htl)].
    split; [|tauto].
    destruct Hdic as [_ Hd]. destruct (Hd g) as [_ Hp]. destruct (HGlim g).
    pose proof (HGchk g).
    destruct (Z.eqb_spec (checkDicSize_ this) 0) as [Hc | Hc]; [specialize (Hpp Hc)|];
      rewrite u32_small by lia; lia. }
  destruct (Z.eqb_spec (checkDicSize_ this) 0) as [Hc | Hc].
  - destruct (Z.leb_spec (L.processedPos r1) distance) as [Hle | Hgt];
      [apply wp_raise; exact Hraise|]. apply wp_ret. apply Hok. exact Hgt.
  - destruct (Z.leb_spec (checkDicSize_ this) distance) as [Hle | Hgt];
      [apply wp_raise; exact Hraise|]. apply wp_ret. apply Hok. exact Hgt.
Qed.

(** The copy of a match: it stops at [limit]. *)
Lemma copy_match_walk r :
  0 <= L.len r < 272 -> rc_inv (numProbs this) r -> dic_inv r -> reps_ok r ->
  wp (copy_match this limit)
     (fun _ r' => rcv r' = rcv r /\ L.state r' = L.state r /\ dic_inv r' /\
                  (Gd -> L.dicPos r < L.dicPos r') /\ reps_ok r' /\
                  (Gd -> L.len r' = 0 \/ (0 < L.len r' < 274 /\ L.dicPos r' = limit)))
     walk_raise (walk_fault Gi Gd) r.
Proof.
  intros Hlen Hrc Hdic Hreps. unfold copy_match. konsts.
  apply wp_bind, wp_modify, wp_bind, wp_get.
  cbn [L.set_len L.dicPos L.len L.rep0].
  destruct (Z.eqb_spec limit (L.dicPos r)) as [Heq | Hne].
  { apply wp_raise. split; [exact Hrc | exact Hdic]. }
  cbv zeta. rewrite (u32_small (L.len r + 2)) by lia.
  set (rem := usize (limit - L.dicPos r)).
  set (curLen := if rem <? L.len r + 2 then u32 rem else L.len r + 2).
  set (pos0 := back_pos this (L.dicPos r) (L.rep0 r)).
  assert (HG : Gd -> 1 <= curLen <= limit - L.dicPos r /\ curLen < 274 /\
                    Z.of_nat (length (L.dic r)) = dicBufSize this /\
                    0 <= L.dicPos r < limit /\ limit <= dicBufSize this < 2 ^ 64 /\
                    pos (DecoderCore.m_dic this) <= L.dicPos r).
  { intros g. destruct Hdic as [_ Hd]. destruct (Hd g) as [Hl Hp].
    destruct (HGlim g) as [Hl1 Hl2]. subst curLen rem.
    rewrite usize_small by lia.
    destruct (Z.ltb_spec (limit - L.dicPos r) (L.len r + 2)); [rewrite u32_small by lia|]; lia. }
  assert (HG2 : Gd -> 0 <= pos0 < dicBufSize this /\ dicBufSize this + 273 < 2 ^ 64).
  { intros g. destruct (HG g) as (? & ? & ? & ? & ? & ?). destruct (Hreps g) as [(R0 & _) _].
    split; [apply back_pos_range; lia | exact (HGbig g)]. }
  apply wp_bind, wp_modify, wp_bind, wp_modify.
  set (r1 := L.set_len _ _).
  assert (Hr1 : rcv r1 = rcv r /\ L.state r1 = L.state r /\ L.dic r1 = L.dic r /\
                L.dicPos r1 = L.dicPos r) by (repeat split; reflexivity).
  assert (Hleft : forall s, L.len s = L.len r1 -> (Gd -> L.dicPos s = L.dicPos r + curLen) ->
                            Gd -> L.len s = 0 \/ (0 < L.len s < 274 /\ L.dicPos s = limit)).
  { intros s Hs Hp g. rewrite Hs, (Hp g). subst r1. cbn [L.set_len L.set_processedPos L.len].
    destruct (HG g) as (? & ? & ? & ? & ? & ?). subst curLen rem.
    rewrite usize_small in * by lia.
    destruct (Z.ltb_spec (limit - L.dicPos r) (L.len r + 2));
      [right; rewrite !u32_small by lia; lia | left; rewrite Z.sub_diag; reflexivity]. }
  assert (Hfinal : forall s, rpp s = rpp r1 -> (Gd -> L.dicPos s = L.dicPos r + curLen) ->
                             (Gd -> dic_tail (L.dicPos r + curLen) (L.dic s)) ->
                             reps_ok s).
  { intros s Hs Hp Htl g. apply rpp_fields in Hs. destruct Hs as (H0 & H1 & H2 & H3 & H4).
    rewrite H0, H1, H2, H3, H4, (Hp g). subst r1.
    cbn [L.set_len L.set_processedPos L.rep0 L.rep1 L.rep2 L.rep3 L.processedPos].
    destruct (Hreps g) as (Hr & Hpp & _). split; [exact Hr|]. split; [|exact (Htl g)].
    intros Hc. specialize (Hpp Hc).
    destruct (HG g) as (? & ? & ? & ? & ? & ?).
    pose proof (u32_range (L.processedPos r + curLen)).
    assert (u32 (L.processedPos r + curLen) <= L.processedPos r + curLen)
      by (apply Z.mod_le; lia).
    lia. }
  clearbody r1. destruct Hr1 as (Hrcv1 & Hst1 & Hdic1 & Hpos1).
  assert (HF : ~ Gd -> walk_fault Gi Gd OutOfFuel)
    by (intros g; right; right; split; [exact g | right; reflexivity]).
  assert (HFw : ~ Gd -> walk_fault Gi Gd DicWrite)
    by (intros g; right; right; split; [exact g | left; reflexivity]).
  destruct (Z.leb_spec (usize (pos0 + curLen)) (dicBufSize this)) as [Hbr | Hbr].
  - apply wp_bind, wp_modify, wp_bind.
    eapply wp_post.
    + apply wp_do_while_fuel_lt
        with (G := Gd)
             (I := fun dest s =>
                     (rcv s = rcv r /\ rpp s = rpp r1 /\
                      (Gd -> dic_tail (L.dicPos r + curLen) (L.dic s)) /\
                      L.len s = L.len r1) /\
                     L.state s = L.state r /\
                     dic_good (L.dic s) /\
                     L.dicPos s = usize (L.dicPos r + curLen) /\
                     (Gd -> Z.of_nat (length (L.dic s)) = dicBufSize this /\
                           L.dicPos r <= dest < L.dicPos r + curLen))
             (Q := fun dest s =>
                     (rcv s = rcv r /\ rpp s = rpp r1 /\
                      (Gd -> dic_tail (L.dicPos r + curLen) (L.dic s)) /\
                      L.len s = L.len r1) /\
                     L.state s = L.state r /\
                     dic_good (L.dic s) /\
                     L.dicPos s = usize (L.dicPos r + curLen) /\
                     (Gd -> Z.of_nat (length (L.dic s)) = dicBufSize this))
             (mu := fun dest _ => Z.to_nat (L.dicPos r + curLen - 1 - dest)); [exact HF | |  |].
      * intros dest s (Hs1 & Hs2 & Hs3 & Hs4 & Hs5). apply wp_bind.
        apply wp_dic_read_G;
          [|intros g; destruct (Hs5 g) as [H1 H2]; destruct (HG2 g) as [H3 H4];
            destruct (HG g) as (? & ? & ? & ? & ? & ?);
            rewrite usize_small in Hbr by lia; lia].
        intros v Hv _. apply wp_bind.
        apply (wp_dic_write' this Gd); [ | exact HFw | ].
        -- intros a Ha Hi. apply wp_ret. cbn [fst snd].
           assert (Hb : dic_good (<[Z.to_nat dest := v]> (L.dic s))).
           { apply dic_good_insert; [exact Hs3 | |].
             - eapply Forall_byte_lookup; [exact (proj1 Hs3) | eassumption].
             - intros g. destruct (Hs5 g) as [H1 H2].
               destruct (HG g) as (? & ? & ? & ? & ? & ?). lia. }
           assert (Hs1' : rcv (L.set_dic (<[Z.to_nat dest := v]> (L.dic s)) s) = rcv r /\
                          rpp (L.set_dic (<[Z.to_nat dest := v]> (L.dic s)) s) = rpp r1 /\
                          (Gd -> dic_tail (L.dicPos r + curLen)
                                   (<[Z.to_nat dest := v]> (L.dic s))) /\
                          L.len s = L.len r1).
           { destruct Hs1 as (Hs1a & Hs1b & Hs1c & Hs1d). split; [exact Hs1a|].
             split; [exact Hs1b|]. split; [|exact Hs1d].
             intros g. destruct (Hs5 g) as [H1 H2]. destruct (HG g) as (? & ? & ? & ? & ? & ?).
             apply dic_tail_insert; [exact (Hs1c g) | lia]. }
           destruct (Z.eqb_spec (dest + 1) (L.dicPos r + curLen)) as [He | He]; cbn [negb].
           ++ split; [exact Hs1'|]. split; [exact Hs2|]. split; [exact Hb|].
              split; [exact Hs4|]. cbn [L.set_dic L.dic]. rewrite length_insert.
              intros g. apply (Hs5 g).
           ++ split; [|intros g; destruct (Hs5 g); lia].
              split; [exact Hs1'|]. split; [exact Hs2|]. split; [exact Hb|].
              split; [exact Hs4|]. cbn [L.set_dic L.dic]. rewrite length_insert.
              intros g. destruct (Hs5 g) as [H1 H2]. split; [exact H1 | lia].
        -- intros g. destruct (Hs5 g) as [H1 H2]. destruct (HG g) as (? & ? & ? & ? & ? & ?). lia.
      * split; [split; [rewrite <- Hrcv1; reflexivity | split; [reflexivity|]]|].
        { split; [|reflexivity]. cbn [L.set_dicPos L.dic]. rewrite Hdic1. intros g.
          destruct (HG g) as (? & ? & ? & ? & ? & ?).
          eapply dic_tail_shift; [exact (proj2 (proj2 (Hreps g))) | lia]. }
        split; [rewrite <- Hst1; reflexivity|].
        cbn [L.set_dicPos L.dic L.dicPos]. rewrite Hdic1, Hpos1.
        split; [exact (proj1 Hdic)|]. split; [reflexivity|].
        intros g. destruct (HG g) as (? & ? & ? & ? & ? & ?). lia.
      * intros g. destruct (HG g) as (? & ? & ? & ? & ? & ?). lia.
    + intros dest s (Hs1 & Hs2 & Hs3 & Hs4 & Hs5). cbv beta. apply wp_ret.
      split; [exact (proj1 Hs1)|]. split; [exact Hs2|]. split; [|split].
      * split; [exact Hs3|]. intros g. destruct (HG g) as (? & ? & ? & ? & ? & ?).
        rewrite Hs4, usize_small by lia. split; [exact (Hs5 g) | lia].
      * intros g. destruct (HG g) as (? & ? & ? & ? & ? & ?). rewrite Hs4, usize_small by lia. lia.
      * assert (Hp : Gd -> L.dicPos s = L.dicPos r + curLen).
        { intros g. destruct (HG g) as (? & ? & ? & ? & ? & ?). rewrite Hs4.
          apply usize_small. lia. }
        destruct Hs1 as (_ & Hs1b & Hs1c & Hs1d).
        split; [apply Hfinal; assumption | apply Hleft; assumption].
  - apply wp_bind.
    eapply wp_post.
    + apply wp_do_while_fuel_lt
        with (G := Gd)
             (I := fun v s =>
                     (rcv s = rcv r /\ rpp s = rpp r1 /\
                      (Gd -> dic_tail (L.dicPos s) (L.dic s)) /\ L.len s = L.len r1) /\
                     L.state s = L.state r /\
                     dic_good (L.dic s) /\
                     (Gd -> Z.of_nat (length (L.dic s)) = dicBufSize this /\ 1 <= snd v /\
                           L.dicPos r <= L.dicPos s /\
                           L.dicPos s + snd v = L.dicPos r + curLen /\
                           0 <= fst v < dicBufSize this))
             (Q := fun v s =>
                     (rcv s = rcv r /\ rpp s = rpp r1 /\
                      (Gd -> dic_tail (L.dicPos s) (L.dic s)) /\ L.len s = L.len r1) /\
                     L.state s = L.state r /\
                     dic_good (L.dic s) /\
                     (Gd -> Z.of_nat (length (L.dic s)) = dicBufSize this /\
                           L.dicPos s = L.dicPos r + curLen))
             (mu := fun v _ => Z.to_nat (snd v - 1)); [exact HF | |  |].
      * intros [pos cl] s (Hs1 & Hs2 & Hs3 & Hs5). cbn [fst snd] in *.
        apply wp_bind, wp_get, wp_bind.
        apply wp_dic_read_G;
          [|intros g; destruct (Hs5 g) as (H1 & H2 & H3 & H4 & H5); lia].
        intros v Hv _. apply wp_bind.
        apply (wp_dic_write' this Gd); [ | exact HFw | ].
        -- intros a Ha Hi. apply wp_bind, wp_modify, wp_ret. cbn [fst snd].
           assert (Hb : dic_good (<[Z.to_nat (L.dicPos s) := v]> (L.dic s))).
           { apply dic_good_insert; [exact Hs3 | |].
             - eapply Forall_byte_lookup; [exact (proj1 Hs3) | eassumption].
             - intros g. destruct (Hs5 g) as (H1 & H2 & H3 & H4).
               destruct (HG g) as (? & ? & ? & ? & ? & ?). lia. }
           cbn [L.set_dicPos L.set_dic L.dic L.dicPos L.state].
           assert (Hs1' : rcv s = rcv r /\ rpp s = rpp r1 /\
                          (Gd -> dic_tail (usize (L.dicPos s + 1))
                                   (<[Z.to_nat (L.dicPos s) := v]> (L.dic s))) /\
                          L.len s = L.len r1).
           { destruct Hs1 as (Hs1a & Hs1b & Hs1c & Hs1d). split; [exact Hs1a|].
             split; [exact Hs1b|]. split; [|exact Hs1d].
             intros g. destruct (Hs5 g) as (H1 & H2 & H3 & H4 & H5).
             destruct (HG g) as (? & ? & ? & ? & ? & ?). rewrite usize_small by lia.
             apply dic_tail_insert; [|lia].
             eapply dic_tail_shift; [exact (Hs1c g) | lia]. }
           destruct (Z.eqb_spec (u32 (cl - 1)) 0) as [He | He]; cbn [negb].
           ++ split; [exact Hs1'|]. split; [exact Hs2|]. split; [exact Hb|].
              rewrite length_insert. intros g.
              destruct (Hs5 g) as (H1 & H2 & H3 & H4);
                destruct (HG g) as (? & ? & ? & ? & ? & ?);
                rewrite ?usize_small by lia; rewrite ?(u32_small (cl - 1)) in He by lia; lia.
           ++ split.
              ** split; [exact Hs1'|]. split; [exact Hs2|]. split; [exact Hb|].
                 rewrite length_insert. intros g.
                 destruct (Hs5 g) as (H1 & H2 & H3 & H4 & H5);
                   destruct (HG g) as (? & ? & ? & ? & ? & ?);
                   rewrite !usize_small by lia; rewrite ?(u32_small (cl - 1)) in * by lia.
                 destruct (Z.eqb_spec (pos + 1) (dicBufSize this)); lia.
              ** intros g. destruct (Hs5 g) as (H1 & H2 & H3 & H4).
                 destruct (HG g) as (? & ? & ? & ? & ? & ?).
                 rewrite (u32_small (cl - 1)) in * by lia. lia.
        -- intros g. destruct (Hs5 g) as (H1 & H2 & H3 & H4).
           destruct (HG g) as (? & ? & ? & ? & ? & ?). lia.
      * split; [split; [exact Hrcv1 | split; [reflexivity|]]|].
        { split; [|reflexivity]. rewrite Hdic1, Hpos1. intros g.
          exact (proj2 (proj2 (Hreps g))). }
        split; [exact Hst1|].
        rewrite Hdic1, Hpos1.
        split; [exact (proj1 Hdic)|]. cbn [fst snd].
        intros g. destruct (HG g) as (? & ? & ? & ? & ? & ?). destruct (HG2 g). lia.
      * cbn [snd]. intros g. destruct (HG g) as (? & ? & ? & ? & ? & ?). lia.
    + intros v s (Hs1 & Hs2 & Hs3 & Hs5). cbv beta. apply wp_ret.
      split; [exact (proj1 Hs1)|]. split; [exact Hs2|]. split; [|split].
      * split; [exact Hs3|]. intros g. destruct (HG g) as (? & ? & ? & ? & ? & ?).
        destruct (Hs5 g). lia.
      * intros g. destruct (HG g) as (? & ? & ? & ? & ? & ?). destruct (Hs5 g). lia.
      * assert (Hp : Gd -> L.dicPos s = L.dicPos r + curLen)
          by (intros g; destruct (Hs5 g) as [_ H]; exact H).
        destruct Hs1 as (_ & Hs1b & Hs1c & Hs1d).
        split; [apply Hfinal; [exact Hs1b | exact Hp|] | apply Hleft; assumption].
        intros g. rewrite <- (Hp g). exact (Hs1c g).
Qed.

(** The symbol at [r] is a simple match: the [IsMatch] bit is 1 and the
    [IsRep] bit is 0. *)
Definition must_match (r : L.t) : Prop :=
  let x0 := IsMatch + Z.shiftl (L.state r) kNumPosBitsMax
            + Z.land (L.processedPos r) (pbMask this) in
  (forall r1, GET_BIT2 inp x0 0 r <> Ok (0, false) r1) /\
  (forall r1 r2, GET_BIT2 inp x0 0 r = Ok (1, true) r1 ->
                 GET_BIT2 inp (IsRep + L.state r) 0 r1 <> Ok (1, true) r2).

(** One pass of the loop: at most 22 counter bits and 26 direct bits; a
    pass that does not end the loop moves [dicPos] forward. *)
Lemma symbol_walk r :
  0 <= L.state r < 12 -> W (numProbs this) E Gi 22 26 r -> dic_inv r -> reps_ok r ->
  (Gd -> L.dicPos r < limit \/ must_match r) ->
  wp (symbol inp this limit)
     (fun go r' => 0 <= L.state r' < 12 /\ W (numProbs this) E Gi 0 0 r' /\ dic_inv r' /\
                   (go = true -> Gd -> L.dicPos r < L.dicPos r') /\
                   (go = false -> 274 <= L.len r') /\ reps_ok r' /\
                   (go = true ->
                    L.len r' = L.len r \/ (Gd -> L.len r' = 0 \/ (0 < L.len r' < 274 /\ L.dicPos r' = limit))))
     walk_raise (walk_fault Gi Gd) r.
Proof.
  intros Hst HW Hdic Hreps Hkind. unfold symbol.
  pose proof (numProbs_bounds this Hprops) as [HN1 HN2].
  pose proof (posState_bound (L.processedPos r) this Hprops) as Hpos.
  apply wp_bind, wp_get. cbv zeta.
  unfold must_match in Hkind. cbv zeta in Hkind.
  set (posState := Z.land (L.processedPos r) (pbMask this)) in *.
  assert (Htail : forall prob J r',
            prob = LenCoder \/ prob = RepLenCoder -> 10 <= J ->
            W (numProbs this) E Gi J 26 r' -> dic_inv r' -> 0 <= L.state r' < 24 ->
            (12 <= L.state r' -> 20 <= J) ->
            (Gd -> L.dicPos r' = L.dicPos r) -> reps_ok r' ->
            wp (decode_len inp prob posState;;
                let* r := get in
                let* go :=
                  if kNumStates <=? L.state r then
                    let* d := decode_distance inp in
                    match d with
                    | None => ret false
                    | Some distance => check_distance this distance;; ret true
                    end
                  else ret true in
                if go then copy_match this limit;; ret true else ret false)
               (fun go r' => 0 <= L.state r' < 12 /\ W (numProbs this) E Gi 0 0 r' /\
                             dic_inv r' /\ (go = true -> Gd -> L.dicPos r < L.dicPos r') /\
                             (go = false -> 274 <= L.len r') /\ reps_ok r' /\
                             (go = true -> L.len r' = L.len r \/
                                           (Gd -> L.len r' = 0 \/ (0 < L.len r' < 274 /\ L.dicPos r' = limit))))
               walk_raise (walk_fault Gi Gd) r').
  { intros prob J r' Hprob HJ HW' Hdic' Hst' HJ20 Hpos' Hreps'.
    assert (Hcopy : forall r3,
              0 <= L.len r3 < 272 -> 0 <= L.state r3 < 12 -> W (numProbs this) E Gi 0 0 r3 ->
              dic_inv r3 -> (Gd -> L.dicPos r3 = L.dicPos r) -> reps_ok r3 ->
              wp (copy_match this limit;; ret true)
                 (fun go r' => 0 <= L.state r' < 12 /\ W (numProbs this) E Gi 0 0 r' /\
                               dic_inv r' /\ (go = true -> Gd -> L.dicPos r < L.dicPos r') /\
                               (go = false -> 274 <= L.len r') /\ reps_ok r' /\
                               (go = true -> L.len r' = L.len r \/
                                             (Gd -> L.len r' = 0 \/ (0 < L.len r' < 274 /\ L.dicPos r' = limit))))
                 walk_raise (walk_fault Gi Gd) r3).
    { intros r3 Hl3 Hs3 HW3 Hd3 Hp3 Hr3. apply wp_bind. eapply wp_post.
      - apply copy_match_walk; [exact Hl3 | exact (proj1 HW3) | exact Hd3 | exact Hr3].
      - intros _ r4 (Hrc4 & Hs4 & Hd4 & Hp4 & Hr4 & Hl4). cbv beta. apply wp_ret.
        split; [lia|]. split; [eapply W_ext; eassumption|]. split; [exact Hd4|].
        split; [intros _ g; rewrite <- (Hp3 g); exact (Hp4 g)|].
        split; [discriminate|]. split; [exact Hr4 | intros _; right; exact Hl4]. }
    apply wp_bind. eapply wp_never; [ | | intros f Hf; exact Hf].
    { apply (decode_len_walk prob posState J 26 r'); try assumption; lia. }
    intros _ r2 (HW2 & Hc2 & Hlen2). cbv beta.
    assert (Hreps2 : reps_ok r2).
    { pose proof Hc2 as Hc2'. unfold ctx2 in Hc2'. inversion Hc2'.
      apply (reps_ok_ext r'); [unfold rpp; congruence | assumption | assumption | exact Hreps']. }
    apply ctx2_fields in Hc2. destruct Hc2 as (Hs2 & _ & Hdc2 & Hp2).
    assert (Hdic2 : dic_inv r2) by (unfold dic_inv in *; rewrite Hdc2, Hp2; exact Hdic').
    apply wp_bind, wp_get, wp_bind.
    destruct (Z.leb_spec kNumStates (L.state r2)) as [H12 | H12]; unfold kNumStates in H12.
    - apply wp_bind. eapply wp_never; [ | | apply rc_walk_fault].
      { apply (decode_distance_walk (J - 10) 26 r2); try assumption; lia. }
      intros d r3 (HW3 & Hdc3 & Hp3 & Hd & Hrpp3 & Hnn). cbv beta.
      assert (Hreps3 : reps_ok r3) by (apply (reps_ok_ext r2); assumption).
      assert (Hdic3 : dic_inv r3) by (unfold dic_inv in *; rewrite Hdc3, Hp3; exact Hdic2).
      assert (HW3' : W (numProbs this) E Gi 0 0 r3) by (eapply W_weaken; [| |exact HW3]; lia).
      destruct d as [distance|].
      + destruct Hd as [Hs3 Hl3]. apply wp_bind. eapply wp_post.
        * apply check_distance_walk; [exact (proj1 HW3) | exact Hdic3 | exact Hreps3 | exact Hnn].
        * intros _ r4 (Hrc4 & Hdc4 & Hp4 & Hl4 & Hs4 & Hreps4). cbv beta. apply wp_ret.
          assert (Hdic4 : dic_inv r4) by (unfold dic_inv in *; rewrite Hdc4, Hp4; exact Hdic3).
          assert (HW4 : W (numProbs this) E Gi 0 0 r4) by (eapply W_ext; eassumption).
          apply Hcopy; try assumption; try lia. intros g. rewrite <- (Hpos' g). congruence.
      + apply wp_ret, wp_ret. destruct Hd as [Hd Hl3].
        split; [rewrite Hd, u32_small; lia|].
        split; [exact HW3'|]. split; [exact Hdic3|]. split; [discriminate|].
        split; [|split; [exact Hreps3 | discriminate]].
        intros _. rewrite Hl3. unfold kMatchSpecLenStart. konsts. rewrite u32_small; lia.
    - apply wp_ret.
      assert (HW2' : W (numProbs this) E Gi 0 0 r2) by (eapply W_weaken; [| |exact HW2]; lia).
      apply Hcopy; try assumption; try lia. intros g. rewrite <- (Hpos' g). congruence. }
  konsts. rewrite shiftl_4 in *.
  eapply (bit_branch (0 + L.state r * 16 + posState) 22 26); try assumption;
    [intros s; rewrite literal_eq; apply bind_seq_assoc | intros s; reflexivity
     | lia | lia | lia | |].
  - intros r1 HW1 Hc1 Hbit. apply wp_bind.
    pose proof (dic_inv_ctx _ _ Hc1 Hdic) as Hdic1.
    pose proof (reps_ok_ctx _ _ Hc1 Hreps) as Hreps1. apply ctx_fields in Hc1.
    destruct Hc1 as (Hs1 & _ & _ & _ & _ & Hp1 & _ & Hl1 & Hdc1).
    eapply wp_never;
      [apply (wp_preserves keeps_len); [apply literal_tail_keeps_len|]
      | | intros f Hf; exact Hf].
    + apply (literal_walk 13 26 r1); try lia; try assumption.
      intros g. rewrite Hp1. destruct (Hkind g) as [Hlt | [Hm _]]; [exact Hlt|].
      exfalso. exact (Hm r1 Hbit).
    + intros _ r2 ((Hs2 & HW2 & Hd2 & Hp2 & Hr2) & Hk2). cbv beta. apply wp_ret.
      split; [exact Hs2|]. split; [eapply W_weaken; [| |exact HW2]; lia|].
      split; [exact Hd2|]. split; [intros _ g; rewrite (Hp2 g); lia|].
      split; [discriminate|]. split; [exact Hr2|].
      intros _. left. unfold keeps_len in Hk2. congruence.
  - intros r1 HW1 Hc1 Hbit1.
    pose proof (dic_inv_ctx _ _ Hc1 Hdic) as Hdic1.
    pose proof (reps_ok_ctx _ _ Hc1 Hreps) as Hreps1. apply ctx_fields in Hc1.
    destruct Hc1 as (Hs1 & _ & _ & _ & _ & Hp1 & Hpp1 & Hl1 & Hdc1).
    eapply (bit_branch (192 + L.state r) 21 26); try eassumption;
      [intros s; apply bind_seq_assoc | intros s; apply bind_seq_assoc | lia | lia | lia | |].
    + intros r2 HW2 Hc2 Hbit2. apply wp_assoc, wp_bind, wp_modify, wp_bind, wp_ret.
      pose proof (dic_inv_ctx _ _ Hc2 Hdic1) as Hdic2.
      pose proof (reps_ok_ctx _ _ Hc2 Hreps1) as Hreps2. apply ctx_fields in Hc2.
      destruct Hc2 as (Hs2 & _ & _ & _ & _ & Hp2 & _ & _ & Hdc2).
      apply (Htail _ 20); [left; reflexivity | lia | | | | lia | |].
      * eapply W_ext; [|eapply W_weaken; [| |exact HW2]]; [reflexivity | lia..].
      * exact Hdic2.
      * cbn [L.set_state L.state]. rewrite u32_small; lia.
      * intros _. cbn [L.set_state L.dicPos]. congruence.
      * eapply reps_ok_ext; [| | |exact Hreps2]; reflexivity.
    + intros r2 HW2 Hc2 Hbit2. apply wp_assoc, wp_bind.
      pose proof (dic_inv_ctx _ _ Hc2 Hdic1) as Hdic2.
      pose proof (reps_ok_ctx _ _ Hc2 Hreps1) as Hreps2. apply ctx_fields in Hc2.
      destruct Hc2 as (Hs2 & _ & _ & _ & _ & Hp2 & _ & Hl2 & Hdc2).
      eapply wp_post.
      * apply (wp_preserves keeps_len); [apply rep_keeps_len|].
        apply (rep_walk posState 20 26 r2); try lia; try assumption.
        intros g. rewrite Hp2, Hp1. destruct (Hkind g) as [Hlt | [_ Hm]]; [exact Hlt|].
        exfalso. exact (Hm r1 r2 Hbit1 Hbit2).
      * intros short r3 ((Hs3 & HW3 & Hd3 & Hp3 & Hr3) & Hk3). cbv beta.
        destruct short.
        -- apply wp_bind, wp_ret, wp_ret. split; [exact Hs3|].
           split; [eapply W_weaken; [| |exact HW3]; lia|]. split; [exact Hd3|].
           split; [intros _ g; rewrite (Hp3 g); lia|]. split; [discriminate|].
           split; [exact Hr3|]. intros _. left. unfold keeps_len in Hk3. congruence.
        -- apply wp_bind, wp_ret.
           apply (Htail _ 17);
             [right; reflexivity | lia | exact HW3 | exact Hd3 | lia | lia | | exact Hr3].
           intros g. rewrite (Hp3 g). lia.
Qed.

(** The [NORMALIZE] after the loop. *)
Lemma NORMALIZE_walk r :
  W (numProbs this) E Gi 0 0 r ->
  wp (NORMALIZE inp)
     (fun _ r' => rc_inv (numProbs this) r' /\ 2 ^ 24 <= L.range r' /\ ctx r' = ctx r /\
                  (Gi -> 0 <= L.buf r' <= E))
     never (rc_fault Gi) r.
Proof.
  intros ((Hr & Hp & Ht) & Hpot). unfold wp. rewrite NORMALIZE_eq.
  pose proof (normalized_pot inp E Gi 0 0 (L.range r) (L.code r) (L.buf r) HGE
                ltac:(lia) ltac:(lia) Hr Hpot) as Hn.
  destruct (normalized inp (L.range r) (L.code r) (L.buf r)) as [[[range code] buf]|];
    [|split; [reflexivity | exact Hn]].
  destruct Hn as (Hr' & Hb & Hpot'). unfold rc_inv. cbn [with_rc L.range L.probs L.trace L.buf].
  split; [split; [lia | split; [exact Hp | constructor; [exact Hr' | exact Ht]]]|].
  split; [lia|]. split; [reflexivity|]. intros g. exact (proj1 (Hpot' g)).
Qed.

(** The loop of [DecodeReal] and the [NORMALIZE] after it. *)
Lemma DecodeReal_loop_walk bufLimit r :
  (Gi -> bufLimit + 20 <= E) ->
  0 <= L.state r < 12 -> W (numProbs this) E Gi 22 26 r -> dic_inv r -> reps_ok r ->
  L.dicPos r = pos (DecoderCore.m_dic this) ->
  (Gd -> L.dicPos r < limit \/ must_match r) ->
  L.len r = 0 ->
  wp (DecodeReal_loop inp this limit bufLimit)
     (fun _ r' => 0 <= L.state r' < 12 /\ rc_inv (numProbs this) r' /\
                  2 ^ 24 <= L.range r' /\ dic_inv r' /\ (Gi -> 0 <= L.buf r' <= E) /\
                  (Gd -> L.dicPos r < L.dicPos r' \/ 274 <= L.len r') /\ reps_ok r' /\
                  (Gd -> L.len r' = 0 \/ (0 < L.len r' < 274 /\ L.dicPos r' = limit) \/ 274 <= L.len r'))
     walk_raise (walk_fault Gi Gd) r.
Proof.
  intros Hlim Hst HW Hdic Hreps Hpos Hkind Hlen0. unfold DecodeReal_loop. apply wp_bind.
  eapply wp_post.
  - apply wp_do_while_fuel_G
      with (G := Gd)
           (I := fun _ s => 0 <= L.state s < 12 /\ W (numProbs this) E Gi 22 26 s /\
                            (dic_inv s /\ reps_ok s /\ (Gd -> L.len s = 0)) /\
                            (Gd -> L.dicPos r <= L.dicPos s /\
                                   (L.dicPos s < limit \/ must_match s)))
           (Q := fun _ s => 0 <= L.state s < 12 /\ W (numProbs this) E Gi 0 0 s /\
                            (dic_inv s /\ reps_ok s /\
                             (Gd -> L.len s = 0 \/ (0 < L.len s < 274 /\ L.dicPos s = limit) \/ 274 <= L.len s)) /\
                            (Gd -> L.dicPos r < L.dicPos s \/ 274 <= L.len s))
           (mu := fun _ s => Z.to_nat (limit - L.dicPos s)).
    + intros g. right. right. split; [exact g | right; reflexivity].
    + intros [] s (Hs1 & Hs2 & (Hs3 & Hs3' & Hs3l) & Hs4). apply wp_bind. eapply wp_post.
      * apply symbol_walk; try assumption. intros g. apply (Hs4 g).
      * intros go s1 (Ht1 & Ht2 & Ht3' & Ht4 & Ht5 & Ht6 & Ht7). cbv beta.
        assert (Ht7' : go = true -> Gd -> L.len s1 = 0 \/ (0 < L.len s1 < 274 /\ L.dicPos s1 = limit)).
        { intros Hgo g. destruct (Ht7 Hgo) as [H | H]; [left; rewrite H; exact (Hs3l g)|].
          exact (H g). }
        assert (Ht3 : dic_inv s1 /\ reps_ok s1 /\
                      (Gd -> L.len s1 = 0 \/ (0 < L.len s1 < 274 /\ L.dicPos s1 = limit) \/ 274 <= L.len s1)).
        { split; [exact Ht3'|]. split; [exact Ht6|]. intros g. destruct go.
          - destruct (Ht7' eq_refl g); auto.
          - right. right. apply Ht5. reflexivity. }
        apply wp_bind, wp_get, wp_ret.
        cbn [fst snd].
        assert (HQ : 0 <= L.state s1 < 12 /\ W (numProbs this) E Gi 0 0 s1 /\
                     (dic_inv s1 /\ reps_ok s1 /\
                      (Gd -> L.len s1 = 0 \/ (0 < L.len s1 < 274 /\ L.dicPos s1 = limit) \/ 274 <= L.len s1)) /\
                     (Gd -> L.dicPos r < L.dicPos s1 \/ 274 <= L.len s1)).
        { split; [exact Ht1|]. split; [exact Ht2|]. split; [exact Ht3|]. intros g.
          destruct go; [left; specialize (Ht4 eq_refl g); destruct (Hs4 g); lia
                       | right; apply Ht5; reflexivity]. }
        destruct go; cbn [andb]; [|exact HQ].
        destruct (Z.ltb_spec (L.dicPos s1) limit) as [Hlt | Hge]; cbn [andb]; [|exact HQ].
        destruct (Z.ltb_spec (L.buf s1) bufLimit) as [Hb | Hb]; [|exact HQ].
        split; [|intros g; specialize (Ht4 eq_refl g); lia].
        split; [exact Ht1|]. split.
        { split; [exact (proj1 Ht2)|]. intros g. destruct Ht2 as [Hrc Hpot].
          destruct (Hpot g) as [Hbuf _]. specialize (Hlim g).
          apply pot_init; [destruct Hrc as ((? & ?) & _); lia | lia | lia]. }
        split; [|intros g; specialize (Ht4 eq_refl g); destruct (Hs4 g); lia].
        split; [exact Ht3'|]. split; [exact Ht6|]. intros g.
        destruct (Ht7' eq_refl g) as [H | [_ H]]; [exact H | lia].
    + split; [exact Hst|]. split; [exact HW|].
      split; [exact (conj Hdic (conj Hreps (fun _ => Hlen0)))|]. intros g.
      split; [lia | exact (Hkind g)].
    + intros g. rewrite Hpos. lia.
  - intros [] s (Hs1 & Hs2 & Hs3 & Hs4). cbv beta.
    eapply wp_never; [apply NORMALIZE_walk; exact Hs2 | | apply rc_walk_fault].
    intros _ s' (Hrc & Hr & Hc & Hb). split; [rewrite (ctx_state _ _ Hc); exact Hs1|].
    split; [exact Hrc|]. split; [exact Hr|]. split; [exact (dic_inv_ctx _ _ Hc (proj1 Hs3))|].
    split; [exact Hb|].
    pose proof (reps_ok_ctx _ _ Hc (proj1 (proj2 Hs3))) as Hreps'. apply ctx_fields in Hc.
    destruct Hc as (_ & _ & _ & _ & _ & Hc1 & _ & Hc2 & _). rewrite Hc1, Hc2.
    split; [exact Hs4|]. split; [exact Hreps' | exact (proj2 (proj2 Hs3))].
Qed.

End Walk.

(** ** The invariant of the decoder object *)

(** What every call leaves true of a [DecoderCore]: the properties are in
    range, the dictionary holds bytes, the probabilities are counters once
    [InitStateReal] has run, and [range] is normalized once [InitRc] has
    run; the ghost trace holds normalized values only. *)
Definition core_ok (d : DecoderCore.t) : Prop :=
  props_ok (DecoderCore.m_properties d) /\
  trace_ok (DecoderCore.trace d) /\
  Forall byte (mem (DecoderCore.m_dic d)) /\
  (DecoderCore.needInitState d = false ->
     probs_ok (numProbs d) (DecoderCore.m_probs d) /\ 0 <= DecoderCore.state d < 12) /\
  (DecoderCore.needFlush d = false -> 2 ^ 24 <= DecoderCore.m_range d < 2 ^ 32).

(** What the decoding functions leave alone. *)
Definition core_flags (d : DecoderCore.t) : Properties * bool * bool :=
  (DecoderCore.m_properties d, DecoderCore.needInitState d, DecoderCore.needFlush d).

Definition core_ready (d : DecoderCore.t) : Prop :=
  DecoderCore.needInitState d = false /\ DecoderCore.needFlush d = false.

Lemma core_flags_ready d d' : core_flags d' = core_flags d -> core_ready d -> core_ready d'.
Proof. unfold core_flags, core_ready. intros H. inversion H. congruence. Qed.

Lemma numProbs_flags d d' : core_flags d' = core_flags d -> numProbs d' = numProbs d.
Proof. unfold core_flags, numProbs. intros H. inversion H. congruence. Qed.

(** [DecodeReal] on a ready decoder. *)
Lemma DecodeReal_ok inp limit bufLimit d :
  core_ok d -> core_ready d ->
  wp (DecodeReal inp limit bufLimit)
     (fun _ d' => core_ok d' /\ core_flags d' = core_flags d)
     (fun _ d' => core_ok d' /\ core_flags d' = core_flags d) any_fault d.
Proof.
  intros (Hprops & Htr & Hbytes & Hst & Hrg) [Hi Hf].
  destruct (Hst Hi) as [Hprobs Hstate]. specialize (Hrg Hf).
  assert (HW : W (numProbs d) 0 False 22 26 (load_locals d)).
  { split; [|intros []]. split; [cbn [load_locals L.range]; lia|].
    split; [exact Hprobs | exact Htr]. }
  assert (Hdic : dic_inv d limit False (load_locals d)) by (split; [split; [exact Hbytes | intros []] | intros []]).
  assert (Hwalk := DecodeReal_loop_walk inp d limit 0 False False Hprops
                     ltac:(intros []) ltac:(intros []) ltac:(intros []) ltac:(intros [])
                     ltac:(intros []) bufLimit (load_locals d)
                     ltac:(intros []) Hstate HW Hdic ltac:(intros []) eq_refl ltac:(intros [])
                     eq_refl).
  unfold DecodeReal, wp. unfold wp in Hwalk.
  destruct (DecodeReal_loop inp d limit bufLimit (load_locals d)) as [[] r | e r | f].
  - destruct Hwalk as (Hs' & (Hr' & Hp' & Ht') & Hr24 & ((Hb' & _) & _) & _).
    split; [|reflexivity]. unfold core_ok. cbn [store_locals DecoderCore.m_properties
      DecoderCore.trace DecoderCore.m_dic mem DecoderCore.needInitState DecoderCore.m_probs
      DecoderCore.state DecoderCore.needFlush DecoderCore.m_range].
    split; [exact Hprops|]. split; [exact Ht'|]. split; [exact Hb'|].
    split; [intros _; split; [exact Hp' | exact Hs'] | intros _; lia].
  - destruct Hwalk as ((Hr' & Hp' & Ht') & ((Hb' & _) & _)).
    split; [|reflexivity]. unfold core_ok, store_arrays.
    split; [exact Hprops|]. split; [exact Ht'|]. split; [exact Hb'|].
    split; [intros _; split; [exact Hp' | exact Hstate] | intros _; exact Hrg].
  - exact I.
Qed.

Lemma WriteRem_loop_bytes len rep0 sz dic dicPos dic' dicPos' :
  Forall byte dic -> WriteRem_loop len rep0 sz dic dicPos = inr (dic', dicPos') ->
  Forall byte dic'.
Proof.
  revert dic dicPos. induction len as [|n IH]; intros dic dicPos Hb; cbn [WriteRem_loop].
  - intros H. inversion H. subst. exact Hb.
  - cbv zeta. destruct (_ && _); [|discriminate].
    destruct (zlookup dic _) as [b|] eqn:Hl; [|discriminate].
    destruct (_ && _); [|discriminate].
    unfold zinsert. destruct (zlookup dic dicPos); [|discriminate].
    apply IH. apply Forall_insert; [exact Hb|]. eapply Forall_byte_lookup; eassumption.
Qed.

Lemma WriteRem_ok limit d :
  core_ok d ->
  wp (WriteRem limit) (fun _ d' => core_ok d' /\ core_flags d' = core_flags d)
     never any_fault d.
Proof.
  intros Hok. pose proof Hok as (Hprops & Htr & Hbytes & Hst & Hrg). unfold WriteRem.
  apply wp_bind, wp_get. destruct (_ && _); [|apply wp_ret; exact (conj Hok eq_refl)].
  cbv zeta. apply wp_bind.
  assert (Hany : forall f, any_fault f) by (intros f; exact I).
  assert (Hstep : forall (m : M exn DecoderCore.t unit) (Q : unit -> DecoderCore.t -> Prop),
            (m = modify (DecoderCore.set_checkDicSize (dicSize (DecoderCore.m_properties d)))
             \/ m = ret tt) ->
            (forall d1, core_ok d1 -> core_flags d1 = core_flags d ->
                        DecoderCore.m_dic d1 = DecoderCore.m_dic d ->
                        DecoderCore.reps d1 = DecoderCore.reps d -> Q tt d1) ->
            wp m Q never any_fault d).
  { intros m Q [-> | ->] HQ; [apply wp_modify | apply wp_ret]; apply HQ; try reflexivity;
      exact Hok. }
  apply Hstep; [destruct (_ && _); auto|]. clear Hstep.
  intros d1 Hok1 Hfl1 Hdic1 Hreps1.
  apply wp_bind, wp_modify, wp_bind, wp_modify.
  destruct (WriteRem_loop _ _ _ _ _) as [f | [dic' dicPos']] eqn:Hloop; [apply wp_fail, Hany|].
  apply wp_bind, wp_modify, wp_modify.
  apply WriteRem_loop_bytes in Hloop; [|exact Hbytes].
  destruct Hok1 as (Hprops1 & Htr1 & Hbytes1 & Hst1 & Hrg1).
  split; [|rewrite <- Hfl1; reflexivity].
  unfold core_ok. split; [exact Hprops1|]. split; [exact Htr1|]. split; [exact Hloop|].
  split; [exact Hst1 | exact Hrg1].
Qed.

Lemma DecodeReal2_ok inp limit bufLimit d :
  core_ok d -> core_ready d ->
  wp (DecodeReal2 inp limit bufLimit)
     (fun _ d' => core_ok d' /\ core_flags d' = core_flags d)
     (fun _ d' => core_ok d' /\ core_flags d' = core_flags d) any_fault d.
Proof.
  intros Hok Hready. unfold DecodeReal2.
  apply wp_bind, wp_get, wp_bind.
  eapply wp_mono with (Q := fun _ d' => core_ok d' /\ core_flags d' = core_flags d);
    [ | | intros e s H; exact H | intros f _; exact I].
  - apply wp_do_while
      with (I := fun _ d' => core_ok d' /\ core_flags d' = core_flags d)
           (F := any_fault); [exact I | | auto].
    intros [] s [Hs1 Hs2]. apply wp_bind, wp_get. cbv zeta. apply wp_bind.
    eapply wp_mono; [apply DecodeReal_ok; [exact Hs1 | eapply core_flags_ready; eassumption]
                    | | intros e s' [H1 H2]; split; [exact H1 | congruence] | auto].
    intros _ s1 [Ht1 Ht2]. cbv beta. apply wp_bind, wp_get, wp_bind.
    assert (Hstep : forall (m : M exn DecoderCore.t unit) (Q : unit -> DecoderCore.t -> Prop),
              (m = modify (DecoderCore.set_checkDicSize (dicSize (DecoderCore.m_properties s1)))
               \/ m = ret tt) ->
              (forall d1, core_ok d1 -> core_flags d1 = core_flags d -> Q tt d1) ->
              wp m Q (fun _ d' => core_ok d' /\ core_flags d' = core_flags d) any_fault s1).
    { intros m Q [-> | ->] HQ; [apply wp_modify | apply wp_ret]; apply HQ;
        try exact Ht1; try congruence.
      rewrite <- Hs2, <- Ht2. reflexivity. }
    apply Hstep; [destruct (_ <=? _); auto|]. clear Hstep. intros d1 Hd1 Hd2.
    apply wp_bind. eapply wp_never; [apply WriteRem_ok; exact Hd1 | | auto].
    intros _ d2 [He1 He2]. cbv beta. apply wp_bind, wp_get, wp_ret. cbn [fst snd].
    destruct (_ && _); split; try assumption; congruence.
  - intros [] s [Hs1 Hs2]. apply wp_bind, wp_get.
    destruct (_ <? _); [apply wp_modify | apply wp_ret]; split; assumption.
Qed.

(** What [core_ok] reads. *)
Definition core_view (d : DecoderCore.t) :=
  (DecoderCore.m_properties d, DecoderCore.trace d, mem (DecoderCore.m_dic d),
   DecoderCore.needInitState d, DecoderCore.m_probs d, DecoderCore.state d,
   DecoderCore.needFlush d, DecoderCore.m_range d).

Lemma core_ok_view d d' : core_view d' = core_view d -> core_ok d -> core_ok d'.
Proof.
  unfold core_view, core_ok, numProbs. intros H. inversion H as [[H1 H2 H3 H4 H5 H6 H7 H8]].
  rewrite H1, H2, H3, H4, H5, H6, H7, H8. auto.
Qed.

(** The invariant with the properties of the object at entry. *)
Definition core_post (d0 d : DecoderCore.t) : Prop :=
  core_ok d /\ DecoderCore.m_properties d = DecoderCore.m_properties d0.

Lemma core_post_view d0 d d' : core_view d' = core_view d -> core_post d0 d -> core_post d0 d'.
Proof.
  intros H [H1 H2]. split; [eapply core_ok_view; eassumption|].
  unfold core_view in H. inversion H. congruence.
Qed.

Lemma core_post_flags d0 d d' :
  core_ok d' -> core_flags d' = core_flags d -> core_post d0 d -> core_post d0 d'.
Proof. intros H Hf [H1 H2]. split; [exact H|]. unfold core_flags in Hf. inversion Hf. congruence. Qed.

Lemma numProbs_eq d :
  props_ok (DecoderCore.m_properties d) ->
  u32 (Literal + u32 (Z.shiftl LZMA_LIT_SIZE
                        (lc (DecoderCore.m_properties d) + lp (DecoderCore.m_properties d))))
  = numProbs d.
Proof.
  intros Hp. pose proof (numProbs_bounds d Hp) as [H1 H2]. unfold numProbs in *.
  destruct Hp as (Hlc & Hlp & Hs & _). rewrite Z.shiftl_mul_pow2 by lia.
  konsts. rewrite (u32_small (768 * _)) by lia. apply u32_small. lia.
Qed.

Lemma InitStateReal_ok d :
  core_ok d ->
  wp InitStateReal
     (fun _ d' => core_ok d' /\ DecoderCore.m_properties d' = DecoderCore.m_properties d /\
                  DecoderCore.needInitState d' = false /\
                  DecoderCore.needFlush d' = DecoderCore.needFlush d)
     never any_fault d.
Proof.
  intros (Hprops & Htr & Hbytes & Hst & Hrg). unfold InitStateReal.
  apply wp_bind, wp_get. cbv zeta. rewrite (numProbs_eq d Hprops).
  destruct (_ <=? _); [|exact I].
  apply wp_bind, wp_modify, wp_bind, wp_modify, wp_bind, wp_modify, wp_modify.
  split; [|repeat split]. unfold core_ok.
  split; [exact Hprops|]. split; [exact Htr|]. split; [exact Hbytes|].
  split; [|exact Hrg]. intros _. split; [|cbn; lia].
  intros i Hi. exists 1024. split; [|unfold prob_ok; lia].
  cbn [DecoderCore.set_needInitState DecoderCore.set_state DecoderCore.set_reps
       DecoderCore.set_m_probs DecoderCore.m_probs].
  change (numProbs (DecoderCore.set_needInitState _ _)) with (numProbs d) in Hi.
  unfold zlookup. destruct (Z.ltb_spec i 0); [lia|].
  rewrite lookup_app_l by (rewrite length_replicate; lia).
  apply lookup_replicate_2. lia.
Qed.

Lemma InitRc_ok data d :
  core_ok d ->
  wp (InitRc data)
     (fun _ d' => core_ok d' /\ DecoderCore.m_properties d' = DecoderCore.m_properties d /\
                  DecoderCore.needFlush d' = false /\
                  DecoderCore.needInitState d' = DecoderCore.needInitState d)
     never any_fault d.
Proof.
  intros (Hprops & Htr & Hbytes & Hst & Hrg). unfold InitRc.
  destruct (zlookup data 1); [|exact I]. destruct (zlookup data 2); [|exact I].
  destruct (zlookup data 3); [|exact I]. destruct (zlookup data 4); [|exact I].
  apply wp_bind, wp_modify, wp_bind, wp_modify, wp_modify.
  split; [|repeat split]. unfold core_ok.
  split; [exact Hprops|]. split; [exact Htr|]. split; [exact Hbytes|].
  split; [exact Hst|]. intros _. cbn. lia.
Qed.

Lemma TryDummy_frame inp (Q : Dummy -> DecoderCore.t -> Prop) QE F d :
  (forall res, Q res d) -> (forall f, F f) -> wp (TryDummy inp) Q QE F d.
Proof. intros HQ HF. unfold wp, TryDummy. destruct (TryDummy_run d inp); auto. Qed.

(** ** [DecoderCore::DecodeToDic] keeps the invariant *)

Section DecodeToDic_ok.

Variables (dicLimit : Z) (finishMode : FinishMode) (d0 : DecoderCore.t).

Definition core_exit (e : exit (Z * Status)) (d' : DecoderCore.t) : Prop := core_post d0 d'.

Lemma DecodeToDic_flush_ok srcBytes srcLen d :
  core_post d0 d ->
  wp (DecodeToDic_flush srcBytes srcLen)
     (fun _ d' => core_post d0 d' /\ DecoderCore.needFlush d' = false /\
                  DecoderCore.needInitState d' = DecoderCore.needInitState d)
     core_exit any_fault d.
Proof.
  intros Hd. unfold DecodeToDic_flush. apply wp_bind, wp_get.
  destruct (fill_tempBuf _ _ _ _ _) as [[[[tb rem] srcB] n]|]; [|exact I].
  apply wp_bind, wp_modify, wp_bind, wp_modify. cbv zeta.
  set (d1 := DecoderCore.set_tempBufSize _ _).
  assert (Hd1 : core_post d0 d1) by (eapply core_post_view; [|exact Hd]; reflexivity).
  destruct (rem <? _); [apply wp_return_; exact Hd1|].
  destruct (zlookup tb 0); [|exact I].
  destruct (negb _); [apply wp_throw; exact Hd1|].
  apply wp_bind, wp_call. eapply wp_never; [apply InitRc_ok; exact (proj1 Hd1) | | auto].
  intros _ d2 (H1 & H2 & H3 & H4). cbv beta. apply wp_bind, wp_modify, wp_ret.
  split; [|split; [exact H3 | exact H4]].
  split; [eapply core_ok_view; [|exact H1]; reflexivity|].
  cbn [DecoderCore.set_tempBufSize DecoderCore.m_properties]. rewrite H2. exact (proj2 Hd1).
Qed.

Lemma DecodeToDic_atLimit_frame srcLen (Q : bool -> DecoderCore.t -> Prop)
    (QE' : exit (Z * Status) -> DecoderCore.t -> Prop) F d :
  (forall b, Q b d) -> (forall e, QE' e d) ->
  wp (DecodeToDic_atLimit dicLimit finishMode srcLen) Q QE' F d.
Proof.
  intros HQ HE. unfold DecodeToDic_atLimit. apply wp_bind, wp_get.
  destruct (_ <=? _); [|apply wp_ret, HQ].
  destruct (_ && _); [apply wp_return_, HE|].
  destruct (FinishMode_eqb _ _); [apply wp_return_, HE|].
  destruct (negb _); [apply wp_throw, HE | apply wp_ret, HQ].
Qed.

Lemma DecodeToDic_direct_ok checkEndMarkNow srcBytes srcLen d :
  core_post d0 d -> core_ready d ->
  wp (DecodeToDic_direct dicLimit checkEndMarkNow srcBytes srcLen)
     (fun _ d' => core_post d0 d') core_exit any_fault d.
Proof.
  intros Hd Hr. unfold DecodeToDic_direct. cbv zeta. apply wp_bind.
  assert (Hlim : forall (Q : Z -> DecoderCore.t -> Prop),
            (forall bufLimit, Q bufLimit d) ->
            wp (if (Z.of_nat (length srcBytes) <? LZMA_REQUIRED_INPUT_MAX) || checkEndMarkNow
                then
                  let* dummyRes := call (TryDummy srcBytes) in
                  if Dummy_eqb dummyRes DUMMY_ERROR then
                    let* d := get in
                    match memcpy (DecoderCore.tempBuf d) 0 srcBytes (length srcBytes) with
                    | None => fail TempBufOverrun
                    | Some tb =>
                        modify (DecoderCore.set_tempBuf tb);;
                        modify (DecoderCore.set_tempBufSize (u32 (Z.of_nat (length srcBytes))));;
                        return_ (srcLen + Z.of_nat (length srcBytes), NeedsMoreInput)
                    end
                  else if checkEndMarkNow && negb (Dummy_eqb dummyRes DUMMY_MATCH)
                       then throw BadStream
                       else ret 0
                else ret (Z.of_nat (length srcBytes) - LZMA_REQUIRED_INPUT_MAX))
               Q core_exit any_fault d).
  { intros Q HQ. destruct (_ || _); [|apply wp_ret, HQ].
    apply wp_bind, wp_call, TryDummy_frame; [|intros f; exact I].
    intros res. destruct (Dummy_eqb res DUMMY_ERROR).
    - apply wp_bind, wp_get. destruct (memcpy _ _ _ _); [|exact I].
      apply wp_bind, wp_modify, wp_bind, wp_modify, wp_return_.
      eapply core_post_view; [|exact Hd]. reflexivity.
    - destruct (_ && _); [apply wp_throw; exact Hd | apply wp_ret, HQ]. }
  apply Hlim. intros bufLimit. apply wp_bind, wp_modify, wp_bind, wp_call.
  eapply wp_mono; [apply DecodeReal2_ok | | | auto].
  - eapply core_ok_view; [|exact (proj1 Hd)]. reflexivity.
  - exact Hr.
  - intros _ d1 [H1 H2]. cbv beta. apply wp_bind, wp_get, wp_ret.
    eapply core_post_flags; [exact H1 | exact H2|].
    eapply core_post_view; [|exact Hd]. reflexivity.
  - intros e d1 [H1 H2]. eapply core_post_flags; [exact H1 | exact H2|].
    eapply core_post_view; [|exact Hd]. reflexivity.
Qed.

Lemma DecodeToDic_temp_ok checkEndMarkNow srcBytes srcLen d :
  core_post d0 d -> core_ready d ->
  wp (DecodeToDic_temp dicLimit checkEndMarkNow srcBytes srcLen)
     (fun _ d' => core_post d0 d') core_exit any_fault d.
Proof.
  intros Hd Hr. unfold DecodeToDic_temp. apply wp_bind, wp_get.
  destruct (fill_tempBuf _ _ _ _ _) as [[[[tb rem] srcB] lookAhead]|]; [|exact I].
  apply wp_bind, wp_modify, wp_bind, wp_modify. set (d1 := DecoderCore.set_tempBufSize _ _).
  assert (Hd1 : core_post d0 d1) by (eapply core_post_view; [|exact Hd]; reflexivity).
  assert (Hr1 : core_ready d1) by exact Hr.
  clearbody d1. apply wp_bind.
  assert (Hdummy : forall (Q : unit -> DecoderCore.t -> Prop),
            Q tt d1 ->
            wp (if (rem <? LZMA_REQUIRED_INPUT_MAX) || checkEndMarkNow
                then
                  let* dummyRes := call (TryDummy (take (Z.to_nat rem) tb)) in
                  if Dummy_eqb dummyRes DUMMY_ERROR
                  then return_ (srcLen + lookAhead, NeedsMoreInput)
                  else if checkEndMarkNow && negb (Dummy_eqb dummyRes DUMMY_MATCH)
                       then throw BadStream
                       else ret tt
                else ret tt) Q core_exit any_fault d1).
  { intros Q HQ. destruct (_ || _); [|apply wp_ret, HQ].
    apply wp_bind, wp_call, TryDummy_frame; [|intros f; exact I].
    intros res. destruct (Dummy_eqb res DUMMY_ERROR); [apply wp_return_; exact Hd1|].
    destruct (_ && _); [apply wp_throw; exact Hd1 | apply wp_ret, HQ]. }
  apply Hdummy. apply wp_bind, wp_modify, wp_bind, wp_call.
  eapply wp_mono; [apply DecodeReal2_ok | | | auto].
  - eapply core_ok_view; [|exact (proj1 Hd1)]. reflexivity.
  - exact Hr1.
  - intros _ d2 [H1 H2]. cbv beta. apply wp_bind, wp_get. cbv zeta.
    assert (Hd2 : core_post d0 d2).
    { eapply core_post_flags; [exact H1 | exact H2|].
      eapply core_post_view; [|exact Hd1]. reflexivity. }
    destruct (_ <=? _); [|exact I]. apply wp_bind, wp_modify, wp_ret.
    eapply core_post_view; [|exact Hd2]. reflexivity.
  - intros e d2 [H1 H2]. eapply core_post_flags; [exact H1 | exact H2|].
    eapply core_post_view; [|exact Hd1]. reflexivity.
Qed.

Lemma DecodeToDic_body_ok v d :
  core_post d0 d ->
  wp (DecodeToDic_body dicLimit finishMode v) (fun _ d' => core_post d0 d') core_exit any_fault d.
Proof.
  intros Hd. unfold DecodeToDic_body. destruct v as [srcBytes srcLen].
  apply wp_bind, wp_get, wp_bind.
  eapply wp_mono with (Q := fun _ d' => core_post d0 d' /\ DecoderCore.needFlush d' = false)
                      (F := any_fault); [ | | intros e s H; exact H | auto].
  { destruct (DecoderCore.needFlush d) eqn:Ef.
    - eapply wp_post; [apply DecodeToDic_flush_ok; exact Hd|]. intros a s (H1 & H2 & _). auto.
    - apply wp_ret. auto. }
  intros [srcBytes1 srcLen1] d1 [Hd1 Hf1]. cbv beta iota. apply wp_bind.
  apply DecodeToDic_atLimit_frame; [|intros e; exact Hd1].
  intros checkEndMarkNow. apply wp_bind, wp_get, wp_bind.
  eapply wp_mono with (Q := fun _ d' => core_post d0 d' /\ core_ready d') (F := any_fault);
    [ | | intros e s H; exact H | auto].
  { destruct (DecoderCore.needInitState d1) eqn:Ei.
    - apply wp_call. eapply wp_never; [apply InitStateReal_ok; exact (proj1 Hd1) | | auto].
      intros _ d2 (H1 & H2 & H3 & H4). split; [split; [exact H1 | rewrite H2; exact (proj2 Hd1)]|].
      split; [exact H3 | congruence].
    - apply wp_ret. split; [exact Hd1 | split; assumption]. }
  intros _ d2 [Hd2 Hr2]. cbv beta. apply wp_bind, wp_get.
  destruct (_ =? 0); [apply DecodeToDic_direct_ok | apply DecodeToDic_temp_ok]; assumption.
Qed.

(** The whole call: whether it returns or throws. *)
Lemma DecoderCore_DecodeToDic_ok src :
  core_ok d0 ->
  wp (DecoderCore_DecodeToDic dicLimit finishMode src)
     (fun _ d' => core_post d0 d') (fun _ d' => core_post d0 d') any_fault d0.
Proof.
  intros Hd. unfold DecoderCore_DecodeToDic. apply wp_returning.
  eapply wp_mono with (Q := fun _ d' => core_post d0 d') (QE := core_exit) (F := any_fault);
    [ | auto | intros [] s H; exact H | auto].
  apply wp_bind, wp_call. eapply wp_never; [apply WriteRem_ok; exact Hd | | auto].
  intros _ d1 [H1 H2]. cbv beta.
  assert (Hd1 : core_post d0 d1) by (eapply core_post_flags; [exact H1 | exact H2 | split; auto]).
  apply wp_bind, wp_get, wp_bind.
  eapply wp_mono with (Q := fun _ d' => core_post d0 d') (F := any_fault);
    [ | | intros e s H; exact H | auto].
  - apply wp_while with (I := fun _ d' => core_post d0 d') (F := any_fault); [exact I | | exact Hd1].
    intros v s Hs. unfold DecodeToDic_running. apply wp_gets.
    destruct (negb _); [apply DecodeToDic_body_ok; exact Hs | exact Hs].
  - intros v s Hs. cbv beta. apply wp_bind, wp_get.
    destruct (_ =? 0); [apply wp_ret | apply wp_throw]; exact Hs.
Qed.

End DecodeToDic_ok.

(** ** The invariant of the framer *)

(** A chunk that resets the state of the coder has been announced and
    [InitDicAndState] has not run yet: after new properties the probability
    array is the one of the old properties. *)
Definition lzma_pending (d : Decoder2.t) : Prop :=
  Decoder2.state d = LZMA2_STATE_DATA /\ isUncompressedState d = false /\ 0 < getLzmaMode d.

Definition in_pack (s : ELzma2State) : Prop :=
  s = LZMA2_STATE_PACK0 \/ s = LZMA2_STATE_PACK1 \/ s = LZMA2_STATE_PROP.

Definition framer_ok (d : Decoder2.t) : Prop :=
  let c := Decoder2.decoder d in
  props_ok (DecoderCore.m_properties c) /\
  trace_ok (DecoderCore.trace c) /\
  Forall byte (mem (DecoderCore.m_dic c)) /\
  (DecoderCore.needFlush c = false -> 2 ^ 24 <= DecoderCore.m_range c < 2 ^ 32) /\
  (lzma_pending d \/
   (DecoderCore.needInitState c = false ->
      probs_ok (numProbs c) (DecoderCore.m_probs c) /\ 0 <= DecoderCore.state c < 12)) /\
  (in_pack (Decoder2.state d) -> isUncompressedState d = false) /\
  (Decoder2.state d = LZMA2_STATE_PROP -> isThereProp (getLzmaMode d) = true).

Lemma framer_core_ok d : framer_ok d -> ~ lzma_pending d -> core_ok (Decoder2.decoder d).
Proof.
  intros (H1 & H2 & H3 & H4 & [H5 | H5] & _) Hn; [contradiction|].
  unfold core_ok. auto.
Qed.

(** The framer invariant from the one of the core, in a state that
    [framer_ok] does not constrain. *)
Lemma core_framer_ok d :
  core_ok (Decoder2.decoder d) -> ~ in_pack (Decoder2.state d) -> framer_ok d.
Proof.
  intros (H1 & H2 & H3 & H4 & H5) Hs. unfold framer_ok. cbv zeta.
  split; [exact H1|]. split; [exact H2|]. split; [exact H3|]. split; [exact H5|].
  split; [right; exact H4|]. split; [intros H; contradiction|].
  intros H. exfalso. apply Hs. right. right. exact H.
Qed.

Lemma InitDicAndState_ok initDic initState c :
  props_ok (DecoderCore.m_properties c) -> trace_ok (DecoderCore.trace c) ->
  Forall byte (mem (DecoderCore.m_dic c)) ->
  (initState = true \/
   (DecoderCore.needInitState c = false ->
      probs_ok (numProbs c) (DecoderCore.m_probs c) /\ 0 <= DecoderCore.state c < 12)) ->
  wp (InitDicAndState initDic initState) (fun _ c' => core_ok c') never any_fault c.
Proof.
  intros H1 H2 H3 H4. unfold InitDicAndState.
  apply wp_bind, wp_modify, wp_bind, wp_modify, wp_bind, wp_modify, wp_bind.
  destruct initDic.
  - apply wp_bind, wp_modify, wp_bind, wp_modify, wp_modify.
    destruct initState; [apply wp_modify | apply wp_ret]; unfold core_ok; cbn;
      repeat split; try assumption; try discriminate; apply H1.
  - apply wp_ret. destruct initState; [apply wp_modify | apply wp_ret]; unfold core_ok; cbn.
    + repeat split; try assumption; try discriminate; apply H1.
    + destruct H4 as [H4 | H4]; [discriminate|].
      split; [exact H1|]. split; [exact H2|]. split; [exact H3|]. split; [exact H4|].
      discriminate.
Qed.

Lemma memcpy_bytes dst at_ src n m :
  Forall byte dst -> Forall byte src -> memcpy dst at_ src n = Some m -> Forall byte m.
Proof.
  revert dst at_ src. induction n as [|n IH]; intros dst at_ src Hd Hs.
  - destruct src; simpl; intros [= <-]; exact Hd.
  - destruct src as [|b src']; simpl; [discriminate|]. unfold zinsert.
    destruct (zlookup dst at_); [|discriminate].
    inversion Hs; subst. apply IH; [apply Forall_insert|]; assumption.
Qed.

Lemma UpdateWithUncompressed_ok src n c :
  core_ok c -> Forall byte src ->
  wp (UpdateWithUncompressed src n) (fun _ c' => core_ok c' /\ core_flags c' = core_flags c)
     never any_fault c.
Proof.
  intros Hok Hsrc. pose proof Hok as (H1 & H2 & H3 & H4 & H5). unfold UpdateWithUncompressed.
  apply wp_bind, wp_get. cbv zeta. apply wp_bind.
  destruct (_ <=? _); [apply wp_ret | exact I]. apply wp_bind.
  destruct (_ <=? _); [apply wp_ret | exact I].
  destruct (memcpy _ _ _ _) as [m|] eqn:Hm; [|exact I].
  apply memcpy_bytes in Hm; [|assumption..].
  apply wp_bind, wp_modify, wp_bind, wp_modify, wp_bind.
  destruct (_ && _); [apply wp_modify | apply wp_ret]; apply wp_modify;
    (split; [|reflexivity]); unfold core_ok; cbn; repeat split; try assumption;
    try apply H1; try apply H4; try apply H5; assumption.
Qed.

(** A header byte. *)
Lemma UpdateState_ok b d :
  framer_ok d -> byte b ->
  Decoder2.state d <> LZMA2_STATE_DATA ->
  wp (UpdateState b) (fun st d' => framer_ok (Decoder2.set_state st d')) never any_fault d.
Proof.
  intros Hok Hb Hnd. pose proof Hok as (H1 & H2 & H3 & H4 & H5 & H6 & H7).
  cbv zeta in *.
  assert (H5' : DecoderCore.needInitState (Decoder2.decoder d) = false ->
                probs_ok (numProbs (Decoder2.decoder d)) (DecoderCore.m_probs (Decoder2.decoder d))
                /\ 0 <= DecoderCore.state (Decoder2.decoder d) < 12).
  { destruct H5 as [(H & _) | H]; [contradiction | exact H]. }
  assert (Hgen : forall st d',
            Decoder2.decoder d' = Decoder2.decoder d ->
            (in_pack st -> isUncompressedState d' = false) ->
            (st = LZMA2_STATE_PROP -> isThereProp (getLzmaMode d') = true) ->
            framer_ok (Decoder2.set_state st d')).
  { intros st d' Hc Hp Hpr. unfold framer_ok. cbn [Decoder2.set_state Decoder2.decoder
      Decoder2.state]. rewrite Hc.
    split; [exact H1|]. split; [exact H2|]. split; [exact H3|]. split; [exact H4|].
    split; [right; exact H5'|]. split; [exact Hp | exact Hpr]. }
  unfold UpdateState. apply wp_bind, wp_get.
  destruct (Decoder2.state d) eqn:Est; try (apply wp_ret, Hgen;
    [reflexivity | intros [H | [H | H]]; discriminate | discriminate]).
  - apply wp_bind, wp_modify, wp_bind, wp_get.
    wp_step; [apply wp_ret, Hgen;
      [reflexivity | intros [H | [H | H]]; discriminate | discriminate]|].
    wp_step.
    + wp_step; [|apply wp_bind, wp_modify]; apply wp_ret, Hgen;
        first [reflexivity | discriminate | intros [H | [H | H]]; discriminate].
    + apply wp_bind, wp_modify, wp_ret, Hgen;
        first [reflexivity | discriminate | intros [H | [H | H]]; discriminate].
  - apply wp_bind, wp_modify, wp_ret, Hgen;
      first [reflexivity | discriminate | intros [H | [H | H]]; discriminate].
  - apply wp_bind, wp_modify, wp_bind, wp_modify, wp_bind, wp_get, wp_ret.
    match goal with |- context [isUncompressedState ?x] => set (d2 := x) end.
    destruct (isUncompressedState d2) eqn:Eu; apply Hgen;
      first [reflexivity | discriminate | intros [H | [H | H]]; try discriminate | idtac].
    exact Eu.
  - apply wp_bind, wp_modify, wp_ret, Hgen; [reflexivity | | discriminate].
    intros _. apply H6. left. reflexivity.
  - apply wp_bind, wp_modify, wp_bind, wp_modify, wp_bind, wp_get, wp_ret.
    match goal with |- context [getLzmaMode ?x] => set (d2 := x) end.
    assert (Hu : isUncompressedState d2 = false) by (apply H6; right; left; reflexivity).
    destruct (isThereProp (getLzmaMode d2)) eqn:Et; [apply Hgen; [reflexivity | auto | auto]|].
    destruct (Decoder2.needInitProp d2); apply Hgen;
      first [reflexivity | discriminate | intros [H | [H | H]]; discriminate].
  - assert (Hu : isUncompressedState d = false) by (apply H6; right; right; reflexivity).
    assert (Ht : isThereProp (getLzmaMode d) = true) by (apply H7; reflexivity).
    wp_step; [apply wp_ret, Hgen;
      [reflexivity | intros [H | [H | H]]; discriminate | discriminate]|].
    cbv zeta. apply wp_bind, wp_on_decoder, wp_modify.
    match goal with H : (_ <=? b) = false |- _ => apply Z.leb_gt in H; rename H into Hb225 end.
    unfold byte in Hb.
    assert (Hpb : 0 <= b / 9 / 5 <= 4) by dlia.
    wp_step.
    + apply wp_ret. unfold framer_ok. cbn. unfold props_ok in *. cbn.
      split; [lia|]. split; [exact H2|]. split; [exact H3|]. split; [exact H4|].
      split; [right; exact H5'|]. split; [intros [H | [H | H]]; discriminate | discriminate].
    + match goal with H : (_ <? _) = false |- _ => apply Z.ltb_ge in H; rename H into Hsum end.
      unfold LC_PLUS_LP_MAX in Hsum.
      apply wp_bind, wp_on_decoder, wp_modify, wp_bind, wp_modify, wp_ret.
      unfold framer_ok. cbn. unfold props_ok. cbn.
      split; [dlia|]. split; [exact H2|]. split; [exact H3|]. split; [exact H4|].
      split; [|split; [intros [H | [H | H]]; discriminate | discriminate]].
      left. split; [reflexivity|]. split; [exact Hu|].
      unfold isThereProp in Ht. apply Z.leb_le in Ht. unfold getLzmaMode in *. cbn. lia.
Qed.

(** In a data state of a chunk that is under way the core is sound. *)
Definition data_ok (d : Decoder2.t) : Prop :=
  core_ok (Decoder2.decoder d) /\ ~ in_pack (Decoder2.state d).

Lemma data_framer_ok d : data_ok d -> framer_ok d.
Proof. intros [H1 H2]. apply core_framer_ok; assumption. Qed.

Definition framer_exit (e : exit (Z * Status)) (d : Decoder2.t) : Prop := framer_ok d.

Lemma not_in_pack_data s :
  s = LZMA2_STATE_DATA \/ s = LZMA2_STATE_DATA_CONT \/ s = LZMA2_STATE_CONTROL -> ~ in_pack s.
Proof. intros [-> | [-> | ->]] [H | [H | H]]; discriminate. Qed.

Section Decoder2_ok.

Variables (dicLimit : Z) (finishMode : FinishMode).

Lemma Decoder2_uncompressed_ok destSizeCur srcBytes srcLen d :
  data_ok d -> Forall byte srcBytes ->
  wp (Decoder2_uncompressed destSizeCur srcBytes srcLen)
     (fun v d' => framer_ok d' /\ Forall byte (fst v)) framer_exit any_fault d.
Proof.
  intros Hd Hsrc. unfold Decoder2_uncompressed. cbv zeta.
  wp_step; [apply wp_return_, data_framer_ok, Hd|].
  apply wp_bind, wp_get, wp_bind.
  eapply wp_mono with (Q := fun _ d' => data_ok d') (F := any_fault);
    [ | | intros e s H; exact H | auto].
  { wp_step; [|apply wp_ret; exact Hd].
    apply wp_bind.
    eapply wp_mono with (Q := fun _ d' => data_ok d') (F := any_fault);
      [ | | intros e s H; exact H | auto].
    - wp_step; [apply wp_bind, wp_modify, wp_modify; exact Hd|].
      wp_step; [apply wp_throw, data_framer_ok, Hd | apply wp_ret; exact Hd].
    - intros _ d1 Hd1. cbv beta. apply wp_bind, wp_modify, wp_on_decoder, wp_call.
      destruct Hd1 as [(H1 & H2 & H3 & H4 & H5) Hs1].
      eapply wp_never; [apply InitDicAndState_ok; auto | | auto].
      intros [] c Hc. split; [exact Hc | exact Hs1]. }
  intros _ d1 Hd1. cbv beta.
  wp_step; [apply wp_throw, data_framer_ok, Hd1|].
  apply wp_bind, wp_on_decoder, wp_call.
  eapply wp_never; [apply UpdateWithUncompressed_ok; [exact (proj1 Hd1) | exact Hsrc] | | auto].
  intros [] c [Hc _]. cbv beta. apply wp_bind, wp_modify, wp_bind, wp_modify, wp_ret.
  cbn [fst]. split; [|apply Forall_drop; exact Hsrc].
  apply core_framer_ok; [exact Hc|]. cbn [Decoder2.set_state Decoder2.state].
  apply not_in_pack_data.
  match goal with |- context [if ?c then LZMA2_STATE_CONTROL else _] => destruct c end; auto.
Qed.

Lemma Decoder2_lzma_ok dicPos destSizeCur curFinishMode srcBytes srcLen d :
  framer_ok d -> Forall byte srcBytes ->
  Decoder2.state d = LZMA2_STATE_DATA \/ Decoder2.state d = LZMA2_STATE_DATA_CONT ->
  wp (Decoder2_lzma dicPos destSizeCur curFinishMode srcBytes srcLen)
     (fun v d' => framer_ok d' /\ Forall byte (fst v)) framer_exit any_fault d.
Proof.
  intros Hd Hsrc Hst. unfold Decoder2_lzma. cbv zeta.
  apply wp_bind, wp_get, wp_bind.
  eapply wp_mono with (Q := fun _ d' => data_ok d') (F := any_fault);
    [ | | intros e s H; exact H | auto].
  { destruct (ELzma2State_eqb (Decoder2.state d) LZMA2_STATE_DATA) eqn:Es.
    - wp_step; [apply wp_throw; exact Hd|].
      apply wp_bind, wp_on_decoder, wp_call.
      destruct Hd as (H1 & H2 & H3 & H4 & H5 & H6 & H7). cbv zeta in *.
      eapply wp_never; [apply InitDicAndState_ok; try assumption | | auto].
      + destruct H5 as [(_ & _ & Hm) | H5]; [left | right; exact H5].
        apply Z.ltb_lt. exact Hm.
      + intros [] c Hc. cbv beta. apply wp_bind, wp_modify, wp_bind, wp_modify, wp_modify.
        split; [exact Hc|]. apply not_in_pack_data. right. left. reflexivity.
    - apply wp_ret. destruct Hst as [Hst | Hst]; [rewrite Hst in Es; discriminate|].
      split; [|apply not_in_pack_data; auto].
      apply framer_core_ok; [exact Hd|]. intros (H & _). congruence. }
  intros _ d1 Hd1. cbv beta. apply wp_bind, wp_get, wp_bind, wp_on_decoder, wp_call.
  eapply wp_mono; [apply DecoderCore_DecodeToDic_ok; exact (proj1 Hd1) | | | auto].
  - intros [srcSizeCur status] c [Hc _]. cbv beta iota.
    apply wp_bind, wp_modify, wp_bind, wp_get, wp_bind, wp_modify.
    set (d2 := Decoder2.set_unpackSize _ _).
    assert (Hd2 : data_ok d2) by (split; [exact Hc | exact (proj2 Hd1)]).
    clearbody d2.
    wp_step; [apply wp_return_, data_framer_ok, Hd2|].
    apply wp_bind.
    eapply wp_mono with (Q := fun _ d' => data_ok d') (F := any_fault);
      [ | | intros e s H; exact H | auto].
    + wp_step; [|apply wp_ret; exact Hd2]. apply wp_bind, wp_get.
      wp_step; [apply wp_throw, data_framer_ok, Hd2|].
      apply wp_modify. split; [exact (proj1 Hd2)|]. apply not_in_pack_data. auto.
    + intros _ d3 Hd3. apply wp_ret. cbn [fst].
      split; [apply data_framer_ok, Hd3 | apply Forall_drop; exact Hsrc].
  - intros e c [Hc _]. apply core_framer_ok; [exact Hc | exact (proj2 Hd1)].
Qed.

Lemma Decoder2_body_ok v d :
  framer_ok d -> Forall byte (fst v) ->
  wp (Decoder2_body dicLimit finishMode v)
     (fun v' d' => framer_ok d' /\ Forall byte (fst v')) framer_exit any_fault d.
Proof.
  intros Hd Hsrc. unfold Decoder2_body. destruct v as [srcBytes srcLen]. cbn [fst] in Hsrc.
  apply wp_bind, wp_get. cbv zeta.
  wp_step; [apply wp_throw; exact Hd|].
  wp_step; [apply wp_return_; exact Hd|].
  destruct (negb (ELzma2State_eqb (Decoder2.state d) LZMA2_STATE_DATA)
            && negb (ELzma2State_eqb (Decoder2.state d) LZMA2_STATE_DATA_CONT)) eqn:Eh.
  - destruct srcBytes as [|b rest]; [apply wp_return_; exact Hd|].
    inversion Hsrc; subst.
    apply wp_bind, wp_call.
    eapply wp_never; [apply UpdateState_ok; [exact Hd | assumption |] | | auto].
    + intros Hs. rewrite Hs in Eh. discriminate.
    + intros st d1 Hd1. cbv beta. apply wp_bind, wp_modify, wp_ret. split; assumption.
  - assert (Hst : Decoder2.state d = LZMA2_STATE_DATA \/
                  Decoder2.state d = LZMA2_STATE_DATA_CONT).
    { destruct (Decoder2.state d); try discriminate; auto. }
    destruct (isUncompressedState d) eqn:Eu.
    + apply Decoder2_uncompressed_ok; [|exact Hsrc].
      split; [|apply not_in_pack_data; tauto].
      apply framer_core_ok; [exact Hd|]. intros (_ & H & _). congruence.
    + apply Decoder2_lzma_ok; assumption.
Qed.

(** A call of [Decoder2::DecodeToDic] keeps the invariant, whether it
    returns or throws. *)
Lemma Decoder2_DecodeToDic_ok src d :
  framer_ok d -> Forall byte src ->
  wp (Decoder2_DecodeToDic dicLimit finishMode src)
     (fun _ d' => framer_ok d') (fun _ d' => framer_ok d') any_fault d.
Proof.
  intros Hd Hsrc. unfold Decoder2_DecodeToDic. apply wp_returning, wp_bind.
  eapply wp_mono with (Q := fun v d' => framer_ok d' /\ Forall byte (fst v))
                      (QE := framer_exit) (F := any_fault);
    [ | | intros [] s H; exact H | auto].
  - apply wp_while with (I := fun v d' => framer_ok d' /\ Forall byte (fst v)) (F := any_fault);
      [exact I | | split; assumption].
    intros v s [Hs1 Hs2]. unfold Decoder2_running. apply wp_gets.
    destruct (negb _); [apply Decoder2_body_ok; assumption | split; assumption].
  - intros v s [Hs _]. apply wp_ret. exact Hs.
Qed.

End Decoder2_ok.

(** The constructor establishes the invariant, on a storage whose bytes are
    bytes and whose ghost trace is sound. *)
Lemma Decoder2_new_ok junk prop s :
  trace_ok (DecoderCore.trace (Decoder2.decoder s)) ->
  Forall byte (mem (DecoderCore.m_dic (Decoder2.decoder s))) ->
  wp (Decoder2_new junk prop) (fun _ d => framer_ok d) (fun _ _ => True) any_fault s.
Proof.
  intros Ht Hb. unfold Decoder2_new. wp_step; [apply wp_raise; exact I|].
  apply wp_bind, wp_on_decoder, wp_modify, wp_bind, wp_on_decoder, wp_modify.
  unfold Reset.
  apply wp_bind, wp_modify, wp_bind, wp_modify, wp_bind, wp_modify, wp_bind, wp_modify.
  apply wp_bind, wp_on_decoder, wp_modify, wp_on_decoder.
  eapply wp_never; [apply InitDicAndState_ok | | auto].
  - cbn. unfold props_ok, LC_PLUS_LP_MAX. cbn. lia.
  - exact Ht.
  - exact Hb.
  - left. reflexivity.
  - intros [] c Hc. apply core_framer_ok; [exact Hc|]. apply not_in_pack_data. auto.
Qed.

(** ** The states a decoder reaches *)

(** The life of a [Decoder2]: the constructor runs on a storage whose ghost
    trace is empty; the caller points the dictionary at a buffer; calls of
    [DecodeToDic] return or throw.  Memory that is read as bytes holds
    bytes. *)
Inductive reachable : Decoder2.t -> Prop :=
| reach_new storage junk prop d :
    DecoderCore.trace (Decoder2.decoder storage) = [] ->
    Forall byte (mem (DecoderCore.m_dic (Decoder2.decoder storage))) ->
    Decoder2_new junk prop storage = Ok tt d ->
    reachable d
| reach_dic d dest outSize d' :
    reachable d -> Forall byte dest ->
    on_decoder (E := exn) (modify (fun c => DecoderCore.set_m_dic
      {| mem := dest; size := outSize; pos := pos (DecoderCore.m_dic c) |} c)) d = Ok tt d' ->
    reachable d'
| reach_return d dicLimit finishMode src res d' :
    reachable d -> Forall byte src ->
    Decoder2_DecodeToDic dicLimit finishMode src d = Ok res d' ->
    reachable d'
| reach_throw d dicLimit finishMode src e d' :
    reachable d -> Forall byte src ->
    Decoder2_DecodeToDic dicLimit finishMode src d = Raise e d' ->
    reachable d'.

Lemma reachable_framer_ok d : reachable d -> framer_ok d.
Proof.
  induction 1 as [storage junk prop d Ht Hb Hnew | d dest outSize d' _ IH Hb Hset
                  | d dicLimit finishMode src res d' _ IH Hb Hrun
                  | d dicLimit finishMode src e d' _ IH Hb Hrun].
  - eapply (wp_Ok_inv _ _ _ _ _ _ _ (Decoder2_new_ok junk prop storage _ Hb) Hnew).
    Unshelve. rewrite Ht. constructor.
  - unfold on_decoder, modify in Hset. inversion Hset; subst d'.
    destruct IH as (H1 & H2 & H3 & H4 & H5 & H6 & H7). unfold framer_ok. cbv zeta in *.
    cbn. split; [exact H1|]. split; [exact H2|]. split; [exact Hb|]. split; [exact H4|].
    split; [exact H5|]. split; [exact H6 | exact H7].
  - exact (wp_Ok_inv _ _ _ _ _ _ _ (Decoder2_DecodeToDic_ok dicLimit finishMode src d IH Hb) Hrun).
  - exact (wp_Raise_inv _ _ _ _ _ _ _ (Decoder2_DecodeToDic_ok dicLimit finishMode src d IH Hb) Hrun).
Qed.

(** ** An LZMA chunk *)

(** The LZMA2 stream of ["aaaaaaaabbbb"]: one LZMA chunk that sets the
    properties and resets the dictionary, and the end of the stream. *)
Definition aaaaaaaabbbb_lzma2 : list Z :=
  [224; 0; 11; 0; 8; 93; 0; 48; 234; 148; 180; 63; 240; 0; 0; 0].

Definition example_new : Decoder2.t :=
  Eval vm_compute in
    match Decoder2_new (fun _ => 0) 0 zero_storage with Ok _ d => d | _ => zero_storage end.

Definition example_ready : Decoder2.t :=
  Eval vm_compute in
    match on_decoder (E := exn) (modify (fun c => DecoderCore.set_m_dic
            {| mem := replicate 16 0; size := 16; pos := pos (DecoderCore.m_dic c) |} c))
            example_new with
    | Ok _ d => d
    | _ => zero_storage
    end.

Definition example_decoded : Decoder2.t :=
  Eval vm_compute in
    match Decoder2_DecodeToDic 16 FinishMode_End aaaaaaaabbbb_lzma2 example_ready with
    | Ok _ d => d
    | _ => zero_storage
    end.

Lemma example_decoded_reachable : reachable example_decoded.
Proof.
  assert (Hbytes : forall l, forallb (fun b => (0 <=? b) && (b <? 256)) l = true -> Forall byte l).
  { intros l. induction l as [|x l IH]; intros H; [constructor|].
    cbn in H. apply andb_true_iff in H. destruct H as [H1 H2].
    constructor; [unfold byte; lia | auto]. }
  apply (reach_return example_ready 16 FinishMode_End aaaaaaaabbbb_lzma2 (16, FinishedWithMark)).
  - apply (reach_dic example_new (replicate 16 0) 16).
    + apply (reach_new zero_storage (fun _ => 0) 0); [reflexivity | constructor|].
      vm_compute. reflexivity.
    + apply Hbytes. reflexivity.
    + vm_compute. reflexivity.
  - apply Hbytes. reflexivity.
  - vm_compute. reflexivity.
Qed.

(** X1: the ghost trace of a decoder holds the value of [range] after every
    [NORMALIZE] of [DecodeReal] since the constructor; in every state that the
    decoder reaches each of these values is at least [2^24] (and below
    [2^32]). *)
Theorem range_normalized_in_reachable_states (d : Decoder2.t) :
  reachable d ->
  Forall (fun range => 2 ^ 24 <= range < 2 ^ 32) (DecoderCore.trace (Decoder2.decoder d)).
Proof. intros H. apply reachable_framer_ok in H. exact (proj1 (proj2 H)). Qed.

Lemma range_normalized_witness :
  (length (DecoderCore.trace (Decoder2.decoder example_decoded)) = 38)%nat /\
  Forall (fun range => 2 ^ 24 <= range < 2 ^ 32)
    (DecoderCore.trace (Decoder2.decoder example_decoded)).
Proof.
  split; [vm_compute; reflexivity|].
  apply (range_normalized_in_reachable_states example_decoded).
  exact example_decoded_reachable.
Defined.

(** X2: in every state that the decoder reaches, once [InitStateReal] has run
    for the chunk ([needInitState] is false; the framer is not in the state
    Data, where new properties may await it), every probability counter that
    the properties put in use, the first [1846 + (768 << (lc + lp))] of the
    array, lies between 31 and 2017: the updates of [UPDATE_0] and [UPDATE_1]
    never leave this interval. *)
Theorem counters_bounded_in_reachable_states (d : Decoder2.t) (i : Z) :
  reachable d ->
  Decoder2.state d <> LZMA2_STATE_DATA ->
  DecoderCore.needInitState (Decoder2.decoder d) = false ->
  0 <= i < 1846 + Z.shiftl 768 (lc (DecoderCore.m_properties (Decoder2.decoder d))
                                + lp (DecoderCore.m_properties (Decoder2.decoder d))) ->
  exists p, zlookup (DecoderCore.m_probs (Decoder2.decoder d)) i = Some p /\ 31 <= p <= 2017.
Proof.
  intros H Hs Hn Hi. apply reachable_framer_ok in H.
  destruct H as ((Hlc & Hlp & _) & _ & _ & _ & [(Hp & _) | Hp] & _); [contradiction|].
  destruct (Hp Hn) as [Hprobs _]. apply Hprobs.
  unfold numProbs, Literal, LZMA_LIT_SIZE. rewrite Z.shiftl_mul_pow2 in Hi by lia.
  change (RepLenCoder + kNumLenProbs) with 1846. exact Hi.
Qed.

Lemma counters_bounded_witness :
  exists p, zlookup (DecoderCore.m_probs (Decoder2.decoder example_decoded)) 1846 = Some p /\
            31 <= p <= 2017.
Proof.
  apply (counters_bounded_in_reachable_states example_decoded 1846).
  - exact example_decoded_reachable.
  - vm_compute. discriminate.
  - vm_compute. reflexivity.
  - vm_compute. split; [discriminate | reflexivity].
Defined.

(** X3: in every state that the decoder reaches the properties of the coder
    are in range: [lc + lp <= 4] and [pb <= 4], whatever property bytes the
    streams held. *)
Theorem properties_bounded_in_reachable_states (d : Decoder2.t) :
  reachable d ->
  let p := DecoderCore.m_properties (Decoder2.decoder d) in
  0 <= lc p /\ 0 <= lp p /\ lc p + lp p <= 4 /\ 0 <= pb p <= 4.
Proof. intros H. apply reachable_framer_ok in H. exact (proj1 H). Qed.

Lemma properties_bounded_witness :
  let p := DecoderCore.m_properties (Decoder2.decoder example_decoded) in
  0 <= lc p /\ 0 <= lp p /\ lc p + lp p <= 4 /\ 0 <= pb p <= 4.
Proof.
  apply (properties_bounded_in_reachable_states example_decoded).
  exact example_decoded_reachable.
Defined.

(** ** [DecodeReal]: the input it reads and the dictionary it writes *)

(** At the start of a call [range] is normalized: 20 bytes are enough for
    the 22 counter bits and 26 direct bits of a symbol. *)
Lemma pot_init_normalized E range buf :
  2 ^ 24 <= range -> 0 <= buf -> buf + 20 <= E -> pot E 22 26 range buf.
Proof.
  unfold pot. intros Hr Hb HE. split; [lia|].
  assert (H : 256 ^ 20 <= 256 ^ (E - buf)) by (apply Z.pow_le_mono_r; lia).
  assert (H0 : 2 ^ 24 * 67 ^ 22 * 201 ^ 26 <= 2 ^ 24 * 256 ^ 20 * 100 ^ 26)
    by (vm_compute; discriminate).
  assert (2 ^ 24 * 256 ^ 20 <= range * 256 ^ (E - buf)) by (apply Z.mul_le_mono_nonneg; lia).
  assert (2 ^ 24 * 256 ^ 20 * 100 ^ 26 <= range * 256 ^ (E - buf) * 100 ^ 26)
    by (apply Z.mul_le_mono_nonneg_r; [apply Z.pow_nonneg|]; lia).
  lia.
Qed.

(** The contract on the dictionary that a call with the limit [limit]
    relies on: the buffer is as long as [size] says, with room to spare
    below [2^64]; the write position is at most [limit], which is in the
    buffer; [checkDicSize] (a 32-bit value) and the distances of the rep
    queue (which are at least 1) are at most the size of the buffer; and
    while [checkDicSize] is 0 no more bytes were decoded than the position
    counts. *)
Definition dic_contract (limit : Z) (d : DecoderCore.t) : Prop :=
  let dic := DecoderCore.m_dic d in
  Z.of_nat (length (mem dic)) = size dic /\
  0 <= pos dic <= limit /\ limit <= size dic /\ size dic + 273 < 2 ^ 64 /\
  (0 <= DecoderCore.checkDicSize d <= size dic /\ DecoderCore.checkDicSize d < 2 ^ 32) /\
  (1 <= reps_0 (DecoderCore.reps d) <= size dic /\
   1 <= reps_1 (DecoderCore.reps d) <= size dic /\
   1 <= reps_2 (DecoderCore.reps d) <= size dic /\
   1 <= reps_3 (DecoderCore.reps d) <= size dic) /\
  (DecoderCore.checkDicSize d = 0 ->
   0 <= DecoderCore.processedPos d <= pos dic /\ DecoderCore.processedPos d < 2 ^ 32).

(** The walk over the loop of [DecodeReal], from the state of a ready
    decoder: [Gi] says that the input lasts 20 bytes beyond the later of
    [buf] and [bufLimit], [Gd] that the contract on the dictionary holds
    and that the write position is below [limit] or the next symbol is a
    simple match. *)
Lemma DecodeReal_walk inp limit bufLimit (Gi Gd : Prop) d :
  core_ok d -> core_ready d ->
  (Gi -> 0 <= DecoderCore.buf d /\
         Z.max (DecoderCore.buf d) bufLimit + 20 <= Z.of_nat (length inp)) ->
  (Gd -> dic_contract limit d /\
         (pos (DecoderCore.m_dic d) < limit \/ must_match inp d (load_locals d))) ->
  wp (DecodeReal_loop inp d limit bufLimit)
     (fun _ r' => dic_inv d limit Gd r' /\
                  (Gi -> 0 <= L.buf r' <= Z.max (DecoderCore.buf d) bufLimit + 20) /\
                  (Gd -> pos (DecoderCore.m_dic d) < L.dicPos r' \/ 274 <= L.len r') /\
                  reps_ok d Gd r' /\
                  (Gd -> L.len r' = 0 \/ (0 < L.len r' < 274 /\ L.dicPos r' = limit) \/ 274 <= L.len r'))
     (fun _ r' => dic_inv d limit Gd r') (walk_fault Gi Gd) (load_locals d).
Proof.
  intros (Hprops & Htr & Hbytes & Hst & Hrg) [Hi Hf] HGi HGd.
  destruct (Hst Hi) as [Hprobs Hstate]. specialize (Hrg Hf).
  set (E := Z.max (DecoderCore.buf d) bufLimit + 20).
  assert (HW : W (numProbs d) E Gi 22 26 (load_locals d)).
  { split.
    - split; [cbn [load_locals L.range]; lia|]. split; [exact Hprobs | exact Htr].
    - intros g. destruct (HGi g) as [Hb _]. cbn [load_locals L.range L.buf].
      apply pot_init_normalized; [lia | exact Hb | unfold E; lia]. }
  assert (Hdic : dic_inv d limit Gd (load_locals d)).
  { split; [split; [exact Hbytes | intros g; split; reflexivity]|].
    intros g. destruct (HGd g) as ((Hl & Hp & _) & _). cbn [load_locals L.dic L.dicPos].
    split; [exact Hl | lia]. }
  assert (Hreps : reps_ok d Gd (load_locals d)).
  { intros g. destruct (HGd g) as ((_ & _ & _ & _ & _ & Hr & Hpp) & _).
    cbn [load_locals L.rep0 L.rep1 L.rep2 L.rep3 L.processedPos L.dicPos].
    split; [exact Hr|]. split; [exact Hpp | reflexivity]. }
  eapply wp_mono;
    [apply (DecodeReal_loop_walk inp d limit E Gi Gd Hprops) with (bufLimit := bufLimit)
     | | |].
  - intros g. destruct (HGi g). unfold E in *. lia.
  - intros g. destruct (HGd g) as ((_ & ? & ? & ? & _) & _). unfold dicBufSize. lia.
  - intros g. destruct (HGd g) as ((_ & ? & _) & _). lia.
  - intros g. destruct (HGd g) as ((_ & _ & _ & _ & ? & _) & _). exact H.
  - intros g. destruct (HGd g) as ((_ & _ & _ & ? & _) & _). exact H.
  - intros g. unfold E. lia.
  - exact Hstate.
  - exact HW.
  - exact Hdic.
  - exact Hreps.
  - reflexivity.
  - intros g. exact (proj2 (HGd g)).
  - reflexivity.
  - intros [] r' (_ & _ & _ & Hd' & Hb' & Hp' & Hr'). split; [exact Hd'|]. split; [exact Hb'|].
    split; [exact Hp' | exact Hr'].
  - intros e r' [_ Hd']. exact Hd'.
  - intros f Hfl. exact Hfl.
Qed.

Lemma frame_lookup (l l' : list Z) p lim i :
  0 <= p -> 0 <= lim ->
  take (Z.to_nat p) l' = take (Z.to_nat p) l ->
  drop (Z.to_nat lim) l' = drop (Z.to_nat lim) l ->
  i < p \/ lim <= i -> zlookup l' i = zlookup l i.
Proof.
  intros Hp Hlim Ht Hd Hi. unfold zlookup. destruct (Z.ltb_spec i 0) as [|Hi0]; [reflexivity|].
  destruct Hi as [Hi | Hi].
  - rewrite <- (lookup_take_lt l' (Z.to_nat p)), <- (lookup_take_lt l (Z.to_nat p)) by lia.
    rewrite Ht. reflexivity.
  - replace (Z.to_nat i) with (Z.to_nat lim + (Z.to_nat i - Z.to_nat lim))%nat by lia.
    rewrite <- !lookup_drop, Hd. reflexivity.
Qed.

(** The decoder after the example stream: a ready core with 12 of the 16
    bytes of the dictionary written. *)
Lemma example_decoded_core_ok : core_ok (Decoder2.decoder example_decoded).
Proof.
  apply framer_core_ok; [apply reachable_framer_ok, example_decoded_reachable|].
  unfold lzma_pending. vm_compute. intros [H _]. discriminate H.
Qed.

Lemma example_decoded_core_ready : core_ready (Decoder2.decoder example_decoded).
Proof. split; vm_compute; reflexivity. Qed.

(** X4: [DecodeReal] on a decoder whose state is initialised and whose
    range coder is started reads its input within 20 bytes
    ([LZMA_REQUIRED_INPUT_MAX]) of the later of [buf] and [bufLimit]: when
    the input lasts that far it never reads past its end, and it leaves
    [buf] at most 20 bytes beyond that point. *)
Theorem DecodeReal_reads_20_bytes_past_bufLimit
  (inp : list Z) (limit bufLimit : Z) (d : DecoderCore.t) :
  core_ok d -> core_ready d ->
  0 <= DecoderCore.buf d ->
  Z.max (DecoderCore.buf d) bufLimit + LZMA_REQUIRED_INPUT_MAX <= Z.of_nat (length inp) ->
  match DecodeReal inp limit bufLimit d with
  | Ok _ d' =>
      0 <= DecoderCore.buf d' <= Z.max (DecoderCore.buf d) bufLimit + LZMA_REQUIRED_INPUT_MAX
  | Raise _ _ => True
  | Fault f => f <> BufOverrun
  end.
Proof.
  intros Hok Hready Hb Hlen. change LZMA_REQUIRED_INPUT_MAX with 20 in *.
  assert (H := DecodeReal_walk inp limit bufLimit True False d Hok Hready
                 (fun _ => conj Hb Hlen) ltac:(intros [])).
  unfold DecodeReal. unfold wp in H.
  destruct (DecodeReal_loop inp d limit bufLimit (load_locals d)) as [[] r | e r | f].
  - destruct H as (_ & Hbuf & _). exact (Hbuf I).
  - exact I.
  - intros ->. destruct H as [[_ H] | [[H _] | [_ [H | H]]]]; try discriminate H. exact (H I).
Qed.

Lemma DecodeReal_reads_20_bytes_witness :
  match DecodeReal (replicate 40 0) 16 4 (Decoder2.decoder example_decoded) with
  | Ok _ d' =>
      0 <= DecoderCore.buf d'
        <= Z.max (DecoderCore.buf (Decoder2.decoder example_decoded)) 4
           + LZMA_REQUIRED_INPUT_MAX
  | Raise _ _ => True
  | Fault f => f <> BufOverrun
  end.
Proof.
  refine (DecodeReal_reads_20_bytes_past_bufLimit (replicate 40 0) 16 4
            (Decoder2.decoder example_decoded) example_decoded_core_ok example_decoded_core_ready _ _).
  - vm_compute. discriminate.
  - vm_compute. discriminate.
Defined.

(** X5: [DecodeReal] on such a decoder, under the contract on the
    dictionary and with the write position below [limit]: every read and
    every write of the dictionary is inside the buffer and the loops end, so
    that the only failure left is a read past the end of the input.  The
    writes go to positions from the old [pos] up to the new one: the bytes
    before the old [pos] and from the new [pos] on are as they were (from
    [limit] on when the call throws); on return [pos] is at most [limit], it
    has moved forward unless the end marker was met ([remainLen] is at least
    274), a match is left unfinished ([remainLen] is not 0) only at [limit],
    and the contract holds again. *)
Theorem DecodeReal_stays_in_dictionary
  (inp : list Z) (limit bufLimit : Z) (d : DecoderCore.t) :
  core_ok d -> core_ready d ->
  dic_contract limit d -> pos (DecoderCore.m_dic d) < limit ->
  let unchanged lim d' :=
    length (mem (DecoderCore.m_dic d')) = length (mem (DecoderCore.m_dic d)) /\
    forall i, i < pos (DecoderCore.m_dic d) \/ lim <= i ->
              zlookup (mem (DecoderCore.m_dic d')) i = zlookup (mem (DecoderCore.m_dic d)) i in
  match DecodeReal inp limit bufLimit d with
  | Ok _ d' =>
      unchanged (pos (DecoderCore.m_dic d')) d' /\
      pos (DecoderCore.m_dic d) <= pos (DecoderCore.m_dic d') <= limit /\
      (pos (DecoderCore.m_dic d) < pos (DecoderCore.m_dic d') \/
       kMatchSpecLenStart <= DecoderCore.remainLen d') /\
      (DecoderCore.remainLen d' = 0 \/
       (0 < DecoderCore.remainLen d' < kMatchSpecLenStart /\
        pos (DecoderCore.m_dic d') = limit) \/
       kMatchSpecLenStart <= DecoderCore.remainLen d') /\
      dic_contract limit d'
  | Raise _ d' =>
      unchanged limit d' /\ pos (DecoderCore.m_dic d') = pos (DecoderCore.m_dic d)
  | Fault f => f = BufOverrun
  end.
Proof.
  intros Hok Hready Hc Hpos unchanged.
  assert (H := DecodeReal_walk inp limit bufLimit False True d Hok Hready
                 ltac:(intros []) (fun _ => conj Hc (or_introl Hpos))).
  pose proof Hc as (Hlen & Hp & Hlim & Hbig & Hchk & _).
  assert (Hun : forall r', dic_inv d limit True r' ->
                  (length (L.dic r') = length (mem (DecoderCore.m_dic d)) /\
                   forall i, i < pos (DecoderCore.m_dic d) \/ limit <= i ->
                             zlookup (L.dic r') i = zlookup (mem (DecoderCore.m_dic d)) i) /\
                  Z.of_nat (length (L.dic r')) = size (DecoderCore.m_dic d) /\
                  pos (DecoderCore.m_dic d) <= L.dicPos r' <= limit).
  { intros r' [[_ Hfr] Hd]. destruct (Hfr I) as [Ht Hdr]. destruct (Hd I) as [Hl Hp'].
    unfold dicBufSize in Hl. split; [|split; [exact Hl | lia]]. split; [lia|].
    intros i Hi. apply (frame_lookup _ _ (pos (DecoderCore.m_dic d)) limit); try assumption; lia. }
  unfold DecodeReal. unfold wp in H.
  destruct (DecodeReal_loop inp d limit bufLimit (load_locals d)) as [[] r | e r | f].
  - destruct H as (Hd & _ & Hpp & Hr & Hrl). destruct (Hun r Hd) as (Hu & Hl' & Hp').
    destruct (Hr I) as (Hreps & Hcp & Htl). destruct Hd as [[_ Hfr] _].
    split.
    { split; [exact (proj1 Hu)|]. intros i Hi.
      apply (frame_lookup _ _ (pos (DecoderCore.m_dic d)) (L.dicPos r));
        [lia | lia | exact (proj1 (Hfr I)) | exact Htl | exact Hi]. }
    split; [exact Hp'|].
    split; [change kMatchSpecLenStart with 274; exact (Hpp I)|].
    split; [change kMatchSpecLenStart with 274; exact (Hrl I)|].
    unfold dic_contract.
    cbn [store_locals DecoderCore.m_dic DecoderCore.checkDicSize DecoderCore.reps
         DecoderCore.processedPos mem size pos reps_0 reps_1 reps_2 reps_3].
    split; [exact Hl'|]. split; [lia|]. split; [exact Hlim|]. split; [exact Hbig|].
    split; [exact Hchk|]. split; [exact Hreps | exact Hcp].
  - destruct (Hun r H) as [Hu _]. split; [exact Hu | reflexivity].
  - destruct H as [[H _] | [[_ H] | [H _]]]; [destruct (H I) | exact H | destruct (H I)].
Qed.

Lemma DecodeReal_stays_in_dictionary_witness :
  let d := Decoder2.decoder example_decoded in
  let unchanged lim d' :=
    length (mem (DecoderCore.m_dic d')) = length (mem (DecoderCore.m_dic d)) /\
    forall i, i < pos (DecoderCore.m_dic d) \/ lim <= i ->
              zlookup (mem (DecoderCore.m_dic d')) i = zlookup (mem (DecoderCore.m_dic d)) i in
  match DecodeReal (replicate 40 0) 16 4 d with
  | Ok _ d' =>
      unchanged (pos (DecoderCore.m_dic d')) d' /\
      pos (DecoderCore.m_dic d) <= pos (DecoderCore.m_dic d') <= 16 /\
      (pos (DecoderCore.m_dic d) < pos (DecoderCore.m_dic d') \/
       kMatchSpecLenStart <= DecoderCore.remainLen d') /\
      (DecoderCore.remainLen d' = 0 \/
       (0 < DecoderCore.remainLen d' < kMatchSpecLenStart /\
        pos (DecoderCore.m_dic d') = 16) \/
       kMatchSpecLenStart <= DecoderCore.remainLen d') /\
      dic_contract 16 d'
  | Raise _ d' =>
      unchanged 16 d' /\ pos (DecoderCore.m_dic d') = pos (DecoderCore.m_dic d)
  | Fault f => f = BufOverrun
  end.
Proof.
  refine (DecodeReal_stays_in_dictionary (replicate 40 0) 16 4
            (Decoder2.decoder example_decoded) example_decoded_core_ok
            example_decoded_core_ready _ _).
  - unfold dic_contract. vm_compute. repeat split; congruence.
  - vm_compute. reflexivity.
Defined.

(** ** Uncompressed chunks *)

Lemma lor_shiftl_8 hi lo : 0 <= hi -> 0 <= lo < 256 -> Z.lor (Z.shiftl hi 8) lo = 256 * hi + lo.
Proof.
  intros Hh Hl.
  assert (H0 : Z.land (Z.shiftl hi 8) lo = 0).
  { apply Z.bits_inj'. intros k Hk. rewrite Z.land_spec, Z.bits_0.
    destruct (Z.ltb_spec k 8).
    - rewrite Z.shiftl_spec_low by lia. reflexivity.
    - rewrite (Z.bits_above_log2 lo k), andb_false_r; [reflexivity | lia |].
      destruct (Z.eq_dec lo 0) as [->|]; [cbn; lia|].
      assert (Z.log2 lo < 8) by (apply Z.log2_lt_pow2; lia). lia. }
  rewrite <- Z.lxor_lor by exact H0. rewrite <- Z.add_nocarry_lxor by exact H0.
  rewrite Z.shiftl_mul_pow2 by lia. lia.
Qed.

Lemma wp_eq {E St A} (m m' : M E St A) Q QE F s s' :
  m s = m' s' -> wp m' Q QE F s' -> wp m Q QE F s.
Proof. unfold wp. intros ->. exact (fun H => H). Qed.

(** The loop of the framer, one pass at a time. *)
Lemma framer_while_wp n dicLimit finishMode v d Q QE F :
  Decoder2.state d <> LZMA2_STATE_FINISHED ->
  wp (Decoder2_body dicLimit finishMode v)
     (fun v' d' => wp (while n Decoder2_running (Decoder2_body dicLimit finishMode) v') Q QE F d')
     QE F d ->
  wp (while (S n) Decoder2_running (Decoder2_body dicLimit finishMode) v) Q QE F d.
Proof.
  intros Hs H. eapply wp_eq; [apply framer_while_step; exact Hs|]. apply wp_bind. exact H.
Qed.

(** [memcpy] of the first [n] bytes of [src] into a buffer that has room. *)
Lemma memcpy_take dst p src n :
  0 <= p -> (n <= length src)%nat -> p + Z.of_nat n <= Z.of_nat (length dst) ->
  memcpy dst p src n
  = Some (take (Z.to_nat p) dst ++ take n src ++ drop (Z.to_nat p + n) dst).
Proof.
  revert dst p src. induction n as [|n IH]; intros dst p src Hp Hn Hd.
  - destruct src; cbn [memcpy take app]; rewrite Nat.add_0_r, take_drop; reflexivity.
  - destruct src as [|b src]; [cbn in Hn; lia|]. cbn [memcpy].
    assert (Hl : exists a, zlookup dst p = Some a) by (apply zlookup_Some_lt; lia).
    destruct Hl as [a Hl]. rewrite (zinsert_Some _ _ _ _ Hl).
    rewrite IH; [|lia | cbn in Hn; lia | rewrite length_insert; lia].
    f_equal. replace (Z.to_nat (p + 1)) with (S (Z.to_nat p)) by lia.
    rewrite drop_insert_lt by lia.
    rewrite (take_S_r _ _ b) by (apply list_lookup_insert_eq; lia).
    rewrite take_insert_ge by lia. rewrite <- app_assoc. cbn [take app].
    do 2 f_equal. replace (S (Z.to_nat p) + n)%nat with (Z.to_nat p + S n)%nat by lia. reflexivity.
Qed.

Definition dic2 (d : Decoder2.t) : DictView := DecoderCore.m_dic (Decoder2.decoder d).

(** One pass of the loop over the data of an uncompressed chunk: it copies
    as many bytes as the chunk has left, the dictionary has room for up to
    [dicLimit], and the input holds. *)
Lemma Decoder2_body_stored dicLimit finishMode srcBytes srcLen d
    (Q : list Z * Z -> Decoder2.t -> Prop) QE F :
  let p := pos (dic2 d) in
  let s := Z.min (Z.min (Decoder2.unpackSize d) (dicLimit - p)) (Z.of_nat (length srcBytes)) in
  Decoder2.state d = LZMA2_STATE_DATA \/ Decoder2.state d = LZMA2_STATE_DATA_CONT ->
  isUncompressedState d = true ->
  (Decoder2.state d = LZMA2_STATE_DATA ->
   Decoder2.control d = CONTROL_COPY_RESET_DIC \/ Decoder2.needInitDic d = false) ->
  0 <= p < dicLimit -> dicLimit <= size (dic2 d) < 2 ^ 64 ->
  Z.of_nat (length (mem (dic2 d))) = size (dic2 d) ->
  1 <= Decoder2.unpackSize d < 2 ^ 64 -> srcBytes <> [] ->
  (forall d',
     dic2 d' = {| mem := take (Z.to_nat p) (mem (dic2 d)) ++ take (Z.to_nat s) srcBytes
                           ++ drop (Z.to_nat (p + s)) (mem (dic2 d));
                  size := size (dic2 d); pos := p + s |} ->
     Decoder2.unpackSize d' = Decoder2.unpackSize d - s ->
     Decoder2.state d' = (if Decoder2.unpackSize d - s =? 0 then LZMA2_STATE_CONTROL
                          else LZMA2_STATE_DATA_CONT) ->
     Decoder2.control d' = Decoder2.control d ->
     (Decoder2.state d = LZMA2_STATE_DATA \/ Decoder2.needInitDic d = false ->
      Decoder2.needInitDic d' = false) ->
     Q (drop (Z.to_nat s) srcBytes, srcLen + s) d') ->
  wp (Decoder2_body dicLimit finishMode (srcBytes, srcLen)) Q QE F d.
Proof.
  intros p s Hst Hun Hreset Hp Hlim Hlen Hups Hsrc HQ.
  unfold Decoder2_body. apply wp_bind, wp_get. fold (dic2 d). fold p.
  assert (E1 : ELzma2State_eqb (Decoder2.state d) LZMA2_STATE_ERROR = false)
    by (destruct Hst as [-> | ->]; reflexivity).
  assert (E2 : negb (ELzma2State_eqb (Decoder2.state d) LZMA2_STATE_DATA)
               && negb (ELzma2State_eqb (Decoder2.state d) LZMA2_STATE_DATA_CONT) = false)
    by (destruct Hst as [-> | ->]; reflexivity).
  rewrite E1, E2, Hun. replace (p =? dicLimit) with false by (symmetry; apply Z.eqb_neq; lia).
  cbn [andb]. rewrite usize_small by lia.
  match goal with |- wp (Decoder2_uncompressed ?x _ _) _ _ _ _ => set (m := x) end.
  assert (Hm : m = Z.min (Decoder2.unpackSize d) (dicLimit - p)).
  { subst m. destruct (Z.leb_spec (Decoder2.unpackSize d) (dicLimit - p)); cbn [fst]; lia. }
  clearbody m. subst m.
  unfold Decoder2_uncompressed. cbv zeta.
  destruct (Z.eqb_spec (Z.of_nat (length srcBytes)) 0) as [H0 | H0];
    [destruct srcBytes; [congruence | discriminate]|].
  apply wp_bind, wp_get. apply wp_bind.
  apply wp_post with
    (Q := fun _ d1 => dic2 d1 = dic2 d /\ Decoder2.unpackSize d1 = Decoder2.unpackSize d /\
                      Decoder2.state d1 = Decoder2.state d /\
                      Decoder2.control d1 = Decoder2.control d /\
                      (Decoder2.state d = LZMA2_STATE_DATA \/ Decoder2.needInitDic d = false ->
                       Decoder2.needInitDic d1 = false)).
  { destruct Hst as [Hs | Hs]; rewrite Hs; cbn [ELzma2State_eqb].
    - cbv zeta. apply wp_bind.
      destruct (Hreset Hs) as [Hc | Hc].
      + rewrite Hc. cbn [Z.eqb CONTROL_COPY_RESET_DIC Pos.eqb].
        unfold InitDicAndState. wp_steps. repeat split; try reflexivity.
        all: cbn; try assumption; try (intros _; reflexivity).
      + destruct (Decoder2.control d =? CONTROL_COPY_RESET_DIC); [|rewrite Hc];
          unfold InitDicAndState; wp_steps; repeat split; try reflexivity;
          cbn; try assumption; try (intros _; reflexivity).
    - apply wp_ret. repeat split; try reflexivity; try exact Hs.
      intros [H | H]; [discriminate H | exact H]. }
  intros [] d1 (Hd1 & Hu1 & Hs1 & Hc1 & Hn1). cbv beta.
  set (s0 := if _ <? _ then _ else _).
  assert (Hs0 : s0 = s).
  { subst s0 s. destruct (Z.ltb_spec (Z.min (Decoder2.unpackSize d) (dicLimit - p))
                            (Z.of_nat (length srcBytes))); lia. }
  clearbody s0. subst s0.
  assert (Hs1' : 1 <= s) by (subst s; lia).
  destruct (Z.eqb_spec s 0) as [|_]; [lia|].
  apply wp_bind, wp_on_decoder, wp_call.
  unfold UpdateWithUncompressed. apply wp_bind, wp_get. cbv zeta.
  change (DecoderCore.m_dic (Decoder2.decoder d1)) with (dic2 d1). rewrite Hd1. fold p.
  replace (s <=? Z.of_nat (length srcBytes)) with true by (symmetry; apply Z.leb_le; lia).
  replace (p + s <=? size (dic2 d)) with true by (symmetry; apply Z.leb_le; lia).
  rewrite (memcpy_take _ _ _ _ (proj1 Hp)) by lia.
  rewrite usize_small by lia.
  replace (Z.to_nat p + Z.to_nat s)%nat with (Z.to_nat (p + s)) by lia.
  assert (Hu : usize (Decoder2.unpackSize d1 - s) = Decoder2.unpackSize d - s)
    by (rewrite Hu1; apply usize_small; lia).
  wp_steps; apply HQ;
    cbn [Decoder2.set_state Decoder2.set_unpackSize Decoder2.set_decoder
         Decoder2.unpackSize Decoder2.state Decoder2.control Decoder2.needInitDic
         Decoder2.decoder dic2]; unfold dic2; cbn [Decoder2.decoder];
    rewrite ?Hu; try reflexivity; try assumption.
  all: unfold dic2 in *;
    destruct (Decoder2.decoder d1) as [[m0 sz0 p0] ? ? ? ? ? ? ? ? ? ? ? ? ? ? ?];
    cbn in Hd1 |- *; rewrite <- Hd1; reflexivity.
Qed.

(** The header of an uncompressed chunk: three passes of the loop. *)
Lemma stored_header_wp k dicLimit finishMode c hi lo rest srcLen d
    (Q : list Z * Z -> Decoder2.t -> Prop) QE F :
  Decoder2.state d = LZMA2_STATE_CONTROL ->
  c = CONTROL_COPY_RESET_DIC \/ c = CONTROL_COPY_NO_RESET ->
  0 <= hi < 256 -> 0 <= lo < 256 ->
  pos (dic2 d) <> dicLimit \/ finishMode = FinishMode_End ->
  (forall d',
     Decoder2.decoder d' = Decoder2.decoder d ->
     Decoder2.state d' = LZMA2_STATE_DATA ->
     Decoder2.control d' = c ->
     Decoder2.unpackSize d' = 256 * hi + lo + 1 ->
     Decoder2.needInitDic d' = Decoder2.needInitDic d ->
     wp (while k Decoder2_running (Decoder2_body dicLimit finishMode) (rest, srcLen + 3))
        Q QE F d') ->
  wp (while (S (S (S k))) Decoder2_running (Decoder2_body dicLimit finishMode)
        (c :: hi :: lo :: rest, srcLen)) Q QE F d.
Proof.
  intros Hst Hc Hhi Hlo Hlim HQ.
  destruct d as [core ps us st ctl nid nis nip]. cbn in Hst. subst st.
  unfold dic2 in Hlim. cbn [Decoder2.decoder] in Hlim.
  assert (Hlor : usize (Z.lor (Z.lor 0 (u32 (Z.shiftl hi 8))) lo + 1) = 256 * hi + lo + 1).
  { rewrite Z.lor_0_l, u32_small by (rewrite Z.shiftl_mul_pow2; lia).
    rewrite lor_shiftl_8 by lia. apply usize_small. lia. }
  destruct Hc as [-> | ->].
  all: apply framer_while_wp; [discriminate|].
  all: eapply wp_Ok; [apply Decoder2_body_header; [reflexivity | exact Hlim | reflexivity]|].
  all: apply framer_while_wp; [discriminate|].
  all: eapply wp_Ok; [apply Decoder2_body_header; [reflexivity | exact Hlim | reflexivity]|].
  all: apply framer_while_wp; [discriminate|].
  all: eapply wp_Ok; [apply Decoder2_body_header; [reflexivity | exact Hlim | reflexivity]|].
  all: replace (srcLen + 1 + 1 + 1) with (srcLen + 3) by lia.
  all: apply HQ; try reflexivity; cbn; exact Hlor.
Qed.

(** An uncompressed chunk that fits below [dicLimit], header and data: four
    passes of the loop, which leave the data in the dictionary and the
    framer ready for the next control byte. *)
Lemma stored_chunk_wp k dicLimit finishMode c hi lo data rest srcLen d
    (Q : list Z * Z -> Decoder2.t -> Prop) QE F :
  Decoder2.state d = LZMA2_STATE_CONTROL ->
  c = CONTROL_COPY_RESET_DIC \/ (c = CONTROL_COPY_NO_RESET /\ Decoder2.needInitDic d = false) ->
  0 <= hi < 256 -> 0 <= lo < 256 -> Z.of_nat (length data) = 256 * hi + lo + 1 ->
  0 <= pos (dic2 d) -> pos (dic2 d) + Z.of_nat (length data) <= dicLimit ->
  dicLimit <= size (dic2 d) < 2 ^ 64 ->
  Z.of_nat (length (mem (dic2 d))) = size (dic2 d) ->
  (forall d',
     dic2 d' = {| mem := take (Z.to_nat (pos (dic2 d))) (mem (dic2 d)) ++ data
                           ++ drop (Z.to_nat (pos (dic2 d)) + length data) (mem (dic2 d));
                  size := size (dic2 d);
                  pos := pos (dic2 d) + Z.of_nat (length data) |} ->
     Decoder2.state d' = LZMA2_STATE_CONTROL ->
     Decoder2.needInitDic d' = false ->
     wp (while k Decoder2_running (Decoder2_body dicLimit finishMode)
           (rest, srcLen + 3 + Z.of_nat (length data))) Q QE F d') ->
  wp (while (S (S (S (S k)))) Decoder2_running (Decoder2_body dicLimit finishMode)
        (c :: hi :: lo :: data ++ rest, srcLen)) Q QE F d.
Proof.
  intros Hst Hc Hhi Hlo Hn Hp Hfit Hlim Hlen HQ.
  apply stored_header_wp; [exact Hst | tauto | exact Hhi | exact Hlo | left; lia|].
  intros d1 Hd1 Hs1 Hc1 Hu1 Hn1.
  assert (Hdic : dic2 d1 = dic2 d) by (unfold dic2; rewrite Hd1; reflexivity).
  apply framer_while_wp; [rewrite Hs1; discriminate|].
  assert (Hs : Z.min (Z.min (Decoder2.unpackSize d1) (dicLimit - pos (dic2 d)))
                 (Z.of_nat (length (data ++ rest))) = Z.of_nat (length data)).
  { rewrite Hu1, length_app. lia. }
  apply Decoder2_body_stored; rewrite ?Hdic, ?Hs.
  - left. exact Hs1.
  - unfold isUncompressedState. rewrite Hc1. destruct Hc as [-> | [-> _]]; reflexivity.
  - intros _. rewrite Hc1, Hn1. destruct Hc as [-> | [_ ->]]; [left | right]; reflexivity.
  - lia.
  - exact Hlim.
  - exact Hlen.
  - lia.
  - destruct data; [cbn in Hn; lia | discriminate].
  - intros d' Hd' Hu' Hs' _ Hn'.
    rewrite Nat2Z.id, take_app_length, drop_app_length in *.
    apply HQ.
    + rewrite Hd'. f_equal. do 2 f_equal. f_equal. lia.
    + rewrite Hs', Hu1, <- Hn, Z.sub_diag. reflexivity.
    + apply Hn'. left. exact Hs1.
Qed.

(** The end of the stream: the control byte 0 ends the loop. *)
Lemma stream_end_wp k dicLimit finishMode srcLen d
    (Q : list Z * Z -> Decoder2.t -> Prop) QE F :
  Decoder2.state d = LZMA2_STATE_CONTROL ->
  pos (dic2 d) <> dicLimit \/ finishMode = FinishMode_End ->
  (forall d', Decoder2.decoder d' = Decoder2.decoder d ->
              Decoder2.state d' = LZMA2_STATE_FINISHED -> Q ([], srcLen + 1) d') ->
  wp (while (S (S k)) Decoder2_running (Decoder2_body dicLimit finishMode)
        ([CONTROL_EOF], srcLen)) Q QE F d.
Proof.
  intros Hst Hlim HQ.
  destruct d as [core ps us st ctl nid nis nip]. cbn in Hst. subst st.
  apply framer_while_wp; [discriminate|].
  eapply wp_Ok; [apply Decoder2_body_header; [reflexivity | exact Hlim | reflexivity]|].
  eapply wp_Ok; [apply framer_while_finished; reflexivity|].
  apply HQ; reflexivity.
Qed.

(** An uncompressed chunk as the framer reads it (the format, not code of
    the decoder): the control byte, 1 with a reset of the dictionary and 2
    without, the size of the data minus one in two bytes, the high one
    first, and the data. *)
Definition stored_chunk (ch : bool * list Z) : list Z :=
  let n := Z.of_nat (length (snd ch)) in
  (if fst ch then CONTROL_COPY_RESET_DIC else CONTROL_COPY_NO_RESET)
    :: (n - 1) / 256 :: (n - 1) mod 256 :: snd ch.

Definition stored_chunk_ok (ch : bool * list Z) : Prop :=
  1 <= Z.of_nat (length (snd ch)) <= 65536.

(** The first chunk of a stream must reset the dictionary. *)
Definition resets_first (needInitDic : bool) (chunks : list (bool * list Z)) : Prop :=
  match chunks with
  | [] => True
  | ch :: _ => fst ch = true \/ needInitDic = false
  end.

Lemma stored_chunks_wp dicLimit finishMode chunks QE F :
  forall (k : nat) srcLen d,
  let p := pos (dic2 d) in
  let data := concat (map snd chunks) in
  Forall stored_chunk_ok chunks -> resets_first (Decoder2.needInitDic d) chunks ->
  Decoder2.state d = LZMA2_STATE_CONTROL ->
  0 <= p -> p + Z.of_nat (length data) <= dicLimit ->
  finishMode = FinishMode_End \/ p + Z.of_nat (length data) < dicLimit ->
  dicLimit <= size (dic2 d) < 2 ^ 64 ->
  Z.of_nat (length (mem (dic2 d))) = size (dic2 d) ->
  (4 * length chunks + 2 <= k)%nat ->
  wp (while k Decoder2_running (Decoder2_body dicLimit finishMode)
        (flat_map stored_chunk chunks ++ [CONTROL_EOF], srcLen))
     (fun v d' =>
        v = ([], srcLen + Z.of_nat (length (flat_map stored_chunk chunks)) + 1) /\
        Decoder2.state d' = LZMA2_STATE_FINISHED /\
        dic2 d' = {| mem := take (Z.to_nat p) (mem (dic2 d)) ++ data
                              ++ drop (Z.to_nat p + length data) (mem (dic2 d));
                     size := size (dic2 d); pos := p + Z.of_nat (length data) |})
     QE F d.
Proof.
  induction chunks as [|[reset dat] chunks IH]; intros k srcLen d p data Hok Hfirst Hst Hp Hfit
    Hfin Hlim Hlen Hk.
  - destruct k as [|[|k]]; [cbn in Hk; lia..|]. cbn [flat_map app].
    subst data. cbn [map concat length] in *.
    apply stream_end_wp; [exact Hst | destruct Hfin; [right; assumption | left; fold p; lia]|].
    intros d' Hd' Hs'. split; [f_equal; lia|]. split; [exact Hs'|].
    unfold dic2. rewrite Hd'. fold (dic2 d). fold p.
    rewrite Nat.add_0_r, app_nil_l, take_drop, Z.add_0_r. destruct (dic2 d); reflexivity.
  - do 4 (destruct k as [|k]; [cbn in Hk; lia|]).
    inversion Hok as [|? ? Hch Hok']; subst. unfold stored_chunk_ok in Hch. cbn [snd] in Hch.
    subst data. cbn [map concat snd] in *. rewrite length_app in Hfit, Hfin.
    cbn [flat_map]. unfold stored_chunk at 1. cbn [fst snd]. cbv zeta.
    rewrite <- !app_comm_cons, <- app_assoc.
    assert (Hdm := Z.div_mod (Z.of_nat (length dat) - 1) 256 ltac:(lia)).
    assert (Hm := Z.mod_pos_bound (Z.of_nat (length dat) - 1) 256 ltac:(lia)).
    apply stored_chunk_wp; try assumption; fold p; try lia.
    + destruct reset; [left; reflexivity | right; split; [reflexivity|]].
      destruct Hfirst as [H | H]; [discriminate H | exact H].
    + intros d' Hd' Hs' Hn'.
      assert (Hpd : pos (dic2 d') = p + Z.of_nat (length dat)) by (rewrite Hd'; reflexivity).
      assert (Hmd : mem (dic2 d')
                    = take (Z.to_nat p) (mem (dic2 d)) ++ dat
                        ++ drop (Z.to_nat p + length dat) (mem (dic2 d)))
        by (rewrite Hd'; reflexivity).
      assert (Hsd : size (dic2 d') = size (dic2 d)) by (rewrite Hd'; reflexivity).
      eapply wp_post.
      * apply (IH k (srcLen + 3 + Z.of_nat (length dat)) d'); try assumption.
        -- destruct chunks; [exact I | right; exact Hn'].
        -- rewrite Hpd. lia.
        -- rewrite Hpd. lia.
        -- rewrite Hpd. destruct Hfin; [left; assumption | right; lia].
        -- rewrite Hsd. exact Hlim.
        -- rewrite Hsd, Hmd, !length_app, length_take, length_drop. lia.
        -- cbn [length] in Hk. lia.
      * intros v d2 (Hv & Hs2 & Hd2). cbv beta. split; [|split; [exact Hs2|]].
        -- rewrite Hv. f_equal. cbn [length]. rewrite !length_app.
           unfold stored_chunk at 2. cbn [length snd]. lia.
        -- rewrite Hd2, Hpd, Hmd, Hsd. f_equal; [|rewrite length_app; lia].
           replace (Z.to_nat (p + Z.of_nat (length dat)))
             with (length (take (Z.to_nat p) (mem (dic2 d)) ++ dat))
             by (rewrite length_app, length_take; lia).
           rewrite (app_assoc _ dat), take_app_length, <- !app_assoc.
           do 3 f_equal. rewrite (app_assoc _ dat), drop_app_add, drop_drop.
           f_equal. rewrite !length_app. lia.
Qed.

(** ** [Lzma2Decode] on streams of uncompressed chunks *)

(** The decoder as [Lzma2Decode] sets it up. *)
Lemma Lzma2Decode_setup storage junk prop dest outSize :
  prop <= 40 ->
  exists d0,
    (Decoder2_new junk prop;;
     on_decoder (modify (fun c => DecoderCore.set_m_dic
       {| mem := dest; size := outSize; pos := pos (DecoderCore.m_dic c) |} c))) storage
    = Ok tt d0 /\
    Decoder2.state d0 = LZMA2_STATE_CONTROL /\ Decoder2.needInitDic d0 = true /\
    dic2 d0 = {| mem := dest; size := outSize; pos := 0 |}.
Proof.
  intros Hprop.
  assert (H : wp (Decoder2_new junk prop;;
                  on_decoder (modify (fun c => DecoderCore.set_m_dic
                    {| mem := dest; size := outSize; pos := pos (DecoderCore.m_dic c) |} c)))
                (fun _ d0 => Decoder2.state d0 = LZMA2_STATE_CONTROL /\
                             Decoder2.needInitDic d0 = true /\
                             dic2 d0 = {| mem := dest; size := outSize; pos := 0 |})
                never no_fault storage).
  { unfold Decoder2_new. replace (40 <? prop) with false by (symmetry; apply Z.ltb_ge; lia).
    unfold Reset, InitDicAndState. wp_steps. repeat split. }
  unfold wp in H.
  match type of H with match ?r with _ => _ end =>
    destruct r as [[] d0 | e d0 | f]; [|destruct H..] end.
  exists d0. split; [reflexivity | exact H].
Qed.

(** A call whose loop ends in the state Finished. *)
Lemma Lzma2Decode_finished storage junk outSize src prop finishMode dest srcLen m p :
  prop <= 40 -> 0 <= outSize ->
  (forall d0 k,
     Decoder2.state d0 = LZMA2_STATE_CONTROL -> Decoder2.needInitDic d0 = true ->
     dic2 d0 = {| mem := dest; size := outSize; pos := 0 |} ->
     (Z.to_nat (2 * (Z.of_nat (length src) + outSize) + 4) <= k)%nat ->
     wp (while k Decoder2_running (Decoder2_body outSize finishMode) (src, 0))
        (fun v d' => snd v = srcLen /\ mem (dic2 d') = m /\ pos (dic2 d') = p)
        never no_fault d0) ->
  Lzma2Decode storage junk outSize src prop finishMode dest
  = Ok (true, p, srcLen, FinishedWithMark) m.
Proof.
  intros Hprop Hout H. unfold Lzma2Decode.
  destruct (Lzma2Decode_setup storage junk prop dest outSize Hprop) as (d0 & Hrun & Hs & Hn & Hd).
  rewrite <- (bind_seq_assoc (Decoder2_new junk prop) _
                (fun _ => Decoder2_DecodeToDic outSize finishMode src)).
  rewrite (bind_Ok _ _ _ _ _ Hrun).
  rewrite Decoder2_DecodeToDic_unfold. unfold returning.
  specialize (H d0 _ Hs Hn Hd (Nat.le_refl _)). unfold wp in H. unfold bind at 1.
  destruct (while _ _ _ _ d0) as [v d' | e d' | f]; [|destruct H..].
  destruct H as (Hv & Hm & Hp). unfold ret. cbn [Status_eqb negb].
  unfold dic2 in Hm, Hp. rewrite Hv, Hm, Hp. reflexivity.
Qed.

Lemma stored_chunks_length chunks :
  Forall stored_chunk_ok chunks ->
  (4 * length chunks <= length (flat_map stored_chunk chunks))%nat.
Proof.
  induction 1 as [|ch chunks Hch _ IH]; [cbn; lia|].
  cbn [flat_map length]. rewrite length_app. unfold stored_chunk at 1. cbn [length].
  unfold stored_chunk_ok in Hch. lia.
Qed.

(** X6: a stream of one uncompressed chunk with dictionary reset, the
    bytes [01 hi lo], the [256 * hi + lo + 1] bytes of [data] and the end
    byte [00], decoded by [Lzma2Decode] into a buffer of [outSize] bytes
    that has room for the data (more than enough room when the finish mode
    is Any): the call returns [true] with the status [FinishedWithMark],
    [destLen] the length of the data and [srcLen] the length of the stream,
    and the buffer holds the data followed by what it held before. *)
Theorem Lzma2Decode_stored_chunk
  (storage : Decoder2.t) (junk : nat -> Z) (outSize prop hi lo : Z) (finishMode : FinishMode)
  (data dest : list Z) :
  0 <= prop <= 40 -> 0 <= hi < 256 -> 0 <= lo < 256 ->
  Z.of_nat (length data) = 256 * hi + lo + 1 ->
  Z.of_nat (length dest) = outSize -> outSize < 2 ^ 64 ->
  Z.of_nat (length data) <= outSize ->
  finishMode = FinishMode_End \/ Z.of_nat (length data) < outSize ->
  Lzma2Decode storage junk outSize (1 :: hi :: lo :: data ++ [0]) prop finishMode dest
  = Ok (true, Z.of_nat (length data), Z.of_nat (length data) + 4, FinishedWithMark)
       (data ++ drop (length data) dest).
Proof.
  intros [_ Hprop] Hhi Hlo Hn Hdest Hout Hfit Hfin.
  apply Lzma2Decode_finished; [exact Hprop | lia|].
  intros d0 k Hs Hnd Hd Hk.
  assert (Hk4 : exists k', k = S (S (S (S (S (S k')))))).
  { exists (k - 6)%nat. cbn [length] in Hk. rewrite length_app in Hk. cbn [length] in Hk. lia. }
  destruct Hk4 as [k' ->].
  apply (stored_chunk_wp (S (S k')) outSize finishMode 1 hi lo data [0] 0 d0);
    rewrite ?Hd; cbn [pos size mem]; try assumption; try lia.
  - left. reflexivity.
  - intros d1 Hd1 Hs1 Hn1.
    apply stream_end_wp; [exact Hs1 | rewrite Hd1; cbn [pos]; destruct Hfin; [right | left]|].
    + assumption.
    + lia.
    + intros d2 Hd2 _. cbn [snd]. unfold dic2. rewrite Hd2. fold (dic2 d1). rewrite Hd1.
      cbn [mem pos]. split; [lia|]. split; [|lia]. reflexivity.
Qed.

Lemma Lzma2Decode_stored_chunk_witness :
  Lzma2Decode zero_storage (fun _ => 0) 8 (1 :: 0 :: 2 :: [97; 98; 99] ++ [0]) 24
    FinishMode_Any (replicate 8 0)
  = Ok (true, Z.of_nat (length [97; 98; 99]), Z.of_nat (length [97; 98; 99]) + 4,
        FinishedWithMark)
       ([97; 98; 99] ++ drop (length [97; 98; 99]) (replicate 8 0)).
Proof.
  refine (Lzma2Decode_stored_chunk zero_storage (fun _ => 0) 8 24 0 2 FinishMode_Any
            [97; 98; 99] (replicate 8 0) _ _ _ _ _ _ _ _).
  - split; discriminate.
  - split; [discriminate | reflexivity].
  - split; [discriminate | reflexivity].
  - reflexivity.
  - reflexivity.
  - reflexivity.
  - discriminate.
  - right. reflexivity.
Defined.

(** X7: uncompressed chunks compose.  A stream made of any number of
    uncompressed chunks of 1 to 65536 bytes each, the first one with
    dictionary reset, and the end byte [00], decoded by [Lzma2Decode] into a
    buffer that has room for all the data (more than enough room when the
    finish mode is Any): the call returns [true] with the status
    [FinishedWithMark], [srcLen] the length of the stream and [destLen] the
    length of the data, and the buffer holds the data of the chunks, one
    after the other, followed by what it held before. *)
Theorem Lzma2Decode_stored_chunks
  (storage : Decoder2.t) (junk : nat -> Z) (outSize prop : Z) (finishMode : FinishMode)
  (chunks : list (bool * list Z)) (dest : list Z) :
  let data := concat (map snd chunks) in
  let src := flat_map stored_chunk chunks ++ [0] in
  0 <= prop <= 40 ->
  Forall stored_chunk_ok chunks ->
  (forall ch, head chunks = Some ch -> fst ch = true) ->
  Z.of_nat (length dest) = outSize -> outSize < 2 ^ 64 ->
  Z.of_nat (length data) <= outSize ->
  finishMode = FinishMode_End \/ Z.of_nat (length data) < outSize ->
  Lzma2Decode storage junk outSize src prop finishMode dest
  = Ok (true, Z.of_nat (length data), Z.of_nat (length src), FinishedWithMark)
       (data ++ drop (length data) dest).
Proof.
  intros data src [_ Hprop] Hok Hfirst Hdest Hout Hfit Hfin.
  apply Lzma2Decode_finished; [exact Hprop | lia|].
  intros d0 k Hs Hnd Hd Hk.
  eapply wp_post.
  - apply (stored_chunks_wp outSize finishMode chunks never no_fault k 0 d0);
      rewrite ?Hd; cbn [pos size mem]; try assumption; try lia.
    + destruct chunks as [|ch chunks]; [exact I | left; apply Hfirst; reflexivity].
    + pose proof (stored_chunks_length chunks Hok). subst src.
      rewrite length_app in Hk. cbn [length] in Hk. lia.
  - intros v d' (Hv & _ & Hd'). cbv beta. rewrite Hv, Hd', Hd. cbn [snd mem pos].
    fold data. subst src. rewrite length_app. cbn [length]. split; [lia|]. split; [|lia].
    reflexivity.
Qed.

Lemma Lzma2Decode_stored_chunks_witness :
  let chunks := [(true, [97; 98]); (false, [99])] in
  let data := concat (map snd chunks) in
  let src := flat_map stored_chunk chunks ++ [0] in
  Lzma2Decode zero_storage (fun _ => 0) 8 src 24 FinishMode_End (replicate 8 0)
  = Ok (true, Z.of_nat (length data), Z.of_nat (length src), FinishedWithMark)
       (data ++ drop (length data) (replicate 8 0)).
Proof.
  refine (Lzma2Decode_stored_chunks zero_storage (fun _ => 0) 8 24 FinishMode_End
            [(true, [97; 98]); (false, [99])] (replicate 8 0) _ _ _ _ _ _ _).
  - split; discriminate.
  - repeat constructor; discriminate.
  - intros ch [= <-]. reflexivity.
  - reflexivity.
  - reflexivity.
  - discriminate.
  - left. reflexivity.
Defined.

(** ** The property byte *)

(** X8: the property byte round trip.  In the state Prop the byte
    [(pb * 5 + lp) * 9 + lc], for [lc + lp <= 4] and [pb <= 4], is accepted:
    [UpdateState] returns the state Data, stores exactly [lc], [lp] and [pb],
    keeps [dicSize], and clears [needInitProp]; nothing else changes. *)
Theorem UpdateState_prop_round_trip (d : Decoder2.t) (lc_ lp_ pb_ : Z) :
  Decoder2.state d = LZMA2_STATE_PROP ->
  0 <= lc_ -> 0 <= lp_ -> lc_ + lp_ <= 4 -> 0 <= pb_ <= 4 ->
  UpdateState ((pb_ * 5 + lp_) * 9 + lc_) d
  = Ok LZMA2_STATE_DATA
      (Decoder2.set_needInitProp false
         (Decoder2.set_decoder
            (DecoderCore.set_m_properties
               {| lc := lc_; lp := lp_; pb := pb_;
                  dicSize := dicSize (DecoderCore.m_properties (Decoder2.decoder d)) |}
               (Decoder2.decoder d)) d)).
Proof.
  intros Hst Hlc Hlp Hsum Hpb.
  assert (H1 : ((pb_ * 5 + lp_) * 9 + lc_) mod 9 = lc_)
    by (rewrite Z.add_comm, Z.mod_add by lia; apply Z.mod_small; lia).
  assert (H2 : ((pb_ * 5 + lp_) * 9 + lc_) / 9 = pb_ * 5 + lp_)
    by (rewrite Z.add_comm, Z.div_add by lia; rewrite Z.div_small by lia; lia).
  assert (H3 : (pb_ * 5 + lp_) mod 5 = lp_)
    by (rewrite Z.add_comm, Z.mod_add by lia; apply Z.mod_small; lia).
  assert (H4 : (pb_ * 5 + lp_) / 5 = pb_)
    by (rewrite Z.add_comm, Z.div_add by lia; rewrite Z.div_small by lia; lia).
  unfold UpdateState. unfold bind at 1, get at 1. rewrite Hst. cbv zeta.
  replace (9 * 5 * 5 <=? (pb_ * 5 + lp_) * 9 + lc_) with false
    by (symmetry; apply Z.leb_gt; lia).
  rewrite H1, H2, H3, H4.
  replace (LC_PLUS_LP_MAX <? lc_ + lp_) with false
    by (symmetry; apply Z.ltb_ge; unfold LC_PLUS_LP_MAX; lia).
  destruct d as [core ps us st ctl nid nis nip]. destruct core. reflexivity.
Qed.

Lemma UpdateState_prop_round_trip_witness :
  UpdateState ((2 * 5 + 0) * 9 + 3) (Decoder2.set_state LZMA2_STATE_PROP zero_storage)
  = Ok LZMA2_STATE_DATA
      (Decoder2.set_needInitProp false
         (Decoder2.set_decoder
            (DecoderCore.set_m_properties
               {| lc := 3; lp := 0; pb := 2;
                  dicSize := dicSize (DecoderCore.m_properties
                               (Decoder2.decoder
                                  (Decoder2.set_state LZMA2_STATE_PROP zero_storage))) |}
               (Decoder2.decoder (Decoder2.set_state LZMA2_STATE_PROP zero_storage)))
            (Decoder2.set_state LZMA2_STATE_PROP zero_storage))).
Proof.
  refine (UpdateState_prop_round_trip (Decoder2.set_state LZMA2_STATE_PROP zero_storage)
            3 0 2 _ _ _ _ _).
  - reflexivity.
  - discriminate.
  - discriminate.
  - discriminate.
  - split; discriminate.
Defined.

(** ** [WriteRem]: the rest of a match *)

Lemma zlookup_insert_same {A} (l : list A) i v a :
  zlookup l i = Some a -> zlookup (<[Z.to_nat i := v]> l) i = Some v.
Proof.
  intros H. pose proof (zlookup_Some_bound _ _ _ H) as Hb. unfold zlookup.
  destruct (Z.ltb_spec i 0); [lia|]. apply list_lookup_insert_eq. lia.
Qed.

Lemma zlookup_insert_other {A} (l : list A) i j v :
  0 <= i -> i <> j -> zlookup (<[Z.to_nat i := v]> l) j = zlookup l j.
Proof.
  intros Hi Hne. unfold zlookup. destruct (Z.ltb_spec j 0); [reflexivity|].
  apply list_lookup_insert_ne. lia.
Qed.

(** The copy loop of [WriteRem] is the copy of LZ77, overlap included: the
    byte written at [dicPos + j] is the byte [rep0] positions back (around
    the end of the buffer when [dicPos + j < rep0]), as it is when it is
    read: the new one when it lies below [dicPos + j], the old one
    otherwise. *)
Lemma WriteRem_loop_spec len rep0 sz dic dicPos dic' dicPos' :
  0 <= dicPos -> dicPos + Z.of_nat len < 2 ^ 64 ->
  WriteRem_loop len rep0 sz dic dicPos = inr (dic', dicPos') ->
  dicPos' = dicPos + Z.of_nat len /\ length dic' = length dic /\
  (forall i, i < dicPos \/ dicPos + Z.of_nat len <= i -> zlookup dic' i = zlookup dic i) /\
  (forall j, 0 <= j < Z.of_nat len ->
     let i := usize (dicPos + j - rep0 + (if dicPos + j <? rep0 then sz else 0)) in
     zlookup dic' (dicPos + j) = if i <? dicPos + j then zlookup dic' i else zlookup dic i).
Proof.
  revert dic dicPos. induction len as [|n IH]; intros dic dicPos Hp Hlen H.
  - cbn in H. inversion H; subst. split; [lia|]. split; [reflexivity|].
    split; [reflexivity | intros j Hj; lia].
  - cbn [WriteRem_loop] in H. cbv zeta in H.
    set (i0 := usize (dicPos - rep0 + (if dicPos <? rep0 then sz else 0))) in *.
    destruct (_ && _); [|discriminate H].
    destruct (zlookup dic i0) as [b|] eqn:Hb; [|discriminate H].
    destruct (_ && _); [|discriminate H].
    destruct (zinsert dic dicPos b) as [dic1|] eqn:Hins; [|discriminate H].
    unfold zinsert in Hins. destruct (zlookup dic dicPos) as [a|] eqn:Ha; [|discriminate Hins].
    inversion Hins; subst dic1. clear Hins.
    rewrite usize_small in H by lia.
    apply IH in H; [|lia..]. destruct H as (Hpos & Hl & Hfr & Hcp).
    split; [lia|]. split; [rewrite Hl; apply length_insert|].
    assert (Hframe : forall i, i < dicPos \/ dicPos + Z.of_nat (S n) <= i ->
                               zlookup dic' i = zlookup dic i).
    { intros i Hi. rewrite Hfr by lia. apply zlookup_insert_other; lia. }
    split; [exact Hframe|].
    intros j Hj. cbv zeta.
    destruct (Z.eq_dec j 0) as [-> | Hj0].
    + rewrite Z.add_0_r. fold i0. rewrite Hfr by lia.
      rewrite (zlookup_insert_same _ _ _ _ Ha).
      destruct (Z.ltb_spec i0 dicPos) as [Hlt | Hge]; [|symmetry; exact Hb].
      rewrite Hframe by lia. symmetry. exact Hb.
    + specialize (Hcp (j - 1) ltac:(lia)). cbv zeta in Hcp.
      replace (dicPos + 1 + (j - 1)) with (dicPos + j) in Hcp by lia.
      rewrite Hcp.
      destruct (Z.ltb_spec (usize (dicPos + j - rep0 + (if dicPos + j <? rep0 then sz else 0)))
                  (dicPos + j)) as [Hlt | Hge]; [reflexivity|].
      apply zlookup_insert_other; lia.
Qed.

Lemma WriteRem_loop_total len rep0 sz dic dicPos :
  Z.of_nat (length dic) = sz -> 0 <= rep0 <= sz -> 0 <= dicPos ->
  dicPos + Z.of_nat len <= sz -> sz < 2 ^ 64 ->
  exists dic' dicPos', WriteRem_loop len rep0 sz dic dicPos = inr (dic', dicPos').
Proof.
  revert dic dicPos. induction len as [|n IH]; intros dic dicPos Hl Hr Hp Hfit Hsz.
  - eexists. eexists. reflexivity.
  - cbn [WriteRem_loop]. cbv zeta.
    set (i0 := usize (dicPos - rep0 + (if dicPos <? rep0 then sz else 0))).
    assert (Hi0 : 0 <= i0 < sz).
    { subst i0. destruct (Z.ltb_spec dicPos rep0); rewrite usize_small by lia; lia. }
    replace ((0 <=? i0) && (i0 <? sz)) with true
      by (symmetry; apply andb_true_iff; split; [apply Z.leb_le | apply Z.ltb_lt]; lia).
    destruct (zlookup_Some_lt dic i0 ltac:(lia)) as [b ->].
    replace ((0 <=? dicPos) && (dicPos <? sz)) with true
      by (symmetry; apply andb_true_iff; split; [apply Z.leb_le | apply Z.ltb_lt]; lia).
    destruct (zlookup_Some_lt dic dicPos ltac:(lia)) as [a Ha].
    rewrite (zinsert_Some _ _ _ _ Ha). rewrite usize_small by lia.
    apply IH; [rewrite length_insert; exact Hl | exact Hr | lia | lia | exact Hsz].
Qed.

(** X9: [WriteRem] with a match pending ([0 < remainLen < 274]), in a
    dictionary of [size] bytes with [rep0 <= size] and [pos <= limit <=
    size]: it returns, having copied [len = min (remainLen, limit - pos)]
    bytes: [pos] and [processedPos] advance by [len], [remainLen] falls by
    [len], the dictionary keeps its length and its bytes outside
    [pos .. pos + len - 1], and each byte written is the byte [rep0]
    positions back (around the end of the buffer when the position is below
    [rep0]), the new one when that lies below the position written and the
    old one otherwise. *)
Theorem WriteRem_copies_rest_of_match (limit : Z) (d : DecoderCore.t) :
  let dic := DecoderCore.m_dic d in
  let rep0 := reps_0 (DecoderCore.reps d) in
  let len := Z.min (DecoderCore.remainLen d) (limit - pos dic) in
  0 < DecoderCore.remainLen d < kMatchSpecLenStart ->
  Z.of_nat (length (mem dic)) = size dic -> 0 <= rep0 <= size dic ->
  0 <= pos dic <= limit -> limit <= size dic < 2 ^ 64 ->
  exists d',
    WriteRem limit d = Ok tt d' /\
    pos (DecoderCore.m_dic d') = pos dic + len /\
    DecoderCore.remainLen d' = DecoderCore.remainLen d - len /\
    DecoderCore.processedPos d' = u32 (DecoderCore.processedPos d + len) /\
    length (mem (DecoderCore.m_dic d')) = length (mem dic) /\
    (forall i, i < pos dic \/ pos dic + len <= i ->
               zlookup (mem (DecoderCore.m_dic d')) i = zlookup (mem dic) i) /\
    (forall j, 0 <= j < len ->
       let i := usize (pos dic + j - rep0 + (if pos dic + j <? rep0 then size dic else 0)) in
       zlookup (mem (DecoderCore.m_dic d')) (pos dic + j)
       = if i <? pos dic + j then zlookup (mem (DecoderCore.m_dic d')) i
         else zlookup (mem dic) i).
Proof.
  intros dic rep0 len Hrem Hlen Hrep Hpos Hlim. change kMatchSpecLenStart with 274 in Hrem.
  unfold WriteRem. unfold bind at 1, get at 1.
  replace (DecoderCore.remainLen d =? 0) with false by (symmetry; apply Z.eqb_neq; lia).
  replace (DecoderCore.remainLen d <? kMatchSpecLenStart) with true
    by (symmetry; apply Z.ltb_lt; change kMatchSpecLenStart with 274; lia).
  cbn [negb andb]. cbv zeta. fold dic. fold rep0.
  set (len0 := if usize (limit - pos dic) <? DecoderCore.remainLen d
               then u32 (usize (limit - pos dic)) else DecoderCore.remainLen d).
  assert (Hlen0 : len0 = len).
  { subst len0 len. rewrite usize_small by lia.
    destruct (Z.ltb_spec (limit - pos dic) (DecoderCore.remainLen d));
      [rewrite u32_small by lia|]; lia. }
  clearbody len0. subst len0.
  assert (Hl0 : 0 <= len < 274) by (subst len; lia).
  destruct (WriteRem_loop_total (Z.to_nat len) rep0 (size dic) (mem dic) (pos dic))
    as (dic' & pos' & Hloop); [exact Hlen | exact Hrep | lia | lia | lia|].
  pose proof (WriteRem_loop_spec (Z.to_nat len) rep0 (size dic) (mem dic) (pos dic) dic' pos'
                ltac:(lia) ltac:(lia) Hloop)
    as (Hp' & Hl' & Hfr & Hcp).
  rewrite Z2Nat.id in Hp', Hfr, Hcp by lia.
  assert (Hu : u32 (DecoderCore.remainLen d - len) = DecoderCore.remainLen d - len)
    by (apply u32_small; subst len; lia).
  destruct (_ && _); unfold bind, modify; rewrite Hloop; eexists; (split; [reflexivity|]);
    cbn [DecoderCore.set_pos DecoderCore.set_mem DecoderCore.set_remainLen
         DecoderCore.set_processedPos DecoderCore.set_checkDicSize DecoderCore.m_dic
         DecoderCore.remainLen DecoderCore.processedPos mem pos];
    (split; [exact Hp'|]); (split; [exact Hu|]); (split; [reflexivity|]);
    (split; [exact Hl'|]); (split; [exact Hfr | exact Hcp]).
Qed.

Lemma WriteRem_copies_witness :
  let d := DecoderCore.set_remainLen 3
             (DecoderCore.set_reps {| reps_0 := 1; reps_1 := 1; reps_2 := 1; reps_3 := 1 |}
                example_core) in
  let dic := DecoderCore.m_dic d in
  let rep0 := reps_0 (DecoderCore.reps d) in
  let len := Z.min (DecoderCore.remainLen d) (8 - pos dic) in
  exists d',
    WriteRem 8 d = Ok tt d' /\
    pos (DecoderCore.m_dic d') = pos dic + len /\
    DecoderCore.remainLen d' = DecoderCore.remainLen d - len /\
    DecoderCore.processedPos d' = u32 (DecoderCore.processedPos d + len) /\
    length (mem (DecoderCore.m_dic d')) = length (mem dic) /\
    (forall i, i < pos dic \/ pos dic + len <= i ->
               zlookup (mem (DecoderCore.m_dic d')) i = zlookup (mem dic) i) /\
    (forall j, 0 <= j < len ->
       let i := usize (pos dic + j - rep0 + (if pos dic + j <? rep0 then size dic else 0)) in
       zlookup (mem (DecoderCore.m_dic d')) (pos dic + j)
       = if i <? pos dic + j then zlookup (mem (DecoderCore.m_dic d')) i
         else zlookup (mem dic) i).
Proof.
  refine (WriteRem_copies_rest_of_match 8
            (DecoderCore.set_remainLen 3
               (DecoderCore.set_reps {| reps_0 := 1; reps_1 := 1; reps_2 := 1; reps_3 := 1 |}
                  example_core)) _ _ _ _ _).
  - split; reflexivity.
  - reflexivity.
  - split; discriminate.
  - split; discriminate.
  - split; [discriminate | reflexivity].
Defined.

(** ** [DecodeReal2]: the contract on the dictionary across its slices *)

(** [l] is [l0] but for the positions from [p] up to [lim]. *)
Definition mem_frame (p lim : Z) (l0 l : list Z) : Prop :=
  length l = length l0 /\ take (Z.to_nat p) l = take (Z.to_nat p) l0 /\
  drop (Z.to_nat lim) l = drop (Z.to_nat lim) l0.

Lemma mem_frame_refl p lim l : mem_frame p lim l l.
Proof. repeat split. Qed.

Lemma take_le_eq {A} (n m : nat) (l l' : list A) :
  (n <= m)%nat -> take m l = take m l' -> take n l = take n l'.
Proof.
  intros Hn H. rewrite <- (Nat.min_l n m Hn), <- !take_take, H. reflexivity.
Qed.

Lemma drop_ge_eq {A} (n m : nat) (l l' : list A) :
  (n <= m)%nat -> drop n l = drop n l' -> drop m l = drop m l'.
Proof.
  intros Hn H. replace m with (n + (m - n))%nat by lia. rewrite <- !drop_drop, H. reflexivity.
Qed.

Lemma mem_frame_weaken p p' lim lim' l0 l :
  p' <= p -> lim <= lim' -> mem_frame p lim l0 l -> mem_frame p' lim' l0 l.
Proof.
  intros Hp Hl (H1 & H2 & H3). split; [exact H1|]. split.
  - eapply take_le_eq; [|exact H2]. lia.
  - eapply drop_ge_eq; [|exact H3]. lia.
Qed.

Lemma mem_frame_trans p0 p1 lim1 lim2 l0 l1 l2 :
  p0 <= p1 -> lim1 <= lim2 ->
  mem_frame p0 lim1 l0 l1 -> mem_frame p1 lim2 l1 l2 -> mem_frame p0 lim2 l0 l2.
Proof.
  intros Hp Hl (H1 & H2 & H3) (K1 & K2 & K3). split; [congruence|]. split.
  - rewrite <- H2. eapply take_le_eq; [|exact K2]. lia.
  - rewrite K3. eapply drop_ge_eq; [|exact H3]. lia.
Qed.

Lemma mem_frame_lookup p lim l0 l i :
  0 <= p -> 0 <= lim -> mem_frame p lim l0 l -> i < p \/ lim <= i ->
  zlookup l i = zlookup l0 i.
Proof. intros Hp Hl (_ & H2 & H3) Hi. exact (frame_lookup l0 l p lim i Hp Hl H2 H3 Hi). Qed.

(** What the decoding functions leave alone, the flags and the properties
    apart: the size of the dictionary and the look-ahead buffer. *)
Definition core_rest (d : DecoderCore.t) : Z * Z * list Z :=
  (size (DecoderCore.m_dic d), DecoderCore.tempBufSize d, DecoderCore.tempBuf d).

(** The window: [checkDicSize] is 0 until [processedPos] reaches [dicSize],
    and [dicSize] from then on. *)
Definition window_ok (d : DecoderCore.t) : Prop :=
  let p := DecoderCore.m_properties d in
  0 <= dicSize p < 2 ^ 32 /\
  (DecoderCore.checkDicSize d = 0 \/ DecoderCore.checkDicSize d = dicSize p) /\
  (DecoderCore.checkDicSize d = 0 -> DecoderCore.processedPos d < dicSize p).

(** How a call leaves [remainLen]: no match is pending, or one that was cut
    at [limit], or the end marker was met. *)
Definition remain_ok (limit : Z) (d : DecoderCore.t) : Prop :=
  DecoderCore.remainLen d = 0 \/
  (0 < DecoderCore.remainLen d < kMatchSpecLenStart /\ pos (DecoderCore.m_dic d) = limit) \/
  kMatchSpecLenStart <= DecoderCore.remainLen d.

(** [DecodeReal] on a ready decoder, with the input budget ([Gi]) and the
    contract on the dictionary ([Gd]). *)
Lemma DecodeReal_contract inp limit bufLimit (Gi Gd : Prop) d :
  core_ok d -> core_ready d ->
  (Gi -> 0 <= DecoderCore.buf d /\
         Z.max (DecoderCore.buf d) bufLimit + 20 <= Z.of_nat (length inp)) ->
  (Gd -> dic_contract limit d /\
         (pos (DecoderCore.m_dic d) < limit \/ must_match inp d (load_locals d))) ->
  wp (DecodeReal inp limit bufLimit)
     (fun _ d' =>
        (core_ok d' /\ core_flags d' = core_flags d) /\ core_rest d' = core_rest d /\
        DecoderCore.checkDicSize d' = DecoderCore.checkDicSize d /\
        (Gi -> 0 <= DecoderCore.buf d' <= Z.max (DecoderCore.buf d) bufLimit + 20) /\
        (Gd -> dic_contract limit d' /\
               mem_frame (pos (DecoderCore.m_dic d)) (pos (DecoderCore.m_dic d'))
                 (mem (DecoderCore.m_dic d)) (mem (DecoderCore.m_dic d')) /\
               pos (DecoderCore.m_dic d) <= pos (DecoderCore.m_dic d') /\
               (pos (DecoderCore.m_dic d) < pos (DecoderCore.m_dic d') \/
                kMatchSpecLenStart <= DecoderCore.remainLen d') /\
               remain_ok limit d'))
     (fun _ d' =>
        (core_ok d' /\ core_flags d' = core_flags d) /\ core_rest d' = core_rest d /\
        (Gd -> pos (DecoderCore.m_dic d') = pos (DecoderCore.m_dic d) /\
               mem_frame (pos (DecoderCore.m_dic d)) limit
                 (mem (DecoderCore.m_dic d)) (mem (DecoderCore.m_dic d'))))
     (walk_fault Gi Gd) d.
Proof.
  intros Hok Hready HGi HGd.
  assert (H1 := DecodeReal_walk inp limit bufLimit Gi Gd d Hok Hready HGi HGd).
  assert (H2 := DecodeReal_ok inp limit bufLimit d Hok Hready).
  unfold DecodeReal, wp in *.
  destruct (DecodeReal_loop inp d limit bufLimit (load_locals d)) as [[] r | e r | f].
  - destruct H1 as (Hd & Hb & Hpp & Hr & Hrl).
    split; [exact H2|]. split; [reflexivity|]. split; [reflexivity|]. split; [exact Hb|].
    intros g. destruct (HGd g) as [(Hlen & Hp & Hlim & Hbig & Hchk & _) _].
    destruct Hd as [[_ Hfr] Hd]. destruct (Hfr g) as [Ht Hdr]. destruct (Hd g) as [Hl Hp'].
    destruct (Hr g) as (Hreps & Hcp & Htl). unfold dicBufSize in *.
    cbn [store_locals DecoderCore.m_dic DecoderCore.checkDicSize DecoderCore.reps
         DecoderCore.processedPos DecoderCore.remainLen mem size pos
         reps_0 reps_1 reps_2 reps_3].
    split.
    { unfold dic_contract.
      cbn [store_locals DecoderCore.m_dic DecoderCore.checkDicSize DecoderCore.reps
           DecoderCore.processedPos mem size pos reps_0 reps_1 reps_2 reps_3].
      split; [exact Hl|]. split; [lia|]. split; [exact Hlim|]. split; [exact Hbig|].
      split; [exact Hchk|]. split; [exact Hreps | exact Hcp]. }
    split; [split; [lia | split; [exact Ht | exact Htl]]|].
    split; [lia|]. change kMatchSpecLenStart with 274.
    split; [exact (Hpp g) | exact (Hrl g)].
  - split; [exact H2|]. split; [reflexivity|]. intros g. split; [reflexivity|].
    destruct (HGd g) as [(Hlen & _) _]. destruct H1 as [[_ Hfr] Hd].
    destruct (Hfr g) as [Ht Hdr]. destruct (Hd g) as [Hl _]. unfold dicBufSize in *.
    change (mem (DecoderCore.m_dic (store_arrays r d))) with (L.dic r).
    split; [lia | split; [exact Ht | exact Hdr]].
  - exact H1.
Qed.

(** The contract of [dic_contract] without the rep distances, which
    [InitStateReal] sets. *)
Definition dic_base (limit : Z) (d : DecoderCore.t) : Prop :=
  let dic := DecoderCore.m_dic d in
  Z.of_nat (length (mem dic)) = size dic /\
  0 <= pos dic <= limit /\ limit <= size dic /\ size dic + 273 < 2 ^ 64 /\
  (0 <= DecoderCore.checkDicSize d <= size dic /\ DecoderCore.checkDicSize d < 2 ^ 32) /\
  (DecoderCore.checkDicSize d = 0 ->
   0 <= DecoderCore.processedPos d <= pos dic /\ DecoderCore.processedPos d < 2 ^ 32).

Definition reps_in (d : DecoderCore.t) : Prop :=
  let sz := size (DecoderCore.m_dic d) in
  1 <= reps_0 (DecoderCore.reps d) <= sz /\ 1 <= reps_1 (DecoderCore.reps d) <= sz /\
  1 <= reps_2 (DecoderCore.reps d) <= sz /\ 1 <= reps_3 (DecoderCore.reps d) <= sz.

Lemma dic_contract_iff limit d : dic_contract limit d <-> dic_base limit d /\ reps_in d.
Proof. unfold dic_contract, dic_base, reps_in. cbv zeta. tauto. Qed.

(** What [WriteRem] leaves alone. *)
Definition core_rc (d : DecoderCore.t) :=
  (DecoderCore.buf d, DecoderCore.m_range d, DecoderCore.m_code d, DecoderCore.m_probs d,
   DecoderCore.state d, DecoderCore.reps d, DecoderCore.trace d).

Lemma WriteRem_eq limit d :
  WriteRem limit d =
  if negb (DecoderCore.remainLen d =? 0) && (DecoderCore.remainLen d <? kMatchSpecLenStart) then
    let dic := DecoderCore.m_dic d in
    let len := if usize (limit - pos dic) <? DecoderCore.remainLen d
               then u32 (usize (limit - pos dic)) else DecoderCore.remainLen d in
    match WriteRem_loop (Z.to_nat len) (reps_0 (DecoderCore.reps d)) (size dic) (mem dic)
            (pos dic) with
    | inl f => Fault f
    | inr (dic', dicPos') =>
        Ok tt (DecoderCore.set_pos dicPos' (DecoderCore.set_mem dic'
                 (DecoderCore.set_remainLen (u32 (DecoderCore.remainLen d - len))
                    (DecoderCore.set_processedPos (u32 (DecoderCore.processedPos d + len))
                       (if (DecoderCore.checkDicSize d =? 0) &&
                           (u32 (dicSize (DecoderCore.m_properties d)
                                 - DecoderCore.processedPos d) <=? len)
                        then DecoderCore.set_checkDicSize
                               (dicSize (DecoderCore.m_properties d)) d
                        else d)))))
    end
  else Ok tt d.
Proof.
  unfold WriteRem. unfold bind at 1, get at 1.
  destruct (_ && _); [|reflexivity]. cbv zeta.
  destruct ((DecoderCore.checkDicSize d =? 0) && _);
    unfold bind, modify, ret, fail; destruct (WriteRem_loop _ _ _ _ _) as [f | [dic' dicPos']];
    reflexivity.
Qed.

Lemma WriteRem_idle limit d :
  DecoderCore.remainLen d = 0 \/ kMatchSpecLenStart <= DecoderCore.remainLen d ->
  WriteRem limit d = Ok tt d.
Proof.
  intros H. rewrite WriteRem_eq.
  destruct H as [-> | H]; [reflexivity|].
  replace (DecoderCore.remainLen d <? kMatchSpecLenStart) with false
    by (symmetry; apply Z.ltb_ge; exact H).
  rewrite andb_false_r. reflexivity.
Qed.

Lemma mem_frame_insert i v l :
  0 <= i -> mem_frame i (i + 1) l (<[Z.to_nat i := v]> l).
Proof.
  intros Hi. split; [apply length_insert|]. split.
  - apply take_insert_ge. lia.
  - apply drop_insert_lt. lia.
Qed.

Lemma WriteRem_loop_frame len rep0 sz dic dicPos dic' dicPos' :
  0 <= dicPos -> dicPos + Z.of_nat len < 2 ^ 64 ->
  WriteRem_loop len rep0 sz dic dicPos = inr (dic', dicPos') ->
  dicPos' = dicPos + Z.of_nat len /\ mem_frame dicPos dicPos' dic dic'.
Proof.
  revert dic dicPos. induction len as [|n IH]; intros dic dicPos Hp Hlen H.
  - cbn in H. inversion H; subst. split; [lia | apply mem_frame_refl].
  - cbn [WriteRem_loop] in H. cbv zeta in H.
    destruct (_ && _); [|discriminate H].
    destruct (zlookup dic _) as [b|]; [|discriminate H].
    destruct (_ && _); [|discriminate H].
    destruct (zinsert dic dicPos b) as [dic1|] eqn:Hins; [|discriminate H].
    unfold zinsert in Hins. destruct (zlookup dic dicPos) as [a|]; [|discriminate Hins].
    inversion Hins; subst dic1. clear Hins.
    rewrite usize_small in H by lia.
    apply IH in H; [|lia..]. destruct H as [Hpos Hfr].
    split; [lia|].
    eapply mem_frame_trans; [| |apply (mem_frame_insert dicPos b dic Hp) | exact Hfr]; lia.
Qed.

Lemma WriteRem_loop_fault len rep0 sz dic dicPos f :
  WriteRem_loop len rep0 sz dic dicPos = inl f -> f = DicRead \/ f = DicWrite.
Proof.
  revert dic dicPos. induction len as [|n IH]; intros dic dicPos H; [discriminate H|].
  cbn [WriteRem_loop] in H. cbv zeta in H.
  destruct (_ && _); [|inversion H; auto].
  destruct (zlookup dic _) as [b|]; [|inversion H; auto].
  destruct (_ && _); [|inversion H; auto].
  destruct (zinsert dic dicPos b) as [dic1|]; [|inversion H; auto].
  exact (IH _ _ H).
Qed.

(** [WriteRem] under the contract: it copies inside the buffer, and a rest
    of the match is left at [limit] only. *)
Lemma WriteRem_contract limit (Gi Gd : Prop) d :
  core_ok d ->
  (Gd -> dic_base limit d /\ window_ok d /\ 0 <= DecoderCore.remainLen d /\
         (0 < DecoderCore.remainLen d < kMatchSpecLenStart ->
          0 <= reps_0 (DecoderCore.reps d) <= size (DecoderCore.m_dic d))) ->
  wp (WriteRem limit)
     (fun _ d' =>
        (core_ok d' /\ core_flags d' = core_flags d) /\ core_rest d' = core_rest d /\
        core_rc d' = core_rc d /\
        (Gd -> dic_base limit d' /\ window_ok d' /\
               mem_frame (pos (DecoderCore.m_dic d)) (pos (DecoderCore.m_dic d'))
                 (mem (DecoderCore.m_dic d)) (mem (DecoderCore.m_dic d')) /\
               pos (DecoderCore.m_dic d) <= pos (DecoderCore.m_dic d') /\
               (DecoderCore.remainLen d' = 0 \/
                (0 < DecoderCore.remainLen d' < kMatchSpecLenStart /\
                 pos (DecoderCore.m_dic d') = limit) \/
                (kMatchSpecLenStart <= DecoderCore.remainLen d' /\ d' = d))) /\
        (DecoderCore.remainLen d = 0 \/ kMatchSpecLenStart <= DecoderCore.remainLen d ->
         d' = d))
     never (walk_fault Gi Gd) d.
Proof.
  intros Hok HGd. assert (Hcore := WriteRem_ok limit d Hok).
  unfold wp in *. rewrite WriteRem_eq in *. change kMatchSpecLenStart with 274 in *.
  destruct (negb (DecoderCore.remainLen d =? 0) && (DecoderCore.remainLen d <? 274)) eqn:Eg.
  - cbv zeta in *. apply andb_true_iff in Eg. destruct Eg as [Eg1 Eg2].
    apply negb_true_iff, Z.eqb_neq in Eg1. apply Z.ltb_lt in Eg2.
    set (dic := DecoderCore.m_dic d) in *.
    set (len := if usize (limit - pos dic) <? DecoderCore.remainLen d
                then u32 (usize (limit - pos dic)) else DecoderCore.remainLen d) in *.
    set (d1 := if (DecoderCore.checkDicSize d =? 0) && _ then _ else d) in *.
    assert (Hd1 : DecoderCore.m_dic d1 = dic /\ DecoderCore.m_properties d1
                  = DecoderCore.m_properties d /\ core_rest d1 = core_rest d /\
                  core_rc d1 = core_rc d /\ DecoderCore.remainLen d1 = DecoderCore.remainLen d).
    { subst d1. destruct (_ && _); repeat split. }
    destruct (WriteRem_loop _ _ _ _ _) as [f | [dic' dicPos']] eqn:Hloop.
    + assert (Hng : ~ Gd).
      { intros g.
        destruct (HGd g) as ((Hlen & Hp & Hlim & Hbig & Hchk & Hpp) & _ & Hr0 & Hrep).
        fold dic in Hlen, Hp, Hlim, Hbig, Hrep.
        assert (Hlen0 : len = Z.min (DecoderCore.remainLen d) (limit - pos dic)).
        { subst len. rewrite usize_small by lia.
          destruct (Z.ltb_spec (limit - pos dic) (DecoderCore.remainLen d));
            [rewrite u32_small by lia|]; lia. }
        destruct (WriteRem_loop_total (Z.to_nat len) (reps_0 (DecoderCore.reps d)) (size dic)
                    (mem dic) (pos dic) Hlen ltac:(apply Hrep; lia) ltac:(lia) ltac:(lia)
                    ltac:(lia)) as (dic' & pos' & Hloop').
        congruence. }
      destruct (WriteRem_loop_fault _ _ _ _ _ _ Hloop) as [-> | ->];
        [left; split; [exact Hng | reflexivity]
        | right; right; split; [exact Hng | left; reflexivity]].
    + split; [exact Hcore|]. split; [apply Hd1|]. split; [apply Hd1|].
      split; [|intros [H | H]; lia].
      intros g. destruct (HGd g) as ((Hlen & Hp & Hlim & Hbig & Hchk & Hpp) & (Hds & HK & HJ) & Hr0 & Hrep).
      fold dic in Hlen, Hp, Hlim, Hbig, Hchk, Hpp, Hrep.
      assert (Hlen0 : len = Z.min (DecoderCore.remainLen d) (limit - pos dic)).
      { subst len. rewrite usize_small by lia.
        destruct (Z.ltb_spec (limit - pos dic) (DecoderCore.remainLen d));
          [rewrite u32_small by lia|]; lia. }
      assert (Hl0 : 0 <= len < 274) by lia.
      pose proof Hloop as Hfr. apply WriteRem_loop_frame in Hfr; [|lia..].
      destruct Hfr as [Hp' Hfr]. rewrite Z2Nat.id in Hp' by lia.
      clear Hd1 Hcore. destruct Hfr as (Hf1 & Hf2 & Hf3).
      assert (Hu : u32 (DecoderCore.remainLen d - len) = DecoderCore.remainLen d - len)
        by (apply u32_small; lia).
      pose proof (u32_range (DecoderCore.processedPos d + len)) as Hur.
      assert (Hchk1 : (DecoderCore.checkDicSize d1 = DecoderCore.checkDicSize d /\
                       (DecoderCore.checkDicSize d = 0 ->
                        DecoderCore.processedPos d + len < dicSize (DecoderCore.m_properties d)))
                      \/ (DecoderCore.checkDicSize d1 = dicSize (DecoderCore.m_properties d) /\
                          DecoderCore.checkDicSize d = 0 /\
                          0 < dicSize (DecoderCore.m_properties d) <= size dic)).
      { subst d1. destruct (Z.eqb_spec (DecoderCore.checkDicSize d) 0) as [Hc | Hc]; cbn [andb].
        - specialize (Hpp Hc). specialize (HJ Hc).
          rewrite (u32_small (dicSize _ - _)) by lia.
          destruct (Z.leb_spec (dicSize (DecoderCore.m_properties d)
                                - DecoderCore.processedPos d) len);
            [right; cbn; lia | left; split; [reflexivity | lia]].
        - left. split; [reflexivity | intros; contradiction]. }
      assert (Hprops1 : DecoderCore.m_properties d1 = DecoderCore.m_properties d)
        by (subst d1; destruct (_ && _); reflexivity).
      assert (Hdic1 : DecoderCore.m_dic d1 = dic) by (subst d1; destruct (_ && _); reflexivity).
      clearbody d1.
      unfold dic_base, window_ok.
      cbn [DecoderCore.set_pos DecoderCore.set_mem DecoderCore.set_m_dic
           DecoderCore.set_remainLen
           DecoderCore.set_processedPos DecoderCore.m_dic DecoderCore.checkDicSize
           DecoderCore.processedPos DecoderCore.remainLen DecoderCore.m_properties
           mem size pos].
      rewrite Hprops1, Hdic1.
      split.
      { split; [lia|]. split; [lia|]. split; [lia|]. split; [lia|].
        destruct Hchk1 as [[-> Hc1] | (-> & Hc1 & Hc2)].
        - split; [exact Hchk|]. intros Hc. specialize (Hpp Hc). specialize (Hc1 Hc).
          rewrite u32_small by lia. lia.
        - split; [lia|]. intros Hc. lia. }
      split.
      { split; [exact Hds|]. destruct Hchk1 as [[-> Hc1] | (-> & Hc1 & Hc2)].
        - split; [exact HK|]. intros Hc. specialize (Hpp Hc). specialize (Hc1 Hc).
          rewrite u32_small by lia. lia.
        - split; [right; reflexivity | intros Hc; lia]. }
      split; [split; [exact Hf1 | split; [exact Hf2 | exact Hf3]]|].
      split; [lia|]. rewrite Hu.
      destruct (Z.eq_dec len (DecoderCore.remainLen d)); [left; lia | right; left; lia].
  - split; [exact Hcore|]. split; [reflexivity|]. split; [reflexivity|].
    split; [|reflexivity].
    intros g. destruct (HGd g) as (Hb & Hw & Hr0 & _).
    split; [exact Hb|]. split; [exact Hw|]. split; [apply mem_frame_refl|]. split; [lia|].
    apply andb_false_iff in Eg. destruct Eg as [Eg | Eg].
    + left. apply negb_false_iff, Z.eqb_eq in Eg. exact Eg.
    + right. right. apply Z.ltb_ge in Eg. split; [exact Eg | reflexivity].
Qed.

(** The loop of [DecodeReal2]: each slice ends where the window changes or
    at [limit]; [WriteRem] finishes a match that a slice cut. *)
Lemma DecodeReal2_walk inp limit bufLimit (Gi Gd : Prop) d :
  core_ok d -> core_ready d ->
  (Gi -> 0 <= DecoderCore.buf d /\
         Z.max (DecoderCore.buf d) bufLimit + 20 <= Z.of_nat (length inp)) ->
  (Gd -> dic_contract limit d /\ window_ok d /\
         (pos (DecoderCore.m_dic d) < limit \/ must_match inp d (load_locals d))) ->
  wp (DecodeReal2 inp limit bufLimit)
     (fun _ d' =>
        (core_ok d' /\ core_flags d' = core_flags d) /\ core_rest d' = core_rest d /\
        (Gi -> 0 <= DecoderCore.buf d' <= Z.max (DecoderCore.buf d) bufLimit + 20) /\
        (Gd -> dic_contract limit d' /\ window_ok d' /\
               mem_frame (pos (DecoderCore.m_dic d)) (pos (DecoderCore.m_dic d'))
                 (mem (DecoderCore.m_dic d)) (mem (DecoderCore.m_dic d')) /\
               pos (DecoderCore.m_dic d) <= pos (DecoderCore.m_dic d') /\
               (pos (DecoderCore.m_dic d) < pos (DecoderCore.m_dic d') \/
                DecoderCore.remainLen d' = kMatchSpecLenStart) /\
               (DecoderCore.remainLen d' = 0 \/
                (0 < DecoderCore.remainLen d' < kMatchSpecLenStart /\
                 pos (DecoderCore.m_dic d') = limit) \/
                DecoderCore.remainLen d' = kMatchSpecLenStart)))
     (fun _ d' =>
        (core_ok d' /\ core_flags d' = core_flags d) /\ core_rest d' = core_rest d /\
        (Gd -> pos (DecoderCore.m_dic d) <= pos (DecoderCore.m_dic d') <= limit /\
               mem_frame (pos (DecoderCore.m_dic d)) limit
                 (mem (DecoderCore.m_dic d)) (mem (DecoderCore.m_dic d'))))
     (walk_fault Gi Gd) d.
Proof.
  intros Hok Hready HGi HGd. unfold DecodeReal2. change kMatchSpecLenStart with 274.
  apply wp_bind, wp_get, wp_bind.
  set (QE := fun (_ : exn) d' =>
        (core_ok d' /\ core_flags d' = core_flags d) /\ core_rest d' = core_rest d /\
        (Gd -> pos (DecoderCore.m_dic d) <= pos (DecoderCore.m_dic d') <= limit /\
               mem_frame (pos (DecoderCore.m_dic d)) limit
                 (mem (DecoderCore.m_dic d)) (mem (DecoderCore.m_dic d')))).
  eapply wp_post.
  - apply wp_do_while_fuel_G
      with (G := Gd) (QE := QE)
           (I := fun _ s =>
                   (core_ok s /\ core_flags s = core_flags d) /\ core_rest s = core_rest d /\
                   (Gi -> 0 <= DecoderCore.buf s /\
                          Z.max (DecoderCore.buf s) bufLimit
                          <= Z.max (DecoderCore.buf d) bufLimit) /\
                   (Gd -> dic_contract limit s /\ window_ok s /\
                          mem_frame (pos (DecoderCore.m_dic d)) (pos (DecoderCore.m_dic s))
                            (mem (DecoderCore.m_dic d)) (mem (DecoderCore.m_dic s)) /\
                          pos (DecoderCore.m_dic d) <= pos (DecoderCore.m_dic s) /\
                          (pos (DecoderCore.m_dic s) < limit \/
                           must_match inp s (load_locals s))))
           (Q := fun _ s =>
                   (core_ok s /\ core_flags s = core_flags d) /\ core_rest s = core_rest d /\
                   (Gi -> 0 <= DecoderCore.buf s
                          <= Z.max (DecoderCore.buf d) bufLimit + 20) /\
                   (Gd -> dic_contract limit s /\ window_ok s /\
                          mem_frame (pos (DecoderCore.m_dic d)) (pos (DecoderCore.m_dic s))
                            (mem (DecoderCore.m_dic d)) (mem (DecoderCore.m_dic s)) /\
                          pos (DecoderCore.m_dic d) <= pos (DecoderCore.m_dic s) /\
                          (pos (DecoderCore.m_dic d) < pos (DecoderCore.m_dic s) \/
                           274 <= DecoderCore.remainLen s) /\
                          (DecoderCore.remainLen s = 0 \/
                           (0 < DecoderCore.remainLen s < 274 /\
                            pos (DecoderCore.m_dic s) = limit) \/
                           274 <= DecoderCore.remainLen s)))
           (mu := fun _ s => Z.to_nat (limit - pos (DecoderCore.m_dic s))).
    + intros g. right. right. split; [exact g | right; reflexivity].
    + intros [] s ((Hs1 & Hs2) & Hs3 & Hs4 & Hs5). apply wp_bind, wp_get. cbv zeta.
      set (limit2 := if DecoderCore.checkDicSize s =? 0 then _ else limit).
      assert (Hl2 : Gd -> pos (DecoderCore.m_dic s) <= limit2 <= limit /\
                          (pos (DecoderCore.m_dic s) < limit ->
                           pos (DecoderCore.m_dic s) < limit2)).
      { intros g.
        destruct (Hs5 g) as ((Hlen & Hp & Hlim & Hbig & Hchk & Hreps & Hpp) & (Hds & HK & HJ) & _).
        subst limit2. destruct (Z.eqb_spec (DecoderCore.checkDicSize s) 0) as [Hc | Hc]; [|lia].
        specialize (Hpp Hc). specialize (HJ Hc).
        rewrite (u32_small (dicSize _ - _)) by lia. rewrite (usize_small (limit - _)) by lia.
        destruct (Z.ltb_spec (dicSize (DecoderCore.m_properties s) - DecoderCore.processedPos s)
                    (limit - pos (DecoderCore.m_dic s))); [rewrite usize_small by lia|]; lia. }
      clearbody limit2. apply wp_bind.
      eapply wp_mono;
        [apply (DecodeReal_contract inp limit2 bufLimit Gi Gd s Hs1) | | | intros f Hf; exact Hf].
      * eapply core_flags_ready; eassumption.
      * intros g. destruct (Hs4 g). destruct (HGi g). lia.
      * intros g. destruct (Hs5 g) as (Hc & Hw & _ & _ & Hk). destruct (Hl2 g) as [Hla Hlb].
        split; [|destruct Hk as [Hk | Hk]; [left; apply Hlb; exact Hk | right; exact Hk]].
        destruct Hc as (Hlen & Hp & Hlim & Hbig & Hchk & Hreps & Hpp).
        split; [exact Hlen|]. split; [lia|]. split; [lia|]. split; [exact Hbig|].
        split; [exact Hchk|]. split; [exact Hreps | exact Hpp].
      * intros [] s1 ((Ht1 & Ht2) & Ht3 & Ht5 & Ht4 & Ht6). cbv beta.
        apply wp_bind, wp_get, wp_bind.
        assert (Hstep : forall s2,
                  (s2 = DecoderCore.set_checkDicSize (dicSize (DecoderCore.m_properties s1)) s1
                   /\ dicSize (DecoderCore.m_properties s1) <= DecoderCore.processedPos s1) \/
                  (s2 = s1 /\
                   DecoderCore.processedPos s1 < dicSize (DecoderCore.m_properties s1)) ->
                  wp (WriteRem limit;;
                      let* d1 := get in
                      ret (tt, (pos (DecoderCore.m_dic d1) <? limit)
                               && (DecoderCore.buf d1 <? bufLimit)
                               && (DecoderCore.remainLen d1 <? kMatchSpecLenStart)))
                     (fun r s' => if snd r
                        then ((core_ok s' /\ core_flags s' = core_flags d) /\
                              core_rest s' = core_rest d /\
                              (Gi -> 0 <= DecoderCore.buf s' /\
                                     Z.max (DecoderCore.buf s') bufLimit
                                     <= Z.max (DecoderCore.buf d) bufLimit) /\
                              (Gd -> dic_contract limit s' /\ window_ok s' /\
                                     mem_frame (pos (DecoderCore.m_dic d))
                                       (pos (DecoderCore.m_dic s'))
                                       (mem (DecoderCore.m_dic d)) (mem (DecoderCore.m_dic s')) /\
                                     pos (DecoderCore.m_dic d) <= pos (DecoderCore.m_dic s') /\
                                     (pos (DecoderCore.m_dic s') < limit \/
                                      must_match inp s' (load_locals s')))) /\
                             (Gd -> (Z.to_nat (limit - pos (DecoderCore.m_dic s'))
                                     < Z.to_nat (limit - pos (DecoderCore.m_dic s)))%nat)
                        else (core_ok s' /\ core_flags s' = core_flags d) /\
                             core_rest s' = core_rest d /\
                             (Gi -> 0 <= DecoderCore.buf s'
                                    <= Z.max (DecoderCore.buf d) bufLimit + 20) /\
                             (Gd -> dic_contract limit s' /\ window_ok s' /\
                                    mem_frame (pos (DecoderCore.m_dic d))
                                      (pos (DecoderCore.m_dic s'))
                                      (mem (DecoderCore.m_dic d)) (mem (DecoderCore.m_dic s')) /\
                                    pos (DecoderCore.m_dic d) <= pos (DecoderCore.m_dic s') /\
                                    (pos (DecoderCore.m_dic d) < pos (DecoderCore.m_dic s') \/
                                     274 <= DecoderCore.remainLen s') /\
                                    (DecoderCore.remainLen s' = 0 \/
                                     (0 < DecoderCore.remainLen s' < 274 /\
                                      pos (DecoderCore.m_dic s') = limit) \/
                                     274 <= DecoderCore.remainLen s')))
                     QE (walk_fault Gi Gd) s2).
        { intros s2 Hs2'.
          assert (Hv : core_view s2 = core_view s1 /\ core_flags s2 = core_flags s1 /\
                       core_rest s2 = core_rest s1 /\ core_rc s2 = core_rc s1 /\
                       DecoderCore.m_dic s2 = DecoderCore.m_dic s1 /\
                       DecoderCore.processedPos s2 = DecoderCore.processedPos s1 /\
                       DecoderCore.remainLen s2 = DecoderCore.remainLen s1)
            by (destruct Hs2' as [[-> _] | [-> _]]; repeat split).
          destruct Hv as (Hv1 & Hv2 & Hv3 & Hv4 & Hv5 & Hv6 & Hv7).
          assert (Hok2 : core_ok s2) by (eapply core_ok_view; eassumption).
          assert (Hpr : DecoderCore.m_properties s1 = DecoderCore.m_properties s /\
                        DecoderCore.m_properties s2 = DecoderCore.m_properties s).
          { unfold core_flags in Ht2, Hv2. inversion Ht2. inversion Hv2. split; congruence. }
          destruct Hpr as [Hpr1 Hpr2].
          assert (Hreps2 : DecoderCore.reps s2 = DecoderCore.reps s1 /\
                           DecoderCore.buf s2 = DecoderCore.buf s1)
            by (unfold core_rc in Hv4; inversion Hv4; split; congruence).
          destruct Hreps2 as [Hreps2 Hbuf2].
          assert (HG2 : Gd -> dic_base limit s2 /\ window_ok s2 /\ reps_in s2 /\
                              0 <= DecoderCore.remainLen s2).
          { intros g. destruct (Hs5 g) as (Hc & (Hds & HK & HJ) & _).
            destruct (Ht6 g) as (Hc1 & _ & _ & _ & Hrl1). destruct (Hl2 g) as [Hla _].
            apply dic_contract_iff in Hc1. destruct Hc1 as [Hb1 Hr1].
            destruct Hb1 as (Hlen1 & Hp1 & Hlim1 & Hbig1 & Hchk1 & Hpp1).
            destruct Hc as (_ & _ & Hlim & _ & Hchk & _ & Hpp).
            rewrite Ht5 in Hchk1, Hpp1.
            assert (Hrl : 0 <= DecoderCore.remainLen s1).
            { unfold remain_ok in Hrl1. change kMatchSpecLenStart with 274 in Hrl1. lia. }
            assert (Hsz1 : size (DecoderCore.m_dic s1) = size (DecoderCore.m_dic s))
              by (unfold core_rest in Ht3; inversion Ht3; congruence).
            unfold dic_base, window_ok, reps_in. rewrite Hv5, Hv6, Hv7, Hreps2, Hpr2.
            rewrite Hpr1 in Hs2'.
            split; [|split; [|split; [exact Hr1 | exact Hrl]]].
            - split; [exact Hlen1|]. split; [lia|]. split; [lia|]. split; [exact Hbig1|].
              destruct Hs2' as [[-> Hge] | [-> Hlt]];
                cbn [DecoderCore.set_checkDicSize DecoderCore.checkDicSize].
              + destruct (Z.eq_dec (DecoderCore.checkDicSize s) 0) as [Hc0 | Hc0].
                * specialize (Hpp1 Hc0). specialize (Hpp Hc0). specialize (HJ Hc0).
                  split; [lia|]. intros H0. lia.
                * destruct HK as [HK | HK]; [contradiction|]. rewrite <- HK.
                  split; [lia|]. intros H0. contradiction.
              + rewrite Ht5. split; [lia | exact Hpp1].
            - split; [exact Hds|].
              destruct Hs2' as [[-> Hge] | [-> Hlt]];
                cbn [DecoderCore.set_checkDicSize DecoderCore.checkDicSize].
              + split; [right; reflexivity|]. intros H0.
                destruct (Z.eq_dec (DecoderCore.checkDicSize s) 0) as [Hc0 | Hc0].
                * specialize (Hpp Hc0). specialize (HJ Hc0). lia.
                * destruct HK as [HK | HK]; [contradiction|]. lia.
              + rewrite Ht5. split; [exact HK | intros _; exact Hlt]. }
          apply wp_bind.
          eapply wp_never;
            [apply (WriteRem_contract limit Gi Gd s2 Hok2) | | intros f Hf; exact Hf].
          - intros g. destruct (HG2 g) as (H1 & H2 & H3 & H4).
            split; [exact H1|]. split; [exact H2|]. split; [exact H4|]. intros _.
            destruct H3 as [H3 _]. lia.
          - intros [] s3 ((Hu1 & Hu2) & Hu3 & Hu4 & Hu5 & Hu6). cbv beta.
            apply wp_bind, wp_get, wp_ret. cbn [fst snd]. change kMatchSpecLenStart with 274 in *.
            assert (Hfl3 : core_flags s3 = core_flags d) by congruence.
            assert (Hre3 : core_rest s3 = core_rest d) by congruence.
            assert (Hb3 : DecoderCore.buf s3 = DecoderCore.buf s1 /\
                          DecoderCore.reps s3 = DecoderCore.reps s1)
              by (unfold core_rc in Hu4; inversion Hu4; split; congruence).
            destruct Hb3 as [Hb3 Hr3].
            assert (Hsz3 : size (DecoderCore.m_dic s3) = size (DecoderCore.m_dic s1))
              by (unfold core_rest in Hu3, Hv3; inversion Hu3; inversion Hv3; congruence).
            assert (HG3 : Gd -> dic_contract limit s3 /\ window_ok s3 /\
                                mem_frame (pos (DecoderCore.m_dic d)) (pos (DecoderCore.m_dic s3))
                                  (mem (DecoderCore.m_dic d)) (mem (DecoderCore.m_dic s3)) /\
                                pos (DecoderCore.m_dic s) <= pos (DecoderCore.m_dic s1) /\
                                pos (DecoderCore.m_dic s1) <= pos (DecoderCore.m_dic s3) /\
                                pos (DecoderCore.m_dic d) <= pos (DecoderCore.m_dic s) /\
                                (pos (DecoderCore.m_dic s) < pos (DecoderCore.m_dic s1) \/
                                 274 <= DecoderCore.remainLen s3) /\
                                (DecoderCore.remainLen s3 = 0 \/
                                 (0 < DecoderCore.remainLen s3 < 274 /\
                                  pos (DecoderCore.m_dic s3) = limit) \/
                                 274 <= DecoderCore.remainLen s3)).
            { intros g. destruct (Hu5 g) as (Hb & Hw & Hf & Hp & Hrl).
              destruct (Ht6 g) as (Hc1 & Hf1 & Hp1 & Hm1 & _).
              destruct (Hs5 g) as (_ & _ & Hf0 & Hp0 & _).
              destruct (HG2 g) as (_ & _ & Hri & _).
              rewrite Hv5 in Hf, Hp.
              split.
              { apply dic_contract_iff. split; [exact Hb|]. unfold reps_in in *.
                rewrite Hr3, Hsz3. rewrite Hreps2, Hv5 in Hri. exact Hri. }
              split; [exact Hw|]. split.
              { eapply (mem_frame_trans _ (pos (DecoderCore.m_dic s))
                          (pos (DecoderCore.m_dic s)) _ _ (mem (DecoderCore.m_dic s)));
                  [exact Hp0 | lia | exact Hf0|].
                eapply (mem_frame_trans _ (pos (DecoderCore.m_dic s1))
                          (pos (DecoderCore.m_dic s1)) _ _ (mem (DecoderCore.m_dic s1)));
                  [lia | lia | exact Hf1 | exact Hf]. }
              split; [exact Hp1|]. split; [exact Hp|]. split; [exact Hp0|]. split.
              - destruct Hm1 as [Hm1 | Hm1]; [left; exact Hm1|]. right.
                rewrite (Hu6 ltac:(right; rewrite Hv7; exact Hm1)), Hv7. exact Hm1.
              - destruct Hrl as [H | [H | [H _]]]; auto. }
            assert (HQ : (core_ok s3 /\ core_flags s3 = core_flags d) /\
                         core_rest s3 = core_rest d /\
                         (Gi -> 0 <= DecoderCore.buf s3
                                <= Z.max (DecoderCore.buf d) bufLimit + 20) /\
                         (Gd -> dic_contract limit s3 /\ window_ok s3 /\
                                mem_frame (pos (DecoderCore.m_dic d))
                                  (pos (DecoderCore.m_dic s3))
                                  (mem (DecoderCore.m_dic d)) (mem (DecoderCore.m_dic s3)) /\
                                pos (DecoderCore.m_dic d) <= pos (DecoderCore.m_dic s3) /\
                                (pos (DecoderCore.m_dic d) < pos (DecoderCore.m_dic s3) \/
                                 274 <= DecoderCore.remainLen s3) /\
                                (DecoderCore.remainLen s3 = 0 \/
                                 (0 < DecoderCore.remainLen s3 < 274 /\
                                  pos (DecoderCore.m_dic s3) = limit) \/
                                 274 <= DecoderCore.remainLen s3))).
            { split; [split; [exact Hu1 | exact Hfl3]|]. split; [exact Hre3|].
              split.
              { intros g. rewrite Hb3. destruct (Ht4 g). destruct (Hs4 g). lia. }
              intros g. destruct (HG3 g) as (H1 & H2 & H3 & H4 & H5 & H6 & H7 & H8).
              split; [exact H1|]. split; [exact H2|]. split; [exact H3|]. split; [lia|].
              split; [destruct H7; [left; lia | right; assumption] | exact H8]. }
            destruct (Z.ltb_spec (pos (DecoderCore.m_dic s3)) limit) as [Hc1 | Hc1]; cbn [andb];
              [|exact HQ].
            destruct (Z.ltb_spec (DecoderCore.buf s3) bufLimit) as [Hc2 | Hc2]; cbn [andb];
              [|exact HQ].
            destruct (Z.ltb_spec (DecoderCore.remainLen s3) 274) as [Hc3 | Hc3]; [|exact HQ].
            split.
            + split; [split; [exact Hu1 | exact Hfl3]|]. split; [exact Hre3|].
              split.
              { intros g. rewrite Hb3 in *. destruct (Ht4 g). lia. }
              intros g. destruct (HG3 g) as (H1 & H2 & H3 & H4 & H5 & H6 & H7 & H8).
              split; [exact H1|]. split; [exact H2|]. split; [exact H3|]. split; [lia|].
              left. exact Hc1.
            + intros g. destruct (HG3 g) as (H1 & H2 & H3 & H4 & H5 & H6 & H7 & H8).
              destruct H7 as [H7 | H7]; lia. }
        destruct (Z.leb_spec (dicSize (DecoderCore.m_properties s1)) (DecoderCore.processedPos s1));
          [apply wp_modify | apply wp_ret]; apply Hstep; [left | right]; split;
          solve [reflexivity | assumption].
      * intros e s1 ((Ht1 & Ht2) & Ht3 & Ht4). unfold QE.
        split; [split; [exact Ht1 | congruence]|]. split; [congruence|].
        intros g. destruct (Ht4 g) as [Hp Hf]. destruct (Hs5 g) as (Hc & _ & Hf0 & Hp0 & _).
        destruct (Hl2 g) as [Hla _]. destruct Hc as (_ & Hpl & _).
        rewrite Hp. split; [lia|].
        eapply (mem_frame_trans _ (pos (DecoderCore.m_dic s))
                  (pos (DecoderCore.m_dic s)) _ _ (mem (DecoderCore.m_dic s)));
          [exact Hp0 | lia | exact Hf0|].
        eapply mem_frame_weaken; [| |exact Hf]; lia.
    + split; [split; [exact Hok | reflexivity]|]. split; [reflexivity|].
      split; [intros g; destruct (HGi g); lia|].
      intros g. destruct (HGd g) as (Hc & Hw & Hk).
      split; [exact Hc|]. split; [exact Hw|]. split; [apply mem_frame_refl|].
      split; [lia | exact Hk].
    + intros g. lia.
  - intros [] s ((Hs1 & Hs2) & Hs3 & Hs4 & Hs5). cbv beta. apply wp_bind, wp_get.
    destruct (Z.ltb_spec 274 (DecoderCore.remainLen s)) as [Hr | Hr];
      [apply wp_modify | apply wp_ret].
    + split; [split; [eapply core_ok_view; [|exact Hs1]; reflexivity | exact Hs2]|].
      split; [exact Hs3|]. split; [exact Hs4|]. intros g.
      destruct (Hs5 g) as (Hc & Hw & Hf & Hp & _ & _).
      split; [exact Hc|]. split; [exact Hw|]. split; [exact Hf|]. split; [exact Hp|].
      split; right; [|right]; reflexivity.
    + split; [split; [exact Hs1 | exact Hs2]|].
      split; [exact Hs3|]. split; [exact Hs4|]. intros g.
      destruct (Hs5 g) as (Hc & Hw & Hf & Hp & Hm & Hrl).
      split; [exact Hc|]. split; [exact Hw|]. split; [exact Hf|]. split; [exact Hp|].
      split; [destruct Hm; [left; assumption | right; lia]|].
      destruct Hrl as [H | [H | H]]; [left; exact H | right; left; exact H | right; right; lia].
Qed.

(** X10: [DecodeReal2] is memory safe.  On a decoder whose state is
    initialised and whose range coder is started, under the contract on the
    dictionary and the window, with the write position below [limit] and an
    input that lasts 20 bytes ([LZMA_REQUIRED_INPUT_MAX]) beyond the later
    of [buf] and [bufLimit], the call never reads or writes outside the
    input, the dictionary or the probabilities, and its loops end.  On
    return it has written only from the old [pos] up to the new one, which is
    at most [limit]; it has read at most 20 bytes beyond that point of the
    input; a match is left unfinished only at [limit]; [pos] has moved unless
    the end marker was met; and the contracts hold again.  When it throws,
    the bytes before the old [pos] and from [limit] on are as they were. *)
Theorem DecodeReal2_memory_safe
  (inp : list Z) (limit bufLimit : Z) (d : DecoderCore.t) :
  core_ok d -> core_ready d ->
  dic_contract limit d -> window_ok d -> pos (DecoderCore.m_dic d) < limit ->
  0 <= DecoderCore.buf d ->
  Z.max (DecoderCore.buf d) bufLimit + LZMA_REQUIRED_INPUT_MAX <= Z.of_nat (length inp) ->
  let unchanged lim d' :=
    length (mem (DecoderCore.m_dic d')) = length (mem (DecoderCore.m_dic d)) /\
    forall i, i < pos (DecoderCore.m_dic d) \/ lim <= i ->
              zlookup (mem (DecoderCore.m_dic d')) i = zlookup (mem (DecoderCore.m_dic d)) i in
  match DecodeReal2 inp limit bufLimit d with
  | Ok _ d' =>
      unchanged (pos (DecoderCore.m_dic d')) d' /\
      pos (DecoderCore.m_dic d) <= pos (DecoderCore.m_dic d') <= limit /\
      0 <= DecoderCore.buf d'
        <= Z.max (DecoderCore.buf d) bufLimit + LZMA_REQUIRED_INPUT_MAX /\
      (DecoderCore.remainLen d' = 0 \/
       (0 < DecoderCore.remainLen d' < kMatchSpecLenStart /\
        pos (DecoderCore.m_dic d') = limit) \/
       DecoderCore.remainLen d' = kMatchSpecLenStart) /\
      (pos (DecoderCore.m_dic d) < pos (DecoderCore.m_dic d') \/
       DecoderCore.remainLen d' = kMatchSpecLenStart) /\
      core_ok d' /\ dic_contract limit d' /\ window_ok d'
  | Raise _ d' => unchanged limit d'
  | Fault _ => False
  end.
Proof.
  intros Hok Hready Hc Hw Hpos Hb Hlen unchanged. change LZMA_REQUIRED_INPUT_MAX with 20 in *.
  assert (H := DecodeReal2_walk inp limit bufLimit True True d Hok Hready
                 (fun _ => conj Hb Hlen) (fun _ => conj Hc (conj Hw (or_introl Hpos)))).
  destruct Hc as (_ & Hp & _).
  assert (Hun : forall lim d', 0 <= lim ->
                  mem_frame (pos (DecoderCore.m_dic d)) lim
                    (mem (DecoderCore.m_dic d)) (mem (DecoderCore.m_dic d')) ->
                  unchanged lim d').
  { intros lim d' Hl Hf. split; [exact (proj1 Hf)|]. intros i Hi.
    eapply mem_frame_lookup; [| |exact Hf | exact Hi]; lia. }
  unfold wp in H. destruct (DecodeReal2 inp limit bufLimit d) as [[] d' | e d' | f].
  - destruct H as ((Hok' & _) & _ & Hbuf & HG).
    destruct (HG I) as (Hc' & Hw' & Hf & Hp' & Hm & Hrl).
    pose proof Hc' as (_ & Hpl & _).
    split; [apply Hun; [lia | exact Hf]|]. split; [lia|]. split; [exact (Hbuf I)|].
    split; [exact Hrl|]. split; [exact Hm|]. split; [exact Hok'|].
    split; [exact Hc' | exact Hw'].
  - destruct H as (_ & _ & HG). destruct (HG I) as [Hp' Hf]. apply Hun; [lia | exact Hf].
  - destruct H as [[H _] | [[H _] | [H _]]]; exact (H I).
Qed.

Lemma DecodeReal2_memory_safe_witness :
  let d := Decoder2.decoder example_decoded in
  let unchanged lim d' :=
    length (mem (DecoderCore.m_dic d')) = length (mem (DecoderCore.m_dic d)) /\
    forall i, i < pos (DecoderCore.m_dic d) \/ lim <= i ->
              zlookup (mem (DecoderCore.m_dic d')) i = zlookup (mem (DecoderCore.m_dic d)) i in
  match DecodeReal2 (replicate 40 0) 16 4 d with
  | Ok _ d' =>
      unchanged (pos (DecoderCore.m_dic d')) d' /\
      pos (DecoderCore.m_dic d) <= pos (DecoderCore.m_dic d') <= 16 /\
      0 <= DecoderCore.buf d'
        <= Z.max (DecoderCore.buf d) 4 + LZMA_REQUIRED_INPUT_MAX /\
      (DecoderCore.remainLen d' = 0 \/
       (0 < DecoderCore.remainLen d' < kMatchSpecLenStart /\
        pos (DecoderCore.m_dic d') = 16) \/
       DecoderCore.remainLen d' = kMatchSpecLenStart) /\
      (pos (DecoderCore.m_dic d) < pos (DecoderCore.m_dic d') \/
       DecoderCore.remainLen d' = kMatchSpecLenStart) /\
      core_ok d' /\ dic_contract 16 d' /\ window_ok d'
  | Raise _ d' => unchanged 16 d'
  | Fault _ => False
  end.
Proof.
  refine (DecodeReal2_memory_safe (replicate 40 0) 16 4
            (Decoder2.decoder example_decoded) example_decoded_core_ok
            example_decoded_core_ready _ _ _ _ _).
  - unfold dic_contract. vm_compute. repeat split; congruence.
  - unfold window_ok. vm_compute. repeat split; try congruence. left. reflexivity.
  - vm_compute. reflexivity.
  - vm_compute. discriminate.
  - vm_compute. discriminate.
Defined.

(** ** [TryDummy] stays inside the arrays *)

Lemma mask_u32 n : 0 <= n <= 31 -> u32 (Z.shiftl 1 n - 1) = u32 (u32 (Z.shiftl 1 n) - 1).
Proof.
  intros Hn. rewrite Z.shiftl_1_l.
  assert (H : 0 < 2 ^ n <= 2 ^ 31) by (split; [apply Z.pow_pos_nonneg | apply Z.pow_le_mono_r]; lia).
  change (2 ^ 31) with 2147483648 in H. rewrite (u32_small (2 ^ n)) by lia. reflexivity.
Qed.

Section DummyWalk.

Variables (this : DecoderCore.t) (inp : list Z).

Hypothesis Hprops : props_ok (DecoderCore.m_properties this).
Hypothesis Hprobs : numProbs this <= Z.of_nat (length (DecoderCore.m_probs this)).
Hypothesis Hstate : 0 <= DecoderCore.state this < 12.
Hypothesis Hbytes : Forall byte (mem (DecoderCore.m_dic this)).
Hypothesis Hdic :
  Z.of_nat (length (mem (DecoderCore.m_dic this))) = size (DecoderCore.m_dic this) /\
  0 <= pos (DecoderCore.m_dic this) <= size (DecoderCore.m_dic this) /\
  1 <= size (DecoderCore.m_dic this) < 2 ^ 64 /\
  1 <= reps_0 (DecoderCore.reps this) <= size (DecoderCore.m_dic this).

(** The early returns of [TryDummy]. *)
Definition dummy_exit (e : Dummy) (s : D.t) : Prop := e = DUMMY_ERROR \/ e = DUMMY_REP.

(** From every state: no fault, and a value that satisfies [Q] at the
    normal end. *)
Definition dwp {A} (m : M Dummy D.t A) (Q : A -> Prop) : Prop :=
  forall s, wp m (fun a _ => Q a) dummy_exit no_fault s.

Lemma dwp_bind {A B} (m : M Dummy D.t A) (k : A -> M Dummy D.t B) (Q1 : A -> Prop) Q :
  dwp m Q1 -> (forall a, Q1 a -> dwp (k a) Q) -> dwp (bind m k) Q.
Proof.
  intros H1 H2 s. apply wp_bind. eapply wp_post; [apply H1|]. intros a s' Ha.
  exact (H2 a Ha s').
Qed.

Lemma dwp_ret {A} (a : A) (Q : A -> Prop) : Q a -> dwp (ret a) Q.
Proof. intros H s. exact H. Qed.

Lemma dwp_modify f (Q : unit -> Prop) : Q tt -> dwp (modify f) Q.
Proof. intros H s. exact H. Qed.

Lemma dwp_step f : dwp (modify f) (fun _ => True).
Proof. intros s. exact I. Qed.

Lemma dwp_seq {A B} (m : M Dummy D.t A) (k : M Dummy D.t B) Q :
  dwp m (fun _ => True) -> dwp k Q -> dwp (m;; k) Q.
Proof. intros H1 H2. eapply dwp_bind; [exact H1|]. intros _ _. exact H2. Qed.

Lemma dwp_post {A} (m : M Dummy D.t A) (Q Q' : A -> Prop) :
  dwp m Q -> (forall a, Q a -> Q' a) -> dwp m Q'.
Proof. intros H HQ s. eapply wp_post; [apply H|]. intros a s' Ha. exact (HQ a Ha). Qed.

Lemma dwp_do_while {A} (body : A -> M Dummy D.t (A * bool)) (I Q : A -> Prop) (mu : A -> nat) :
  (forall a, I a ->
     dwp (body a) (fun r => if snd r then I (fst r) /\ (mu (fst r) < mu a)%nat
                            else Q (fst r))) ->
  forall n a, I a -> (mu a < n)%nat -> dwp (do_while n body a) Q.
Proof.
  intros H n a Ha Hmu s. destruct n as [|n]; [lia|].
  apply wp_do_while_fuel with (I := fun a _ => I a) (mu := fun a _ => mu a); [|exact Ha | lia].
  intros a' s' Ha'. eapply wp_post; [exact (H a' Ha' s')|].
  intros [a2 []] s2 Hr; exact Hr.
Qed.

Lemma NORMALIZE_CHECK_dwp : dwp (NORMALIZE_CHECK inp) (fun _ => True).
Proof.
  intros s. unfold wp, NORMALIZE_CHECK. destruct (_ <? _); [|exact I].
  destruct (zlookup _ _); [exact I | left; reflexivity].
Qed.

Lemma bit0Check_dwp x : 0 <= x < numProbs this -> dwp (bit0Check this x) (fun _ => True).
Proof.
  intros Hx s. unfold wp, bit0Check.
  destruct (zlookup_Some_lt (DecoderCore.m_probs this) x ltac:(lia)) as [p ->]. exact I.
Qed.

Lemma GET_BIT2_CHECK_dwp x i :
  0 <= x < numProbs this ->
  dwp (GET_BIT2_CHECK this x i) (fun r => fst r = u32 (i + i) \/ fst r = u32 (i + i + 1)).
Proof.
  intros Hx. unfold GET_BIT2_CHECK, UPDATE_0_CHECK, UPDATE_1_CHECK.
  eapply dwp_bind; [apply bit0Check_dwp, Hx|]. intros c _.
  destruct (snd c).
  - apply dwp_seq; [apply dwp_step|]. apply dwp_ret. left. reflexivity.
  - apply dwp_seq; [apply dwp_seq; apply dwp_step|]. apply dwp_ret. right. reflexivity.
Qed.

Lemma GET_BIT_CHECK_dwp x i :
  0 <= x < numProbs this ->
  dwp (GET_BIT_CHECK this x i) (fun i' => i' = u32 (i + i) \/ i' = u32 (i + i + 1)).
Proof.
  intros Hx. unfold GET_BIT_CHECK. eapply dwp_bind; [apply GET_BIT2_CHECK_dwp, Hx|].
  intros r Hr. apply dwp_ret. exact Hr.
Qed.

(** A bit tree of [k] levels. *)
Lemma tree_dwp p k lim fuel :
  lim = 2 ^ k -> 1 <= k <= 8 -> (Z.to_nat k <= fuel)%nat ->
  0 <= p -> p + lim <= numProbs this ->
  dwp (do_while fuel (fun i => NORMALIZE_CHECK inp;;
                               let* i' := GET_BIT_CHECK this (p + i) i in
                               ret (i', i' <? lim)) 1)
      (fun i => lim <= i < 2 * lim).
Proof.
  intros -> Hk Hfuel Hp HpN.
  apply dwp_do_while with (I := fun i => 1 <= i < 2 ^ k)
                          (mu := fun i => Z.to_nat (k - 1 - Z.log2 i)).
  - intros i Hi. apply dwp_seq; [apply NORMALIZE_CHECK_dwp|].
    eapply dwp_bind; [apply GET_BIT_CHECK_dwp; lia|]. intros i' Hi'. cbv beta in Hi'.
    apply dwp_ret.
    cbn [fst snd].
    destruct (tree_step i i' k Hi ltac:(lia) Hi') as (Hv & Hl & Hl0 & Hlt & Hr).
    destruct (Z.ltb_spec i' (2 ^ k)); [split; lia | lia].
  - assert (2 ^ 1 <= 2 ^ k) by (apply Z.pow_le_mono_r; lia). lia.
  - change (Z.log2 1) with 0. lia.
Qed.

Lemma TREE_DECODE_CHECK_dwp p k lim :
  lim = 2 ^ k -> 1 <= k <= 8 -> 0 <= p -> p + lim <= numProbs this ->
  dwp (TREE_DECODE_CHECK this inp p lim) (fun v => 0 <= v < lim).
Proof.
  intros Hlim Hk Hp HpN. unfold TREE_DECODE_CHECK.
  eapply dwp_bind; [apply (tree_dwp p k lim 32); try assumption; lia|].
  intros i Hi. apply dwp_ret.
  assert (2 ^ k <= 2 ^ 8) by (apply Z.pow_le_mono_r; lia). change (2 ^ 8) with 256 in *.
  subst lim. rewrite u32_small; lia.
Qed.

Lemma this_dic_read_dwp i :
  0 <= i < size (DecoderCore.m_dic this) -> dwp (this_dic_read this i) byte.
Proof.
  intros Hi s. unfold wp, this_dic_read. destruct Hdic as (Hlen & _).
  replace ((0 <=? i) && (i <? size (DecoderCore.m_dic this))) with true
    by (symmetry; apply andb_true_iff; split; [apply Z.leb_le | apply Z.ltb_lt]; lia).
  destruct (zlookup_Some_lt (mem (DecoderCore.m_dic this)) i ltac:(lia)) as [b Hb].
  rewrite Hb. eapply Forall_byte_lookup; eassumption.
Qed.

Lemma numProbs_lit : Literal + 768 <= numProbs this /\ numProbs this <= 14134.
Proof. exact (numProbs_bounds this Hprops). Qed.

(** The literal: eight bits of the tree that the previous byte selects. *)
Lemma TryDummy_literal_dwp : dwp (TryDummy_literal this inp) (fun _ => True).
Proof.
  unfold TryDummy_literal. cbv zeta. destruct Hdic as (Hlen & Hpos & Hsz & Hrep).
  pose proof numProbs_lit as [HN1 HN2].
  eapply dwp_bind with (Q1 := fun prob => Literal <= prob /\ prob + 768 <= numProbs this).
  { destruct (_ || _); [|apply dwp_ret; lia].
    eapply dwp_bind.
    - apply this_dic_read_dwp.
      destruct (Z.eqb_spec (pos (DecoderCore.m_dic this)) 0); rewrite usize_small by lia; lia.
    - intros prev Hprev. apply dwp_ret.
      destruct Hprops as (Hp1 & Hp2 & Hp3 & _).
      pose proof (lit_index (DecoderCore.processedPos this) prev _ _ Hp1 Hp2 Hp3 Hprev) as Hi.
      cbv zeta in Hi. rewrite <- mask_u32 in Hi by lia.
      unfold numProbs, LZMA_LIT_SIZE in *. lia. }
  intros prob [Hp1 Hp2]. change Literal with 1846 in Hp1.
  destruct (_ <? _).
  - apply dwp_seq; [|apply dwp_ret; exact I].
    eapply dwp_post; [apply (tree_dwp prob 8 256 8); try reflexivity; lia|]. auto.
  - eapply dwp_bind.
    { apply this_dic_read_dwp.
      destruct (Z.ltb_spec (pos (DecoderCore.m_dic this)) (reps_0 (DecoderCore.reps this)));
        rewrite usize_small by lia; lia. }
    intros matchByte _. apply dwp_seq; [|apply dwp_ret; exact I].
    eapply dwp_post with (Q := fun _ => True); [|auto].
    apply dwp_do_while
      with (I := fun v : Z * Z * Z => 1 <= snd v < 256 /\ (snd (fst v) = 0 \/ snd (fst v) = 256))
           (mu := fun v => Z.to_nat (7 - Z.log2 (snd v))).
    + intros [[mb offs] sym] [Hi Hoffs]. cbn [fst snd] in *.
      assert (Hbit : Z.land (u32 (Z.shiftl mb 1)) offs = 0 \/
                     Z.land (u32 (Z.shiftl mb 1)) offs = offs).
      { destruct Hoffs as [-> | ->]; [left; apply Z.land_0_r|]. apply land_256. }
      apply dwp_seq; [apply NORMALIZE_CHECK_dwp|].
      eapply dwp_bind; [apply GET_BIT2_CHECK_dwp; lia|].
      intros [i' b] Hi'. cbv beta in Hi'. apply dwp_ret. cbn [fst snd] in *.
      destruct (tree_step sym i' 8 ltac:(change (2 ^ 8) with 256; lia) ltac:(lia) Hi')
        as (Hv & Hl & Hl0 & Hlt8 & Hr).
      change (2 ^ 8) with 256 in *.
      destruct (Z.ltb_spec i' 256); [|exact I]. split; [|lia]. split; [lia|].
      destruct Hoffs as [-> | ->]; [destruct b; left; apply Z.land_0_l|].
      destruct Hbit as [-> | ->]; destruct b; vm_compute; auto.
    + cbn [fst snd]. split; [lia | right; reflexivity].
    + cbn [snd]. change (Z.log2 1) with 0. lia.
Qed.

Lemma dummy_posState :
  0 <= Z.land (DecoderCore.processedPos this)
         (u32 (Z.shiftl 1 (pb (DecoderCore.m_properties this)) - 1)) < 16.
Proof.
  rewrite mask_u32 by (destruct Hprops as (_ & _ & _ & ?); lia).
  exact (posState_bound _ this Hprops).
Qed.

(** The length: two choices and a tree. *)
Lemma TryDummy_len_dwp prob posState :
  prob = LenCoder \/ prob = RepLenCoder -> 0 <= posState < 16 ->
  dwp (TryDummy_len this inp prob posState) (fun len => 0 <= len < 272).
Proof.
  intros Hprob Hpos. unfold TryDummy_len. pose proof numProbs_lit as [HN1 HN2].
  konsts. rewrite !shiftl_3. cbv zeta.
  assert (Hp : 802 <= prob /\ prob + 514 <= 1846) by (destruct Hprob; subst; lia).
  apply dwp_seq; [apply NORMALIZE_CHECK_dwp|].
  eapply dwp_bind; [apply bit0Check_dwp; lia|]. intros c _.
  eapply dwp_bind
    with (Q1 := fun v : Z * Z * Z =>
                  exists k, 1 <= k <= 8 /\ snd v = 2 ^ k /\ 0 <= fst (fst v) /\
                            fst (fst v) + snd v <= numProbs this /\
                            0 <= snd (fst v) /\ snd (fst v) + snd v <= 272).
  { destruct (snd c).
    - apply dwp_seq; [apply dwp_step|]. apply dwp_ret. exists 3. cbn [fst snd].
      change (Z.shiftl 1 3) with 8. change (2 ^ 3) with 8. lia.
    - apply dwp_seq; [apply dwp_seq; apply dwp_step|].
      apply dwp_seq; [apply NORMALIZE_CHECK_dwp|].
      eapply dwp_bind; [apply bit0Check_dwp; lia|]. intros c2 _.
      destruct (snd c2).
      + apply dwp_seq; [apply dwp_step|]. apply dwp_ret. exists 3. cbn [fst snd].
        change (Z.shiftl 1 3) with 8. change (2 ^ 3) with 8. lia.
      + apply dwp_seq; [apply dwp_seq; apply dwp_step|]. apply dwp_ret. exists 8.
        cbn [fst snd]. change (Z.shiftl 1 8) with 256. change (2 ^ 8) with 256. lia. }
  intros [[probLen offset] lim] (k & Hk & Hlim & Hp0 & HpN & Ho & Hol). cbn [fst snd] in *.
  eapply dwp_bind; [apply (TREE_DECODE_CHECK_dwp probLen k lim); assumption|].
  intros l Hl. cbv beta in Hl. apply dwp_ret. subst lim.
  assert (2 ^ k <= 2 ^ 8) by (apply Z.pow_le_mono_r; lia). change (2 ^ 8) with 256 in *.
  rewrite u32_small; lia.
Qed.

(** A reverse bit tree of [n] levels. *)
Lemma rev_tree_dwp p n :
  1 <= n <= 5 -> 0 <= p + 1 -> p + 2 ^ n <= numProbs this ->
  dwp (do_while 32 (fun v : Z * Z =>
         let '(i, numDirectBits) := v in
         NORMALIZE_CHECK inp;;
         let* i := GET_BIT_CHECK this (p + i) i in
         let numDirectBits := numDirectBits - 1 in
         ret ((i, numDirectBits), negb (numDirectBits =? 0))) (1, n))
      (fun _ => True).
Proof.
  intros Hn Hp HpN.
  apply dwp_do_while
    with (I := fun v : Z * Z => 1 <= snd v <= n /\ 1 <= fst v /\ Z.log2 (fst v) = n - snd v)
         (mu := fun v => Z.to_nat (snd v - 1)).
  - intros [i ndb] (Hndb & Hi & Hlog). cbn [fst snd] in *.
    assert (Hlt : i < 2 ^ n) by (apply Z.log2_lt_pow2; lia).
    apply dwp_seq; [apply NORMALIZE_CHECK_dwp|].
    eapply dwp_bind; [apply GET_BIT_CHECK_dwp; lia|]. intros i' Hi'. cbv beta in Hi'.
    apply dwp_ret.
    cbn [fst snd].
    destruct (tree_step i i' n ltac:(lia) ltac:(lia) Hi') as (Hv & Hl & _ & _ & Hr).
    destruct (Z.eqb_spec (ndb - 1) 0); cbn [negb]; [exact I|]. split; lia.
  - cbn [fst snd]. change (Z.log2 1) with 0. lia.
  - cbn [snd]. lia.
Qed.

(** The distance: the slot, then direct bits and a reverse tree. *)
Lemma TryDummy_distance_dwp len :
  0 <= len -> dwp (TryDummy_distance this inp len) (fun _ => True).
Proof.
  intros Hlen. unfold TryDummy_distance. pose proof numProbs_lit as [HN1 HN2].
  konsts. rewrite !shiftl_6. cbv zeta.
  eapply dwp_bind.
  { apply (TREE_DECODE_CHECK_dwp _ 6 64); [reflexivity | lia | |];
      destruct (Z.ltb_spec len 4); lia. }
  intros posSlot Hps. cbv beta in Hps.
  destruct (Z.leb_spec 4 posSlot) as [H4 | H4]; [|apply dwp_ret; exact I].
  eapply dwp_bind
    with (Q1 := fun v : Z * Z => 1 <= snd v <= 5 /\ 0 <= fst v + 1 /\
                                 fst v + 2 ^ snd v <= numProbs this).
  { destruct (Z.ltb_spec posSlot 14) as [H14 | H14].
    - apply dwp_ret. cbn [fst snd].
      pose proof (spec_pos_index posSlot ltac:(lia)) as (Hn & Hlo & Hhi). lia.
    - apply dwp_seq; [|apply dwp_ret; cbn [fst snd]; change (2 ^ 4) with 16; lia].
      assert (Hs : 6 <= Z.shiftr posSlot 1 - 1 <= 30).
      { rewrite Z.shiftr_div_pow2 by lia. change (2 ^ 1) with 2.
        pose proof (Z.div_le_mono 14 posSlot 2 ltac:(lia) ltac:(lia)).
        pose proof (Z.div_le_mono posSlot 63 2 ltac:(lia) ltac:(lia)).
        change (14 / 2) with 7 in *. change (63 / 2) with 31 in *. lia. }
      eapply dwp_post with (Q := fun _ => True); [|auto].
      apply dwp_do_while with (I := fun n => 1 <= n <= 26) (mu := fun n => Z.to_nat (n - 1)).
      + intros n Hn. apply dwp_seq; [apply NORMALIZE_CHECK_dwp|].
        apply dwp_seq; [apply dwp_step|]. apply dwp_seq; [apply dwp_step|].
        apply dwp_ret. cbn [fst snd].
        destruct (Z.eqb_spec (n - 1) 0); cbn [negb]; [exact I | split; lia].
      + lia.
      + lia. }
  intros [prob ndb] (Hn & Hp & HpN). cbn [fst snd] in *.
  apply dwp_seq; [|apply dwp_ret; exact I].
  apply rev_tree_dwp; assumption.
Qed.

(** The whole symbol. *)
Lemma TryDummy_body_dwp : dwp (TryDummy_body this inp) (fun res => res <> DUMMY_ERROR).
Proof.
  unfold TryDummy_body. cbv zeta. pose proof numProbs_lit as [HN1 HN2].
  pose proof dummy_posState as Hpos. konsts. rewrite !shiftl_4.
  set (posState := Z.land _ _) in *.
  apply dwp_seq; [apply NORMALIZE_CHECK_dwp|].
  eapply dwp_bind; [apply bit0Check_dwp; lia|]. intros c _.
  destruct (snd c).
  { apply dwp_seq; [apply dwp_step|]. apply dwp_seq; [apply TryDummy_literal_dwp|].
    apply dwp_ret. discriminate. }
  apply dwp_seq; [apply dwp_seq; apply dwp_step|].
  apply dwp_seq; [apply NORMALIZE_CHECK_dwp|].
  eapply dwp_bind; [apply bit0Check_dwp; lia|]. intros c2 _.
  eapply dwp_bind
    with (Q1 := fun v : Z * Z * Dummy =>
                  (snd (fst v) = LenCoder \/ snd (fst v) = RepLenCoder) /\
                  snd v <> DUMMY_ERROR).
  { destruct (snd c2).
    - apply dwp_seq; [apply dwp_step|]. apply dwp_ret. cbn [fst snd].
      split; [left; reflexivity | discriminate].
    - apply dwp_seq; [apply dwp_seq; apply dwp_step|].
      apply dwp_seq; [apply NORMALIZE_CHECK_dwp|].
      eapply dwp_bind; [apply bit0Check_dwp; lia|]. intros c3 _.
      apply dwp_seq; [|apply dwp_ret; cbn [fst snd]; split; [right; reflexivity | discriminate]].
      destruct (snd c3).
      + apply dwp_seq; [apply dwp_step|]. apply dwp_seq; [apply NORMALIZE_CHECK_dwp|].
        eapply dwp_bind; [apply bit0Check_dwp; lia|]. intros c4 _.
        destruct (snd c4).
        * apply dwp_seq; [apply dwp_step|]. apply dwp_seq; [apply NORMALIZE_CHECK_dwp|].
          intros s. right. reflexivity.
        * apply dwp_seq; apply dwp_step.
      + apply dwp_seq; [apply dwp_seq; apply dwp_step|].
        apply dwp_seq; [apply NORMALIZE_CHECK_dwp|].
        eapply dwp_bind; [apply bit0Check_dwp; lia|]. intros c4 _.
        destruct (snd c4); [apply dwp_step|].
        apply dwp_seq; [apply dwp_seq; apply dwp_step|].
        apply dwp_seq; [apply NORMALIZE_CHECK_dwp|].
        eapply dwp_bind; [apply bit0Check_dwp; lia|]. intros c5 _.
        destruct (snd c5); [apply dwp_step | apply dwp_seq; apply dwp_step]. }
  intros [[st prob] res] [Hprob Hres]. cbn [fst snd] in *.
  eapply dwp_bind; [apply TryDummy_len_dwp; [exact Hprob | exact Hpos]|].
  intros len Hlen. cbv beta in Hlen.
  apply dwp_seq; [|apply dwp_ret; exact Hres].
  destruct (_ <? _); [apply TryDummy_distance_dwp; lia | apply dwp_ret; exact I].
Qed.

(** [TryDummy] returns: it reads the probabilities and the dictionary
    inside their arrays, and its loops end. *)
Lemma TryDummy_run_safe :
  match TryDummy_run this inp with
  | Ok res _ => res <> DUMMY_ERROR
  | Raise e _ => e = DUMMY_ERROR \/ e = DUMMY_REP
  | Fault _ => False
  end.
Proof.
  unfold TryDummy_run.
  assert (H : dwp (let* res := TryDummy_body this inp in NORMALIZE_CHECK inp;; ret res)
                  (fun res => res <> DUMMY_ERROR)).
  { eapply dwp_bind; [apply TryDummy_body_dwp|]. intros res Hres.
    apply dwp_seq; [apply NORMALIZE_CHECK_dwp | apply dwp_ret; exact Hres]. }
  exact (H _).
Qed.

End DummyWalk.

(** X11: [TryDummy] returns on every input, also an empty or a truncated
    one, and leaves the decoder as it was: with valid properties, the
    probability array as long as [numProbs], [state] below 12, a dictionary
    of bytes with [1 <= size], [pos <= size] and [rep0] between 1 and
    [size], it never reads outside the probabilities or the dictionary, its
    loops end, and the end of the input gives a result, not a read past the
    input. *)
Theorem TryDummy_returns (inp : list Z) (d : DecoderCore.t) :
  props_ok (DecoderCore.m_properties d) ->
  numProbs d <= Z.of_nat (length (DecoderCore.m_probs d)) ->
  0 <= DecoderCore.state d < kNumStates ->
  Forall byte (mem (DecoderCore.m_dic d)) ->
  Z.of_nat (length (mem (DecoderCore.m_dic d))) = size (DecoderCore.m_dic d) ->
  0 <= pos (DecoderCore.m_dic d) <= size (DecoderCore.m_dic d) ->
  1 <= size (DecoderCore.m_dic d) < 2 ^ 64 ->
  1 <= reps_0 (DecoderCore.reps d) <= size (DecoderCore.m_dic d) ->
  exists res, TryDummy inp d = Ok res d.
Proof.
  intros Hprops Hprobs Hstate Hbytes Hlen Hpos Hsize Hrep.
  pose proof (TryDummy_run_safe d inp Hprops Hprobs Hstate Hbytes
                (conj Hlen (conj Hpos (conj Hsize Hrep)))) as H.
  unfold TryDummy. destruct (TryDummy_run d inp) as [res s|res s|f].
  - exists res. reflexivity.
  - exists res. reflexivity.
  - destruct H.
Qed.

Lemma TryDummy_returns_witness :
  exists res, TryDummy [0; 0; 0] (Decoder2.decoder example_decoded)
              = Ok res (Decoder2.decoder example_decoded).
Proof.
  refine (TryDummy_returns [0; 0; 0] (Decoder2.decoder example_decoded) _ _ _ _ _ _ _ _).
  - apply example_decoded_core_ok.
  - vm_compute. discriminate.
  - vm_compute. split; [discriminate | reflexivity].
  - apply example_decoded_core_ok.
  - vm_compute. reflexivity.
  - vm_compute. split; discriminate.
  - vm_compute. split; [discriminate | reflexivity].
  - vm_compute. split; discriminate.
Defined.

(** ** [TryDummy] and [DecodeReal] in lockstep *)

(** The read position only moves forward. *)
Definition buf_le (r r' : L.t) : Prop := L.buf r <= L.buf r'.

Lemma buf_le_refl r : buf_le r r.
Proof. unfold buf_le. lia. Qed.

Lemma buf_le_trans a b c : buf_le a b -> buf_le b c -> buf_le a c.
Proof. unfold buf_le. lia. Qed.

#[local] Hint Resolve buf_le_refl buf_le_trans : core.

Lemma NORMALIZE_buf_le inp : preserves buf_le (NORMALIZE inp).
Proof.
  intros r. unfold NORMALIZE, buf_le. destruct (_ <? _); [|cbn; lia].
  destruct (zlookup _ _); [cbn; lia | exact I].
Qed.

Lemma read_prob_buf_le x : preserves buf_le (read_prob x).
Proof. intros r. unfold read_prob. destruct (zlookup _ _); [apply buf_le_refl | exact I]. Qed.

Lemma write_prob_buf_le x v : preserves buf_le (write_prob x v).
Proof.
  intros r. unfold write_prob, buf_le. destruct (zinsert _ _ _); [cbn; lia | exact I].
Qed.

Lemma dic_read_buf_le this i : preserves buf_le (dic_read this i).
Proof.
  intros r. unfold dic_read. destruct (_ && _); [|exact I].
  destruct (zlookup _ _); [apply buf_le_refl | exact I].
Qed.

Lemma dic_write_buf_le this i v : preserves buf_le (dic_write this i v).
Proof.
  intros r. unfold dic_write, buf_le. destruct (_ && _); [|exact I].
  destruct (zinsert _ _ _); [cbn; lia | exact I].
Qed.

Ltac buf_le_tac :=
  repeat first
    [ apply NORMALIZE_buf_le | apply read_prob_buf_le | apply write_prob_buf_le
    | apply dic_read_buf_le | apply dic_write_buf_le
    | preserves_step ltac:(unfold buf_le; cbn; lia) ].

Ltac unfold_real :=
  unfold symbol, literal, literal_tail, rep, decode_len, decode_distance, check_distance, copy_match,
    TREE_DECODE, TREE_6_DECODE, TREE_GET_BIT, GET_BIT, GET_BIT2, direct_bit, isBit0,
    UPDATE_0, UPDATE_1.

Ltac mono_tac := unfold_real; buf_le_tac.


Lemma symbol_buf_le inp this limit : preserves buf_le (symbol inp this limit).
Proof. unfold_real. buf_le_tac. Qed.

(** [NORMALIZE_CHECK] as a function of the registers. *)
Lemma NORMALIZE_CHECK_eq inp s :
  NORMALIZE_CHECK inp s =
  match normalized inp (D.range s) (D.code s) (D.buf s) with
  | Some (range, code, buf) => Ok tt {| D.range := range; D.code := code; D.buf := buf |}
  | None => Raise DUMMY_ERROR s
  end.
Proof.
  unfold NORMALIZE_CHECK, normalized. destruct s as [range code buf]; cbn.
  destruct (range <? kTopValue); [|reflexivity].
  destruct (zlookup inp buf); reflexivity.
Qed.

Section Lockstep.

(** The decoder at entry, the input of the real decoder, and the count of
    its bytes that [TryDummy] may look at. *)
Variables (this : DecoderCore.t) (inp : list Z) (n : Z).

Hypothesis Hn : 0 <= n <= Z.of_nat (length inp).

Definition dummy_inp : list Z := take (Z.to_nat n) inp.

(** The registers that [TryDummy] copies. *)
Definition proj (r : L.t) : D.t :=
  {| D.range := L.range r; D.code := L.code r; D.buf := L.buf r |}.

Lemma zlookup_dummy_inp i :
  zlookup dummy_inp i = if i <? n then zlookup inp i else None.
Proof.
  unfold zlookup, dummy_inp. destruct (Z.ltb_spec i 0); [destruct (i <? n); reflexivity|].
  destruct (Z.ltb_spec i n).
  - apply lookup_take_lt. lia.
  - apply lookup_take_ge. lia.
Qed.

Lemma normalized_dummy range code buf :
  buf <= n ->
  match normalized inp range code buf with
  | Some (r', c', b') =>
      buf <= b' /\
      normalized dummy_inp range code buf = if b' <=? n then Some (r', c', b') else None
  | None => normalized dummy_inp range code buf = None
  end.
Proof.
  intros Hb. unfold normalized. rewrite zlookup_dummy_inp.
  destruct (range <? kTopValue).
  - destruct (Z.ltb_spec buf n).
    + destruct (zlookup inp buf); [|reflexivity]. split; [lia|].
      destruct (Z.leb_spec (buf + 1) n); [reflexivity | lia].
    + destruct (zlookup inp buf); [|reflexivity]. split; [lia|].
      destruct (Z.leb_spec (buf + 1) n); [lia | reflexivity].
  - split; [lia|]. destruct (Z.leb_spec buf n); [reflexivity | lia].
Qed.

(** The outcome of the dummy run [m'] from the registers of [r], when the
    real run went from [r] to [r']: the same registers and a value that
    satisfies [Q] if the real run stayed within the first [n] bytes, the
    early return [DUMMY_ERROR] otherwise. *)
Definition dstep {A'} (m' : M Dummy D.t A') (r r' : L.t) (Q : A' -> Prop) : Prop :=
  if L.buf r' <=? n then exists a', m' (proj r) = Ok a' (proj r') /\ Q a'
  else exists s, m' (proj r) = Raise DUMMY_ERROR s.

(** [m] and [m'] in lockstep from the states that satisfy [P]. *)
Definition lock {A A'} (P : L.t -> Prop) (m : M exn L.t A) (m' : M Dummy D.t A')
    (Q : A -> L.t -> A' -> Prop) : Prop :=
  forall r, P r -> L.buf r <= n ->
    match m r with
    | Ok a r' => dstep m' r r' (Q a r')
    | Raise _ _ => True
    | Fault f => f = BufOverrun -> exists s, m' (proj r) = Raise DUMMY_ERROR s
    end.

Lemma lock_bind {A A' B B'} P (m : M exn L.t A) (m' : M Dummy D.t A') Q1
    (k : A -> M exn L.t B) (k' : A' -> M Dummy D.t B') Q :
  lock P m m' Q1 ->
  (forall a a', lock (fun r => Q1 a r a') (k a) (k' a') Q) ->
  (forall a, preserves buf_le (k a)) ->
  lock P (bind m k) (bind m' k') Q.
Proof.
  intros Hm Hk Hmono r HP Hb. specialize (Hm r HP Hb). unfold bind at 1.
  destruct (m r) as [a r1 | e r1 | f].
  - unfold dstep in Hm. destruct (Z.leb_spec (L.buf r1) n) as [Hb1 | Hb1].
    + destruct Hm as (a' & Hm' & HQ1). specialize (Hk a a' r1 HQ1 Hb1).
      destruct (k a r1) as [b r2 | e r2 | f].
      * unfold dstep in *. unfold bind. rewrite Hm'. exact Hk.
      * exact I.
      * intros Hf. unfold bind. rewrite Hm'. exact (Hk Hf).
    + destruct Hm as (s & Hm'). specialize (Hmono a r1).
      destruct (k a r1) as [b r2 | e r2 | f].
      * unfold dstep. unfold buf_le in Hmono.
        destruct (Z.leb_spec (L.buf r2) n); [lia|]. exists s. unfold bind. rewrite Hm'.
        reflexivity.
      * exact I.
      * intros _. exists s. unfold bind. rewrite Hm'. reflexivity.
  - exact I.
  - intros Hf. destruct (Hm Hf) as [s Hs]. exists s. unfold bind. rewrite Hs. reflexivity.
Qed.

Lemma lock_pre {A A'} (P P' : L.t -> Prop) (m : M exn L.t A) (m' : M Dummy D.t A') Q :
  (forall r, P r -> P' r) -> lock P' m m' Q -> lock P m m' Q.
Proof. intros HP H r Hr. apply H, HP, Hr. Qed.

Lemma lock_post {A A'} P (m : M exn L.t A) (m' : M Dummy D.t A') (Q Q' : A -> L.t -> A' -> Prop) :
  (forall a r a', Q a r a' -> Q' a r a') -> lock P m m' Q -> lock P m m' Q'.
Proof.
  intros HQ H r Hr Hb. specialize (H r Hr Hb). destruct (m r) as [a r1 | |]; auto.
  unfold dstep in *. destruct (_ <=? _); [|exact H].
  destruct H as (a' & H1 & H2). exists a'. split; [exact H1 | apply HQ, H2].
Qed.

Lemma lock_ext {A A'} P (m1 m2 : M exn L.t A) (m1' m2' : M Dummy D.t A') Q :
  (forall r, m1 r = m2 r) -> (forall s, m1' s = m2' s) -> lock P m2 m2' Q -> lock P m1 m1' Q.
Proof.
  intros H1 H2 H r Hr Hb. specialize (H r Hr Hb). rewrite H1.
  destruct (m2 r) as [a r1 | |]; auto.
  - unfold dstep in *. rewrite H2. exact H.
  - rewrite H2. exact H.
Qed.

Lemma lock_ret {A A'} (P : L.t -> Prop) (a : A) (a' : A') (Q : A -> L.t -> A' -> Prop) :
  (forall r, P r -> Q a r a') -> lock P (ret a) (ret a') Q.
Proof.
  intros H r Hr Hb. unfold ret, dstep. destruct (Z.leb_spec (L.buf r) n); [|lia].
  exists a'. split; [reflexivity | apply H, Hr].
Qed.

(** A step of the real decoder that leaves the registers alone. *)
Definition quiet {A} (P : L.t -> Prop) (m : M exn L.t A) (P1 : A -> L.t -> Prop) : Prop :=
  forall r, P r ->
    match m r with
    | Ok a r1 => proj r1 = proj r /\ P1 a r1
    | Raise _ _ => True
    | Fault f => f <> BufOverrun
    end.

Lemma proj_buf r r' : proj r' = proj r -> L.buf r' = L.buf r.
Proof. unfold proj. intros H. inversion H. reflexivity. Qed.

Lemma lock_quiet {A B B'} P (m0 : M exn L.t A) P1 (k : A -> M exn L.t B)
    (m' : M Dummy D.t B') Q :
  quiet P m0 P1 -> (forall a, lock (P1 a) (k a) m' Q) -> lock P (bind m0 k) m' Q.
Proof.
  intros H0 Hk r Hr Hb. specialize (H0 r Hr). unfold bind.
  destruct (m0 r) as [a r1 | e r1 | f]; [|exact I | intros ->; contradiction].
  destruct H0 as [Hp HP1]. pose proof (proj_buf _ _ Hp) as Hb1.
  specialize (Hk a r1 HP1 ltac:(lia)). unfold dstep in *. rewrite Hp in Hk. exact Hk.
Qed.

(** The same after the dummy run has ended. *)
Lemma lock_quiet_end {A A'} P (m : M exn L.t A) P1 (a' : A') (Q : A -> L.t -> A' -> Prop) :
  quiet P m P1 -> (forall a r, P1 a r -> Q a r a') -> lock P m (ret a') Q.
Proof.
  intros H0 HQ r Hr Hb. specialize (H0 r Hr).
  destruct (m r) as [a r1 | e r1 | f]; [|exact I | intros ->; contradiction].
  destruct H0 as [Hp HP1]. unfold dstep. rewrite (proj_buf _ _ Hp), Hp.
  destruct (Z.leb_spec (L.buf r) n); [|lia]. exists a'. split; [reflexivity | apply HQ, HP1].
Qed.

Lemma quiet_bind {A B} P (m : M exn L.t A) P1 (k : A -> M exn L.t B) P2 :
  quiet P m P1 -> (forall a, quiet (P1 a) (k a) P2) -> quiet P (bind m k) P2.
Proof.
  intros Hm Hk r Hr. specialize (Hm r Hr). unfold bind.
  destruct (m r) as [a r1 | e r1 | f]; [|exact I | exact Hm].
  destruct Hm as [Hp HP1]. specialize (Hk a r1 HP1).
  destruct (k a r1) as [b r2 | e r2 | f]; [|exact I | exact Hk].
  destruct Hk as [Hp2 HP2]. split; [congruence | exact HP2].
Qed.

Lemma quiet_ret {A} (P : L.t -> Prop) (a : A) (P1 : A -> L.t -> Prop) :
  (forall r, P r -> P1 a r) -> quiet P (ret a) P1.
Proof. intros H r Hr. split; [reflexivity | apply H, Hr]. Qed.

Lemma quiet_get (P : L.t -> Prop) (P1 : L.t -> L.t -> Prop) :
  (forall r, P r -> P1 r r) -> quiet P get P1.
Proof. intros H r Hr. split; [reflexivity | apply H, Hr]. Qed.

Lemma quiet_gets {A} (P : L.t -> Prop) (f : L.t -> A) (P1 : A -> L.t -> Prop) :
  (forall r, P r -> P1 (f r) r) -> quiet P (gets f) P1.
Proof. intros H r Hr. split; [reflexivity | apply H, Hr]. Qed.

Lemma quiet_modify (P : L.t -> Prop) (f : L.t -> L.t) (P1 : unit -> L.t -> Prop) :
  (forall r, proj (f r) = proj r) -> (forall r, P r -> P1 tt (f r)) -> quiet P (modify f) P1.
Proof. intros Hf H r Hr. split; [apply Hf | apply H, Hr]. Qed.

Lemma quiet_raise {A} (P : L.t -> Prop) (e : exn) (P1 : A -> L.t -> Prop) :
  quiet P (raise e) P1.
Proof. intros r Hr. exact I. Qed.

(** The loops: the same fuel, bodies in lockstep. *)
Lemma lock_do_while {A A'} (Rel : A -> A' -> Prop) (Inv Qx : A -> L.t -> Prop)
    (body : A -> M exn L.t (A * bool)) (body' : A' -> M Dummy D.t (A' * bool)) :
  (forall a a', Rel a a' ->
     lock (Inv a) (body a) (body' a')
       (fun res r' res' => snd res' = snd res /\ Rel (fst res) (fst res') /\
                           if snd res then Inv (fst res) r' else Qx (fst res) r')) ->
  (forall a, preserves buf_le (body a)) ->
  forall fuel a a', Rel a a' ->
    lock (Inv a) (do_while fuel body a) (do_while fuel body' a')
      (fun a2 r' a2' => Rel a2 a2' /\ Qx a2 r').
Proof.
  intros Hbody Hmono fuel. induction fuel as [|fuel IH]; intros a a' Hrel.
  - intros r Hr Hb. cbn. intros H. discriminate H.
  - cbn [do_while]. eapply lock_bind; [apply Hbody, Hrel | |].
    + intros [a2 c] [a2' c']. cbn [fst snd].
      intros r (Hc & Hr2 & Hi) Hb. subst c'. destruct c.
      * exact (IH a2 a2' Hr2 r Hi Hb).
      * apply (lock_ret (fun r => Qx a2 r)); [|exact Hi | exact Hb]. auto.
    + intros [a2 []]; cbn [fst snd]; [|apply preserves_ret; apply buf_le_refl].
      apply preserves_do_while; [exact buf_le_refl | exact buf_le_trans | exact Hmono].
Qed.

(** *** The bits *)

(** The probabilities outside [S] are the ones of the object at entry: the
    real decoder has written inside [S] only. *)
Definition agree (S : Z -> Prop) (r : L.t) : Prop :=
  forall x, ~ S x -> zlookup (L.probs r) x = zlookup (DecoderCore.m_probs this) x.

(** The state of the real decoder inside a symbol: the counters written so
    far, [range] in 32 bits, and the other locals as in [r0]. *)
Definition St (S : Z -> Prop) (r0 r : L.t) : Prop :=
  agree S r /\ 0 <= L.range r < 2 ^ 32 /\ ctx r = ctx r0.

Lemma St_mono (S S' : Z -> Prop) r0 r : (forall y, S y -> S' y) -> St S r0 r -> St S' r0 r.
Proof.
  intros HS (Ha & Hr & Hc). split; [|split; assumption].
  intros x Hx. apply Ha. intros Hs. apply Hx, HS, Hs.
Qed.

Lemma GET_BIT2_CHECK_eq inp' x i s :
  (NORMALIZE_CHECK inp';; GET_BIT2_CHECK this x i) s =
  match normalized inp' (D.range s) (D.code s) (D.buf s) with
  | None => Raise DUMMY_ERROR s
  | Some (range, code, buf) =>
      match zlookup (DecoderCore.m_probs this) x with
      | None => Fault ProbIndex
      | Some p =>
          let bound := u32 (Z.shiftr range kNumBitModelTotalBits * p) in
          if code <? bound then
            Ok (u32 (i + i), false) {| D.range := bound; D.code := code; D.buf := buf |}
          else
            Ok (u32 (i + i + 1), true)
               {| D.range := u32 (range - bound); D.code := u32 (code - bound); D.buf := buf |}
      end
  end.
Proof.
  unfold bind at 1. rewrite NORMALIZE_CHECK_eq.
  destruct (normalized inp' _ _ _) as [[[range code] buf]|]; [|reflexivity].
  unfold GET_BIT2_CHECK, bit0Check, bind at 1. cbn [D.range D.code D.buf].
  destruct (zlookup _ x) as [p|]; [|reflexivity]. cbn [snd fst]. cbv zeta.
  destruct (code <? _); reflexivity.
Qed.

Lemma normalized_u32 inp' range code buf r' c' b' :
  0 <= range < 2 ^ 32 -> normalized inp' range code buf = Some (r', c', b') ->
  0 <= r' < 2 ^ 32.
Proof.
  unfold normalized. intros Hr. destruct (_ <? _).
  - destruct (zlookup _ _); [|discriminate]. intros H. inversion H. apply u32_range.
  - intros H. inversion H. subst. exact Hr.
Qed.

(** The values of a decoded bit. *)
Definition bit_of (i : Z) (g : Z * bool) : Prop :=
  g = (u32 (i + i), false) \/ g = (u32 (i + i + 1), true).

(** One counter bit. *)
Lemma GET_BIT2_lock (S : Z -> Prop) r0 x i :
  ~ S x ->
  lock (St S r0) (GET_BIT2 inp x i) (NORMALIZE_CHECK dummy_inp;; GET_BIT2_CHECK this x i)
    (fun g r' g' => g' = g /\ bit_of i g /\ St (fun y => S y \/ y = x) r0 r').
Proof.
  intros Hx r (Ha & Hr & Hc) Hb. unfold dstep. rewrite GET_BIT2_eq.
  pose proof (GET_BIT2_CHECK_eq dummy_inp x i (proj r)) as ->.
  cbn [proj D.range D.code D.buf].
  rewrite <- (Ha x Hx).
  destruct (zlookup (L.probs r) x) as [p|] eqn:Hp; [|intros H; discriminate H].
  pose proof (normalized_dummy (L.range r) (L.code r) (L.buf r) Hb) as Hnd.
  pose proof (normalized_u32 inp (L.range r) (L.code r) (L.buf r)) as Hnr.
  destruct (normalized inp _ _ _) as [[[range code] buf]|];
    [|intros _; rewrite Hnd; eexists; reflexivity].
  destruct Hnd as [Hb' Hnd]. rewrite Hnd. specialize (Hnr _ _ _ Hr eq_refl). cbv zeta.
  assert (Hagree : forall v r', L.probs r' = <[Z.to_nat x := v]> (L.probs r) ->
                     agree (fun y => S y \/ y = x) r').
  { intros v r' Hr' y Hy. rewrite Hr', zlookup_insert_ne.
    - apply Ha. tauto.
    - eapply zlookup_nonneg. exact Hp.
    - intros ->. tauto. }
  destruct (Z.leb_spec buf n) as [Hle|Hgt].
  - destruct (code <? _); cbn [with_rc L.buf L.range L.code];
      (apply Z.leb_le in Hle; rewrite Hle); (eexists; split; [reflexivity|]);
      (split; [reflexivity|]);
      (split; [unfold bit_of; auto|]);
      (split; [eapply Hagree; reflexivity | split; [apply u32_range | exact Hc]]).
  - destruct (code <? _); cbn [with_rc L.buf L.range L.code];
      (apply Z.leb_gt in Hgt; rewrite Hgt); eexists; reflexivity.
Qed.

(** A counter bit and what follows. *)
Lemma bit_lock {B B'} (S : Z -> Prop) r0 x i (k : Z * bool -> M exn L.t B)
    (k' : Z * bool -> M Dummy D.t B') Q :
  ~ S x ->
  (forall g, bit_of i g -> lock (St (fun y => S y \/ y = x) r0) (k g) (k' g) Q) ->
  (forall g, preserves buf_le (k g)) ->
  lock (St S r0) (let* g := GET_BIT2 inp x i in k g)
    (NORMALIZE_CHECK dummy_inp;; let* g := GET_BIT2_CHECK this x i in k' g) Q.
Proof.
  intros Hx Hk Hmono.
  apply (lock_ext _ _ (let* g := GET_BIT2 inp x i in k g) _
           (let* g := (NORMALIZE_CHECK dummy_inp;; GET_BIT2_CHECK this x i) in k' g));
    [reflexivity | intros s; symmetry; apply bind_assoc |].
  eapply lock_bind; [apply GET_BIT2_lock, Hx | | exact Hmono].
  intros g g' r (-> & Hg & HSt). exact (Hk g Hg r HSt).
Qed.

Lemma GET_BIT_lock {B B'} (S : Z -> Prop) r0 x i (k : Z -> M exn L.t B)
    (k' : Z -> M Dummy D.t B') Q :
  ~ S x ->
  (forall i', i' = u32 (i + i) \/ i' = u32 (i + i + 1) ->
     lock (St (fun y => S y \/ y = x) r0) (k i') (k' i') Q) ->
  (forall i', preserves buf_le (k i')) ->
  lock (St S r0) (let* i' := GET_BIT inp x i in k i')
    (NORMALIZE_CHECK dummy_inp;; let* i' := GET_BIT_CHECK this x i in k' i') Q.
Proof.
  intros Hx Hk Hmono.
  apply (lock_ext _ _ (let* g := GET_BIT2 inp x i in k (fst g)) _
           (NORMALIZE_CHECK dummy_inp;; let* g := GET_BIT2_CHECK this x i in k' (fst g))).
  - intros r. unfold GET_BIT. apply bind_assoc.
  - intros s. unfold GET_BIT_CHECK. apply bind_ext. intros _ s'. apply bind_assoc.
  - apply bit_lock; [exact Hx | | intros g; apply Hmono].
    intros g Hg. apply Hk. destruct Hg as [-> | ->]; cbn; auto.
Qed.

(** The pattern of every probability-driven branch. *)
Lemma bit0Check_branch_eq {A} inp' x (k0 k1 : M Dummy D.t A) s :
  (NORMALIZE_CHECK inp';;
   let* c := bit0Check this x in
   if snd c then UPDATE_0_CHECK (fst c);; k0 else UPDATE_1_CHECK (fst c);; k1) s =
  (NORMALIZE_CHECK inp';;
   let* g := GET_BIT2_CHECK this x 0 in if snd g then k1 else k0) s.
Proof.
  apply bind_ext. intros _ s'. unfold GET_BIT2_CHECK. rewrite bind_assoc.
  apply bind_ext. intros c s''. destruct (snd c); reflexivity.
Qed.

Lemma flag_lock {B B'} (S : Z -> Prop) r0 x (k0 k1 : M exn L.t B)
    (k0' k1' : M Dummy D.t B') Q :
  ~ S x ->
  lock (St (fun y => S y \/ y = x) r0) k0 k0' Q ->
  lock (St (fun y => S y \/ y = x) r0) k1 k1' Q ->
  preserves buf_le k0 -> preserves buf_le k1 ->
  lock (St S r0)
    (let* b := isBit0 inp x in if b then UPDATE_0 x;; k0 else UPDATE_1 x;; k1)
    (NORMALIZE_CHECK dummy_inp;;
     let* c := bit0Check this x in
     if snd c then UPDATE_0_CHECK (fst c);; k0' else UPDATE_1_CHECK (fst c);; k1') Q.
Proof.
  intros Hx H0 H1 Hm0 Hm1.
  eapply lock_ext; [intros r; apply isBit0_branch_eq | intros s; apply bit0Check_branch_eq |].
  apply bit_lock; [exact Hx | | intros g; destruct (snd g); assumption].
  intros g _. destruct (snd g); assumption.
Qed.

(** The two forms of the fixed-probability bit give the same [code]. *)
Lemma direct_code_eq range1 code :
  0 <= range1 < 2 ^ 32 ->
  let code1 := u32 (code - range1) in
  u32 (code1 + Z.land range1 (u32 (0 - Z.shiftr code1 31))) =
  u32 (code - Z.land range1 (u32 (Z.shiftr code1 31 - 1))).
Proof.
  intros Hr code1. pose proof (u32_range (code - range1)) as Hc. fold code1 in Hc.
  assert (Hs : Z.shiftr code1 31 = 0 \/ Z.shiftr code1 31 = 1).
  { rewrite Z.shiftr_div_pow2 by lia.
    assert (0 <= code1 / 2 ^ 31 < 2); [|lia].
    split; [apply Z.div_pos; lia | apply Z.div_lt_upper_bound; lia]. }
  assert (Hones : Z.land range1 (u32 (-1)) = range1).
  { change (u32 (-1)) with (Z.ones 32). rewrite Z.land_ones by lia.
    apply Z.mod_small. exact Hr. }
  destruct Hs as [-> | ->].
  - change (u32 (0 - 0)) with 0. change (0 - 1) with (-1). rewrite Hones, Z.land_0_r.
    rewrite Z.add_0_r. unfold code1, u32. rewrite Z.mod_mod by lia. reflexivity.
  - change (0 - 1) with (-1). change (u32 (1 - 1)) with 0. rewrite Hones, Z.land_0_r.
    rewrite Z.sub_0_r. unfold code1, u32. rewrite Zplus_mod_idemp_l. f_equal. lia.
Qed.

Lemma shiftr_1_range x : 0 <= x < 2 ^ 32 -> 0 <= Z.shiftr x 1 < 2 ^ 32.
Proof.
  intros H. rewrite Z.shiftr_div_pow2 by lia. change (2 ^ 1) with 2.
  split; [apply Z.div_pos; lia | apply Z.div_lt_upper_bound; lia].
Qed.

Lemma direct_check_eq inp' s :
  (NORMALIZE_CHECK inp';;
   modify (fun r => D.set_range (Z.shiftr (D.range r) 1) r);;
   modify (fun r => D.set_code
     (u32 (D.code r - Z.land (D.range r)
                         (u32 (Z.shiftr (u32 (D.code r - D.range r)) 31 - 1)))) r)) s =
  match normalized inp' (D.range s) (D.code s) (D.buf s) with
  | None => Raise DUMMY_ERROR s
  | Some (range, code, buf) =>
      let range1 := Z.shiftr range 1 in
      Ok tt {| D.range := range1;
               D.code := u32 (code - Z.land range1
                                       (u32 (Z.shiftr (u32 (code - range1)) 31 - 1)));
               D.buf := buf |}
  end.
Proof.
  unfold bind at 1. rewrite NORMALIZE_CHECK_eq.
  destruct (normalized inp' _ _ _) as [[[range code] buf]|]; reflexivity.
Qed.

(** One fixed-probability bit. *)
Lemma direct_bit_lock (S : Z -> Prop) r0 d :
  lock (St S r0) (direct_bit inp d)
    (NORMALIZE_CHECK dummy_inp;;
     modify (fun r => D.set_range (Z.shiftr (D.range r) 1) r);;
     modify (fun r => D.set_code
       (u32 (D.code r - Z.land (D.range r)
                           (u32 (Z.shiftr (u32 (D.code r - D.range r)) 31 - 1)))) r))
    (fun _ r' _ => St S r0 r').
Proof.
  intros r (Ha & Hr & Hc) Hb. unfold dstep. rewrite direct_bit_eq.
  pose proof (direct_check_eq dummy_inp (proj r)) as ->.
  cbn [proj D.range D.code D.buf].
  pose proof (normalized_dummy (L.range r) (L.code r) (L.buf r) Hb) as Hnd.
  pose proof (normalized_u32 inp (L.range r) (L.code r) (L.buf r)) as Hnr.
  destruct (normalized inp _ _ _) as [[[range code] buf]|];
    [|intros _; rewrite Hnd; eexists; reflexivity].
  destruct Hnd as [Hb' Hnd]. rewrite Hnd. specialize (Hnr _ _ _ Hr eq_refl). cbv zeta.
  cbn [with_rc L.buf].
  destruct (Z.leb_spec buf n) as [Hle|Hgt]; [|eexists; reflexivity].
  exists tt. split.
  - cbn [proj with_rc L.range L.code L.buf].
    rewrite (direct_code_eq (Z.shiftr range 1) code (shiftr_1_range _ Hnr)). reflexivity.
  - split; [exact Ha | split; [apply shiftr_1_range, Hnr | exact Hc]].
Qed.

Lemma direct_lock {B B'} (S : Z -> Prop) r0 d (k : Z -> M exn L.t B) (k' : M Dummy D.t B') Q :
  (forall d', lock (St S r0) (k d') k' Q) ->
  (forall d', preserves buf_le (k d')) ->
  lock (St S r0) (let* d' := direct_bit inp d in k d')
    (NORMALIZE_CHECK dummy_inp;;
     modify (fun r => D.set_range (Z.shiftr (D.range r) 1) r);;
     modify (fun r => D.set_code
       (u32 (D.code r - Z.land (D.range r)
                           (u32 (Z.shiftr (u32 (D.code r - D.range r)) 31 - 1)))) r);;
     k') Q.
Proof.
  intros Hk Hmono.
  apply (lock_ext _ _ (let* d' := direct_bit inp d in k d') _
           ((NORMALIZE_CHECK dummy_inp;;
             modify (fun r => D.set_range (Z.shiftr (D.range r) 1) r);;
             modify (fun r => D.set_code
               (u32 (D.code r - Z.land (D.range r)
                                   (u32 (Z.shiftr (u32 (D.code r - D.range r)) 31 - 1)))) r));;
            k'));
    [reflexivity
    |intros s; unfold bind; destruct (NORMALIZE_CHECK dummy_inp s); reflexivity|].
  eapply lock_bind; [apply direct_bit_lock | | exact Hmono].
  intros d' _ r HSt. exact (Hk d' r HSt).
Qed.

(** A read of the dictionary, which is still as at entry. *)
Lemma dic_read_lock {B B'} (S : Z -> Prop) r0 i (k : Z -> M exn L.t B)
    (k' : Z -> M Dummy D.t B') Q :
  L.dic r0 = mem (DecoderCore.m_dic this) ->
  (forall b, lock (St S r0) (k b) (k' b) Q) ->
  lock (St S r0) (let* b := dic_read this i in k b) (let* b := this_dic_read this i in k' b) Q.
Proof.
  intros Hdic Hk r HSt Hb. unfold bind at 1, dic_read.
  assert (Hd : L.dic r = mem (DecoderCore.m_dic this)).
  { destruct HSt as (_ & _ & Hc). unfold ctx in Hc. inversion Hc. congruence. }
  unfold dicBufSize. rewrite Hd.
  destruct (_ && _) eqn:Hin; [|intros H; discriminate H].
  destruct (zlookup _ i) as [b|] eqn:Hl; [|intros H; discriminate H].
  specialize (Hk b r HSt Hb).
  assert (He : forall s, (let* b := this_dic_read this i in k' b) s = k' b s).
  { intros s. unfold bind, this_dic_read. rewrite Hin, Hl. reflexivity. }
  destruct (k b r) as [a r1 | |]; [|exact I|].
  - unfold dstep in *. rewrite He. exact Hk.
  - rewrite He. exact Hk.
Qed.

Lemma lock_pure {A A'} (P : L.t -> Prop) (G : Prop) (m : M exn L.t A) (m' : M Dummy D.t A') Q :
  (G -> lock P m m' Q) -> lock (fun r => P r /\ G) m m' Q.
Proof. intros H r [Hr HG]. exact (H HG r Hr). Qed.

(** *** The bit trees *)

(** The loop of [TREE_DECODE] and of the plain literal. *)
Lemma tree_loop_lock (S : Z -> Prop) r0 p lim fuel :
  1 < lim <= 2 ^ 31 ->
  (forall y, p < y < p + lim -> ~ S y) ->
  lock (St S r0)
    (do_while fuel (fun i => let* i' := GET_BIT inp (p + i) i in ret (i', i' <? lim)) 1)
    (do_while fuel (fun i => NORMALIZE_CHECK dummy_inp;;
                             let* i' := GET_BIT_CHECK this (p + i) i in
                             ret (i', i' <? lim)) 1)
    (fun v r' v' => v' = v /\ lim <= v < 2 * lim /\
                    St (fun y => S y \/ p < y < p + lim) r0 r').
Proof.
  intros Hlim HS.
  pose (Inv := fun (i : Z) r => St (fun y => S y \/ p < y < p + i) r0 r /\ 1 <= i < lim).
  pose (Qx := fun (i : Z) r => St (fun y => S y \/ p < y < p + lim) r0 r /\ lim <= i < 2 * lim).
  apply (lock_pre _ (Inv 1)).
  { intros r Hr. split; [|lia]. eapply St_mono; [|exact Hr]. auto. }
  eapply lock_post; [|apply (lock_do_while eq Inv Qx)].
  - intros v r v' (-> & HSt & Hv). auto.
  - intros i i' <-. unfold Inv at 1. apply lock_pure. intros Hi.
    apply GET_BIT_lock.
    + intros [Hs | Hs]; [apply (HS (p + i)); [lia | exact Hs] | lia].
    + intros i2 Hi2. apply lock_ret. intros r Hr. cbn [fst snd].
      split; [reflexivity|]. split; [reflexivity|].
      assert (Hv : i2 = i + i \/ i2 = i + i + 1).
      { destruct Hi2 as [-> | ->]; rewrite u32_small by lia; auto. }
      destruct (Z.ltb_spec i2 lim).
      * split; [|lia]. eapply St_mono; [|exact Hr]. cbv beta.
        intros y [[Hs | Hy] | Hy]; [left; exact Hs | right; lia | right; lia].
      * split; [|lia]. eapply St_mono; [|exact Hr]. cbv beta.
        intros y [[Hs | Hy] | Hy]; [left; exact Hs | right; lia | right; lia].
    + intros i2. apply preserves_ret. apply buf_le_refl.
  - intros i. mono_tac.
  - reflexivity.
Qed.

Lemma TREE_DECODE_lock (S : Z -> Prop) r0 p lim :
  1 < lim <= 2 ^ 31 ->
  (forall y, p < y < p + lim -> ~ S y) ->
  lock (St S r0) (TREE_DECODE inp p lim) (TREE_DECODE_CHECK this dummy_inp p lim)
    (fun v r' v' => v' = v /\ 0 <= v < lim /\ St (fun y => S y \/ p < y < p + lim) r0 r').
Proof.
  intros Hlim HS. unfold TREE_DECODE, TREE_DECODE_CHECK.
  eapply lock_bind; [apply (tree_loop_lock S r0 p lim 32 Hlim HS) | |].
  - intros v v'. apply lock_ret. intros r (-> & Hv & Hr).
    split; [reflexivity|]. split; [|exact Hr]. rewrite u32_small; lia.
  - intros v. apply preserves_ret, buf_le_refl.
Qed.

Lemma lock_pure' {A A'} (P : L.t -> Prop) (G : Prop) (m : M exn L.t A) (m' : M Dummy D.t A') Q :
  (G -> lock P m m' Q) -> lock (fun r => G /\ P r) m m' Q.
Proof. intros H r [HG Hr]. exact (H HG r Hr). Qed.

(** *** The locals *)

(** An assignment to locals that the range decoder does not use, computed
    from such locals. *)
Definition locals_fn (f : L.t -> L.t) : Prop :=
  (forall r, proj (f r) = proj r) /\ (forall r, L.probs (f r) = L.probs r) /\
  (forall r1 r2, ctx r1 = ctx r2 -> ctx (f r1) = ctx (f r2)).

Lemma St_locals (S : Z -> Prop) r0 f r : locals_fn f -> St S r0 r -> St S (f r0) (f r).
Proof.
  intros (Hp & Hpr & Hc) (Ha & Hr & Hx). split; [|split].
  - intros x Hx'. rewrite Hpr. apply Ha, Hx'.
  - pose proof (Hp r) as H. unfold proj in H. inversion H as [[H1 H2 H3]]. rewrite H1. exact Hr.
  - apply Hc, Hx.
Qed.

Lemma quiet_locals (S : Z -> Prop) r0 f :
  locals_fn f -> quiet (St S r0) (modify f) (fun _ r => St S (f r0) r).
Proof.
  intros Hf r Hr. split; [apply Hf | apply St_locals; assumption].
Qed.

Lemma modify_lock {B B'} (S : Z -> Prop) r0 f (k : M exn L.t B) (m' : M Dummy D.t B') Q :
  locals_fn f -> lock (St S (f r0)) k m' Q -> lock (St S r0) (modify f;; k) m' Q.
Proof.
  intros Hf Hk. eapply lock_quiet; [apply quiet_locals, Hf | intros u; exact Hk].
Qed.

Lemma modify_lock_end {A'} (S : Z -> Prop) r0 f (a' : A') (Q : unit -> L.t -> A' -> Prop) :
  locals_fn f -> (forall r, St S (f r0) r -> Q tt r a') -> lock (St S r0) (modify f) (ret a') Q.
Proof.
  intros Hf HQ. eapply lock_quiet_end; [apply quiet_locals, Hf|].
  intros u r Hr. destruct u. apply HQ. exact Hr.
Qed.

Lemma ret_bind_lock {A A' B B'} P (a : A) (a' : A') (k : A -> M exn L.t B)
    (k' : A' -> M Dummy D.t B') Q :
  lock P (k a) (k' a') Q -> lock P (bind (ret a) k) (bind (ret a') k') Q.
Proof. intros H. exact H. Qed.

(** The branches with what follows them. *)
Lemma flag_lock_k {C C' B B'} (S : Z -> Prop) r0 x (a0 a1 : M exn L.t C)
    (a0' a1' : M Dummy D.t C') (K : C -> M exn L.t B) (K' : C' -> M Dummy D.t B') Q :
  ~ S x ->
  lock (St (fun y => S y \/ y = x) r0) (bind a0 K) (bind a0' K') Q ->
  lock (St (fun y => S y \/ y = x) r0) (bind a1 K) (bind a1' K') Q ->
  preserves buf_le (bind a0 K) -> preserves buf_le (bind a1 K) ->
  lock (St S r0)
    (let* b := isBit0 inp x in
     let* c := if b then UPDATE_0 x;; a0 else UPDATE_1 x;; a1 in K c)
    (NORMALIZE_CHECK dummy_inp;;
     let* c := bit0Check this x in
     let* v := if snd c then UPDATE_0_CHECK (fst c);; a0' else UPDATE_1_CHECK (fst c);; a1' in
     K' v) Q.
Proof.
  intros Hx H0 H1 Hm0 Hm1.
  eapply lock_ext; [| |apply (flag_lock S r0 x (bind a0 K) (bind a1 K) (bind a0' K')
                                (bind a1' K') Q Hx H0 H1 Hm0 Hm1)].
  - intros r. apply bind_ext. intros [] r'; apply bind_assoc.
  - intros s. apply bind_ext. intros _ s'. apply bind_ext. intros c s''.
    destruct (snd c); apply bind_assoc.
Qed.

Lemma flag_lock_b {C C' B B'} (S : Z -> Prop) r0 x (a0 a1 : M exn L.t C)
    (a0' a1' : M Dummy D.t C') (K : C -> M exn L.t B) (K' : C' -> M Dummy D.t B') Q :
  ~ S x ->
  lock (St (fun y => S y \/ y = x) r0) (bind a0 K) (bind a0' K') Q ->
  lock (St (fun y => S y \/ y = x) r0) (bind a1 K) (bind a1' K') Q ->
  preserves buf_le (bind a0 K) -> preserves buf_le (bind a1 K) ->
  lock (St S r0)
    (bind (let* b := isBit0 inp x in if b then UPDATE_0 x;; a0 else UPDATE_1 x;; a1) K)
    (bind (NORMALIZE_CHECK dummy_inp;;
           let* c := bit0Check this x in
           if snd c then UPDATE_0_CHECK (fst c);; a0' else UPDATE_1_CHECK (fst c);; a1') K') Q.
Proof.
  intros Hx H0 H1 Hm0 Hm1.
  eapply lock_ext; [| |apply (flag_lock_k S r0 x a0 a1 a0' a1' K K' Q Hx H0 H1 Hm0 Hm1)].
  - intros r. apply bind_assoc.
  - intros s. rewrite bind_assoc. apply bind_ext. intros _ s'. apply bind_assoc.
Qed.

Ltac locals_tac :=
  split; [intros ?; reflexivity | split; [intros ?; reflexivity|]];
  let r1 := fresh in let r2 := fresh in let H := fresh in
  intros r1 r2 H; apply ctx_fields in H;
  destruct H as (? & ? & ? & ? & ? & ? & ? & ? & ?);
  unfold ctx; cbn;
  repeat match goal with Heq : L.state _ = _ |- _ => rewrite Heq; clear Heq
                    | Heq : L.rep0 _ = _ |- _ => rewrite Heq; clear Heq
                    | Heq : L.rep1 _ = _ |- _ => rewrite Heq; clear Heq
                    | Heq : L.rep2 _ = _ |- _ => rewrite Heq; clear Heq
                    | Heq : L.rep3 _ = _ |- _ => rewrite Heq; clear Heq
                    | Heq : L.dicPos _ = _ |- _ => rewrite Heq; clear Heq
                    | Heq : L.processedPos _ = _ |- _ => rewrite Heq; clear Heq
                    | Heq : L.len _ = _ |- _ => rewrite Heq; clear Heq
                    | Heq : L.dic _ = _ |- _ => rewrite Heq; clear Heq end;
  reflexivity.

(** *** The length *)

Lemma decode_len_lock (S : Z -> Prop) r0 prob posState :
  0 <= posState < 16 ->
  (forall y, prob <= y < prob + kNumLenProbs -> ~ S y) ->
  lock (St S r0) (decode_len inp prob posState) (TryDummy_len this dummy_inp prob posState)
    (fun _ r' len' =>
       0 <= len' < 272 /\
       St (fun y => S y \/ prob <= y < prob + kNumLenProbs) (L.set_len len' r0) r').
Proof.
  intros Hps HS. unfold decode_len, TryDummy_len. cbv zeta.
  assert (Htree : forall (S1 : Z -> Prop) p lim offset,
            1 < lim <= 256 -> prob + 1 <= p -> p + lim <= prob + kNumLenProbs ->
            0 <= offset -> offset + lim <= 272 ->
            (forall y, S1 y -> S y \/ y = prob \/ y = prob + 1) ->
            lock (St S1 r0)
              (let* l := TREE_DECODE inp p lim in modify (L.set_len (u32 (l + offset))))
              (let* l := TREE_DECODE_CHECK this dummy_inp p lim in ret (u32 (l + offset)))
              (fun _ r' len' =>
                 0 <= len' < 272 /\
                 St (fun y => S y \/ prob <= y < prob + kNumLenProbs) (L.set_len len' r0) r')).
  { intros S1 p lim offset Hlim Hp Hpl Ho Hol HS1.
    eapply lock_bind; [apply (TREE_DECODE_lock S1 r0 p lim) | |].
    - lia.
    - intros y Hy Hs. apply HS1 in Hs. destruct Hs as [Hs | Hs]; [|lia].
      apply (HS y); [lia | exact Hs].
    - intros l l'. cbv beta. apply lock_pure'. intros ->. apply lock_pure'. intros Hl.
      apply modify_lock_end; [locals_tac|].
      intros r Hr. split; [rewrite u32_small; lia|].
      eapply St_mono; [|exact Hr]. cbv beta. intros y [Hs | Hy]; [|right; lia].
      apply HS1 in Hs. destruct Hs as [Hs | Hs]; [left; exact Hs | right].
      unfold kNumLenProbs in *. konsts. lia.
    - intros l. mono_tac. }
  konsts. change (Z.shiftl 1 3) with 8. change (Z.shiftl 1 8) with 256. change (8 + 8) with 16.
  rewrite !shiftl_3.
  apply flag_lock_k.
  - apply HS. lia.
  - apply ret_bind_lock. cbv beta iota.
    apply Htree; try lia.
    intros y [Hs | Hy]; [left; exact Hs | right; lia].
  - apply flag_lock_b.
    + intros [Hs | Hy]; [|lia]. revert Hs. apply HS. lia.
    + apply ret_bind_lock. cbv beta iota.
      apply Htree; try lia.
      intros y [[Hs | Hy] | Hy]; [left; exact Hs | right; lia | right; lia].
    + apply ret_bind_lock. cbv beta iota.
      apply Htree; try lia.
      intros y [[Hs | Hy] | Hy]; [left; exact Hs | right; lia | right; lia].
    + mono_tac.
    + mono_tac.
  - mono_tac.
  - mono_tac.
Qed.

(** *** The literal *)

Lemma land_offs offs bit (b : bool) :
  offs = 0 \/ offs = 256 -> bit = 0 \/ bit = offs ->
  let offs' := if b then Z.land offs bit else Z.land offs (u32 (Z.lnot bit)) in
  offs' = 0 \/ offs' = 256.
Proof.
  intros [-> | ->] [-> | ->]; destruct b; vm_compute; auto.
Qed.

(** The loop of the literal after a match. *)
Lemma matched_loop_lock (S : Z -> Prop) r0 prob mb :
  (forall y, prob < y -> ~ S y) ->
  lock (St S r0)
    (do_while 8 (fun v : Z * Z * Z =>
       let '(matchByte, offs, symbol) := v in
       let matchByte := u32 (Z.shiftl matchByte 1) in
       let bit := Z.land matchByte offs in
       let probLit := prob + offs + bit + symbol in
       let* g := GET_BIT2 inp probLit symbol in
       let offs := if snd g then Z.land offs bit else Z.land offs (u32 (Z.lnot bit)) in
       ret ((matchByte, offs, fst g), fst g <? 0x100)) (mb, 0x100, 1))
    (do_while 8 (fun v : Z * Z * Z =>
       let '(matchByte, offs, symbol) := v in
       let matchByte := u32 (Z.shiftl matchByte 1) in
       let bit := Z.land matchByte offs in
       let probLit := prob + offs + bit + symbol in
       NORMALIZE_CHECK dummy_inp;;
       let* g := GET_BIT2_CHECK this probLit symbol in
       let offs := if snd g then Z.land offs bit else Z.land offs (u32 (Z.lnot bit)) in
       ret ((matchByte, offs, fst g), fst g <? 0x100)) (mb, 0x100, 1))
    (fun _ _ _ => True).
Proof.
  intros HS.
  pose (Wr := fun (sym y : Z) =>
                exists k s, 0 <= k /\ 1 <= s < sym /\ y = prob + 256 * k + s).
  pose (Inv := fun (v : Z * Z * Z) r =>
                 St (fun y => S y \/ Wr (snd v) y) r0 r /\
                 (snd (fst v) = 0 \/ snd (fst v) = 256) /\ 1 <= snd v < 256).
  apply (lock_pre _ (Inv (mb, 256, 1))).
  { intros r Hr. split; [|cbn; lia]. eapply St_mono; [|exact Hr]. auto. }
  eapply lock_post; [|apply (lock_do_while eq Inv (fun _ _ => True))].
  - auto.
  - intros [[m offs] sym] v' <-. unfold Inv at 1. cbn [fst snd]. cbv zeta.
    apply lock_pure. intros [Hoffs Hsym].
    assert (Hbit : Z.land (u32 (Z.shiftl m 1)) offs = 0 \/
                   Z.land (u32 (Z.shiftl m 1)) offs = offs).
    { destruct Hoffs as [-> | ->]; [left; apply Z.land_0_r|]. apply land_256. }
    set (bit := Z.land (u32 (Z.shiftl m 1)) offs) in *.
    apply bit_lock.
    + intros [Hs | (k & s & Hk & Hs & Hy)]; [revert Hs; apply HS; lia | lia].
    + intros g Hg. apply lock_ret. intros r Hr. cbn [fst snd].
      split; [reflexivity|]. split; [reflexivity|].
      assert (Hv : fst g = sym + sym \/ fst g = sym + sym + 1).
      { destruct Hg as [-> | ->]; cbn [fst]; rewrite u32_small by lia; auto. }
      destruct (Z.ltb_spec (fst g) 256); [|exact I].
      unfold Inv. cbn [fst snd].
      split; [|split; [apply land_offs; assumption | lia]].
      eapply St_mono; [|exact Hr]. cbv beta.
      intros y [[Hs | (k & s & Hk & Hs & Hy)] | Hy]; [left; exact Hs | right | right].
      * exists k, s. split; [exact Hk|]. split; [lia | exact Hy].
      * exists ((offs + bit) / 256), sym. split; [|split; [lia|]].
        -- apply Z.div_pos; lia.
        -- assert (Hd : offs + bit = 256 * ((offs + bit) / 256)); [|lia].
           destruct Hoffs as [Ho | Ho], Hbit as [Hb | Hb]; rewrite Hb, ?Ho; reflexivity.
    + intros g. apply preserves_ret, buf_le_refl.
  - intros [[m offs] sym]. cbv zeta. mono_tac.
  - reflexivity.
Qed.

(** The locals of [r] that [TryDummy] reads from the object. *)
Definition at_entry (r : L.t) : Prop :=
  L.state r = DecoderCore.state this /\ L.rep0 r = reps_0 (DecoderCore.reps this) /\
  L.dicPos r = pos (DecoderCore.m_dic this) /\
  L.processedPos r = DecoderCore.processedPos this /\
  L.dic r = mem (DecoderCore.m_dic this).

Lemma at_entry_ctx r r0 : ctx r = ctx r0 -> at_entry r0 -> at_entry r.
Proof.
  intros H (H1 & H2 & H3 & H4 & H5). apply ctx_fields in H.
  destruct H as (? & ? & ? & ? & ? & ? & ? & ? & ?). unfold at_entry. repeat split; congruence.
Qed.

Lemma mask_sub x : u32 (u32 x - 1) = u32 (x - 1).
Proof. unfold u32. rewrite Zminus_mod_idemp_l. reflexivity. Qed.

(** *** Steps that leave the registers alone *)

Definition still {A} (m : M exn L.t A) : Prop :=
  forall r, match m r with
            | Ok _ r' => proj r' = proj r
            | Raise _ _ => True
            | Fault f => f <> BufOverrun
            end.

Lemma still_ret {A} (a : A) : still (ret a).
Proof. intros r. reflexivity. Qed.

Lemma still_get : still get.
Proof. intros r. reflexivity. Qed.

Lemma still_gets {A} (f : L.t -> A) : still (gets f).
Proof. intros r. reflexivity. Qed.

Lemma still_raise {A} (e : exn) : still (raise e : M exn L.t A).
Proof. intros r. exact I. Qed.

Lemma still_modify (f : L.t -> L.t) : (forall r, proj (f r) = proj r) -> still (modify f).
Proof. intros H r. apply H. Qed.

Lemma still_bind {A B} (m : M exn L.t A) (k : A -> M exn L.t B) :
  still m -> (forall a, still (k a)) -> still (bind m k).
Proof.
  intros Hm Hk r. specialize (Hm r). unfold bind.
  destruct (m r) as [a r1 | |]; [|exact I | exact Hm].
  specialize (Hk a r1). destruct (k a r1); [congruence | exact I | exact Hk].
Qed.

Lemma still_do_while {A} (body : A -> M exn L.t (A * bool)) fuel a :
  (forall a, still (body a)) -> still (do_while fuel body a).
Proof.
  intros Hb. revert a. induction fuel as [|fuel IH]; intros a.
  - intros r. cbn. discriminate.
  - cbn [do_while]. apply still_bind; [apply Hb|].
    intros [a' []]; cbn [fst snd]; [apply IH | apply still_ret].
Qed.

Lemma still_dic_read i : still (dic_read this i).
Proof.
  intros r. unfold dic_read. destruct (_ && _); [|discriminate].
  destruct (zlookup _ _); [reflexivity | discriminate].
Qed.

Lemma still_dic_write i v : still (dic_write this i v).
Proof.
  intros r. unfold dic_write. destruct (_ && _); [|discriminate].
  destruct (zinsert _ _ _); [reflexivity | discriminate].
Qed.

Lemma lock_still_end {A A'} P (m : M exn L.t A) (a' : A') :
  still m -> lock P m (ret a') (fun _ _ _ => True).
Proof.
  intros Hm r _ Hb. specialize (Hm r).
  destruct (m r) as [a r1 | |]; [|exact I | intros ->; contradiction].
  unfold dstep. rewrite (proj_buf _ _ Hm), Hm.
  destruct (Z.leb_spec (L.buf r) n); [|lia]. exists a'. split; [reflexivity | exact I].
Qed.

Lemma get_lock {B B'} (S : Z -> Prop) r0 (k : L.t -> M exn L.t B) (m' : M Dummy D.t B') Q :
  (forall r1, St S r0 r1 -> lock (St S r0) (k r1) m' Q) ->
  lock (St S r0) (let* r := get in k r) m' Q.
Proof. intros H r Hr Hb. exact (H r Hr r Hr Hb). Qed.

Lemma gets_lock {A B B'} (S : Z -> Prop) r0 (f : L.t -> A) (k : A -> M exn L.t B)
    (m' : M Dummy D.t B') Q :
  (forall r1, St S r0 r1 -> lock (St S r0) (k (f r1)) m' Q) ->
  lock (St S r0) (let* a := gets f in k a) m' Q.
Proof. intros H r Hr Hb. exact (H r Hr r Hr Hb). Qed.

Lemma lock_map {A A' B} P (m : M exn L.t A) (m' : M Dummy D.t A') (f : A -> B) Q :
  lock P m m' (fun a r a' => Q (f a) r a') -> lock P (let* a := m in ret (f a)) m' Q.
Proof.
  intros H r Hr Hb. specialize (H r Hr Hb). unfold bind.
  destruct (m r) as [a r1 | |]; exact H.
Qed.

Ltac still_tac :=
  repeat lazymatch goal with
  | |- forall _, _ => intro
  | |- still (bind _ _) => apply still_bind
  | |- still (ret _) => apply still_ret
  | |- still get => apply still_get
  | |- still (gets _) => apply still_gets
  | |- still (raise _) => apply still_raise
  | |- still (modify _) => apply still_modify; intro; reflexivity
  | |- still (do_while _ _ _) => apply still_do_while
  | |- still (dic_read _ _) => apply still_dic_read
  | |- still (dic_write _ _ _) => apply still_dic_write
  | |- still (if ?c then _ else _) => destruct c
  | |- still (match ?x with _ => _ end) => destruct x
  | |- still (let _ := _ in _) => cbv zeta
  | |- still ((fun _ => _) _) => cbv beta
  end.

Lemma literal_tail_lock (S : Z -> Prop) r0 :
  at_entry r0 ->
  (forall y, Literal < y -> ~ S y) ->
  lock (St S r0) (literal_tail inp this) (TryDummy_literal this dummy_inp) (fun _ _ _ => True).
Proof.
  intros Hent HS. unfold literal_tail, TryDummy_literal. cbv zeta.
  apply get_lock. intros r1 Hr1.
  destruct (at_entry_ctx r1 r0 (proj2 (proj2 Hr1)) Hent) as (E1 & E2 & E3 & E4 & E5).
  unfold checkDicSize_, dicBufSize, lpMask, lc_, back_pos. rewrite E1, E2, E3, E4, mask_sub.
  eapply lock_bind with (Q1 := fun p r p' => p' = p /\ (Literal <= p /\ St S r0 r)).
  - destruct (_ || _).
    + apply dic_read_lock; [apply Hent|]. intros prev. apply lock_ret.
      intros r Hr. split; [reflexivity|]. split; [|exact Hr].
      pose proof (u32_range (LZMA_LIT_SIZE *
        u32 (u32 (Z.shiftl (Z.land (DecoderCore.processedPos this)
                              (u32 (Z.shiftl 1 (lp (DecoderCore.m_properties this)) - 1)))
                    (lc (DecoderCore.m_properties this)))
             + Z.shiftr prev (8 - lc (DecoderCore.m_properties this))))). lia.
    + apply lock_ret. intros r Hr. split; [reflexivity|]. split; [lia | exact Hr].
  - intros prob prob'. apply lock_pure'. intros ->. apply lock_pure'. intros Hprob.
    destruct (DecoderCore.state this <? kNumLitStates).
    + eapply lock_bind with (Q1 := fun _ _ _ => True).
      * apply modify_lock; [locals_tac|].
        eapply lock_post; [|apply (tree_loop_lock S _ prob 0x100 8)].
        -- auto.
        -- lia.
        -- intros y Hy. apply HS. lia.
      * intros symbol u. apply lock_still_end. still_tac.
      * intros symbol. mono_tac.
    + eapply lock_ext with
        (m2 := let* matchByte := dic_read this
                 (usize (pos (DecoderCore.m_dic this) - reps_0 (DecoderCore.reps this)
                         + (if pos (DecoderCore.m_dic this) <? reps_0 (DecoderCore.reps this)
                            then size (DecoderCore.m_dic this) else 0))) in _);
        [intros r; apply bind_assoc | reflexivity |].
      apply dic_read_lock; [apply Hent|]. intros mb.
      eapply lock_bind with (Q1 := fun _ _ _ => True).
      * apply modify_lock; [locals_tac|]. apply lock_map.
        apply (matched_loop_lock S _ prob mb). intros y Hy. apply HS. lia.
      * intros symbol u. apply lock_still_end. still_tac.
      * intros symbol. mono_tac.
  - intros prob. mono_tac.
Qed.

(** *** The distance *)

Lemma bit_lock' {B B'} (S : Z -> Prop) r0 x i (k : Z * bool -> M exn L.t B)
    (k' : Z -> M Dummy D.t B') Q :
  ~ S x ->
  (forall g, bit_of i g -> lock (St (fun y => S y \/ y = x) r0) (k g) (k' (fst g)) Q) ->
  (forall g, preserves buf_le (k g)) ->
  lock (St S r0) (let* g := GET_BIT2 inp x i in k g)
    (NORMALIZE_CHECK dummy_inp;; let* i' := GET_BIT_CHECK this x i in k' i') Q.
Proof.
  intros Hx Hk Hmono.
  eapply lock_ext with
    (m2' := NORMALIZE_CHECK dummy_inp;; let* g := GET_BIT2_CHECK this x i in k' (fst g));
    [reflexivity | | apply bit_lock; assumption].
  intros s. unfold GET_BIT_CHECK. apply bind_ext. intros _ s'. apply bind_assoc.
Qed.

(** One pass of the loop of [TREE_DECODE_CHECK] against one bit of an
    unrolled tree. *)
Lemma tree_step_lock {B B'} (S : Z -> Prop) r0 p lim fuel i (K : Z -> M exn L.t B)
    (K' : Z -> M Dummy D.t B') Q :
  ~ S (p + i) ->
  (forall i', i' = u32 (i + i) \/ i' = u32 (i + i + 1) ->
     lock (St (fun y => S y \/ y = p + i) r0) (K i')
       (if i' <? lim
        then bind (do_while fuel (fun i => NORMALIZE_CHECK dummy_inp;;
                                           let* i' := GET_BIT_CHECK this (p + i) i in
                                           ret (i', i' <? lim)) i') K'
        else K' i') Q) ->
  (forall i', preserves buf_le (K i')) ->
  lock (St S r0) (bind (TREE_GET_BIT inp p i) K)
    (bind (do_while (Datatypes.S fuel) (fun i => NORMALIZE_CHECK dummy_inp;;
                                 let* i' := GET_BIT_CHECK this (p + i) i in
                                 ret (i', i' <? lim)) i) K') Q.
Proof.
  intros Hx HK Hmono.
  eapply lock_ext; [reflexivity | | apply (GET_BIT_lock S r0 (p + i) i K _ Q Hx HK Hmono)].
  intros s. cbn [do_while]. unfold bind.
  destruct (NORMALIZE_CHECK dummy_inp s) as [[] s1 | |]; [|reflexivity..].
  destruct (GET_BIT_CHECK this (p + i) i s1) as [i' s2 | |]; [|reflexivity..].
  cbn [fst snd]. destruct (i' <? lim); reflexivity.
Qed.

Lemma TREE_6_DECODE_lock (S : Z -> Prop) r0 p :
  (forall y, p < y < p + 64 -> ~ S y) ->
  lock (St S r0) (TREE_6_DECODE inp p) (TREE_DECODE_CHECK this dummy_inp p 64)
    (fun v r' v' => v' = v /\ 0 <= v < 64 /\ St (fun y => S y \/ p < y < p + 64) r0 r').
Proof.
  intros HS. unfold TREE_6_DECODE, TREE_DECODE_CHECK.
  assert (Hu : forall i i', 1 <= i < 64 -> i' = u32 (i + i) \/ i' = u32 (i + i + 1) ->
                            i' = i + i \/ i' = i + i + 1).
  { intros i i' Hi [-> | ->]; rewrite u32_small by lia; auto. }
  apply tree_step_lock; [apply HS; lia | | intros; mono_tac].
  intros i1 Hi1. apply Hu in Hi1; [|lia]. destruct (Z.ltb_spec i1 64) as [Hl1 | Hl1]; [|lia].
  apply tree_step_lock;
    [intros [Hs | Hy]; [revert Hs; apply HS; lia | lia] | | intros; mono_tac].
  intros i2 Hi2. apply Hu in Hi2; [|lia]. destruct (Z.ltb_spec i2 64) as [Hl2 | Hl2]; [|lia].
  apply tree_step_lock;
    [intros [[Hs | Hy] | Hy]; [revert Hs; apply HS; lia | lia..] | | intros; mono_tac].
  intros i3 Hi3. apply Hu in Hi3; [|lia]. destruct (Z.ltb_spec i3 64) as [Hl3 | Hl3]; [|lia].
  apply tree_step_lock;
    [intros [[[Hs | Hy] | Hy] | Hy]; [revert Hs; apply HS; lia | lia..] | | intros; mono_tac].
  intros i4 Hi4. apply Hu in Hi4; [|lia]. destruct (Z.ltb_spec i4 64) as [Hl4 | Hl4]; [|lia].
  apply tree_step_lock;
    [intros [[[[Hs | Hy] | Hy] | Hy] | Hy]; [revert Hs; apply HS; lia | lia..]
    | | intros; mono_tac].
  intros i5 Hi5. apply Hu in Hi5; [|lia]. destruct (Z.ltb_spec i5 64) as [Hl5 | Hl5]; [|lia].
  apply tree_step_lock;
    [intros [[[[[Hs | Hy] | Hy] | Hy] | Hy] | Hy]; [revert Hs; apply HS; lia | lia..]
    | | intros; mono_tac].
  intros i6 Hi6. apply Hu in Hi6; [|lia]. destruct (Z.ltb_spec i6 64) as [Hl6 | Hl6]; [lia|].
  apply lock_ret. intros r Hr. split; [reflexivity|].
  split; [rewrite u32_small; lia|].
  eapply St_mono; [|exact Hr]. cbv beta.
  intros y [[[[[[Hs | Hy] | Hy] | Hy] | Hy] | Hy] | Hy]; [left; exact Hs | right; lia..].
Qed.

(** The reverse tree of a distance below 128. *)
Lemma rev_loop_lock (S : Z -> Prop) r0 p nb0 d0 fuel :
  1 <= nb0 <= 30 ->
  (forall y, p < y < p + 2 ^ nb0 -> ~ S y) ->
  lock (St S r0)
    (do_while fuel (fun v : Z * Z * Z * Z =>
       let '(mask, i, distance, numDirectBits) := v in
       let* g := GET_BIT2 inp (p + i) i in
       let distance := if snd g then Z.lor distance mask else distance in
       let mask := u32 (Z.shiftl mask 1) in
       let numDirectBits := numDirectBits - 1 in
       ret ((mask, fst g, distance, numDirectBits), negb (numDirectBits =? 0)))
       (1, 1, d0, nb0))
    (do_while fuel (fun v : Z * Z =>
       let '(i, numDirectBits) := v in
       NORMALIZE_CHECK dummy_inp;;
       let* i := GET_BIT_CHECK this (p + i) i in
       let numDirectBits := numDirectBits - 1 in
       ret ((i, numDirectBits), negb (numDirectBits =? 0))) (1, nb0))
    (fun _ _ _ => True).
Proof.
  intros Hnb HS.
  pose (Rel := fun (v : Z * Z * Z * Z) (v' : Z * Z) =>
                 fst v' = snd (fst (fst v)) /\ snd v' = snd v).
  pose (Inv := fun (v : Z * Z * Z * Z) r =>
                 St (fun y => S y \/ p < y < p + snd (fst (fst v))) r0 r /\
                 1 <= snd v <= nb0 /\ 1 <= snd (fst (fst v)) < 2 ^ (nb0 - snd v + 1)).
  apply (lock_pre _ (Inv (1, 1, d0, nb0))).
  { intros r Hr. split; [|cbn [fst snd]; replace (nb0 - nb0 + 1) with 1 by lia; lia].
    eapply St_mono; [|exact Hr]. auto. }
  eapply lock_post; [|apply (lock_do_while Rel Inv (fun _ _ => True))].
  - auto.
  - intros [[[mask i] d] nb] [i' nb'] [Hi Hn']. cbn [fst snd] in Hi, Hn'. subst i' nb'.
    unfold Inv at 1. cbn [fst snd]. apply lock_pure. intros [Hnb' Hi].
    assert (Hpow : 2 ^ (nb0 - nb + 1) <= 2 ^ nb0) by (apply Z.pow_le_mono_r; lia).
    apply bit_lock'.
    + intros [Hs | Hy]; [revert Hs; apply HS; lia | lia].
    + intros g Hg. apply lock_ret. intros r Hr. cbn [fst snd].
      split; [reflexivity|]. split; [split; reflexivity|].
      destruct (Z.eqb_spec (nb - 1) 0); cbn [negb]; [exact I|].
      assert (Hv : fst g = i + i \/ fst g = i + i + 1).
      { assert (2 ^ nb0 <= 2 ^ 30) by (apply Z.pow_le_mono_r; lia).
        destruct Hg as [-> | ->]; cbn [fst]; rewrite u32_small by lia; auto. }
      unfold Inv. cbn [fst snd].
      assert (Hp2 : 2 ^ (nb0 - (nb - 1) + 1) = 2 * 2 ^ (nb0 - nb + 1)).
      { replace (nb0 - (nb - 1) + 1) with (Z.succ (nb0 - nb + 1)) by lia.
        apply Z.pow_succ_r. lia. }
      split; [|lia].
      eapply St_mono; [|exact Hr]. cbv beta.
      intros y [[Hs | Hy] | Hy]; [left; exact Hs | right; lia..].
    + intros g. buf_le_tac.
  - intros [[[mask i] d] nb]. cbv zeta. mono_tac.
  - split; reflexivity.
Qed.

(** The fixed-probability bits of a distance. *)
Lemma direct_loop_lock (S : Z -> Prop) r0 d0 nb0 fuel :
  lock (St S r0)
    (do_while fuel (fun v : Z * Z =>
       let '(distance, numDirectBits) := v in
       let* distance := direct_bit inp distance in
       let numDirectBits := numDirectBits - 1 in
       ret ((distance, numDirectBits), negb (numDirectBits =? 0))) (d0, nb0))
    (do_while fuel (fun numDirectBits =>
       NORMALIZE_CHECK dummy_inp;;
       modify (fun r => D.set_range (Z.shiftr (D.range r) 1) r);;
       modify (fun r => D.set_code
         (u32 (D.code r - Z.land (D.range r)
                             (u32 (Z.shiftr (u32 (D.code r - D.range r)) 31 - 1)))) r);;
       let numDirectBits := numDirectBits - 1 in
       ret (numDirectBits, negb (numDirectBits =? 0))) nb0)
    (fun _ r' _ => St S r0 r').
Proof.
  eapply lock_post;
    [|apply (lock_do_while (fun (v : Z * Z) (nb' : Z) => nb' = snd v)
               (fun _ r => St S r0 r) (fun _ r => St S r0 r))].
  - intros v r v' [_ Hr]. exact Hr.
  - intros [d nb] nb' ->. cbn [snd]. cbv zeta.
    apply direct_lock.
    + intros d'. apply lock_ret. intros r Hr. cbn [fst snd].
      split; [reflexivity|]. split; [reflexivity|]. destruct (negb _); exact Hr.
    + intros d'. buf_le_tac.
  - intros [d nb]. cbv zeta. mono_tac.
  - reflexivity.
Qed.

(** One pass of the last loop of [TryDummy] against one bit of the unrolled
    [Align] tree. *)
Lemma rev_step_lock {B B'} (S : Z -> Prop) r0 p fuel i nb (K : Z * bool -> M exn L.t B)
    (K' : Z * Z -> M Dummy D.t B') Q :
  ~ S (p + i) ->
  (forall g, bit_of i g ->
     lock (St (fun y => S y \/ y = p + i) r0) (K g)
       (if negb (nb - 1 =? 0)
        then bind (do_while fuel (fun v : Z * Z =>
                     let '(i, numDirectBits) := v in
                     NORMALIZE_CHECK dummy_inp;;
                     let* i := GET_BIT_CHECK this (p + i) i in
                     let numDirectBits := numDirectBits - 1 in
                     ret ((i, numDirectBits), negb (numDirectBits =? 0)))
                     (fst g, nb - 1)) K'
        else K' (fst g, nb - 1)) Q) ->
  (forall g, preserves buf_le (K g)) ->
  lock (St S r0) (bind (GET_BIT2 inp (p + i) i) K)
    (bind (do_while (Datatypes.S fuel) (fun v : Z * Z =>
             let '(i, numDirectBits) := v in
             NORMALIZE_CHECK dummy_inp;;
             let* i := GET_BIT_CHECK this (p + i) i in
             let numDirectBits := numDirectBits - 1 in
             ret ((i, numDirectBits), negb (numDirectBits =? 0))) (i, nb)) K') Q.
Proof.
  intros Hx HK Hmono.
  eapply lock_ext;
    [reflexivity
    | | apply (bit_lock' S r0 (p + i) i K
                 (fun i' => if negb (nb - 1 =? 0)
                            then bind (do_while fuel (fun v : Z * Z =>
                                   let '(i, numDirectBits) := v in
                                   NORMALIZE_CHECK dummy_inp;;
                                   let* i := GET_BIT_CHECK this (p + i) i in
                                   let numDirectBits := numDirectBits - 1 in
                                   ret ((i, numDirectBits), negb (numDirectBits =? 0)))
                                   (i', nb - 1)) K'
                            else K' (i', nb - 1)) Q Hx HK Hmono)].
  intros s. cbn [do_while]. unfold bind.
  destruct (NORMALIZE_CHECK dummy_inp s) as [[] s1 | |]; [|reflexivity..].
  destruct (GET_BIT_CHECK this (p + i) i s1) as [i' s2 | |]; [|reflexivity..].
  cbn [fst snd]. destruct (negb _); reflexivity.
Qed.

Lemma dummy_ret_bind {A A' B'} P (m : M exn L.t A) (a' : A') (k' : A' -> M Dummy D.t B') Q :
  lock P m (k' a') Q -> lock P m (bind (ret a') k') Q.
Proof. intros H. exact H. Qed.

Lemma bit_of_fst i g : 1 <= i < 2 ^ 30 -> bit_of i g -> fst g = i + i \/ fst g = i + i + 1.
Proof. intros Hi [-> | ->]; cbn [fst]; rewrite u32_small by lia; auto. Qed.

Lemma decode_distance_lock (S : Z -> Prop) r0 :
  0 <= L.len r0 ->
  (forall y, PosSlot <= y < LenCoder -> ~ S y) ->
  lock (St S r0) (decode_distance inp) (TryDummy_distance this dummy_inp (L.len r0))
    (fun _ _ _ => True).
Proof.
  intros Hlen HS. unfold decode_distance, TryDummy_distance. cbv zeta.
  apply gets_lock. intros r1 Hr1.
  replace (L.len r1) with (L.len r0)
    by (destruct Hr1 as (_ & _ & Hc); apply ctx_fields in Hc; symmetry; tauto).
  set (prob := PosSlot + Z.shiftl (if L.len r0 <? kNumLenToPosStates then L.len r0
                                   else kNumLenToPosStates - 1) kNumPosSlotBits).
  assert (Hprob : PosSlot <= prob /\ prob + 64 <= SpecPos).
  { subst prob. konsts. rewrite shiftl_6. destruct (Z.ltb_spec (L.len r0) 4); lia. }
  assert (HK : SpecPos = 688 /\ Align = 802 /\ LenCoder = 818 /\ PosSlot = 432)
    by (repeat split; reflexivity).
  destruct HK as (HSpec & HAlign & HLen & HPos).
  eapply lock_bind; [apply (TREE_6_DECODE_lock S r0 prob) | |].
  - intros y Hy. apply HS. lia.
  - intros posSlot posSlot'. apply lock_pure'. intros ->. apply lock_pure'. intros Hslot.
    change kStartPosModelIndex with 4. change kEndPosModelIndex with 14.
    change kNumAlignBits with 4.
    destruct (Z.leb_spec 4 posSlot) as [H4 | H4];
      [|apply lock_ret; intros; exact I].
    destruct (Z.ltb_spec posSlot 14) as [H14 | H14].
    + apply dummy_ret_bind. cbv beta iota.
      destruct (spec_pos_index posSlot ltac:(lia)) as (Hnb & Hlo & Hhi).
      eapply lock_bind with (Q1 := fun _ _ _ => True).
      * apply rev_loop_lock; [lia|].
        intros y Hy [Hs | Hs]; [revert Hs; apply HS; lia | lia].
      * intros res u. apply lock_ret. intros; exact I.
      * intros res. buf_le_tac.
    + eapply lock_ext with
        (m2' := let* _ := do_while 32 _ (Z.shiftr posSlot 1 - 1 - 4) in _);
        [reflexivity | intros s; apply bind_assoc |].
      eapply lock_bind; [apply direct_loop_lock | |].
      * intros res u. cbv beta iota.
        apply (rev_step_lock _ _ Align 31 1 4);
          [intros [Hs | Hs]; [revert Hs; apply HS; lia | lia] | | intros; mono_tac].
        intros g1 Hg1. apply bit_of_fst in Hg1; [|lia]. change (negb (4 - 1 =? 0)) with true.
        cbv iota. change (4 - 1) with 3.
        apply (rev_step_lock _ _ Align 30 (fst g1) 3);
          [intros [[Hs | Hs] | Hs]; [revert Hs; apply HS; lia | lia..] | | intros; mono_tac].
        intros g2 Hg2. apply bit_of_fst in Hg2; [|lia]. change (negb (3 - 1 =? 0)) with true.
        cbv iota. change (3 - 1) with 2.
        apply (rev_step_lock _ _ Align 29 (fst g2) 2);
          [intros [[[Hs | Hs] | Hs] | Hs]; [revert Hs; apply HS; lia | lia..]
          | | intros; mono_tac].
        intros g3 Hg3. apply bit_of_fst in Hg3; [|lia]. change (negb (2 - 1 =? 0)) with true.
        cbv iota. change (2 - 1) with 1.
        apply (rev_step_lock _ _ Align 28 (fst g3) 1);
          [intros [[[[Hs | Hs] | Hs] | Hs] | Hs]; [revert Hs; apply HS; lia | lia..]
          | | intros; mono_tac].
        intros g4 Hg4. change (negb (1 - 1 =? 0)) with false. cbv iota.
        apply lock_still_end. still_tac.
      * intros res. mono_tac.
  - intros v. mono_tac.
Qed.

(** *** A whole symbol *)

(** [TryDummy] has given a kind of symbol. *)
Definition done (y : Res Dummy D.t Dummy) : Prop :=
  exists res s, (y = Ok res s \/ y = Raise res s) /\ res <> DUMMY_ERROR.

(** The result [x] of the real decoder up to the end of a symbol and the
    result [y] of [TryDummy]: a real run inside the first [n] bytes is a
    symbol for [TryDummy], and a real run that goes further or needs bytes
    that are not there is [DUMMY_ERROR]. *)
Definition finRes {A} (x : Res exn L.t A) (y : Res Dummy D.t Dummy) : Prop :=
  match x with
  | Ok _ r' => if L.buf r' <=? n then done y else exists s, y = Raise DUMMY_ERROR s
  | Raise _ _ => True
  | Fault f => f = BufOverrun -> exists s, y = Raise DUMMY_ERROR s
  end.

Lemma finRes_lock {A A' B} P (m : M exn L.t A) (m' : M Dummy D.t A') Q1
    (k : A -> M exn L.t B) (k' : A' -> M Dummy D.t Dummy) r :
  lock P m m' Q1 -> P r -> L.buf r <= n ->
  (forall a, preserves buf_le (k a)) ->
  (forall a a' r1, Q1 a r1 a' -> L.buf r1 <= n -> finRes (k a r1) (k' a' (proj r1))) ->
  finRes (bind m k r) (bind m' k' (proj r)).
Proof.
  intros Hm HP Hb Hmono Hk. specialize (Hm r HP Hb). unfold bind at 1.
  destruct (m r) as [a r1 | e r1 | f].
  - unfold dstep in Hm. destruct (Z.leb_spec (L.buf r1) n) as [Hb1 | Hb1].
    + destruct Hm as (a' & Hm' & HQ1). specialize (Hk a a' r1 HQ1 Hb1).
      unfold bind. rewrite Hm'. exact Hk.
    + destruct Hm as (s & Hm'). specialize (Hmono a r1). unfold bind. rewrite Hm'.
      destruct (k a r1) as [b r2 | e r2 | f]; cbn.
      * unfold buf_le in Hmono. destruct (Z.leb_spec (L.buf r2) n); [lia|].
        exists s. reflexivity.
      * exact I.
      * intros _. exists s. reflexivity.
  - exact I.
  - intros Hf. destruct (Hm Hf) as [s Hs]. exists s. unfold bind. rewrite Hs. reflexivity.
Qed.

Lemma finRes_flag {A} (S : Z -> Prop) r0 x (k : bool -> M exn L.t A) (k0 k1 : M exn L.t A)
    (k' : Z * bool -> M Dummy D.t Dummy) (k0' k1' : M Dummy D.t Dummy) r :
  (forall s, k true s = (UPDATE_0 x;; k0) s) ->
  (forall s, k false s = (UPDATE_1 x;; k1) s) ->
  (forall c s, k' c s = (if snd c then UPDATE_0_CHECK (fst c);; k0'
                         else UPDATE_1_CHECK (fst c);; k1') s) ->
  St S r0 r -> L.buf r <= n -> ~ S x ->
  preserves buf_le k0 -> preserves buf_le k1 ->
  (forall r1, St (fun y => S y \/ y = x) r0 r1 -> L.buf r1 <= n ->
              finRes (k0 r1) (k0' (proj r1))) ->
  (forall r1, St (fun y => S y \/ y = x) r0 r1 -> L.buf r1 <= n ->
              finRes (k1 r1) (k1' (proj r1))) ->
  finRes ((let* b := isBit0 inp x in k b) r)
         ((NORMALIZE_CHECK dummy_inp;; let* c := bit0Check this x in k' c) (proj r)).
Proof.
  intros E0 E1 E' HSt Hb Hx Hm0 Hm1 H0 H1.
  replace ((let* b := isBit0 inp x in k b) r)
    with ((let* g := GET_BIT2 inp x 0 in if snd g then k1 else k0) r).
  2:{ rewrite <- isBit0_branch_eq. apply bind_ext. intros [] s; symmetry; [apply E0 | apply E1]. }
  replace ((NORMALIZE_CHECK dummy_inp;; let* c := bit0Check this x in k' c) (proj r))
    with (bind (NORMALIZE_CHECK dummy_inp;; GET_BIT2_CHECK this x 0)
               (fun g => if snd g then k1' else k0') (proj r)).
  2:{ rewrite bind_assoc. rewrite <- bit0Check_branch_eq. apply bind_ext. intros _ s.
      apply bind_ext. intros c s'. symmetry. rewrite E'. destruct (snd c); reflexivity. }
  eapply finRes_lock; [apply (GET_BIT2_lock S r0 x 0 Hx) | exact HSt | exact Hb | |].
  - intros g. destruct (snd g); assumption.
  - intros g g' r1 (-> & _ & Hr1) Hb1. destruct (snd g); [apply H1 | apply H0]; assumption.
Qed.

Lemma finRes_NORMALIZE res r :
  res <> DUMMY_ERROR -> L.buf r <= n ->
  finRes (NORMALIZE inp r) ((NORMALIZE_CHECK dummy_inp;; ret res) (proj r)).
Proof.
  intros Hres Hb. unfold finRes, bind. rewrite NORMALIZE_eq, NORMALIZE_CHECK_eq.
  cbn [proj D.range D.code D.buf].
  pose proof (normalized_dummy (L.range r) (L.code r) (L.buf r) Hb) as Hnd.
  destruct (normalized inp _ _ _) as [[[range code] buf]|];
    [|intros _; rewrite Hnd; eexists; reflexivity].
  destruct Hnd as [Hb' Hnd]. rewrite Hnd. cbn [with_rc L.buf].
  destruct (Z.leb_spec buf n); [|eexists; reflexivity].
  eexists _, _. split; [left; reflexivity | exact Hres].
Qed.

Lemma finRes_NORMALIZE_raise res r :
  res <> DUMMY_ERROR -> L.buf r <= n ->
  finRes (NORMALIZE inp r) ((NORMALIZE_CHECK dummy_inp;; raise res) (proj r)).
Proof.
  intros Hres Hb. unfold finRes, bind. rewrite NORMALIZE_eq, NORMALIZE_CHECK_eq.
  cbn [proj D.range D.code D.buf].
  pose proof (normalized_dummy (L.range r) (L.code r) (L.buf r) Hb) as Hnd.
  destruct (normalized inp _ _ _) as [[[range code] buf]|];
    [|intros _; rewrite Hnd; eexists; reflexivity].
  destruct Hnd as [Hb' Hnd]. rewrite Hnd. cbn [with_rc L.buf].
  destruct (Z.leb_spec buf n); [|eexists; reflexivity].
  eexists _, _. split; [right; reflexivity | exact Hres].
Qed.

Lemma finRes_still {A B} (m : M exn L.t A) (k : A -> M exn L.t B) r y :
  still m -> (forall a r1, proj r1 = proj r -> finRes (k a r1) y) -> finRes (bind m k r) y.
Proof.
  intros Hm Hk. specialize (Hm r). unfold bind.
  destruct (m r) as [a r1 | |]; [|exact I | intros ->; contradiction].
  apply Hk, Hm.
Qed.

Lemma bind_get_eq {E St B} (k : St -> M E St B) s : bind get k s = k s s.
Proof. reflexivity. Qed.

Lemma bind_modify_eq {E St B} (f : St -> St) (k : unit -> M E St B) s :
  bind (modify f) k s = k tt (f s).
Proof. reflexivity. Qed.

(** What follows the length in [symbol]. *)
Definition symbol_rest (limit : Z) : M exn L.t bool :=
  let* r := get in
  let* go :=
    if kNumStates <=? L.state r then
      let* d := decode_distance inp in
      match d with
      | None => ret false
      | Some distance => check_distance this distance;; ret true
      end
    else ret true in
  if go then copy_match this limit;; ret true else ret false.

Lemma tail_fin limit (S : Z -> Prop) prob posState dstate res r :
  agree S r -> 0 <= L.range r < 2 ^ 32 ->
  L.buf r <= n -> res <> DUMMY_ERROR -> 0 <= posState < 16 ->
  prob = LenCoder \/ prob = RepLenCoder ->
  (forall y, PosSlot <= y -> ~ S y) ->
  (12 <= L.state r /\ dstate = 0) \/ (L.state r < 12 /\ dstate = 12) ->
  finRes ((decode_len inp prob posState;; symbol_rest limit;; NORMALIZE inp) r)
         ((let* len := TryDummy_len this dummy_inp prob posState in
           let* res' :=
             (if dstate <? 4 then TryDummy_distance this dummy_inp len else ret tt);;
             ret res in
           NORMALIZE_CHECK dummy_inp;; ret res') (proj r)).
Proof.
  intros Ha Hr Hb Hres Hps Hprob HS Hstate.
  assert (HSt : St S r r) by (split; [exact Ha | split; [exact Hr | reflexivity]]).
  assert (HK : PosSlot = 432 /\ LenCoder = 818 /\ RepLenCoder = 1332 /\ kNumLenProbs = 514)
    by (repeat split; reflexivity).
  destruct HK as (HPos & HLen & HRep & HNum).
  eapply finRes_lock;
    [apply (decode_len_lock S r prob posState Hps) | exact HSt | exact Hb | |].
  - intros y Hy. apply HS. lia.
  - intros u. unfold symbol_rest. mono_tac.
  - intros u len' r1 (Hlen & HSt1) Hb1. unfold symbol_rest.
    rewrite !bind_assoc, bind_get_eq.
    assert (Hst1 : L.state r1 = L.state r).
    { destruct HSt1 as (_ & _ & Hc). apply ctx_fields in Hc. tauto. }
    rewrite Hst1. change kNumStates with 12.
    assert (Hend : forall (m : M exn L.t bool) r2,
              still m -> L.buf r2 <= n ->
              finRes (bind m (fun _ => NORMALIZE inp) r2)
                     ((NORMALIZE_CHECK dummy_inp;; ret res) (proj r2))).
    { intros m r2 Hm Hb2. apply finRes_still; [exact Hm|].
      intros a r3 Hp. rewrite <- Hp. apply finRes_NORMALIZE; [exact Hres|].
      rewrite (proj_buf _ _ Hp). exact Hb2. }
    destruct Hstate as [[H12 ->] | [H12 ->]].
    + destruct (Z.leb_spec 12 (L.state r)); [|lia]. change (0 <? 4) with true. cbv iota.
      rewrite !bind_assoc.
      eapply finRes_lock;
        [apply (decode_distance_lock (fun y => S y \/ prob <= y < prob + kNumLenProbs)
                 (L.set_len len' r)) | exact HSt1 | exact Hb1 | |].
      * cbn. lia.
      * intros y Hy [Hs | Hs]; [revert Hs; apply HS; lia | lia].
      * intros d. mono_tac.
      * intros d u' r2 _ Hb2. rewrite <- bind_assoc.
        apply Hend; [|exact Hb2]. unfold check_distance, copy_match. still_tac.
    + destruct (Z.leb_spec 12 (L.state r)); [lia|]. change (12 <? 4) with false. cbv iota.
      rewrite <- bind_assoc.
      apply Hend; [|exact Hb1]. unfold copy_match. still_tac.
Qed.

Lemma dummy_assoc {A B C} (m0 : M Dummy D.t unit) (m : M Dummy D.t A)
    (f : A -> M Dummy D.t B) (g : B -> M Dummy D.t C) s :
  (m0;; bind (bind m f) g) s = (m0;; bind m (fun a => bind (f a) g)) s.
Proof. apply bind_ext. intros _ s'. apply bind_assoc. Qed.

Ltac flag_eqs :=
  [> intros ?; cbv beta iota; rewrite ?literal_eq, ?bind_assoc; reflexivity
   | intros ?; cbv beta iota; rewrite ?bind_assoc; reflexivity
   | intros c ?; cbv beta; destruct (snd c); rewrite ?bind_assoc; reflexivity
   | .. ].

Ltac fin_norm := repeat (rewrite ?bind_assoc, ?bind_modify_eq, ?bind_ret, ?bind_gets).

Ltac same_proj :=
  lazymatch goal with
  | |- finRes (_ ?x) (_ (proj ?y)) => change (proj y) with (proj x)
  end.

(** One pass of the loop of [DecodeReal] with the [NORMALIZE] that follows
    the loop, against [TryDummy]. *)
Lemma symbol_fin limit r :
  props_ok (DecoderCore.m_properties this) -> 0 <= DecoderCore.state this < 12 ->
  at_entry r -> 0 <= L.range r < 2 ^ 32 -> L.probs r = DecoderCore.m_probs this ->
  L.buf r <= n ->
  finRes ((symbol inp this limit;; NORMALIZE inp) r)
         ((let* res := TryDummy_body this dummy_inp in
           NORMALIZE_CHECK dummy_inp;; ret res) (proj r)).
Proof.
  intros Hprops Hstate Hent Hrange Hprobs Hb.
  assert (HSt : St (fun _ => False) r r).
  { split; [|split; [exact Hrange | reflexivity]]. intros x _. rewrite Hprobs. reflexivity. }
  pose proof (posState_bound (DecoderCore.processedPos this) this Hprops) as Hps.
  pose proof Hent as (E1 & E2 & E3 & E4 & E5).
  assert (Hstate_of : forall (S : Z -> Prop) r', St S r r' ->
                        L.state r' = DecoderCore.state this).
  { intros S r' (_ & _ & Hc). apply ctx_fields in Hc. rewrite <- E1. tauto. }
  assert (Htail : forall (S : Z -> Prop) r' rf dstate prob res,
            St S r r' -> L.buf r' <= n ->
            L.probs rf = L.probs r' -> proj rf = proj r' ->
            res <> DUMMY_ERROR -> prob = LenCoder \/ prob = RepLenCoder ->
            (forall y, S y -> y < 432) ->
            (12 <= L.state rf /\ dstate = 0) \/ (L.state rf < 12 /\ dstate = 12) ->
            finRes ((decode_len inp prob
                       (Z.land (DecoderCore.processedPos this)
                          (u32 (Z.shiftl 1 (pb (DecoderCore.m_properties this)) - 1)));;
                     symbol_rest limit;; NORMALIZE inp) rf)
              ((let* len := TryDummy_len this dummy_inp prob
                              (Z.land (DecoderCore.processedPos this)
                                 (u32 (Z.shiftl 1 (pb (DecoderCore.m_properties this)) - 1))) in
                let* res' :=
                  (if dstate <? 4 then TryDummy_distance this dummy_inp len else ret tt);;
                  ret res in
                NORMALIZE_CHECK dummy_inp;; ret res') (proj r'))).
  { intros S r' rf dstate prob res (Ha & Hr & _) Hb' Hfp Hfj Hres Hprob HS Hst.
    rewrite <- Hfj. apply (tail_fin limit S); try assumption.
    - intros x Hx. rewrite Hfp. apply Ha, Hx.
    - pose proof Hfj as Hfr. unfold proj in Hfr. inversion Hfr as [[H1 H2 H3]].
      rewrite H1. exact Hr.
    - pose proof (proj_buf _ _ Hfj). lia.
    - unfold pbMask in Hps. rewrite mask_sub in Hps. exact Hps.
    - intros y Hy Hs. apply HS in Hs. change PosSlot with 432 in Hy. lia. }
  unfold symbol, TryDummy_body. cbv zeta.
  rewrite !bind_assoc, bind_get_eq. rewrite E1, E4.
  unfold pbMask in *. rewrite mask_sub in *.
  set (posState := Z.land (DecoderCore.processedPos this)
                     (u32 (Z.shiftl 1 (pb (DecoderCore.m_properties this)) - 1))) in *.
  konsts. rewrite !shiftl_4.
  rewrite bind_assoc, dummy_assoc.
  eapply (finRes_flag (fun _ => False) r); flag_eqs;
    [exact HSt | exact Hb | tauto | mono_tac | mono_tac | |].
  - (* a literal *)
    intros r1 HSt1 Hb1. rewrite !bind_assoc.
    eapply finRes_lock; [eapply literal_tail_lock | exact HSt1 | exact Hb1 | intros; mono_tac |].
    + exact Hent.
    + intros y Hy [[] | ->]. change Literal with 1846 in Hy. lia.
    + intros u u' r2 _ Hb2. apply finRes_NORMALIZE; [discriminate | exact Hb2].
  - intros r1 HSt1 Hb1. rewrite ?bind_assoc, ?dummy_assoc.
    eapply (finRes_flag _ r); flag_eqs;
      [exact HSt1 | exact Hb1 | intros [[] | H]; lia | mono_tac | mono_tac | |].
    + (* a match *)
      intros r2 HSt2 Hb2. fin_norm. cbv iota beta.
      eapply (Htail _ r2 _ 0 818 DUMMY_MATCH HSt2 Hb2); try reflexivity.
      * discriminate.
      * left; reflexivity.
      * intros y [[[] | H] | H]; lia.
      * left. cbn [L.set_state L.state]. rewrite (Hstate_of _ _ HSt2), u32_small; lia.
    + intros r2 HSt2 Hb2. unfold rep. konsts. rewrite ?bind_assoc, bind_get_eq.
      rewrite (Hstate_of _ _ HSt2).
      destruct (_ && _); [exact I|].
      rewrite ?bind_assoc, ?dummy_assoc, ?shiftl_4.
      eapply (finRes_flag _ r); flag_eqs;
        [exact HSt2 | exact Hb2 | intros [[[] | H] | H]; lia | mono_tac | mono_tac | |].
      * intros r3 HSt3 Hb3. rewrite ?bind_assoc, ?dummy_assoc.
        eapply (finRes_flag _ r); flag_eqs;
          [exact HSt3 | exact Hb3 | intros [[[[] | H] | H] | H]; lia | mono_tac | mono_tac | |].
        -- (* a short rep *)
           intros r4 HSt4 Hb4. rewrite ?bind_assoc, bind_get_eq, ?bind_assoc.
           apply finRes_still; [apply still_dic_read|]. intros v r5 Hp5.
           rewrite ?bind_assoc.
           apply finRes_still; [apply still_dic_write|]. intros u r6 Hp6.
           fin_norm. cbv iota. rewrite ?bind_ret. rewrite <- Hp5, <- Hp6.
           same_proj.
           refine (finRes_NORMALIZE_raise DUMMY_REP _ _ _); [discriminate|].
           cbn [L.buf L.set_state L.set_processedPos L.set_dicPos].
           rewrite (proj_buf _ _ Hp6), (proj_buf _ _ Hp5). exact Hb4.
        -- intros r4 HSt4 Hb4. fin_norm. cbv iota beta.
           eapply (Htail _ r4 _ 12 1332 DUMMY_REP HSt4 Hb4); try reflexivity.
           ++ discriminate.
           ++ right; reflexivity.
           ++ intros y [[[[[] | H] | H] | H] | H]; lia.
           ++ right. cbn [L.set_state L.state]. destruct (_ <? _); lia.
      * intros r3 HSt3 Hb3. rewrite ?bind_assoc, ?dummy_assoc.
        eapply (finRes_flag _ r); flag_eqs;
          [exact HSt3 | exact Hb3 | intros [[[[] | H] | H] | H]; lia | mono_tac | mono_tac | |].
        -- intros r4 HSt4 Hb4. fin_norm. cbv iota beta.
           eapply (Htail _ r4 _ 12 1332 DUMMY_REP HSt4 Hb4); try reflexivity.
           ++ discriminate.
           ++ right; reflexivity.
           ++ intros y [[[[[] | H] | H] | H] | H]; lia.
           ++ right. cbn [L.set_state L.state]. destruct (_ <? _); lia.
        -- intros r4 HSt4 Hb4. rewrite ?bind_assoc, ?dummy_assoc.
           eapply (finRes_flag _ r); flag_eqs;
             [exact HSt4 | exact Hb4 | intros [[[[[] | H] | H] | H] | H]; lia
             | mono_tac | mono_tac | |].
           ++ intros r5 HSt5 Hb5. fin_norm. cbv iota beta.
              eapply (Htail _ r5 _ 12 1332 DUMMY_REP HSt5 Hb5); try reflexivity.
              ** discriminate.
              ** right; reflexivity.
              ** intros y [[[[[[] | H] | H] | H] | H] | H]; lia.
              ** right. cbn [L.set_state L.state]. destruct (_ <? _); lia.
           ++ intros r5 HSt5 Hb5. fin_norm. cbv iota beta.
              eapply (Htail _ r5 _ 12 1332 DUMMY_REP HSt5 Hb5); try reflexivity.
              ** discriminate.
              ** right; reflexivity.
              ** intros y [[[[[[] | H] | H] | H] | H] | H]; lia.
              ** right. cbn [L.set_state L.state]. destruct (_ <? _); lia.
Qed.

End Lockstep.

(** ** What [TryDummy] says about [DecodeReal] *)

Lemma bind_ext_on {E St A B} (m : M E St A) (f g : A -> M E St B) s :
  (forall a s', m s = Ok a s' -> f a s' = g a s') -> bind m f s = bind m g s.
Proof. intros H. unfold bind. destruct (m s); auto. Qed.

(** With [bufLimit] at the read position the loop of [DecodeReal] makes one
    pass. *)
Lemma DecodeReal_loop_one inp this limit bufLimit r :
  bufLimit <= L.buf r ->
  DecodeReal_loop inp this limit bufLimit r = (symbol inp this limit;; NORMALIZE inp) r.
Proof.
  intros Hb. unfold DecodeReal_loop. cbn [do_while]. rewrite !bind_assoc.
  apply bind_ext_on. intros go r1 Hs.
  pose proof (symbol_buf_le inp this limit r) as Hmono. rewrite Hs in Hmono.
  unfold buf_le in Hmono. rewrite bind_assoc, bind_get_eq, bind_ret. cbn [fst snd].
  destruct (Z.ltb_spec (L.buf r1) bufLimit); [lia|].
  rewrite !andb_false_r. reflexivity.
Qed.

Lemma TryDummy_lockstep inp n limit d :
  0 <= n <= Z.of_nat (length inp) ->
  props_ok (DecoderCore.m_properties d) -> 0 <= DecoderCore.state d < 12 ->
  0 <= DecoderCore.m_range d < 2 ^ 32 -> DecoderCore.buf d = 0 ->
  finRes n (DecodeReal_loop inp d limit 0 (load_locals d))
         (TryDummy_run d (take (Z.to_nat n) inp)).
Proof.
  intros Hn Hprops Hstate Hrange Hbuf.
  rewrite DecodeReal_loop_one by (cbn [load_locals L.buf]; lia).
  pose proof (symbol_fin d inp n Hn limit (load_locals d) Hprops Hstate) as H.
  unfold TryDummy_run. unfold proj, dummy_inp in H.
  cbn [load_locals L.range L.code L.buf] in H. rewrite Hbuf in H.
  apply H.
  - repeat split.
  - exact Hrange.
  - reflexivity.
  - lia.
Qed.

(** X12: [TryDummy] on the first [n] bytes of the input predicts
    [DecodeReal] called at the start of that input with [bufLimit] at the
    start, which decodes one symbol.  If [TryDummy] says [DUMMY_ERROR], a
    call of [DecodeReal] that returns has read more than [n] bytes.  If it
    names a symbol, [DecodeReal] does not run out of input, and a call that
    returns has read at most [n] bytes. *)
Theorem TryDummy_predicts (inp : list Z) (n limit : Z) (d : DecoderCore.t) :
  0 <= n <= Z.of_nat (length inp) ->
  props_ok (DecoderCore.m_properties d) ->
  0 <= DecoderCore.state d < kNumStates ->
  0 <= DecoderCore.m_range d < 2 ^ 32 ->
  DecoderCore.buf d = 0 ->
  match TryDummy (take (Z.to_nat n) inp) d with
  | Ok res _ =>
      match DecodeReal inp limit 0 d with
      | Ok _ d' =>
          if Dummy_eqb res DUMMY_ERROR then n < DecoderCore.buf d'
          else DecoderCore.buf d' <= n
      | Raise _ _ => True
      | Fault f => f = BufOverrun -> res = DUMMY_ERROR
      end
  | Raise _ _ => True
  | Fault _ => True
  end.
Proof.
  intros Hn Hprops Hstate Hrange Hbuf.
  pose proof (TryDummy_lockstep inp n limit d Hn Hprops Hstate Hrange Hbuf) as H.
  unfold TryDummy, DecodeReal. unfold finRes in H.
  destruct (DecodeReal_loop inp d limit 0 (load_locals d)) as [u r1 | e r1 | f].
  - cbn [store_locals DecoderCore.buf].
    destruct (Z.leb_spec (L.buf r1) n) as [Hle | Hgt].
    + destruct H as (res & s & [-> | ->] & Hres);
        (destruct res; [exfalso; apply Hres; reflexivity|..]; cbn; exact Hle).
    + destruct H as (s & ->). cbn. exact Hgt.
  - destruct (TryDummy_run _ _); exact I.
  - destruct (TryDummy_run _ _) as [res s | res s | f'] eqn:E; [| |exact I].
    + intros Hf. destruct (H Hf) as (s' & Hs'). discriminate Hs'.
    + intros Hf. destruct (H Hf) as (s' & Hs'). congruence.
Qed.

Lemma TryDummy_predicts_witness :
  let d := DecoderCore.set_buf 0 (Decoder2.decoder example_decoded) in
  match TryDummy (take (Z.to_nat 3) (replicate 40 0)) d with
  | Ok res _ =>
      match DecodeReal (replicate 40 0) 16 0 d with
      | Ok _ d' =>
          if Dummy_eqb res DUMMY_ERROR then 3 < DecoderCore.buf d'
          else DecoderCore.buf d' <= 3
      | Raise _ _ => True
      | Fault f => f = BufOverrun -> res = DUMMY_ERROR
      end
  | Raise _ _ => True
  | Fault _ => True
  end.
Proof.
  refine (TryDummy_predicts (replicate 40 0) 3 16
            (DecoderCore.set_buf 0 (Decoder2.decoder example_decoded)) _ _ _ _ _).
  - vm_compute. split; discriminate.
  - apply example_decoded_core_ok.
  - vm_compute. split; [discriminate | reflexivity].
  - vm_compute. split; [discriminate | reflexivity].
  - reflexivity.
Defined.

(** ** A pass that decodes a literal returns *)

(** The bit that [isBit0] reports is the bit that [GET_BIT2] returns. *)
Lemma GET_BIT2_after_isBit0 inp x i r r1 v r' :
  isBit0 inp x r = Ok true r1 -> GET_BIT2 inp x i r = Ok v r' -> snd v = false.
Proof.
  intros Hbit H. unfold GET_BIT2, bind in H. rewrite Hbit in H.
  destruct (UPDATE_0 x r1); inversion H. reflexivity.
Qed.

(** Nine counter bits, the [IsMatch] bit and the eight of the literal, take
    at most 8 bytes of input. *)
Lemma pot_literal E range buf :
  2 ^ 16 <= range -> 0 <= buf -> buf + 8 <= E -> pot E 9 0 range buf.
Proof.
  unfold pot. intros Hr Hb HE. split; [lia|].
  assert (H : 256 ^ 8 <= 256 ^ (E - buf)) by (apply Z.pow_le_mono_r; lia).
  assert (H0 : 2 ^ 24 * 67 ^ 9 * 201 ^ 0 <= 2 ^ 16 * 256 ^ 8 * 100 ^ 0)
    by (vm_compute; discriminate).
  assert (2 ^ 16 * 256 ^ 8 <= range * 256 ^ (E - buf)) by (apply Z.mul_le_mono_nonneg; lia).
  change (100 ^ 0) with 1 in *. lia.
Qed.

Lemma walk_fault_True f : walk_fault True True f -> False.
Proof. unfold walk_fault. tauto. Qed.

(** With the invariants of [DecodeReal] on the locals, room in the
    dictionary and 8 bytes of input, a pass whose [IsMatch] bit is 0 neither
    throws nor leaves the arrays, and its loops end. *)
Lemma symbol_literal_returns (inp : list Z) (this : DecoderCore.t) (limit : Z) (r r1 : L.t) :
  props_ok (DecoderCore.m_properties this) ->
  0 <= L.state r < 12 ->
  rc_inv (numProbs this) r ->
  0 <= L.buf r -> L.buf r + 8 <= Z.of_nat (length inp) ->
  0 <= pos (DecoderCore.m_dic this) <= limit ->
  limit <= dicBufSize this < 2 ^ 64 ->
  dic_inv this limit True r -> reps_ok this True r -> L.dicPos r < limit ->
  isBit0 inp (IsMatch + Z.shiftl (L.state r) kNumPosBitsMax
              + Z.land (L.processedPos r) (pbMask this)) r = Ok true r1 ->
  wp (symbol inp this limit) (fun _ _ => True) never no_fault r.
Proof.
  intros Hprops Hst Hrc Hb0 Hb8 Hpos Hlim Hdic Hreps Hlt Hbit.
  pose proof (numProbs_bounds this Hprops) as [HN1 HN2].
  pose proof (posState_bound (L.processedPos r) this Hprops) as Hps.
  assert (HW : W (numProbs this) (Z.of_nat (length inp)) True 9 0 r).
  { split; [exact Hrc|]. intros _. apply pot_literal; [exact (proj1 (proj1 Hrc)) | lia | lia]. }
  eapply wp_mono with (F := walk_fault True True);
    [ | intros a s' H; exact H | intros e s' H; exact H | exact walk_fault_True].
  unfold symbol. apply wp_bind, wp_get. cbv zeta.
  revert Hbit. konsts. rewrite shiftl_4 in *. intros Hbit.
  eapply (bit_branch inp this (Z.of_nat (length inp)) True True (fun _ => Z.le_refl _)
            (0 + L.state r * 16 + Z.land (L.processedPos r) (pbMask this)) 9 0);
    [intros s; rewrite literal_eq; apply bind_seq_assoc | intros s; reflexivity
     | lia | lia | lia | exact HW | |].
  - intros r2 HW2 Hc2 _. apply wp_bind.
    pose proof (dic_inv_ctx _ _ _ _ _ Hc2 Hdic) as Hdic2.
    pose proof (reps_ok_ctx _ _ _ _ Hc2 Hreps) as Hreps2. apply ctx_fields in Hc2.
    destruct Hc2 as (Hs2 & _ & _ & _ & _ & Hp2 & _ & _ & _).
    eapply wp_post.
    + assert (HGlim : True -> 0 <= limit <= dicBufSize this /\ dicBufSize this < 2 ^ 64)
        by (intros _; lia).
      apply (literal_walk inp this limit (Z.of_nat (length inp)) True True Hprops
               (fun _ => Z.le_refl _) HGlim (fun _ => Hpos) 0 0 r2); try lia; try assumption.
    + intros _ r3 _. apply wp_ret. exact I.
  - intros r2 _ _ Hg. exfalso.
    pose proof (GET_BIT2_after_isBit0 _ _ _ _ _ _ _ Hbit Hg) as Hf. discriminate Hf.
Qed.

(** C1, as the code has it.  In a pass of the loop in which the [IsMatch]
    bit is 0 a literal is decoded:
    - if the pass returns, it goes on and leaves [state = 0] when
      [state < 4], [state - 3] when [4 <= state < 10] and [state - 6] when
      [state >= 10], one byte further in the dictionary;
    - it throws nothing;
    - with the invariants that [DecodeReal] keeps on its locals (range
      decoder, dictionary, rep distances), room for a byte below [limit] and
      8 bytes of input left, the pass does return: it stays inside the
      input, the dictionary and the array of counters, and its two loops of
      at most 8 rounds end. *)
Theorem C1_literal_state (inp : list Z) (this : DecoderCore.t) (limit : Z) (r r1 : L.t) :
  0 <= L.state r < 12 ->
  isBit0 inp (IsMatch + Z.shiftl (L.state r) kNumPosBitsMax
              + Z.land (L.processedPos r) (pbMask this)) r = Ok true r1 ->
  (forall go r',
     symbol inp this limit r = Ok go r' ->
     go = true /\
     L.state r' = (if L.state r <? 4 then 0
                   else if L.state r <? 10 then L.state r - 3 else L.state r - 6) /\
     L.dicPos r' = usize (L.dicPos r + 1) /\
     L.processedPos r' = u32 (L.processedPos r + 1)) /\
  (forall e r', symbol inp this limit r <> Raise e r') /\
  (props_ok (DecoderCore.m_properties this) ->
   rc_inv (numProbs this) r ->
   0 <= L.buf r -> L.buf r + 8 <= Z.of_nat (length inp) ->
   0 <= pos (DecoderCore.m_dic this) <= limit ->
   limit <= dicBufSize this < 2 ^ 64 ->
   dic_inv this limit True r -> reps_ok this True r -> L.dicPos r < limit ->
   exists r', symbol inp this limit r = Ok true r').
Proof.
  intros Hst Hbit.
  pose proof (symbol_literal_state inp this limit r r1 Hst Hbit) as H1.
  split; [|split].
  - intros go r' H. rewrite H in H1. exact H1.
  - intros e r' H. rewrite H in H1. exact H1.
  - intros Hprops Hrc Hb0 Hb8 Hpos Hlim Hdic Hreps Hlt.
    pose proof (symbol_literal_returns inp this limit r r1 Hprops Hst Hrc Hb0 Hb8 Hpos Hlim
                  Hdic Hreps Hlt Hbit) as H2.
    unfold wp in H2. destruct (symbol inp this limit r) as [go r' | e r' | f].
    + destruct H1 as (-> & _). exists r'. reflexivity.
    + destruct H1.
    + destruct H2.
Qed.

Lemma C1_witness :
  exists r',
    symbol (replicate 8 0) example_core 16 (example_locals 5 0 1) = Ok true r' /\
    true = true /\
    L.state r' = (if L.state (example_locals 5 0 1) <? 4 then 0
                  else if L.state (example_locals 5 0 1) <? 10
                       then L.state (example_locals 5 0 1) - 3
                       else L.state (example_locals 5 0 1) - 6) /\
    L.dicPos r' = usize (L.dicPos (example_locals 5 0 1) + 1) /\
    L.processedPos r' = u32 (L.processedPos (example_locals 5 0 1) + 1).
Proof.
  assert (H1 : {r1 | isBit0 (replicate 8 0)
                       (IsMatch + Z.shiftl (L.state (example_locals 5 0 1)) kNumPosBitsMax
                        + Z.land (L.processedPos (example_locals 5 0 1)) (pbMask example_core))
                       (example_locals 5 0 1) = Ok true r1})
    by (eexists; vm_compute; reflexivity).
  destruct H1 as [r1 H1].
  assert (Hst : 0 <= L.state (example_locals 5 0 1) < 12) by (cbn; lia).
  destruct (C1_literal_state (replicate 8 0) example_core 16 (example_locals 5 0 1) r1 Hst H1)
    as (Hret & _ & Htotal).
  destruct Htotal as [r' Hr'].
  - unfold props_ok. cbn. lia.
  - split; [cbn; lia|]. split; [|constructor].
    intros i Hi. exists 1024. split; [|unfold prob_ok; lia].
    unfold zlookup. destruct (i <? 0) eqn:E; [apply Z.ltb_lt in E; lia|].
    cbn [L.probs example_locals]. apply lookup_replicate_2.
    revert Hi. vm_compute (numProbs example_core). vm_compute (calcProbSize 0). lia.
  - cbn. lia.
  - cbn. lia.
  - cbn. lia.
  - cbn. lia.
  - split.
    + split; [apply Forall_replicate; unfold byte; lia|]. intros _. split; reflexivity.
    + intros _. cbn. lia.
  - intros _. cbn. split; [lia|]. split; [intros _; lia | reflexivity].
  - cbn. lia.
  - exists r'. split; [exact Hr' | exact (Hret true r' Hr')].
Defined.
